(** * CinderBox2D: the world step pipeline and the friction joint

    A shallow embedding of [cb2World.cpp] and [cb2FrictionJoint.cpp].

    Conventions of the embedding.
    - A pointer to a body, fixture, contact or joint is a key ([nat]) into a
      finite map holding the objects of that kind; an intrusive linked list
      is the Rocq list of its nodes, head first.
    - [cb2Assert] aborts in a debug build and is compiled out in a release
      build; an access through a pointer that names no object is reported
      as [InvalidAccess].
    - [float] has two readings. In the world, its bodies and the solver
      data of the first friction joint ([FrictionJoint]) a float is a real
      number ([R]) and the operations of the program are the operations on
      the reals: what is stated there is about the structure of the code
      (which objects are read and written, which updates are made, in
      which order), and rounding, NaN and infinities are outside it. Where
      a property hangs on the arithmetic itself (the limits of the friction
      joint, the ratio of two time steps) the code is embedded a second
      time, in IEEE 754 binary32 ([Binary32], [FrictionJoint32]), and is
      settled there. *)

From Stdlib Require Import ZArith List Bool Lia Reals Lra Psatz SpecFloat QArith.
From stdpp Require Import base option list gmap.

Open Scope Z_scope.

(** ** Outcomes of a call *)

Inductive error : Type :=
| AssertFailed    (* a cb2Assert fired (debug build) *)
| InvalidAccess   (* dereference of a dangling pointer, or an index out of range *)
| OutOfFuel.      (* the bound put on a loop by the model was reached *)

Inductive result (A : Type) : Type :=
| Done (a : A)
| Stop (e : error).
Arguments Done {A} a.
Arguments Stop {A} e.

#[global] Instance result_ret : MRet result := @Done.
#[global] Instance result_bind : MBind result :=
  λ A B f m, match m with Done a => f a | Stop e => Stop e end.

Inductive build : Type := Debug | Release.

(** [cb2Assert(A)] is [assert(A)]: checked in a debug build only. *)
Definition cb2Assert (bm : build) (cond : bool) : result unit :=
  match bm with
  | Debug => if cond then Done () else Stop AssertFailed
  | Release => Done ()
  end.

(** A pointer read: the object, or [InvalidAccess]. *)
Definition deref {A : Type} (heap : gmap nat A) (p : nat) : result A :=
  match heap !! p with
  | Some a => Done a
  | None => Stop InvalidAccess
  end.

(** An array read and write at a C [int] index. *)
Definition array_get {A : Type} (arr : list A) (i : Z) : result A :=
  if decide (0 <= i)
  then match arr !! Z.to_nat i with
       | Some a => Done a
       | None => Stop InvalidAccess
       end
  else Stop InvalidAccess.

Definition array_set {A : Type} (arr : list A) (i : Z) (a : A) : result (list A) :=
  if decide (0 <= i < Z.of_nat (length arr))
  then Done (<[Z.to_nat i := a]> arr)
  else Stop InvalidAccess.

(** ** Scalars and vectors *)

#[global] Instance Rlt_decision (a b : R) : Decision (a < b)%R := Rlt_dec a b.
#[global] Instance Rle_decision (a b : R) : Decision (a <= b)%R := Rle_dec a b.
#[global] Instance R_eq_decision : EqDecision R := Req_dec_T.

Record Vec2 : Type := mkVec2 { vx : R; vy : R }.

Record Matrix22 : Type := mkMatrix22 { m00 : R; m01 : R; m10 : R; m11 : R }.

(** Modelled from the spec: the vector type of the math headers, which
    are not among the sources, with its operations on pairs of reals. *)
Module Vec.
Definition zero : Vec2 := mkVec2 0 0.
Definition add (a b : Vec2) : Vec2 := mkVec2 (vx a + vx b) (vy a + vy b).
Definition sub (a b : Vec2) : Vec2 := mkVec2 (vx a - vx b) (vy a - vy b).
Definition neg (a : Vec2) : Vec2 := mkVec2 (- vx a) (- vy a).
(* float * Vec2 *)
Definition scale (s : R) (a : Vec2) : Vec2 := mkVec2 (s * vx a) (s * vy a).
(* Vec2 *= float *)
Definition mul (a : Vec2) (s : R) : Vec2 := mkVec2 (vx a * s) (vy a * s).
(* Vec2f::lengthSquared, length and normalize *)
Definition lengthSquared (a : Vec2) : R := (vx a * vx a + vy a * vy a)%R.
Definition length (a : Vec2) : R := sqrt (lengthSquared a).
Definition normalize (a : Vec2) : Vec2 :=
  let invS := (1 / length a)%R in
  mkVec2 (vx a * invS) (vy a * invS).
End Vec.

(** Modelled from the spec: [cb2Min], [cb2Max] and [cb2Clamp] of cb2Math.h,
    which is not among the sources; the clamp of [a] to the limits is
    [cb2Max(low, cb2Min(a, high))]. *)
Definition cb2Min (a b : R) : R := if decide (a < b)%R then a else b.
Definition cb2Max (a b : R) : R := if decide (b < a)%R then a else b.
Definition cb2Clamp (a low high : R) : R := cb2Max low (cb2Min a high).

(** Modelled from the spec: the cross products [cb2Cross(Vec2, Vec2)] and
    [cb2Cross(float, Vec2)], the rotation [cb2Rot] and the products by a
    rotation and by a matrix, all of cb2Math.h. *)
Definition cb2Cross (a b : Vec2) : R := (vx a * vy b - vy a * vx b)%R.
Definition cb2CrossSV (s : R) (a : Vec2) : Vec2 := mkVec2 (- s * vy a) (s * vx a).

Record cb2Rot : Type := mkRot { rot_s : R; rot_c : R }.
Definition cb2Rot_of_angle (angle : R) : cb2Rot := mkRot (sin angle) (cos angle).
Definition cb2MulRot (q : cb2Rot) (v : Vec2) : Vec2 :=
  mkVec2 (rot_c q * vx v - rot_s q * vy v) (rot_s q * vx v + rot_c q * vy v).
Definition cb2MulMat (A : Matrix22) (v : Vec2) : Vec2 :=
  mkVec2 (m00 A * vx v + m01 A * vy v) (m10 A * vx v + m11 A * vy v).

(** ** Time step and solver data (cb2TimeStep.h)

    Modelled from the spec: the records of cb2TimeStep.h, a header that is
    not among the sources, with the fields the sources read and write. *)

Record cb2TimeStep : Type := mkTimeStep {
  dt : R;
  inv_dt : R;
  dtRatio : R;
  velocityIterations : Z;
  positionIterations : Z;
  warmStarting : bool
}.

Record cb2Position : Type := mkPosition { pos_c : Vec2; pos_a : R }.
Record cb2Velocity : Type := mkVelocity { vel_v : Vec2; vel_w : R }.

Record cb2SolverData : Type := mkSolverData {
  step : cb2TimeStep;
  positions : list cb2Position;
  velocities : list cb2Velocity
}.

(** ** The friction joint (cb2FrictionJoint.cpp) *)

Module FrictionJoint.

(** What the joint reads from the bodies it connects. *)
Record BodyData : Type := mkBodyData {
  m_islandIndex : Z;
  localCenter : Vec2;
  m_invMass : R;
  m_invI : R
}.

Record cb2FrictionJointDef : Type := mkDef {
  localAnchorA : Vec2;
  localAnchorB : Vec2;
  maxForce : R;
  maxTorque : R
}.

Record cb2FrictionJoint : Type := mkJoint {
  m_localAnchorA : Vec2;
  m_localAnchorB : Vec2;
  (* solver shared *)
  m_linearImpulse : Vec2;
  m_angularImpulse : R;
  m_maxForce : R;
  m_maxTorque : R;
  (* solver temp *)
  m_indexA : Z;
  m_indexB : Z;
  m_rA : Vec2;
  m_rB : Vec2;
  m_localCenterA : Vec2;
  m_localCenterB : Vec2;
  m_invMassA : R;
  m_invMassB : R;
  m_invIA : R;
  m_invIB : R;
  m_linearMass : Matrix22;
  m_angularMass : R
}.

Definition set_impulses (li : Vec2) (ai : R) (j : cb2FrictionJoint) : cb2FrictionJoint :=
  mkJoint (m_localAnchorA j) (m_localAnchorB j) li ai (m_maxForce j) (m_maxTorque j)
          (m_indexA j) (m_indexB j) (m_rA j) (m_rB j)
          (m_localCenterA j) (m_localCenterB j)
          (m_invMassA j) (m_invMassB j) (m_invIA j) (m_invIB j)
          (m_linearMass j) (m_angularMass j).

Definition set_maxForce (f : R) (j : cb2FrictionJoint) : cb2FrictionJoint :=
  mkJoint (m_localAnchorA j) (m_localAnchorB j) (m_linearImpulse j) (m_angularImpulse j)
          f (m_maxTorque j)
          (m_indexA j) (m_indexB j) (m_rA j) (m_rB j)
          (m_localCenterA j) (m_localCenterB j)
          (m_invMassA j) (m_invMassB j) (m_invIA j) (m_invIB j)
          (m_linearMass j) (m_angularMass j).

Definition set_maxTorque (t : R) (j : cb2FrictionJoint) : cb2FrictionJoint :=
  mkJoint (m_localAnchorA j) (m_localAnchorB j) (m_linearImpulse j) (m_angularImpulse j)
          (m_maxForce j) t
          (m_indexA j) (m_indexB j) (m_rA j) (m_rB j)
          (m_localCenterA j) (m_localCenterB j)
          (m_invMassA j) (m_invMassB j) (m_invIA j) (m_invIB j)
          (m_linearMass j) (m_angularMass j).

(** The constructor: the limits are taken from the definition as they are. *)
Definition create (def : cb2FrictionJointDef) : cb2FrictionJoint :=
  mkJoint (localAnchorA def) (localAnchorB def)
          Vec.zero 0%R
          (maxForce def) (maxTorque def)
          0 0 Vec.zero Vec.zero Vec.zero Vec.zero 0%R 0%R 0%R 0%R
          (mkMatrix22 0 0 0 0) 0%R.

Section Solver.

(** [Matrix22f::inverted] and [cb2::isValid] belong to headers that are not
    part of the sources; they are parameters of the joint. *)
Variable inverted : Matrix22 → Matrix22.
Variable isValid : R → bool.

Definition InitVelocityConstraints (bodyA bodyB : BodyData)
    (j : cb2FrictionJoint) (data : cb2SolverData)
    : result (cb2FrictionJoint * cb2SolverData) :=
  let indexA := m_islandIndex bodyA in
  let indexB := m_islandIndex bodyB in
  let localCenterA := localCenter bodyA in
  let localCenterB := localCenter bodyB in
  let invMassA := m_invMass bodyA in
  let invMassB := m_invMass bodyB in
  let invIA := m_invI bodyA in
  let invIB := m_invI bodyB in
  pA ← array_get (positions data) indexA;
  velA ← array_get (velocities data) indexA;
  let aA := pos_a pA in
  let vA := vel_v velA in
  let wA := vel_w velA in
  pB ← array_get (positions data) indexB;
  velB ← array_get (velocities data) indexB;
  let aB := pos_a pB in
  let vB := vel_v velB in
  let wB := vel_w velB in
  let qA := cb2Rot_of_angle aA in
  let qB := cb2Rot_of_angle aB in
  (* Compute the effective mass matrix. *)
  let rA := cb2MulRot qA (Vec.sub (m_localAnchorA j) localCenterA) in
  let rB := cb2MulRot qB (Vec.sub (m_localAnchorB j) localCenterB) in
  let mA := invMassA in let mB := invMassB in
  let iA := invIA in let iB := invIB in
  let K01 := (- iA * vx rA * vy rA - iB * vx rB * vy rB)%R in
  let K := mkMatrix22
             (mA + mB + iA * vy rA * vy rA + iB * vy rB * vy rB)%R
             K01
             K01
             (mA + mB + iA * vx rA * vx rA + iB * vx rB * vx rB)%R in
  let linearMass := inverted K in
  let angularMass0 := (iA + iB)%R in
  let angularMass :=
    if decide (0 < angularMass0)%R then (1 / angularMass0)%R else angularMass0 in
  let '(linearImpulse, angularImpulse, vA, wA, vB, wB) :=
    if warmStarting (step data)
    then
      (* Scale impulses to support a variable time step. *)
      let linearImpulse := Vec.mul (m_linearImpulse j) (dtRatio (step data)) in
      let angularImpulse := (m_angularImpulse j * dtRatio (step data))%R in
      let P := mkVec2 (vx linearImpulse) (vy linearImpulse) in
      let vA := Vec.sub vA (Vec.scale mA P) in
      let wA := (wA - iA * (cb2Cross rA P + angularImpulse))%R in
      let vB := Vec.add vB (Vec.scale mB P) in
      let wB := (wB + iB * (cb2Cross rB P + angularImpulse))%R in
      (linearImpulse, angularImpulse, vA, wA, vB, wB)
    else
      (Vec.zero, 0%R, vA, wA, vB, wB) in
  vs ← array_set (velocities data) indexA (mkVelocity vA wA);
  vs ← array_set vs indexB (mkVelocity vB wB);
  Done (mkJoint (m_localAnchorA j) (m_localAnchorB j)
                linearImpulse angularImpulse (m_maxForce j) (m_maxTorque j)
                indexA indexB rA rB localCenterA localCenterB
                invMassA invMassB invIA invIB linearMass angularMass,
        mkSolverData (step data) (positions data) vs).

Definition SolveVelocityConstraints (j : cb2FrictionJoint) (data : cb2SolverData)
    : result (cb2FrictionJoint * cb2SolverData) :=
  velA ← array_get (velocities data) (m_indexA j);
  velB ← array_get (velocities data) (m_indexB j);
  let vA := vel_v velA in
  let wA := vel_w velA in
  let vB := vel_v velB in
  let wB := vel_w velB in
  let mA := m_invMassA j in let mB := m_invMassB j in
  let iA := m_invIA j in let iB := m_invIB j in
  let h := dt (step data) in
  (* Solve angular friction *)
  let Cdot := (wB - wA)%R in
  let impulse := (- m_angularMass j * Cdot)%R in
  let oldImpulse := m_angularImpulse j in
  let maxImpulse := (h * m_maxTorque j)%R in
  let angularImpulse := cb2Clamp (m_angularImpulse j + impulse) (- maxImpulse) maxImpulse in
  let impulse := (angularImpulse - oldImpulse)%R in
  let wA := (wA - iA * impulse)%R in
  let wB := (wB + iB * impulse)%R in
  (* Solve linear friction *)
  let Cdot := Vec.sub (Vec.sub (Vec.add vB (cb2CrossSV wB (m_rB j))) vA)
                      (cb2CrossSV wA (m_rA j)) in
  let impulse := Vec.neg (cb2MulMat (m_linearMass j) Cdot) in
  let oldImpulse := m_linearImpulse j in
  let linearImpulse := Vec.add (m_linearImpulse j) impulse in
  let maxImpulse := (h * m_maxForce j)%R in
  let linearImpulse :=
    if decide (maxImpulse * maxImpulse < Vec.lengthSquared linearImpulse)%R
    then Vec.mul (Vec.normalize linearImpulse) maxImpulse
    else linearImpulse in
  let impulse := Vec.sub linearImpulse oldImpulse in
  let vA := Vec.sub vA (Vec.scale mA impulse) in
  let wA := (wA - iA * cb2Cross (m_rA j) impulse)%R in
  let vB := Vec.add vB (Vec.scale mB impulse) in
  let wB := (wB + iB * cb2Cross (m_rB j) impulse)%R in
  vs ← array_set (velocities data) (m_indexA j) (mkVelocity vA wA);
  vs ← array_set vs (m_indexB j) (mkVelocity vB wB);
  Done (set_impulses linearImpulse angularImpulse j,
        mkSolverData (step data) (positions data) vs).

Definition SolvePositionConstraints (j : cb2FrictionJoint) (data : cb2SolverData) : bool :=
  true.

Definition GetReactionForce (j : cb2FrictionJoint) (inv_dt : R) : Vec2 :=
  Vec.scale inv_dt (m_linearImpulse j).

Definition GetReactionTorque (j : cb2FrictionJoint) (inv_dt : R) : R :=
  (inv_dt * m_angularImpulse j)%R.

Definition SetMaxForce (bm : build) (force : R) (j : cb2FrictionJoint)
    : result cb2FrictionJoint :=
  _ ← cb2Assert bm (isValid force && bool_decide (0 <= force)%R);
  Done (set_maxForce force j).

Definition GetMaxForce (j : cb2FrictionJoint) : R := m_maxForce j.

Definition SetMaxTorque (bm : build) (torque : R) (j : cb2FrictionJoint)
    : result cb2FrictionJoint :=
  _ ← cb2Assert bm (isValid torque && bool_decide (0 <= torque)%R);
  Done (set_maxTorque torque j).

Definition GetMaxTorque (j : cb2FrictionJoint) : R := m_maxTorque j.

End Solver.

End FrictionJoint.

(** Sample joints and solver data used to exercise the solver. *)
Definition sample_joint (maxF maxT : R) : FrictionJoint.cb2FrictionJoint :=
  FrictionJoint.mkJoint Vec.zero Vec.zero Vec.zero 0%R maxF maxT
    0 1 Vec.zero Vec.zero Vec.zero Vec.zero 1%R 1%R 1%R 1%R
    (mkMatrix22 1 0 0 1) 1%R.


(** ** Flag words

    [m_flags] fields are bit sets; the tests and updates of the sources are
    kept as bit operations. *)

(* (flags & e) != 0, the test [if (flags & e)] *)
Definition flag_on (flags e : Z) : bool := negb (Z.land flags e =? 0).
(* (flags & e) == e *)
Definition flag_all (flags e : Z) : bool := Z.land flags e =? e.
(* flags |= e *)
Definition set_flag (flags e : Z) : Z := Z.lor flags e.
(* flags &= ~e *)
Definition clear_flag (flags e : Z) : Z := Z.land flags (Z.lnot e).

(** ** Bodies (cb2Body.h)

    Modelled from the spec: the header is not among the sources; a body
    has the fields and the flag bits the sources read and write. *)

Inductive cb2BodyType : Type := cb2_staticBody | cb2_kinematicBody | cb2_dynamicBody.

#[global] Instance cb2BodyType_eq_dec : EqDecision cb2BodyType.
Proof. solve_decision. Defined.

(** Modelled from the spec: the sweep of a body (cb2Math.h): its motion from [(c0, a0)] at time
    fraction [alpha0] to [(c, a)] at the end of the step. *)
Module Sweep.
Record t : Type := mk {
  localCenter : Vec2;
  c0 : Vec2;
  c : Vec2;
  a0 : R;
  a : R;
  alpha0 : R
}.

(** Modelled from the spec: [Advance(alpha)] re-centers the interpolation
    origin at the time fraction [alpha] and keeps the endpoint state. *)
Definition Advance (alpha : R) (s : t) : t :=
  let beta := ((alpha - alpha0 s) / (1 - alpha0 s))%R in
  mk (localCenter s)
     (Vec.add (c0 s) (Vec.scale beta (Vec.sub (c s) (c0 s))))
     (c s)
     (a0 s + beta * (a s - a0 s))%R
     (a s)
     alpha.
End Sweep.

Module Transform.
Record t : Type := mk { p : Vec2; q : cb2Rot }.
End Transform.

Record cb2ContactEdge : Type := mkContactEdge { ce_other : nat; ce_contact : nat }.
Record cb2JointEdge : Type := mkJointEdge { je_other : nat; je_joint : nat }.

Module Body.

Definition e_islandFlag : Z := 0x0001.
Definition e_awakeFlag : Z := 0x0002.
Definition e_autoSleepFlag : Z := 0x0004.
Definition e_bulletFlag : Z := 0x0008.
Definition e_fixedRotationFlag : Z := 0x0010.
Definition e_activeFlag : Z := 0x0020.
Definition e_toiFlag : Z := 0x0040.

Record t : Type := mk {
  m_type : cb2BodyType;
  m_flags : Z;
  m_islandIndex : Z;
  m_xf : Transform.t;
  m_sweep : Sweep.t;
  m_linearVelocity : Vec2;
  m_angularVelocity : R;
  m_force : Vec2;
  m_torque : R;
  m_fixtureList : list nat;
  m_fixtureCount : Z;
  m_jointList : list cb2JointEdge;
  m_contactList : list cb2ContactEdge;
  m_invMass : R;
  m_invI : R;
  m_sleepTime : R
}.

Definition with_flags (f : Z) (b : t) : t :=
  mk (m_type b) f (m_islandIndex b) (m_xf b) (m_sweep b)
     (m_linearVelocity b) (m_angularVelocity b) (m_force b) (m_torque b)
     (m_fixtureList b) (m_fixtureCount b) (m_jointList b) (m_contactList b)
     (m_invMass b) (m_invI b) (m_sleepTime b).

Definition with_islandIndex (i : Z) (b : t) : t :=
  mk (m_type b) (m_flags b) i (m_xf b) (m_sweep b)
     (m_linearVelocity b) (m_angularVelocity b) (m_force b) (m_torque b)
     (m_fixtureList b) (m_fixtureCount b) (m_jointList b) (m_contactList b)
     (m_invMass b) (m_invI b) (m_sleepTime b).

Definition with_placement (xf : Transform.t) (sw : Sweep.t) (b : t) : t :=
  mk (m_type b) (m_flags b) (m_islandIndex b) xf sw
     (m_linearVelocity b) (m_angularVelocity b) (m_force b) (m_torque b)
     (m_fixtureList b) (m_fixtureCount b) (m_jointList b) (m_contactList b)
     (m_invMass b) (m_invI b) (m_sleepTime b).

Definition with_motion (v : Vec2) (w : R) (f : Vec2) (tq : R) (st : R) (b : t) : t :=
  mk (m_type b) (m_flags b) (m_islandIndex b) (m_xf b) (m_sweep b)
     v w f tq
     (m_fixtureList b) (m_fixtureCount b) (m_jointList b) (m_contactList b)
     (m_invMass b) (m_invI b) st.

Definition with_fixtures (l : list nat) (n : Z) (b : t) : t :=
  mk (m_type b) (m_flags b) (m_islandIndex b) (m_xf b) (m_sweep b)
     (m_linearVelocity b) (m_angularVelocity b) (m_force b) (m_torque b)
     l n (m_jointList b) (m_contactList b)
     (m_invMass b) (m_invI b) (m_sleepTime b).

Definition with_jointList (l : list cb2JointEdge) (b : t) : t :=
  mk (m_type b) (m_flags b) (m_islandIndex b) (m_xf b) (m_sweep b)
     (m_linearVelocity b) (m_angularVelocity b) (m_force b) (m_torque b)
     (m_fixtureList b) (m_fixtureCount b) l (m_contactList b)
     (m_invMass b) (m_invI b) (m_sleepTime b).

Definition with_contactList (l : list cb2ContactEdge) (b : t) : t :=
  mk (m_type b) (m_flags b) (m_islandIndex b) (m_xf b) (m_sweep b)
     (m_linearVelocity b) (m_angularVelocity b) (m_force b) (m_torque b)
     (m_fixtureList b) (m_fixtureCount b) (m_jointList b) l
     (m_invMass b) (m_invI b) (m_sleepTime b).

Definition GetType (b : t) : cb2BodyType := m_type b.
Definition IsAwake (b : t) : bool := flag_all (m_flags b) e_awakeFlag.
Definition IsActive (b : t) : bool := flag_all (m_flags b) e_activeFlag.
Definition IsBullet (b : t) : bool := flag_all (m_flags b) e_bulletFlag.
Definition in_island (b : t) : bool := flag_on (m_flags b) e_islandFlag.

(** Modelled from the spec: [SetAwake] of cb2Body.h: waking a sleeping body sets the awake flag and restarts
    its sleep timer; putting a body to sleep clears the flag and zeroes
    its velocities and the forces on it. *)
Definition SetAwake (flag : bool) (b : t) : t :=
  if flag
  then
    if Z.land (m_flags b) e_awakeFlag =? 0
    then with_motion (m_linearVelocity b) (m_angularVelocity b) (m_force b) (m_torque b)
           0%R (with_flags (set_flag (m_flags b) e_awakeFlag) b)
    else b
  else
    with_motion Vec.zero 0%R Vec.zero 0%R 0%R
      (with_flags (clear_flag (m_flags b) e_awakeFlag) b).

(** Modelled from the spec: [SynchronizeTransform] of cb2Body.h: the transform follows the end of the sweep. *)
Definition SynchronizeTransform (b : t) : t :=
  let q := cb2Rot_of_angle (Sweep.a (m_sweep b)) in
  with_placement
    (Transform.mk (Vec.sub (Sweep.c (m_sweep b)) (cb2MulRot q (Sweep.localCenter (m_sweep b)))) q)
    (m_sweep b) b.

(** Modelled from the spec: [Advance(alpha)] of cb2Body.h: advance to the new safe time; the body is then at
    rest at the start of what is left of its sweep. *)
Definition Advance (alpha : R) (b : t) : t :=
  let s := Sweep.Advance alpha (m_sweep b) in
  let s := Sweep.mk (Sweep.localCenter s) (Sweep.c0 s) (Sweep.c0 s)
                    (Sweep.a0 s) (Sweep.a0 s) (Sweep.alpha0 s) in
  SynchronizeTransform (with_placement (m_xf b) s b).

End Body.

(** ** Fixtures, contacts and joints, as far as the world reads them

    Modelled from the spec: cb2Fixture.h, cb2Contact.h and cb2Joint.h are
    not among the sources; each object has the fields, the flag bits and
    the inline accessors the sources use. *)

Module Fixture.
Record t : Type := mk {
  m_body : nat;
  m_isSensor : bool;
  m_proxyCount : Z
}.
Definition IsSensor (f : t) : bool := m_isSensor f.
Definition GetBody (f : t) : nat := m_body f.
End Fixture.

Module Contact.

Definition e_islandFlag : Z := 0x0001.
Definition e_touchingFlag : Z := 0x0002.
Definition e_enabledFlag : Z := 0x0004.
Definition e_filterFlag : Z := 0x0008.
Definition e_bulletHitFlag : Z := 0x0010.
Definition e_toiFlag : Z := 0x0020.

Record t : Type := mk {
  m_flags : Z;
  m_fixtureA : nat;
  m_fixtureB : nat;
  m_indexA : Z;
  m_indexB : Z;
  m_toiCount : Z;
  m_toi : R
}.

Definition with_flags (f : Z) (c : t) : t :=
  mk f (m_fixtureA c) (m_fixtureB c) (m_indexA c) (m_indexB c) (m_toiCount c) (m_toi c).
Definition with_toi (n : Z) (toi : R) (c : t) : t :=
  mk (m_flags c) (m_fixtureA c) (m_fixtureB c) (m_indexA c) (m_indexB c) n toi.

Definition IsEnabled (c : t) : bool := flag_all (m_flags c) e_enabledFlag.
Definition IsTouching (c : t) : bool := flag_all (m_flags c) e_touchingFlag.
Definition in_island (c : t) : bool := flag_on (m_flags c) e_islandFlag.
Definition has_toi (c : t) : bool := flag_on (m_flags c) e_toiFlag.
Definition SetEnabled (flag : bool) (c : t) : t :=
  if flag then with_flags (set_flag (m_flags c) e_enabledFlag) c
  else with_flags (clear_flag (m_flags c) e_enabledFlag) c.
Definition FlagForFiltering (c : t) : t :=
  with_flags (set_flag (m_flags c) e_filterFlag) c.

End Contact.

Module Joint.

Record t : Type := mk {
  m_bodyA : nat;
  m_bodyB : nat;
  m_islandFlag : bool;
  m_collideConnected : bool
}.

Definition with_islandFlag (f : bool) (j : t) : t :=
  mk (m_bodyA j) (m_bodyB j) f (m_collideConnected j).

End Joint.

Record cb2JointDef : Type := mkJointDef {
  bodyA : nat;
  bodyB : nat;
  collideConnected : bool
}.

(** ** The island workspace (cb2Island.h)

    Modelled from the spec: the workspace holding the arrays of bodies,
    contacts and joints of one island, each with its capacity; [Clear]
    resets the counts. *)

Module Island.

Record t : Type := mk {
  m_bodies : list nat;
  m_contacts : list nat;
  m_joints : list nat;
  m_bodyCapacity : Z;
  m_contactCapacity : Z;
  m_jointCapacity : Z
}.

Definition m_bodyCount (i : t) : Z := Z.of_nat (length (m_bodies i)).
Definition m_contactCount (i : t) : Z := Z.of_nat (length (m_contacts i)).
Definition m_jointCount (i : t) : Z := Z.of_nat (length (m_joints i)).

Definition create (bodyCapacity contactCapacity jointCapacity : Z) : t :=
  mk [] [] [] bodyCapacity contactCapacity jointCapacity.

Definition Clear (i : t) : t :=
  mk [] [] [] (m_bodyCapacity i) (m_contactCapacity i) (m_jointCapacity i).

End Island.

(** ** The world (cb2World.h)

    Modelled from the spec: the fields and flag bits of the class, whose
    header is not among the sources. *)

Module World.

Definition e_newFixture : Z := 0x0001.
Definition e_locked : Z := 0x0002.
Definition e_clearForces : Z := 0x0004.

Record t : Type := mk {
  m_flags : Z;
  (* the objects, by address *)
  bodies : gmap nat Body.t;
  fixtures : gmap nat Fixture.t;
  contacts : gmap nat Contact.t;
  joints : gmap nat Joint.t;
  (* the intrusive lists and their counts *)
  m_bodyList : list nat;
  m_jointList : list nat;
  m_bodyCount : Z;
  m_jointCount : Z;
  (* m_contactManager *)
  m_contactList : list nat;
  m_contactCount : Z;
  m_gravity : Vec2;
  m_allowSleep : bool;
  m_inv_dt0 : R;
  m_warmStarting : bool;
  m_continuousPhysics : bool;
  m_subStepping : bool;
  m_stepComplete : bool
}.

Definition with_flags (f : Z) (w : t) : t :=
  mk f (bodies w) (fixtures w) (contacts w) (joints w)
     (m_bodyList w) (m_jointList w) (m_bodyCount w) (m_jointCount w)
     (m_contactList w) (m_contactCount w)
     (m_gravity w) (m_allowSleep w) (m_inv_dt0 w)
     (m_warmStarting w) (m_continuousPhysics w) (m_subStepping w) (m_stepComplete w).

Definition with_bodies (bs : gmap nat Body.t) (w : t) : t :=
  mk (m_flags w) bs (fixtures w) (contacts w) (joints w)
     (m_bodyList w) (m_jointList w) (m_bodyCount w) (m_jointCount w)
     (m_contactList w) (m_contactCount w)
     (m_gravity w) (m_allowSleep w) (m_inv_dt0 w)
     (m_warmStarting w) (m_continuousPhysics w) (m_subStepping w) (m_stepComplete w).

Definition with_fixtures (fs : gmap nat Fixture.t) (w : t) : t :=
  mk (m_flags w) (bodies w) fs (contacts w) (joints w)
     (m_bodyList w) (m_jointList w) (m_bodyCount w) (m_jointCount w)
     (m_contactList w) (m_contactCount w)
     (m_gravity w) (m_allowSleep w) (m_inv_dt0 w)
     (m_warmStarting w) (m_continuousPhysics w) (m_subStepping w) (m_stepComplete w).

Definition with_contacts (cs : gmap nat Contact.t) (w : t) : t :=
  mk (m_flags w) (bodies w) (fixtures w) cs (joints w)
     (m_bodyList w) (m_jointList w) (m_bodyCount w) (m_jointCount w)
     (m_contactList w) (m_contactCount w)
     (m_gravity w) (m_allowSleep w) (m_inv_dt0 w)
     (m_warmStarting w) (m_continuousPhysics w) (m_subStepping w) (m_stepComplete w).

Definition with_joints (js : gmap nat Joint.t) (w : t) : t :=
  mk (m_flags w) (bodies w) (fixtures w) (contacts w) js
     (m_bodyList w) (m_jointList w) (m_bodyCount w) (m_jointCount w)
     (m_contactList w) (m_contactCount w)
     (m_gravity w) (m_allowSleep w) (m_inv_dt0 w)
     (m_warmStarting w) (m_continuousPhysics w) (m_subStepping w) (m_stepComplete w).

Definition with_bodyList (l : list nat) (n : Z) (w : t) : t :=
  mk (m_flags w) (bodies w) (fixtures w) (contacts w) (joints w)
     l (m_jointList w) n (m_jointCount w)
     (m_contactList w) (m_contactCount w)
     (m_gravity w) (m_allowSleep w) (m_inv_dt0 w)
     (m_warmStarting w) (m_continuousPhysics w) (m_subStepping w) (m_stepComplete w).

Definition with_jointList (l : list nat) (n : Z) (w : t) : t :=
  mk (m_flags w) (bodies w) (fixtures w) (contacts w) (joints w)
     (m_bodyList w) l (m_bodyCount w) n
     (m_contactList w) (m_contactCount w)
     (m_gravity w) (m_allowSleep w) (m_inv_dt0 w)
     (m_warmStarting w) (m_continuousPhysics w) (m_subStepping w) (m_stepComplete w).

Definition with_contactList (l : list nat) (n : Z) (w : t) : t :=
  mk (m_flags w) (bodies w) (fixtures w) (contacts w) (joints w)
     (m_bodyList w) (m_jointList w) (m_bodyCount w) (m_jointCount w)
     l n
     (m_gravity w) (m_allowSleep w) (m_inv_dt0 w)
     (m_warmStarting w) (m_continuousPhysics w) (m_subStepping w) (m_stepComplete w).

Definition with_inv_dt0 (x : R) (w : t) : t :=
  mk (m_flags w) (bodies w) (fixtures w) (contacts w) (joints w)
     (m_bodyList w) (m_jointList w) (m_bodyCount w) (m_jointCount w)
     (m_contactList w) (m_contactCount w)
     (m_gravity w) (m_allowSleep w) x
     (m_warmStarting w) (m_continuousPhysics w) (m_subStepping w) (m_stepComplete w).

Definition with_stepComplete (x : bool) (w : t) : t :=
  mk (m_flags w) (bodies w) (fixtures w) (contacts w) (joints w)
     (m_bodyList w) (m_jointList w) (m_bodyCount w) (m_jointCount w)
     (m_contactList w) (m_contactCount w)
     (m_gravity w) (m_allowSleep w) (m_inv_dt0 w)
     (m_warmStarting w) (m_continuousPhysics w) (m_subStepping w) x.

Definition IsLocked (w : t) : bool := flag_all (m_flags w) e_locked.

(** The constructor [cb2World(gravity)]. *)
Definition create (gravity : Vec2) : t :=
  mk e_clearForces ∅ ∅ ∅ ∅ [] [] 0 0 [] 0 gravity true 0%R true true false true.

End World.

(** ** Access to the objects of a world *)

(** A loop over the nodes of a list, threading the state. *)
Fixpoint for_each {A S : Type} (f : A → S → result S) (l : list A) (s : S) : result S :=
  match l with
  | [] => Done s
  | x :: l' => s' ← f x s; for_each f l' s'
  end.

Definition get_body (w : World.t) (b : nat) : result Body.t := deref (World.bodies w) b.
Definition get_fixture (w : World.t) (f : nat) : result Fixture.t := deref (World.fixtures w) f.
Definition get_contact (w : World.t) (c : nat) : result Contact.t := deref (World.contacts w) c.
Definition get_joint (w : World.t) (j : nat) : result Joint.t := deref (World.joints w) j.

Definition put_body (b : nat) (x : Body.t) (w : World.t) : World.t :=
  World.with_bodies (<[b := x]> (World.bodies w)) w.
Definition put_contact (c : nat) (x : Contact.t) (w : World.t) : World.t :=
  World.with_contacts (<[c := x]> (World.contacts w)) w.
Definition put_joint (j : nat) (x : Joint.t) (w : World.t) : World.t :=
  World.with_joints (<[j := x]> (World.joints w)) w.

(** A write through a pointer: [b->field = ...]. *)
Definition update_body (f : Body.t → Body.t) (b : nat) (w : World.t) : result World.t :=
  x ← get_body w b; Done (put_body b (f x) w).
Definition update_contact (f : Contact.t → Contact.t) (c : nat) (w : World.t) : result World.t :=
  x ← get_contact w c; Done (put_contact c (f x) w).
Definition update_joint (f : Joint.t → Joint.t) (j : nat) (w : World.t) : result World.t :=
  x ← get_joint w j; Done (put_joint j (f x) w).

(** The bodies of a contact, through its fixtures. *)
Definition contact_bodies (w : World.t) (c : Contact.t) : result (nat * nat) :=
  fA ← get_fixture w (Contact.m_fixtureA c);
  fB ← get_fixture w (Contact.m_fixtureB c);
  Done (Fixture.GetBody fA, Fixture.GetBody fB).

(** Unlinking a node from an intrusive list. *)
Definition unlink (x : nat) (l : list nat) : list nat := filter (λ y, y ≠ x) l.
Definition unlink_joint_edge (j : nat) (l : list cb2JointEdge) : list cb2JointEdge :=
  filter (λ e, je_joint e ≠ j) l.
Definition unlink_contact_edge (c : nat) (l : list cb2ContactEdge) : list cb2ContactEdge :=
  filter (λ e, ce_contact e ≠ c) l.

(** ** Collaborators

    Code that the world calls and that is not part of the sources: the
    constructors of bodies and joints, the numeric core of the island
    solver, the narrow phase, the broad phase and the time-of-impact
    computation. Each is an interface as narrow as the use the world makes
    of it. *)

Record cb2TOIInput : Type := mkTOIInput {
  toi_fixtureA : nat; toi_indexA : Z;
  toi_fixtureB : nat; toi_indexB : Z;
  sweepA : Sweep.t;
  sweepB : Sweep.t;
  tMax : R
}.

Inductive cb2TOIState : Type := e_unknown | e_failed | e_overlapped | e_touching | e_separated.

#[global] Instance cb2TOIState_eq_dec : EqDecision cb2TOIState.
Proof. solve_decision. Defined.

Record cb2TOIOutput : Type := mkTOIOutput { toi_state : cb2TOIState; toi_t : R }.

Class Collaborators : Type := {
  (* the constructor of cb2Body *)
  cb2BodyDef : Type;
  cb2Body_new : cb2BodyDef → Body.t;
  (* cb2Joint::Create *)
  cb2Joint_Create : cb2JointDef → Joint.t;
  (* cb2Joint::ShiftOrigin, a virtual function of the joints *)
  cb2Joint_ShiftOrigin : Vec2 → Joint.t → Joint.t;
  (* cb2Island::Solve: does the island fall asleep in this step? *)
  island_sleeps : World.t → Island.t → cb2TimeStep → bool;
  (* cb2Island::SolveTOI: the placement and velocities it leaves a body with *)
  island_toi_solution : World.t → Island.t → cb2TimeStep → nat → Body.t →
                        Transform.t * Sweep.t * Vec2 * R;
  (* cb2Contact::Update: the manifold has points, and the listener left the
     contact enabled *)
  narrow_phase : World.t → nat → bool * bool;
  (* do the fat boxes of the fixtures of a contact still overlap? *)
  broad_phase_overlap : World.t → nat → bool;
  (* the pairs of fixtures the broad phase reports as new, after filtering,
     given the bodies whose fixtures were synchronized since it was last asked *)
  broad_phase_pairs : World.t → list nat → list (nat * nat);
  (* cb2TimeOfImpact *)
  cb2TimeOfImpact : World.t → cb2TOIInput → cb2TOIOutput
}.

Section WorldCode.

Context {env : Collaborators}.
Variable bm : build.

(** ** Creating and destroying bodies and joints *)

(** [cb2Contact::FlagForFiltering] on every contact of [bodyB] whose other
    body is [bodyA]. *)
Definition flag_contacts_for_filtering (bodyA bodyB : nat) (w : World.t) : result World.t :=
  bB ← get_body w bodyB;
  for_each (λ edge w,
              if decide (ce_other edge = bodyA)
              then update_contact Contact.FlagForFiltering (ce_contact edge) w
              else Done w)
           (Body.m_contactList bB) w.

Definition CreateBody (def : cb2BodyDef) (w : World.t) : result (World.t * option nat) :=
  _ ← cb2Assert bm (negb (World.IsLocked w));
  if World.IsLocked w
  then Done (w, None)
  else
    let mem := fresh (dom (World.bodies w)) in
    let b := cb2Body_new def in
    (* Add to world doubly linked list. *)
    let w := World.with_bodies (<[mem := b]> (World.bodies w)) w in
    let w := World.with_bodyList (mem :: World.m_bodyList w) (World.m_bodyCount w + 1) w in
    Done (w, Some mem).

Definition CreateJoint (def : cb2JointDef) (w : World.t) : result (World.t * option nat) :=
  _ ← cb2Assert bm (negb (World.IsLocked w));
  if World.IsLocked w
  then Done (w, None)
  else
    let j := fresh (dom (World.joints w)) in
    let jt := cb2Joint_Create def in
    let w := World.with_joints (<[j := jt]> (World.joints w)) w in
    (* Connect to the world list. *)
    let w := World.with_jointList (j :: World.m_jointList w) (World.m_jointCount w + 1) w in
    (* Connect to the bodies' doubly linked lists. *)
    w ← update_body (λ b, Body.with_jointList
                            (mkJointEdge (Joint.m_bodyB jt) j :: Body.m_jointList b) b)
                    (Joint.m_bodyA jt) w;
    w ← update_body (λ b, Body.with_jointList
                            (mkJointEdge (Joint.m_bodyA jt) j :: Body.m_jointList b) b)
                    (Joint.m_bodyB jt) w;
    (* If the joint prevents collisions, then flag any contacts for filtering. *)
    w ← (if negb (collideConnected def)
         then flag_contacts_for_filtering (bodyA def) (bodyB def) w
         else Done w);
    (* Note: creating a joint doesn't wake the bodies. *)
    Done (w, Some j).

Definition DestroyJoint (j : nat) (w : World.t) : result World.t :=
  _ ← cb2Assert bm (negb (World.IsLocked w));
  if World.IsLocked w
  then Done w
  else
    jt ← get_joint w j;
    let collideConnected := Joint.m_collideConnected jt in
    (* Remove from the doubly linked list. *)
    let w := World.with_jointList (unlink j (World.m_jointList w)) (World.m_jointCount w) w in
    (* Disconnect from island graph. *)
    let bodyA := Joint.m_bodyA jt in
    let bodyB := Joint.m_bodyB jt in
    (* Wake up connected bodies. *)
    w ← update_body (Body.SetAwake true) bodyA w;
    w ← update_body (Body.SetAwake true) bodyB w;
    (* Remove from body 1. *)
    w ← update_body (λ b, Body.with_jointList (unlink_joint_edge j (Body.m_jointList b)) b)
                    bodyA w;
    (* Remove from body 2 *)
    w ← update_body (λ b, Body.with_jointList (unlink_joint_edge j (Body.m_jointList b)) b)
                    bodyB w;
    let w := World.with_joints (delete j (World.joints w)) w in
    _ ← cb2Assert bm (0 <? World.m_jointCount w);
    let w := World.with_jointList (World.m_jointList w) (World.m_jointCount w - 1) w in
    (* If the joint prevents collisions, then flag any contacts for filtering. *)
    if negb collideConnected
    then flag_contacts_for_filtering bodyA bodyB w
    else Done w.

(** Modelled from the spec: [cb2ContactManager::Destroy]: the contact
    leaves the list of the manager and the edge lists of its two bodies,
    and is freed. *)
Definition ContactManager_Destroy (c : nat) (w : World.t) : result World.t :=
  ct ← get_contact w c;
  '(bodyA, bodyB) ← contact_bodies w ct;
  let w := World.with_contactList (unlink c (World.m_contactList w))
                                  (World.m_contactCount w - 1) w in
  w ← update_body (λ b, Body.with_contactList
                          (unlink_contact_edge c (Body.m_contactList b)) b) bodyA w;
  w ← update_body (λ b, Body.with_contactList
                          (unlink_contact_edge c (Body.m_contactList b)) b) bodyB w;
  Done (World.with_contacts (delete c (World.contacts w)) w).

Definition DestroyBody (b : nat) (w : World.t) : result World.t :=
  _ ← cb2Assert bm (0 <? World.m_bodyCount w);
  _ ← cb2Assert bm (negb (World.IsLocked w));
  if World.IsLocked w
  then Done w
  else
    body ← get_body w b;
    (* Delete the attached joints. *)
    w ← for_each (λ je w, DestroyJoint (je_joint je) w) (Body.m_jointList body) w;
    w ← update_body (Body.with_jointList []) b w;
    (* Delete the attached contacts. *)
    w ← for_each (λ ce w, ContactManager_Destroy (ce_contact ce) w)
                 (Body.m_contactList body) w;
    w ← update_body (Body.with_contactList []) b w;
    (* Delete the attached fixtures. This destroys broad-phase proxies. *)
    w ← for_each (λ f w,
                    _ ← get_fixture w f;
                    Done (World.with_fixtures (delete f (World.fixtures w)) w))
                 (Body.m_fixtureList body) w;
    w ← update_body (Body.with_fixtures [] 0) b w;
    (* Remove world body list. *)
    let w := World.with_bodyList (unlink b (World.m_bodyList w)) (World.m_bodyCount w - 1) w in
    Done (World.with_bodies (delete b (World.bodies w)) w).

(** ** Forces and origin *)

Definition ClearForces (w : World.t) : result World.t :=
  for_each (λ body w,
              update_body (λ b, Body.with_motion (Body.m_linearVelocity b)
                                  (Body.m_angularVelocity b) Vec.zero 0%R
                                  (Body.m_sleepTime b) b) body w)
           (World.m_bodyList w) w.

Definition ShiftOrigin (newOrigin : Vec2) (w : World.t) : result World.t :=
  _ ← cb2Assert bm (Z.land (World.m_flags w) World.e_locked =? 0);
  if Z.land (World.m_flags w) World.e_locked =? World.e_locked
  then Done w
  else
    w ← for_each (λ b w,
                    update_body (λ body,
                      let xf := Body.m_xf body in
                      let sw := Body.m_sweep body in
                      Body.with_placement
                        (Transform.mk (Vec.sub (Transform.p xf) newOrigin) (Transform.q xf))
                        (Sweep.mk (Sweep.localCenter sw)
                                  (Vec.sub (Sweep.c0 sw) newOrigin)
                                  (Vec.sub (Sweep.c sw) newOrigin)
                                  (Sweep.a0 sw) (Sweep.a sw) (Sweep.alpha0 sw))
                        body) b w)
                 (World.m_bodyList w) w;
    w ← for_each (λ j w, update_joint (cb2Joint_ShiftOrigin newOrigin) j w)
                 (World.m_jointList w) w;
    (* m_contactManager.m_broadPhase.ShiftOrigin(newOrigin) moves the boxes
       of the proxies; the broad phase keeps no state of its own in this
       model, which reads its answers from the world through
       broad_phase_overlap and broad_phase_pairs *)
    Done w.

(** ** The contact manager

    Modelled from the spec: [cb2ContactManager::FindNewContacts]: every pair of fixtures the broad
    phase reports, and for which no contact exists yet, gets a contact;
    the contact enters the list of the manager and the edge lists of both
    bodies. *)
Definition contact_exists (w : World.t) (fA fB : nat) (edges : list cb2ContactEdge) : bool :=
  existsb (λ edge,
             match World.contacts w !! ce_contact edge with
             | Some ct =>
                 (bool_decide (Contact.m_fixtureA ct = fA) && bool_decide (Contact.m_fixtureB ct = fB))
                 || (bool_decide (Contact.m_fixtureA ct = fB) && bool_decide (Contact.m_fixtureB ct = fA))
             | None => false
             end) edges.

Definition AddPair (pair : nat * nat) (w : World.t) : result World.t :=
  let '(fixtureA, fixtureB) := pair in
  fA ← get_fixture w fixtureA;
  fB ← get_fixture w fixtureB;
  let bodyA := Fixture.GetBody fA in
  let bodyB := Fixture.GetBody fB in
  (* Are the fixtures on the same body? *)
  if decide (bodyA = bodyB) then Done w
  else
    bB ← get_body w bodyB;
    (* Does a contact already exist? *)
    if contact_exists w fixtureA fixtureB (Body.m_contactList bB) then Done w
    else
      let c := fresh (dom (World.contacts w)) in
      let ct := Contact.mk Contact.e_enabledFlag fixtureA fixtureB 0 0 0 0%R in
      (* Insert into the world. *)
      let w := World.with_contacts (<[c := ct]> (World.contacts w)) w in
      let w := World.with_contactList (c :: World.m_contactList w)
                                      (World.m_contactCount w + 1) w in
      (* Connect to island graph. *)
      w ← update_body (λ b, Body.with_contactList
                              (mkContactEdge bodyB c :: Body.m_contactList b) b) bodyA w;
      update_body (λ b, Body.with_contactList
                          (mkContactEdge bodyA c :: Body.m_contactList b) b) bodyB w.

Definition FindNewContacts (moved : list nat) (w : World.t) : result World.t :=
  for_each AddPair (broad_phase_pairs w moved) w.

(** ** Islands *)

(** Modelled from the spec: [cb2Island::Add], for a body, a contact and a joint: a write past the
    capacity of the island is an assertion in a debug build. *)
Definition Island_AddBody (b : nat) (st : World.t * Island.t) : result (World.t * Island.t) :=
  let '(w, island) := st in
  _ ← cb2Assert bm (Island.m_bodyCount island <? Island.m_bodyCapacity island);
  if decide (Island.m_bodyCapacity island <= Island.m_bodyCount island)
  then Stop InvalidAccess
  else
    w ← update_body (Body.with_islandIndex (Island.m_bodyCount island)) b w;
    Done (w, Island.mk (Island.m_bodies island ++ [b]) (Island.m_contacts island)
                 (Island.m_joints island) (Island.m_bodyCapacity island)
                 (Island.m_contactCapacity island) (Island.m_jointCapacity island)).

Definition Island_AddContact (c : nat) (island : Island.t) : result Island.t :=
  _ ← cb2Assert bm (Island.m_contactCount island <? Island.m_contactCapacity island);
  if decide (Island.m_contactCapacity island <= Island.m_contactCount island)
  then Stop InvalidAccess
  else Done (Island.mk (Island.m_bodies island) (Island.m_contacts island ++ [c])
               (Island.m_joints island) (Island.m_bodyCapacity island)
               (Island.m_contactCapacity island) (Island.m_jointCapacity island)).

Definition Island_AddJoint (j : nat) (island : Island.t) : result Island.t :=
  _ ← cb2Assert bm (Island.m_jointCount island <? Island.m_jointCapacity island);
  if decide (Island.m_jointCapacity island <= Island.m_jointCount island)
  then Stop InvalidAccess
  else Done (Island.mk (Island.m_bodies island) (Island.m_contacts island)
               (Island.m_joints island ++ [j]) (Island.m_bodyCapacity island)
               (Island.m_contactCapacity island) (Island.m_jointCapacity island)).

(** Modelled from the spec: [cb2Island::Solve], as far as the world can tell from the flags of its
    bodies: when sleeping is allowed and the island has come to rest,
    every body of the island is put to sleep. *)
Definition Island_Solve (step : cb2TimeStep) (allowSleep : bool) (island : Island.t)
    (w : World.t) : result World.t :=
  if allowSleep && island_sleeps w island step
  then for_each (update_body (Body.SetAwake false)) (Island.m_bodies island) w
  else Done w.

(** ** Solve: find islands, integrate and solve constraints *)

(** The state of the depth first search: the world, the island under
    construction and the stack of bodies, its top first. *)
Definition search_state : Type := World.t * Island.t * list nat.

(** [stack[stackCount++] = other; other->m_flags |= e_islandFlag] *)
Definition push_body (stackSize : Z) (other : nat) (w : World.t) (stack : list nat)
    : result (World.t * list nat) :=
  if decide (stackSize <= Z.of_nat (length stack))
  then Stop InvalidAccess
  else
    w ← update_body (λ b, Body.with_flags (set_flag (Body.m_flags b) Body.e_islandFlag) b)
                    other w;
    Done (w, other :: stack).

(** One turn of the loop over the contact edges of a body. *)
Definition search_contact (stackSize : Z) (ce : cb2ContactEdge) (st : search_state)
    : result search_state :=
  let '(w, island, stack) := st in
  contact ← get_contact w (ce_contact ce);
  (* Has this contact already been added to an island? *)
  if Contact.in_island contact then Done st
  (* Is this contact solid and touching? *)
  else if negb (Contact.IsEnabled contact) || negb (Contact.IsTouching contact) then Done st
  else
    (* Skip sensors. *)
    fA ← get_fixture w (Contact.m_fixtureA contact);
    fB ← get_fixture w (Contact.m_fixtureB contact);
    let sensorA := Fixture.m_isSensor fA in
    let sensorB := Fixture.m_isSensor fB in
    if sensorA || sensorB then Done st
    else
      island ← Island_AddContact (ce_contact ce) island;
      w ← update_contact
            (λ c, Contact.with_flags (set_flag (Contact.m_flags c) Contact.e_islandFlag) c)
            (ce_contact ce) w;
      other ← get_body w (ce_other ce);
      (* Was the other body already added to this island? *)
      if Body.in_island other then Done (w, island, stack)
      else
        _ ← cb2Assert bm (Z.of_nat (length stack) <? stackSize);
        '(w, stack) ← push_body stackSize (ce_other ce) w stack;
        Done (w, island, stack).

(** One turn of the loop over the joint edges of a body. *)
Definition search_joint (stackSize : Z) (je : cb2JointEdge) (st : search_state)
    : result search_state :=
  let '(w, island, stack) := st in
  joint ← get_joint w (je_joint je);
  if Joint.m_islandFlag joint then Done st
  else
    other ← get_body w (je_other je);
    (* Don't simulate joints connected to inactive bodies. *)
    if negb (Body.IsActive other) then Done st
    else
      island ← Island_AddJoint (je_joint je) island;
      w ← update_joint (Joint.with_islandFlag true) (je_joint je) w;
      if Body.in_island other then Done (w, island, stack)
      else
        _ ← cb2Assert bm (Z.of_nat (length stack) <? stackSize);
        '(w, stack) ← push_body stackSize (je_other je) w stack;
        Done (w, island, stack).

(** The depth first search on the constraint graph; [fuel] bounds the
    number of bodies taken off the stack. *)
Fixpoint search (fuel : nat) (stackSize : Z) (st : search_state)
    : result (World.t * Island.t) :=
  let '(w, island, stack) := st in
  match stack with
  | [] => Done (w, island)
  | b :: stack =>
      match fuel with
      | O => Stop OutOfFuel
      | S fuel =>
          (* Grab the next body off the stack and add it to the island. *)
          body ← get_body w b;
          _ ← cb2Assert bm (Body.IsActive body);
          '(w, island) ← Island_AddBody b (w, island);
          (* Make sure the body is awake. *)
          w ← update_body (Body.SetAwake true) b w;
          (* To keep islands as small as possible, we don't
             propagate islands across static bodies. *)
          if decide (Body.GetType body = cb2_staticBody)
          then search fuel stackSize (w, island, stack)
          else
            (* Search all contacts connected to this body. *)
            st ← for_each (search_contact stackSize) (Body.m_contactList body)
                          (w, island, stack);
            (* Search all joints connect to this body. *)
            st ← for_each (search_joint stackSize) (Body.m_jointList body) st;
            search fuel stackSize st
      end
  end.

(** Post solve cleanup: allow static bodies to participate in other islands. *)
Definition cleanup_step (b : nat) (w : World.t) : result World.t :=
  body ← get_body w b;
  if decide (Body.GetType body = cb2_staticBody)
  then Done (put_body b (Body.with_flags
                           (clear_flag (Body.m_flags body) Body.e_islandFlag) body) w)
  else Done w.

Definition post_solve_cleanup (island : Island.t) (w : World.t) : result World.t :=
  for_each cleanup_step (Island.m_bodies island) w.

(** One turn of the loop over the seeds. The islands handed to the solver
    are collected on the side. *)
Definition Solve_seed (fuel : nat) (step : cb2TimeStep) (stackSize : Z) (seed : nat)
    (st : World.t * Island.t * list Island.t)
    : result (World.t * Island.t * list Island.t) :=
  let '(w, island, built) := st in
  s ← get_body w seed;
  if Body.in_island s then Done st
  else if negb (Body.IsAwake s) || negb (Body.IsActive s) then Done st
  (* The seed can be dynamic or kinematic. *)
  else if decide (Body.GetType s = cb2_staticBody) then Done st
  else
    (* Reset island and stack. *)
    let island := Island.Clear island in
    '(w, stack) ← push_body stackSize seed w [];
    (* Perform a depth first search (DFS) on the constraint graph. *)
    '(w, island) ← search fuel stackSize (w, island, stack);
    w ← Island_Solve step (World.m_allowSleep w) island w;
    w ← post_solve_cleanup island w;
    Done (w, island, built ++ [island]).

(** The bodies whose fixtures are synchronized at the end of [Solve]: those
    that were in an island and are not static. *)
Fixpoint synchronized_bodies (w : World.t) (l : list nat) : result (list nat) :=
  match l with
  | [] => Done []
  | b :: l' =>
      body ← get_body w b;
      moved ← synchronized_bodies w l';
      (* If a body was not in an island then it did not move. *)
      if negb (Body.in_island body) then Done moved
      else if decide (Body.GetType body = cb2_staticBody) then Done moved
      else Done (b :: moved)
  end.

Definition Solve (fuel : nat) (step : cb2TimeStep) (w : World.t)
    : result (World.t * list Island.t) :=
  (* Size the island for the worst case. *)
  let island := Island.create (World.m_bodyCount w) (World.m_contactCount w)
                              (World.m_jointCount w) in
  (* Clear all the island flags. *)
  w ← for_each (update_body
                  (λ b, Body.with_flags (clear_flag (Body.m_flags b) Body.e_islandFlag) b))
               (World.m_bodyList w) w;
  w ← for_each (update_contact
                  (λ c, Contact.with_flags
                          (clear_flag (Contact.m_flags c) Contact.e_islandFlag) c))
               (World.m_contactList w) w;
  w ← for_each (update_joint (Joint.with_islandFlag false)) (World.m_jointList w) w;
  (* Build and simulate all awake islands. *)
  let stackSize := World.m_bodyCount w in
  '(w, _, built) ← for_each (Solve_seed fuel step stackSize) (World.m_bodyList w)
                            (w, island, []);
  (* Synchronize fixtures, check for out of range bodies. *)
  moved ← synchronized_bodies w (World.m_bodyList w);
  (* Look for new contacts. *)
  w ← FindNewContacts moved w;
  Done (w, built).

End WorldCode.

(** ** A simple set of collaborators

    Bodies are built from a body given in full, joints copy their
    definition and hold no point of the world (a shift of the origin leaves
    them as they are), islands never fall asleep, the island TOI solver leaves
    bodies where they are, the narrow phase keeps the touching state of a
    contact and leaves it enabled, the broad phase keeps every contact and
    reports no new pair, and no pair ever hits within the step. *)
Definition still_collaborators : Collaborators := {|
  cb2BodyDef := Body.t;
  cb2Body_new := λ b, b;
  cb2Joint_Create := λ def, Joint.mk (bodyA def) (bodyB def) false (collideConnected def);
  cb2Joint_ShiftOrigin := λ _ j, j;
  island_sleeps := λ _ _ _, false;
  island_toi_solution := λ _ _ _ _ b,
    (Body.m_xf b, Body.m_sweep b, Body.m_linearVelocity b, Body.m_angularVelocity b);
  narrow_phase := λ w c,
    match World.contacts w !! c with
    | Some ct => (Contact.IsTouching ct, true)
    | None => (false, true)
    end;
  broad_phase_overlap := λ _ _, true;
  broad_phase_pairs := λ _ _, [];
  cb2TimeOfImpact := λ _ _, mkTOIOutput e_separated 1
|}.

Definition locked_world : World.t :=
  World.with_flags (set_flag World.e_clearForces World.e_locked) (World.create Vec.zero).

(** ** What a call leaves of the awake flags *)

Definition body_awake (w : World.t) (b : nat) : Prop :=
  ∃ body, World.bodies w !! b = Some body ∧ Body.IsAwake body = true.

Definition body_flags_kept (w w' : World.t) : Prop :=
  ∀ b body, World.bodies w !! b = Some body →
    ∃ body', World.bodies w' !! b = Some body' ∧ Body.m_flags body' = Body.m_flags body.

(** ** Sample worlds *)

(** A body at rest at the origin, of the given type and flags, with the
    given edges. *)
Definition sample_body (ty : cb2BodyType) (flags : Z)
    (fixtures : list nat) (jointEdges : list cb2JointEdge)
    (contactEdges : list cb2ContactEdge) : Body.t :=
  Body.mk ty flags 0 (Transform.mk Vec.zero (mkRot 0 1))
    (Sweep.mk Vec.zero Vec.zero Vec.zero 0 0 0) Vec.zero 0 Vec.zero 0
    fixtures (Z.of_nat (length fixtures)) jointEdges contactEdges 1 1 0.

(** Two sleeping dynamic bodies, 0 and 1, linked by joint 0. *)
Definition jointed_pair : World.t :=
  World.mk World.e_clearForces
    (<[0%nat := sample_body cb2_dynamicBody Body.e_activeFlag [] [mkJointEdge 1 0] []]>
       (<[1%nat := sample_body cb2_dynamicBody Body.e_activeFlag [] [mkJointEdge 0 0] []]> ∅))
    ∅ ∅
    (<[0%nat := Joint.mk 0 1 false false]> ∅)
    [1%nat; 0%nat] [0%nat] 2 1 [] 0 Vec.zero true 0%R true true false true.

(** A step of 1/60 s. *)
Definition sample_step : cb2TimeStep := mkTimeStep (1 / 60) 60 1 8 3 true.

Definition awake_active : Z := set_flag Body.e_awakeFlag Body.e_activeFlag.
Definition solid_contact : Z := set_flag Contact.e_enabledFlag Contact.e_touchingFlag.

(** The chain dynamic A (0) - static S (1) - dynamic B (2): A and B each
    touch S and nothing else links them. Fixture [i] belongs to body [i];
    contact 0 joins A and S, contact 1 joins S and B. *)
Definition chain_world : World.t :=
  World.mk World.e_clearForces
    (<[0%nat := sample_body cb2_dynamicBody awake_active [0%nat] [] [mkContactEdge 1 0]]>
       (<[1%nat := sample_body cb2_staticBody Body.e_activeFlag [1%nat] []
                     [mkContactEdge 2 1; mkContactEdge 0 0]]>
          (<[2%nat := sample_body cb2_dynamicBody awake_active [2%nat] []
                        [mkContactEdge 1 1]]> ∅)))
    (<[0%nat := Fixture.mk 0 false 1]>
       (<[1%nat := Fixture.mk 1 false 1]> (<[2%nat := Fixture.mk 2 false 1]> ∅)))
    (<[0%nat := Contact.mk solid_contact 0 1 0 0 0 0%R]>
       (<[1%nat := Contact.mk solid_contact 1 2 0 0 0 0%R]> ∅))
    ∅
    [2%nat; 1%nat; 0%nat] [] 3 0 [1%nat; 0%nat] 2 Vec.zero true 0%R true true false true.

(** The island [island] with the body [b] added. *)
Definition island_with_body (b : nat) (island : Island.t) : Island.t :=
  Island.mk (Island.m_bodies island ++ [b]) (Island.m_contacts island)
    (Island.m_joints island) (Island.m_bodyCapacity island)
    (Island.m_contactCapacity island) (Island.m_jointCapacity island).

(** ** The constraint graph of a world *)

#[global] Instance cb2ContactEdge_eq_dec : EqDecision cb2ContactEdge.
Proof. solve_decision. Defined.
#[global] Instance cb2JointEdge_eq_dec : EqDecision cb2JointEdge.
Proof. solve_decision. Defined.

(** Body [b] has a contact edge for contact [c] towards body [o]. *)
Definition cedge (w : World.t) (b c o : nat) : Prop :=
  ∃ body, World.bodies w !! b = Some body ∧ mkContactEdge o c ∈ Body.m_contactList body.

(** Body [b] has a joint edge for joint [j] towards body [o]. *)
Definition jedge (w : World.t) (b j o : nat) : Prop :=
  ∃ body, World.bodies w !! b = Some body ∧ mkJointEdge o j ∈ Body.m_jointList body.

Definition nonstatic (w : World.t) (b : nat) : Prop :=
  ∃ body, World.bodies w !! b = Some body ∧ Body.m_type body ≠ cb2_staticBody.

Definition active (w : World.t) (b : nat) : Prop :=
  ∃ body, World.bodies w !! b = Some body ∧ Body.IsActive body = true.

(** The contact is enabled and touching, and none of its fixtures is a
    sensor: the search goes along it. *)
Definition solid (w : World.t) (c : nat) : Prop :=
  ∃ ct fA fB,
    World.contacts w !! c = Some ct
    ∧ World.fixtures w !! Contact.m_fixtureA ct = Some fA
    ∧ World.fixtures w !! Contact.m_fixtureB ct = Some fB
    ∧ Contact.IsEnabled ct = true ∧ Contact.IsTouching ct = true
    ∧ Fixture.m_isSensor fA = false ∧ Fixture.m_isSensor fB = false.

(** The island flags, read through the pointers. *)
Definition bflag (w : World.t) (b : nat) : bool :=
  default false (Body.in_island <$> World.bodies w !! b).
Definition cflag (w : World.t) (c : nat) : bool :=
  default false (Contact.in_island <$> World.contacts w !! c).
Definition jflag (w : World.t) (j : nat) : bool :=
  default false (Joint.m_islandFlag <$> World.joints w !! j).

(** ** Well-formed worlds

    The links between the objects of a world, as the world and its contact
    manager keep them: the edges of a body name a contact (a joint) of the
    world between that body and the other one, the other body carries the
    edge back, a body in contact is active, the lists hold the objects of
    the world and the counts are their numbers. *)

Definition contact_edge_ok (w : World.t) (b : nat) (ce : cb2ContactEdge) : Prop :=
  match World.contacts w !! ce_contact ce with
  | Some ct =>
      match World.fixtures w !! Contact.m_fixtureA ct,
            World.fixtures w !! Contact.m_fixtureB ct with
      | Some fA, Some fB =>
          ((b = Fixture.m_body fA ∧ ce_other ce = Fixture.m_body fB)
           ∨ (b = Fixture.m_body fB ∧ ce_other ce = Fixture.m_body fA))
      | _, _ => False
      end
  | None => False
  end
  ∧ match World.bodies w !! ce_other ce with
    | Some other =>
        mkContactEdge b (ce_contact ce) ∈ Body.m_contactList other
        ∧ Body.IsActive other = true
    | None => False
    end.

Definition joint_edge_ok (w : World.t) (b : nat) (je : cb2JointEdge) : Prop :=
  match World.joints w !! je_joint je with
  | Some jt =>
      (b = Joint.m_bodyA jt ∧ je_other je = Joint.m_bodyB jt)
      ∨ (b = Joint.m_bodyB jt ∧ je_other je = Joint.m_bodyA jt)
  | None => False
  end
  ∧ match World.bodies w !! je_other je with
    | Some other => mkJointEdge b (je_joint je) ∈ Body.m_jointList other
    | None => False
    end.

Definition wf_world (w : World.t) : Prop :=
  map_Forall (λ b body,
                Forall (contact_edge_ok w b) (Body.m_contactList body)
                ∧ Forall (joint_edge_ok w b) (Body.m_jointList body)
                ∧ b ∈ World.m_bodyList w)
             (World.bodies w)
  ∧ map_Forall (λ c _, c ∈ World.m_contactList w) (World.contacts w)
  ∧ map_Forall (λ j _, j ∈ World.m_jointList w) (World.joints w)
  ∧ Forall (λ b, is_Some (World.bodies w !! b)) (World.m_bodyList w)
  ∧ Forall (λ c, is_Some (World.contacts w !! c)) (World.m_contactList w)
  ∧ Forall (λ j, is_Some (World.joints w !! j)) (World.m_jointList w)
  ∧ World.m_bodyCount w = Z.of_nat (size (World.bodies w))
  ∧ World.m_contactCount w = Z.of_nat (size (World.contacts w))
  ∧ World.m_jointCount w = Z.of_nat (size (World.joints w)).

#[global] Instance contact_edge_ok_dec w b ce : Decision (contact_edge_ok w b ce).
Proof.
  unfold contact_edge_ok.
  destruct (World.contacts w !! ce_contact ce) as [ct|];
    [destruct (World.fixtures w !! Contact.m_fixtureA ct),
              (World.fixtures w !! Contact.m_fixtureB ct)|];
    destruct (World.bodies w !! ce_other ce); apply _.
Defined.

#[global] Instance joint_edge_ok_dec w b je : Decision (joint_edge_ok w b je).
Proof.
  unfold joint_edge_ok.
  destruct (World.joints w !! je_joint je);
    destruct (World.bodies w !! je_other je); apply _.
Defined.

#[global] Instance wf_world_dec w : Decision (wf_world w).
Proof. unfold wf_world. apply _. Defined.

(** The broad phase reports fixtures of the world, on bodies of the world. *)
Definition broad_phase_sound {env : Collaborators} : Prop :=
  ∀ w moved fA fB, (fA, fB) ∈ broad_phase_pairs w moved →
    ∃ fxA fxB, World.fixtures w !! fA = Some fxA ∧ World.fixtures w !! fB = Some fxB
               ∧ is_Some (World.bodies w !! Fixture.m_body fxA)
               ∧ is_Some (World.bodies w !! Fixture.m_body fxB).

(** ** What the island search keeps of a world *)

Definition body_shape (b : Body.t) : cb2BodyType * bool * list cb2ContactEdge * list cb2JointEdge :=
  (Body.m_type b, Body.IsActive b, Body.m_contactList b, Body.m_jointList b).

Definition contact_shape (c : Contact.t) : bool * bool * nat * nat :=
  (Contact.IsEnabled c, Contact.IsTouching c, Contact.m_fixtureA c, Contact.m_fixtureB c).

Definition joint_shape (j : Joint.t) : nat * nat := (Joint.m_bodyA j, Joint.m_bodyB j).

Definition same_graph (w0 w : World.t) : Prop :=
  (∀ b, body_shape <$> World.bodies w !! b = body_shape <$> World.bodies w0 !! b)
  ∧ (∀ c, contact_shape <$> World.contacts w !! c = contact_shape <$> World.contacts w0 !! c)
  ∧ (∀ j, joint_shape <$> World.joints w !! j = joint_shape <$> World.joints w0 !! j)
  ∧ World.fixtures w = World.fixtures w0
  ∧ World.m_bodyList w = World.m_bodyList w0
  ∧ World.m_contactList w = World.m_contactList w0
  ∧ World.m_jointList w = World.m_jointList w0
  ∧ World.m_bodyCount w = World.m_bodyCount w0
  ∧ World.m_contactCount w = World.m_contactCount w0
  ∧ World.m_jointCount w = World.m_jointCount w0
  ∧ World.m_allowSleep w = World.m_allowSleep w0.

(** ** Islands closed under the links of the graph *)

(** Every body linked to a non-static body of [J] by a solid contact, or by
    a joint towards an active body, is in [J]. *)
Definition closed (w0 : World.t) (J : list nat) : Prop :=
  ∀ b, b ∈ J → nonstatic w0 b →
    (∀ c o, cedge w0 b c o → solid w0 c → o ∈ J)
    ∧ (∀ j o, jedge w0 b j o → active w0 o → o ∈ J).

(** Both ends of every edge of contact [c] (of joint [j]) are in [X]. *)
Definition contact_ends_in (w0 : World.t) (c : nat) (X : list nat) : Prop :=
  ∀ b o, cedge w0 b c o → b ∈ X ∧ o ∈ X.
Definition joint_ends_in (w0 : World.t) (j : nat) (X : list nat) : Prop :=
  ∀ b o, jedge w0 b j o → b ∈ X ∧ o ∈ X.

(** The invariant of the island search. [w0] is the world at the start of
    the pass, [built] the bodies of the islands already solved, [cur] the
    island under construction, [stack] the stack of the search, and [x]
    the body whose edges are being read, [pend_c] and [pend_j] being those
    still to be read. *)
Record search_inv (w0 : World.t) (built : list (list nat)) (w : World.t)
    (cur : Island.t) (stack : list nat)
    (x : nat) (pend_c : list cb2ContactEdge) (pend_j : list cb2JointEdge) : Prop := {
  si_graph : same_graph w0 w;
  si_caps :
    Island.m_bodyCapacity cur = Z.of_nat (size (World.bodies w0))
    ∧ Island.m_contactCapacity cur = Z.of_nat (size (World.contacts w0))
    ∧ Island.m_jointCapacity cur = Z.of_nat (size (World.joints w0));
  si_members_flagged :
    ∀ b, (b ∈ Island.m_bodies cur ∨ b ∈ stack) → bflag w b = true;
  si_flag_origin :
    ∀ b, bflag w b = true →
      b ∈ Island.m_bodies cur ∨ b ∈ stack ∨ (nonstatic w0 b ∧ (∃ J, J ∈ built ∧ b ∈ J));
  si_built_flagged :
    ∀ J b, J ∈ built → b ∈ J → nonstatic w0 b → bflag w b = true;
  si_disjoint :
    ∀ J b, J ∈ built → b ∈ J → nonstatic w0 b →
      (b ∉ Island.m_bodies cur) ∧ (b ∉ stack);
  si_nodup : NoDup (stack ++ Island.m_bodies cur);
  si_active : ∀ b, (b ∈ Island.m_bodies cur ∨ b ∈ stack) → active w0 b;
  si_built_closed : ∀ J, J ∈ built → closed w0 J;
  si_cur_closed :
    ∀ b, b ∈ Island.m_bodies cur → nonstatic w0 b →
      (∀ c o, cedge w0 b c o → solid w0 c →
         o ∈ Island.m_bodies cur ∨ o ∈ stack ∨ (b = x ∧ mkContactEdge o c ∈ pend_c))
      ∧ (∀ j o, jedge w0 b j o → active w0 o →
           o ∈ Island.m_bodies cur ∨ o ∈ stack ∨ (b = x ∧ mkJointEdge o j ∈ pend_j));
  si_cflag :
    ∀ c, cflag w c = true →
      (∃ J, J ∈ built ∧ contact_ends_in w0 c J)
      ∨ contact_ends_in w0 c (Island.m_bodies cur ++ stack);
  si_jflag :
    ∀ j, jflag w j = true →
      (∃ J, J ∈ built ∧ joint_ends_in w0 j J)
      ∨ joint_ends_in w0 j (Island.m_bodies cur ++ stack);
  si_contacts :
    NoDup (Island.m_contacts cur) ∧ ∀ c, c ∈ Island.m_contacts cur → cflag w c = true;
  si_joints :
    NoDup (Island.m_joints cur) ∧ ∀ j, j ∈ Island.m_joints cur → jflag w j = true
}.

(** The invariant of the loop over the seeds: no island is under
    construction, and a non-static body is in at most one island. *)
Definition outer_inv (w0 : World.t) (built : list Island.t) (w : World.t)
    (island : Island.t) : Prop :=
  search_inv w0 (Island.m_bodies <$> built) w (Island.Clear island) [] 0%nat [] []
  ∧ ∀ i k J J' b,
      (Island.m_bodies <$> built) !! i = Some J →
      (Island.m_bodies <$> built) !! k = Some J' →
      b ∈ J → b ∈ J' → nonstatic w0 b → i = k.

(** Two static bodies S1 (1) and S2 (2) linked by joint 0; the dynamic body
    A (0) rests on S1 and the dynamic body B (3) rests on S2. Fixture [i]
    belongs to body [i]; contact 0 joins A and S1, contact 1 joins S2 and B. *)
Definition static_joint_world : World.t :=
  World.mk World.e_clearForces
    (<[0%nat := sample_body cb2_dynamicBody awake_active [0%nat] [] [mkContactEdge 1 0]]>
       (<[1%nat := sample_body cb2_staticBody Body.e_activeFlag [1%nat]
                     [mkJointEdge 2 0] [mkContactEdge 0 0]]>
          (<[2%nat := sample_body cb2_staticBody Body.e_activeFlag [2%nat]
                        [mkJointEdge 1 0] [mkContactEdge 3 1]]>
             (<[3%nat := sample_body cb2_dynamicBody awake_active [3%nat] []
                           [mkContactEdge 2 1]]> ∅))))
    (<[0%nat := Fixture.mk 0 false 1]>
       (<[1%nat := Fixture.mk 1 false 1]>
          (<[2%nat := Fixture.mk 2 false 1]> (<[3%nat := Fixture.mk 3 false 1]> ∅))))
    (<[0%nat := Contact.mk solid_contact 0 1 0 0 0 0%R]>
       (<[1%nat := Contact.mk solid_contact 2 3 0 0 0 0%R]> ∅))
    (<[0%nat := Joint.mk 1 2 false false]> ∅)
    [3%nat; 2%nat; 1%nat; 0%nat] [0%nat] 4 1 [1%nat; 0%nat] 2
    Vec.zero true 0%R true true false true.

(** ** Settings (cb2Settings.h)

    Modelled from the spec: the constants of cb2Settings.h, which is not
    among the sources, at the values of the library. *)

Definition cb2_maxSubSteps : Z := 8.
Definition cb2_maxTOIContacts : Z := 32.
(* FLT_EPSILON *)
Definition cb2_epsilon : R := (/ 2 ^ 23)%R.

(** ** Continuous collision: SolveTOI *)

(** What one turn of the TOI loop found: the contact with the least time of
    impact, if any, and that time. *)
Record toi_event : Type := mkEvent { minContact : option nat; minAlpha : R }.

Section TOI.

Context {env : Collaborators}.
Variable bm : build.

(** Modelled from the spec: [cb2Contact::Update]: the narrow phase says whether the contact
    touches, and the listener may leave it disabled. *)
Definition Contact_Update (c : nat) (w : World.t) : result World.t :=
  let '(touching, enabled) := narrow_phase w c in
  update_contact
    (λ ct,
       let f := Contact.m_flags ct in
       let f := if enabled then set_flag f Contact.e_enabledFlag
                else clear_flag f Contact.e_enabledFlag in
       let f := if touching then set_flag f Contact.e_touchingFlag
                else clear_flag f Contact.e_touchingFlag in
       Contact.with_flags f ct)
    c w.

Definition set_sweep (s : Sweep.t) (b : Body.t) : Body.t :=
  Body.with_placement (Body.m_xf b) s b.

(** The time of impact of a contact that has no cached one; [None] stands
    for the [continue] of the loop. *)
Definition compute_toi (c : nat) (ct : Contact.t) (w : World.t)
    : result (option (World.t * R)) :=
  fA ← get_fixture w (Contact.m_fixtureA ct);
  fB ← get_fixture w (Contact.m_fixtureB ct);
  (* Is there a sensor? *)
  if Fixture.IsSensor fA || Fixture.IsSensor fB then Done None
  else
    let bA := Fixture.GetBody fA in
    let bB := Fixture.GetBody fB in
    bodyA ← get_body w bA;
    bodyB ← get_body w bB;
    let typeA := Body.m_type bodyA in
    let typeB := Body.m_type bodyB in
    _ ← cb2Assert bm (bool_decide (typeA = cb2_dynamicBody)
                      || bool_decide (typeB = cb2_dynamicBody));
    let activeA := Body.IsAwake bodyA && negb (bool_decide (typeA = cb2_staticBody)) in
    let activeB := Body.IsAwake bodyB && negb (bool_decide (typeB = cb2_staticBody)) in
    (* Is at least one body active (awake and dynamic or kinematic)? *)
    if negb activeA && negb activeB then Done None
    else
      let collideA := Body.IsBullet bodyA || negb (bool_decide (typeA = cb2_dynamicBody)) in
      let collideB := Body.IsBullet bodyB || negb (bool_decide (typeB = cb2_dynamicBody)) in
      (* Are these two non-bullet dynamic bodies? *)
      if negb collideA && negb collideB then Done None
      else
        (* Compute the TOI for this contact.
           Put the sweeps onto the same time interval. *)
        let alphaA := Sweep.alpha0 (Body.m_sweep bodyA) in
        let alphaB := Sweep.alpha0 (Body.m_sweep bodyB) in
        '(w, alpha0) ←
          (if decide (alphaA < alphaB)%R
           then w ← update_body (λ b, set_sweep (Sweep.Advance alphaB (Body.m_sweep b)) b) bA w;
                Done (w, alphaB)
           else if decide (alphaB < alphaA)%R
           then w ← update_body (λ b, set_sweep (Sweep.Advance alphaA (Body.m_sweep b)) b) bB w;
                Done (w, alphaA)
           else Done (w, alphaA));
        _ ← cb2Assert bm (bool_decide (alpha0 < 1)%R);
        bodyA ← get_body w bA;
        bodyB ← get_body w bB;
        (* Compute the time of impact in interval [0, minTOI] *)
        let input := mkTOIInput (Contact.m_fixtureA ct) (Contact.m_indexA ct)
                                (Contact.m_fixtureB ct) (Contact.m_indexB ct)
                                (Body.m_sweep bodyA) (Body.m_sweep bodyB) 1 in
        let output := cb2TimeOfImpact w input in
        (* Beta is the fraction of the remaining portion of the . *)
        let beta := toi_t output in
        let alpha :=
          if decide (toi_state output = e_touching)
          then cb2Min (alpha0 + (1 - alpha0) * beta) 1
          else 1%R in
        w ← update_contact
              (λ ct, Contact.with_toi (Contact.m_toiCount ct) alpha
                       (Contact.with_flags (set_flag (Contact.m_flags ct) Contact.e_toiFlag) ct))
              c w;
        Done (Some (w, alpha)).

(** One turn of the loop that finds the first TOI. *)
Definition toi_scan_contact (c : nat) (st : World.t * toi_event)
    : result (World.t * toi_event) :=
  let '(w, ev) := st in
  ct ← get_contact w c;
  (* Is this contact disabled? *)
  if negb (Contact.IsEnabled ct) then Done st
  (* Prevent excessive sub-stepping. *)
  else if decide (cb2_maxSubSteps < Contact.m_toiCount ct) then Done st
  else
    r ← (if Contact.has_toi ct
         then (* This contact has a valid cached TOI. *)
              Done (Some (w, Contact.m_toi ct))
         else compute_toi c ct w);
    match r with
    | None => Done st
    | Some (w, alpha) =>
        if decide (alpha < minAlpha ev)%R
        then (* This is the minimum TOI found so far. *)
             Done (w, mkEvent (Some c) alpha)
        else Done (w, ev)
    end.

(** Find the first TOI. *)
Definition toi_scan (w : World.t) : result (World.t * toi_event) :=
  for_each toi_scan_contact (World.m_contactList w) (w, mkEvent None 1).

(** [other->m_sweep = backup; other->SynchronizeTransform()] *)
Definition restore_sweep (backup : Sweep.t) (b : nat) (w : World.t) : result World.t :=
  update_body (λ body, Body.SynchronizeTransform (set_sweep backup body)) b w.

(** One turn of the loop over the contacts of [body], a body of the TOI
    contact, that gathers the island of the event. *)
Definition toi_collect_edge (alpha : R) (body : nat) (ce : cb2ContactEdge)
    (st : World.t * Island.t) : result (World.t * Island.t) :=
  let '(w, island) := st in
  contact ← get_contact w (ce_contact ce);
  (* Has this contact already been added to the island? *)
  if Contact.in_island contact then Done st
  else
    (* Only add static, kinematic, or bullet bodies. *)
    other ← get_body w (ce_other ce);
    this ← get_body w body;
    if bool_decide (Body.m_type other = cb2_dynamicBody)
       && negb (Body.IsBullet this) && negb (Body.IsBullet other)
    then Done st
    else
      (* Skip sensors. *)
      fA ← get_fixture w (Contact.m_fixtureA contact);
      fB ← get_fixture w (Contact.m_fixtureB contact);
      if Fixture.m_isSensor fA || Fixture.m_isSensor fB then Done st
      else
        (* Tentatively advance the body to the TOI. *)
        let backup := Body.m_sweep other in
        w ← (if negb (Body.in_island other)
             then update_body (Body.Advance alpha) (ce_other ce) w
             else Done w);
        (* Update the contact points *)
        w ← Contact_Update (ce_contact ce) w;
        contact ← get_contact w (ce_contact ce);
        (* Was the contact disabled by the user? *)
        if negb (Contact.IsEnabled contact)
        then w ← restore_sweep backup (ce_other ce) w; Done (w, island)
        (* Are there contact points? *)
        else if negb (Contact.IsTouching contact)
        then w ← restore_sweep backup (ce_other ce) w; Done (w, island)
        else
          (* Add the contact to the island *)
          w ← update_contact
                (λ c, Contact.with_flags (set_flag (Contact.m_flags c) Contact.e_islandFlag) c)
                (ce_contact ce) w;
          island ← Island_AddContact bm (ce_contact ce) island;
          (* Has the other body already been added to the island? *)
          other ← get_body w (ce_other ce);
          if Body.in_island other then Done (w, island)
          else
            (* Add the other body to the island. *)
            w ← update_body
                  (λ b, Body.with_flags (set_flag (Body.m_flags b) Body.e_islandFlag) b)
                  (ce_other ce) w;
            w ← (if decide (Body.m_type other ≠ cb2_staticBody)
                 then update_body (Body.SetAwake true) (ce_other ce) w
                 else Done w);
            Island_AddBody bm (ce_other ce) (w, island).

(** The loop over the contact edges of [body]; it stops when the island is
    full. *)
Fixpoint toi_collect (alpha : R) (body : nat) (edges : list cb2ContactEdge)
    (st : World.t * Island.t) : result (World.t * Island.t) :=
  match edges with
  | [] => Done st
  | ce :: edges' =>
      let '(w, island) := st in
      if decide (Island.m_bodyCount island = Island.m_bodyCapacity island) then Done st
      else if decide (Island.m_contactCount island = Island.m_contactCapacity island)
      then Done st
      else
        st ← toi_collect_edge alpha body ce st;
        toi_collect alpha body edges' st
  end.

(** Get contacts on bodyA and bodyB. *)
Definition toi_collect_body (alpha : R) (body : nat) (st : World.t * Island.t)
    : result (World.t * Island.t) :=
  this ← get_body st.1 body;
  if decide (Body.m_type this = cb2_dynamicBody)
  then toi_collect alpha body (Body.m_contactList this) st
  else Done st.

(** Modelled from the spec: [cb2Island::SolveTOI]: every body of the island gets the placement and
    the velocities the solver computes for it. *)
Definition Island_SolveTOI (subStep : cb2TimeStep) (island : Island.t) (w : World.t)
    : result World.t :=
  for_each (λ b w',
              update_body
                (λ body,
                   let '(xf, sweep, v, omega) :=
                     island_toi_solution w island subStep b body in
                   Body.with_motion v omega (Body.m_force body) (Body.m_torque body)
                     (Body.m_sleepTime body) (Body.with_placement xf sweep body))
                b w')
           (Island.m_bodies island) w.

(** Reset island flags and synchronize broad-phase proxies. The bodies
    whose fixtures are synchronized are those the broad phase will look
    at. *)
Definition toi_reset_body (b : nat) (st : World.t * list nat) : result (World.t * list nat) :=
  let '(w, moved) := st in
  w ← update_body (λ body, Body.with_flags
                             (clear_flag (Body.m_flags body) Body.e_islandFlag) body) b w;
  body ← get_body w b;
  if decide (Body.m_type body ≠ cb2_dynamicBody) then Done (w, moved)
  else
    (* Invalidate all contact TOIs on this displaced body. *)
    w ← for_each (λ ce w,
                    update_contact
                      (λ c, Contact.with_flags
                              (clear_flag (Contact.m_flags c)
                                 (Z.lor Contact.e_toiFlag Contact.e_islandFlag)) c)
                      (ce_contact ce) w)
                 (Body.m_contactList body) w;
    Done (w, moved ++ [b]).

Inductive loop_control : Type := Break | Continue.

(** One turn of the loop over the TOI events. *)
Definition toi_iteration (step : cb2TimeStep) (island : Island.t) (w : World.t)
    : result (World.t * Island.t * toi_event * loop_control) :=
  (* Find the first TOI. *)
  '(w, ev) ← toi_scan w;
  match minContact ev with
  | None =>
      (* No more TOI events. Done! *)
      Done (World.with_stepComplete true w, island, ev, Break)
  | Some c =>
      if decide (1 - 10 * cb2_epsilon < minAlpha ev)%R
      then Done (World.with_stepComplete true w, island, ev, Break)
      else
        let alpha := minAlpha ev in
        (* Advance the bodies to the TOI. *)
        ct ← get_contact w c;
        '(bA, bB) ← contact_bodies w ct;
        bodyA ← get_body w bA;
        bodyB ← get_body w bB;
        let backup1 := Body.m_sweep bodyA in
        let backup2 := Body.m_sweep bodyB in
        w ← update_body (Body.Advance alpha) bA w;
        w ← update_body (Body.Advance alpha) bB w;
        (* The TOI contact likely has some new contact points. *)
        w ← Contact_Update c w;
        w ← update_contact
              (λ ct, Contact.with_toi (Contact.m_toiCount ct + 1) (Contact.m_toi ct)
                       (Contact.with_flags
                          (clear_flag (Contact.m_flags ct) Contact.e_toiFlag) ct))
              c w;
        ct ← get_contact w c;
        (* Is the contact solid? *)
        if negb (Contact.IsEnabled ct) || negb (Contact.IsTouching ct)
        then
          (* Restore the sweeps. *)
          w ← update_contact (Contact.SetEnabled false) c w;
          w ← restore_sweep backup1 bA w;
          w ← restore_sweep backup2 bB w;
          Done (w, island, ev, Continue)
        else
          w ← update_body (Body.SetAwake true) bA w;
          w ← update_body (Body.SetAwake true) bB w;
          (* Build the island *)
          let island := Island.Clear island in
          '(w, island) ← Island_AddBody bm bA (w, island);
          '(w, island) ← Island_AddBody bm bB (w, island);
          island ← Island_AddContact bm c island;
          w ← update_body
                (λ b, Body.with_flags (set_flag (Body.m_flags b) Body.e_islandFlag) b) bA w;
          w ← update_body
                (λ b, Body.with_flags (set_flag (Body.m_flags b) Body.e_islandFlag) b) bB w;
          w ← update_contact
                (λ c, Contact.with_flags (set_flag (Contact.m_flags c) Contact.e_islandFlag) c)
                c w;
          (* Get contacts on bodyA and bodyB. *)
          st ← toi_collect_body alpha bA (w, island);
          '(w, island) ← toi_collect_body alpha bB st;
          let subStep :=
            mkTimeStep ((1 - alpha) * dt step) (1 / ((1 - alpha) * dt step)) 1
                       (velocityIterations step) 20 false in
          w ← Island_SolveTOI subStep island w;
          (* Reset island flags and synchronize broad-phase proxies. *)
          '(w, moved) ← for_each toi_reset_body (Island.m_bodies island) (w, []);
          (* Commit fixture proxy movements to the broad-phase so that new
             contacts are created. *)
          w ← FindNewContacts moved w;
          if World.m_subStepping w
          then Done (World.with_stepComplete false w, island, ev, Break)
          else Done (w, island, ev, Continue)
  end.

(** Find TOI events and solve them. The events of the turns of the loop
    are collected on the side, the first turn first. *)
Fixpoint toi_loop (fuel : nat) (step : cb2TimeStep) (island : Island.t) (w : World.t)
    : result (World.t * list toi_event) :=
  match fuel with
  | O => Stop OutOfFuel
  | S fuel =>
      '(w, island, ev, control) ← toi_iteration step island w;
      match control with
      | Break => Done (w, [ev])
      | Continue =>
          '(w, events) ← toi_loop fuel step island w;
          Done (w, ev :: events)
      end
  end.

Definition SolveTOI (fuel : nat) (step : cb2TimeStep) (w : World.t)
    : result (World.t * list toi_event) :=
  let island := Island.create (2 * cb2_maxTOIContacts) cb2_maxTOIContacts 0 in
  w ← (if World.m_stepComplete w
       then
         w ← for_each (update_body
                         (λ b,
                            let s := Body.m_sweep b in
                            set_sweep (Sweep.mk (Sweep.localCenter s) (Sweep.c0 s) (Sweep.c s)
                                                (Sweep.a0 s) (Sweep.a s) 0)
                              (Body.with_flags
                                 (clear_flag (Body.m_flags b) Body.e_islandFlag) b)))
                      (World.m_bodyList w) w;
         for_each (update_contact
                     (λ c,
                        (* Invalidate TOI *)
                        Contact.with_toi 0 1
                          (Contact.with_flags
                             (clear_flag (Contact.m_flags c)
                                (Z.lor Contact.e_toiFlag Contact.e_islandFlag)) c)))
                  (World.m_contactList w) w
       else Done w);
  toi_loop fuel step island w.

(** ** Step *)

(** Modelled from the spec: [cb2ContactManager::Collide]: a contact whose fixtures do not overlap
    in the broad phase any more is destroyed, the others go through the
    narrow phase. *)
Definition Collide (w : World.t) : result World.t :=
  for_each (λ c w,
              if broad_phase_overlap w c then Contact_Update c w
              else ContactManager_Destroy c w)
           (World.m_contactList w) w.

(** The time step of a call [Step(dt, velocityIterations, positionIterations)]. *)
Definition time_step (w : World.t) (dt : R) (velocityIterations positionIterations : Z)
    : cb2TimeStep :=
  mkTimeStep dt
    (if decide (0 < dt)%R then (1 / dt)%R else 0%R)
    (World.m_inv_dt0 w * dt)%R
    velocityIterations positionIterations
    (World.m_warmStarting w).

(** What a call of [Step] ran. *)
Record step_log : Type := mkLog {
  islands : option (list Island.t);      (* the islands of Solve, when it ran *)
  toi_events : option (list toi_event)   (* the events of SolveTOI, when it ran *)
}.

Definition Step (fuel : nat) (dt : R) (velocityIterations positionIterations : Z)
    (w : World.t) : result (World.t * step_log) :=
  (* If new fixtures were added, we need to find the new contacts. *)
  w ← (if flag_on (World.m_flags w) World.e_newFixture
       then w ← FindNewContacts (World.m_bodyList w) w;
            Done (World.with_flags (clear_flag (World.m_flags w) World.e_newFixture) w)
       else Done w);
  let w := World.with_flags (set_flag (World.m_flags w) World.e_locked) w in
  let step := time_step w dt velocityIterations positionIterations in
  (* Update contacts. This is where some contacts are destroyed. *)
  w ← Collide w;
  (* Integrate velocities, solve velocity constraints, and integrate positions. *)
  '(w, solved) ←
    (if World.m_stepComplete w && bool_decide (0 < dt)%R
     then '(w, built) ← Solve bm fuel step w; Done (w, Some built)
     else Done (w, None));
  (* Handle TOI events. *)
  '(w, toi) ←
    (if World.m_continuousPhysics w && bool_decide (0 < dt)%R
     then '(w, events) ← SolveTOI fuel step w; Done (w, Some events)
     else Done (w, None));
  let w := if decide (0 < dt)%R then World.with_inv_dt0 (inv_dt step) w else w in
  w ← (if flag_on (World.m_flags w) World.e_clearForces then ClearForces w else Done w);
  let w := World.with_flags (clear_flag (World.m_flags w) World.e_locked) w in
  Done (w, mkLog solved toi).

End TOI.

(** No force and no torque is left on body [b]. *)
Definition forces_cleared (w : World.t) (b : nat) : Prop :=
  ∃ body, World.bodies w !! b = Some body
          ∧ Body.m_force body = Vec.zero ∧ Body.m_torque body = 0%R.

(** A world with one dynamic body under a force, as after a call of
    [Step]: not locked, forces cleared by default. *)
Definition pushed_body_world : World.t :=
  World.mk World.e_clearForces
    (<[0%nat := Body.with_motion Vec.zero 0 (mkVec2 1 2) 3 0
                  (sample_body cb2_dynamicBody awake_active [] [] [])]> ∅)
    ∅ ∅ ∅ [0%nat] [] 1 0 [] 0 (mkVec2 0 (-10)) true 0%R true true false true.

(** The ratio of the time steps as the specification words it: this step's
    [1/dt] over the previous step's [1/dt].  The code computes
    [dtRatio] of [time_step] instead. *)
Definition dtRatio_as_specified (inv_dt inv_dt0 : R) : R := (inv_dt / inv_dt0)%R.

(** The contact [c] has used up its sub-steps: the TOI search passes it by. *)
Definition exhausted (w : World.t) (c : nat) : Prop :=
  ∃ ct, World.contacts w !! c = Some ct ∧ cb2_maxSubSteps < Contact.m_toiCount ct.

(** No contact of [w] is lost in [w'], and no sub-step counter is lower. *)
Definition counts_kept (w w' : World.t) : Prop :=
  ∀ c ct, World.contacts w !! c = Some ct →
    ∃ ct', World.contacts w' !! c = Some ct'
           ∧ Contact.m_toiCount ct <= Contact.m_toiCount ct'.

(** The chain world in the middle of a sub-stepped step, when both contacts
    have been the TOI event nine times. *)
Definition worn_world : World.t :=
  put_contact 0 (Contact.mk solid_contact 0 1 0 0 9 0%R)
    (put_contact 1 (Contact.mk solid_contact 1 2 0 0 9 0%R)
       (World.with_stepComplete false chain_world)).

(** ** The order of the TOI events

    What the search for the first TOI looks at in a contact, and the
    invariant of the loop over the TOI events. *)

Definition alpha0_of (body : Body.t) : R := Sweep.alpha0 (Body.m_sweep body).

(** The tests of the search on a body of a contact: awake and not static,
    and a bullet or not dynamic. *)
Definition toi_active (body : Body.t) : bool :=
  Body.IsAwake body && negb (bool_decide (Body.m_type body = cb2_staticBody)).
Definition toi_collide (body : Body.t) : bool :=
  Body.IsBullet body || negb (bool_decide (Body.m_type body = cb2_dynamicBody)).

(** The search computes a TOI for the contact when it has no cached one:
    the contact is enabled, has sub-steps left and no sensor, one of its
    bodies is active and one collides continuously. *)
Definition live (w : World.t) (ct : Contact.t) : Prop :=
  Contact.IsEnabled ct = true
  ∧ Contact.m_toiCount ct <= cb2_maxSubSteps
  ∧ ∃ fA fB bodyA bodyB,
      World.fixtures w !! Contact.m_fixtureA ct = Some fA
      ∧ World.fixtures w !! Contact.m_fixtureB ct = Some fB
      ∧ World.bodies w !! Fixture.m_body fA = Some bodyA
      ∧ World.bodies w !! Fixture.m_body fB = Some bodyB
      ∧ Fixture.m_isSensor fA = false ∧ Fixture.m_isSensor fB = false
      ∧ (toi_active bodyA = true ∨ toi_active bodyB = true)
      ∧ (toi_collide bodyA = true ∨ toi_collide bodyB = true).

(** Body [b] is one of the two bodies of the contact. *)
Definition touches (w : World.t) (ct : Contact.t) (b : nat) : Prop :=
  ∃ fx, (World.fixtures w !! Contact.m_fixtureA ct = Some fx
         ∨ World.fixtures w !! Contact.m_fixtureB ct = Some fx)
        ∧ Fixture.m_body fx = b.

(** The invariant of the loop, at time fraction [T]. The bodies in [L]
    have been advanced to [T] or beyond; the contacts in [E] are being
    worked on. A cached TOI that the search would use is not before [T], a
    contact the search would compute a TOI for has a body in [L], the
    sweeps start in the step, every contact is in the list of the world and
    the contact edges of a body name contacts of that body, and every
    cached TOI is a fraction of the step. *)
Record toi_inv (T : R) (L E : nat → Prop) (w : World.t) : Prop := mkToiInv {
  ti_advanced : ∀ b body, L b → World.bodies w !! b = Some body → (T <= alpha0_of body)%R;
  ti_cached : ∀ c ct,
    World.contacts w !! c = Some ct →
    Contact.has_toi ct = true → Contact.IsEnabled ct = true →
    Contact.m_toiCount ct <= cb2_maxSubSteps →
    E c ∨ (T <= Contact.m_toi ct)%R;
  ti_fresh : ∀ c ct,
    World.contacts w !! c = Some ct →
    Contact.has_toi ct = false → live w ct →
    E c ∨ ∃ b, touches w ct b ∧ L b;
  ti_range : ∀ b body, World.bodies w !! b = Some body → (0 <= alpha0_of body <= 1)%R;
  ti_listed : ∀ c ct, World.contacts w !! c = Some ct → c ∈ World.m_contactList w;
  ti_edges : ∀ b body ce,
    World.bodies w !! b = Some body → ce ∈ Body.m_contactList body →
    ∃ ct, World.contacts w !! ce_contact ce = Some ct ∧ touches w ct b;
  ti_unit : ∀ c ct,
    World.contacts w !! c = Some ct → Contact.has_toi ct = true →
    (0 <= Contact.m_toi ct <= 1)%R
}.

Definition nobody : nat → Prop := λ _, False.
Definition everybody : nat → Prop := λ _, True.

(** The bodies whose sweep starts at [T] or later. *)
Definition advanced (T : R) (w : World.t) : nat → Prop :=
  λ b, ∀ body, World.bodies w !! b = Some body → (T <= alpha0_of body)%R.

(** A world on which [SolveTOI] can be called: the sweeps start in the
    step, every cached TOI is a fraction of the step, every contact is in
    the list of the world and the contact edges of a body name contacts of
    that body. *)
Definition toi_ready (w : World.t) : Prop :=
  (∀ b body, World.bodies w !! b = Some body → (0 <= alpha0_of body <= 1)%R)
  ∧ (∀ c ct, World.contacts w !! c = Some ct →
       Contact.has_toi ct = true → (0 <= Contact.m_toi ct <= 1)%R)
  ∧ (∀ c ct, World.contacts w !! c = Some ct → c ∈ World.m_contactList w)
  ∧ (∀ b body ce,
       World.bodies w !! b = Some body → ce ∈ Body.m_contactList body →
       ∃ ct, World.contacts w !! ce_contact ce = Some ct ∧ touches w ct b).

(** What the loop takes for granted of its collaborators: a time of impact
    is not negative, the TOI solver of an island leaves the start of a
    sweep where it is, and a pair of fixtures that the broad phase reports
    has a fixture on a body that moved. *)
Definition toi_oracle_ok {env : Collaborators} : Prop :=
  ∀ w input, (0 <= toi_t (cb2TimeOfImpact w input))%R.

Definition toi_solver_keeps_time {env : Collaborators} : Prop :=
  ∀ w island subStep b body,
    Sweep.alpha0 (island_toi_solution w island subStep b body).1.1.2
    = Sweep.alpha0 (Body.m_sweep body).

Definition broad_phase_of_moved {env : Collaborators} : Prop :=
  ∀ w moved fA fB, (fA, fB) ∈ broad_phase_pairs w moved →
    ∃ fx, (World.fixtures w !! fA = Some fx ∨ World.fixtures w !! fB = Some fx)
          ∧ Fixture.m_body fx ∈ moved.

(** The events of a call are in order of time. *)
Definition events_in_order (events : list toi_event) : Prop :=
  ∀ i j ei ej, (i <= j)%nat → events !! i = Some ei → events !! j = Some ej →
    (minAlpha ei <= minAlpha ej)%R.

(** A write to a body that the search for the first TOI cannot tell: the
    contact edges and the answers to the tests are the same. *)
Definition same_tests (new old : Body.t) : Prop :=
  Body.m_contactList new = Body.m_contactList old
  ∧ toi_active new = toi_active old
  ∧ toi_collide new = toi_collide old.

(** The search for the first TOI has been through contact [c]: if the
    search uses the contact, its TOI is cached and is not before the least
    one found, or the search computes no TOI for it. *)
Definition scanned (w : World.t) (ev : toi_event) (c : nat) : Prop :=
  ∀ ct, World.contacts w !! c = Some ct →
    Contact.IsEnabled ct = true → Contact.m_toiCount ct <= cb2_maxSubSteps →
    (Contact.has_toi ct = true → (minAlpha ev <= Contact.m_toi ct)%R)
    ∧ (Contact.has_toi ct = false → ¬ live w ct).

(** The bodies of [w] are in [w'] with their type and their contact edges. *)
Definition same_edges (w w' : World.t) : Prop :=
  ∀ b body, World.bodies w !! b = Some body →
    ∃ body', World.bodies w' !! b = Some body'
             ∧ Body.m_contactList body' = Body.m_contactList body
             ∧ Body.m_type body' = Body.m_type body.

(** Contact [x] is on an edge of [body], a dynamic body. *)
Definition edge_of (body : Body.t) (x : nat) : Prop :=
  Body.m_type body = cb2_dynamicBody
  ∧ ∃ ce, ce ∈ Body.m_contactList body ∧ ce_contact ce = x.

(** Contact [x] has no cached TOI. *)
Definition no_toi (w : World.t) (x : nat) : Prop :=
  ∀ ct, World.contacts w !! x = Some ct → Contact.has_toi ct = false.

(** No contact of [w'] has a cached TOI that it had not in [w]. *)
Definition toi_flags_lowered (w w' : World.t) : Prop :=
  ∀ x, no_toi w x → no_toi w' x.

(** A run from [w] to [w'] keeps the invariant and the edges of the bodies. *)
Definition kept (T : R) (L E : nat → Prop) (w w' : World.t) : Prop :=
  (toi_inv T L E w → toi_inv T L E w') ∧ same_edges w w'.

(** A dynamic body (0) in contact (0) with a static body (1), in a step
    that is under way: the TOI of the contact is cached, at half of the
    step. *)
Definition impact_world : World.t :=
  World.mk World.e_clearForces
    (<[0%nat := sample_body cb2_dynamicBody awake_active [0%nat] [] [mkContactEdge 1 0]]>
       (<[1%nat := sample_body cb2_staticBody Body.e_activeFlag [1%nat] []
                     [mkContactEdge 0 0]]> ∅))
    (<[0%nat := Fixture.mk 0 false 1]> (<[1%nat := Fixture.mk 1 false 1]> ∅))
    (<[0%nat := Contact.mk (set_flag solid_contact Contact.e_toiFlag) 0 1 0 0 0 (1 / 2)%R]> ∅)
    ∅
    [1%nat; 0%nat] [] 2 0 [0%nat] 1 Vec.zero true 60%R true true false false.

(** ** The relative velocity a friction joint works against

    The velocity of the anchor of body B relative to the anchor of body A,
    and the spin of B relative to A, as [SolveVelocityConstraints] computes
    them from the velocities of the two bodies. *)

Definition angular_Cdot (velA velB : cb2Velocity) : R := (vel_w velB - vel_w velA)%R.

Definition linear_Cdot (j : FrictionJoint.cb2FrictionJoint) (velA velB : cb2Velocity) : Vec2 :=
  Vec.sub (Vec.sub (Vec.add (vel_v velB) (cb2CrossSV (vel_w velB) (FrictionJoint.m_rB j)))
                   (vel_v velA))
          (cb2CrossSV (vel_w velA) (FrictionJoint.m_rA j)).

(** Two bodies drifting apart, joined by a friction joint with limits 2
    and 5, in a step of one second. *)
Definition drifting_data : cb2SolverData :=
  mkSolverData (mkTimeStep 1 1 1 8 3 true)
    [mkPosition Vec.zero 0; mkPosition Vec.zero 0]
    [mkVelocity (mkVec2 1 0) 0; mkVelocity (mkVec2 4 0) 2].


(** ** Sleeping (cb2World::SetAllowSleeping) *)

Definition with_allowSleep (x : bool) (w : World.t) : World.t :=
  World.mk (World.m_flags w) (World.bodies w) (World.fixtures w) (World.contacts w)
    (World.joints w) (World.m_bodyList w) (World.m_jointList w) (World.m_bodyCount w)
    (World.m_jointCount w) (World.m_contactList w) (World.m_contactCount w)
    (World.m_gravity w) x (World.m_inv_dt0 w)
    (World.m_warmStarting w) (World.m_continuousPhysics w) (World.m_subStepping w)
    (World.m_stepComplete w).

Definition SetAllowSleeping (flag : bool) (w : World.t) : result World.t :=
  if Bool.eqb flag (World.m_allowSleep w)
  then Done w
  else
    let w := with_allowSleep flag w in
    if negb (World.m_allowSleep w)
    then for_each (update_body (Body.SetAwake true)) (World.m_bodyList w) w
    else Done w.

(** ** What a call does to a body *)

(** The body without the force and the torque on it. *)
Definition force_cleared (body : Body.t) : Body.t :=
  Body.with_motion (Body.m_linearVelocity body) (Body.m_angularVelocity body)
    Vec.zero 0%R (Body.m_sleepTime body) body.

(** The bodies of the list, in the map of bodies [m], after [f] has been
    applied to each in turn. *)
Definition each_body (f : Body.t → Body.t) (l : list nat) (m : gmap nat Body.t)
    : gmap nat Body.t :=
  foldl (λ m b, alter f b m) m l.

(** A body as its constructor leaves it: in no joint, no contact, and
    with no fixture. *)
Definition unattached (body : Body.t) : Prop :=
  Body.m_jointList body = [] ∧ Body.m_contactList body = []
  ∧ Body.m_fixtureList body = [].

(** Two dynamic bodies under a force, free of each other: body 0 is
    asleep and body 1 is awake and moving. *)
Definition two_bodies : World.t :=
  World.mk World.e_clearForces
    (<[0%nat := Body.with_motion Vec.zero 0 (mkVec2 1 2) 3 0
                  (sample_body cb2_dynamicBody Body.e_activeFlag [] [] [])]>
       (<[1%nat := Body.with_motion (mkVec2 1 0) 0 (mkVec2 0 1) 0 0
                     (sample_body cb2_dynamicBody awake_active [] [] [])]> ∅))
    ∅ ∅ ∅ [1%nat; 0%nat] [] 2 0 [] 0 (mkVec2 0 (-10)) true 0%R true true false true.

(** ** What the links of a world depend on

    A write that keeps the edge lists and the active flag of a body, the
    fixtures of a contact and the bodies of a joint, and that leaves the
    fixtures, the lists and the counts of the world alone, keeps the links
    between the objects. *)

Definition body_links (b : Body.t) : bool * list cb2ContactEdge * list cb2JointEdge :=
  (Body.IsActive b, Body.m_contactList b, Body.m_jointList b).

Definition contact_links (c : Contact.t) : nat * nat :=
  (Contact.m_fixtureA c, Contact.m_fixtureB c).

Definition same_links (w w' : World.t) : Prop :=
  (∀ b, body_links <$> World.bodies w' !! b = body_links <$> World.bodies w !! b)
  ∧ (∀ c, contact_links <$> World.contacts w' !! c = contact_links <$> World.contacts w !! c)
  ∧ (∀ j, joint_shape <$> World.joints w' !! j = joint_shape <$> World.joints w !! j)
  ∧ World.fixtures w' = World.fixtures w
  ∧ World.m_bodyList w' = World.m_bodyList w
  ∧ World.m_contactList w' = World.m_contactList w
  ∧ World.m_jointList w' = World.m_jointList w
  ∧ World.m_bodyCount w' = World.m_bodyCount w
  ∧ World.m_contactCount w' = World.m_contactCount w
  ∧ World.m_jointCount w' = World.m_jointCount w.

(** A call from [w] to [w'] keeps the world well formed. *)
Definition wf_kept (w w' : World.t) : Prop := wf_world w → wf_world w'.

(** ** Joint edges *)

(** The body with an edge for joint [j] towards body [o] at the head of its
    list of joints, and the body without the edges of joint [j]. *)
Definition with_joint_edge (o j : nat) (b : Body.t) : Body.t :=
  Body.with_jointList (mkJointEdge o j :: Body.m_jointList b) b.

Definition without_joint (j : nat) (b : Body.t) : Body.t :=
  Body.with_jointList (unlink_joint_edge j (Body.m_jointList b)) b.

(** The constructor of joints copies the bodies and the collision setting
    of the definition. *)
Definition joint_copies_def {env : Collaborators} (def : cb2JointDef) : Prop :=
  Joint.m_bodyA (cb2Joint_Create def) = bodyA def
  ∧ Joint.m_bodyB (cb2Joint_Create def) = bodyB def
  ∧ Joint.m_collideConnected (cb2Joint_Create def) = collideConnected def.

(** ** What a call can only take away

    From [w] to [w'] no joint, contact or fixture has appeared, the bodies
    are the same, and so are the list and the count of bodies and the flags
    of the world. *)
Definition nothing_new (w w' : World.t) : Prop :=
  (∀ j, World.joints w !! j = None → World.joints w' !! j = None)
  ∧ (∀ c, World.contacts w !! c = None → World.contacts w' !! c = None)
  ∧ (∀ f, World.fixtures w !! f = None → World.fixtures w' !! f = None)
  ∧ (∀ b, is_Some (World.bodies w' !! b) ↔ is_Some (World.bodies w !! b))
  ∧ World.m_bodyList w' = World.m_bodyList w
  ∧ World.m_bodyCount w' = World.m_bodyCount w
  ∧ World.m_flags w' = World.m_flags w.

(** ** A world at rest *)

(** Nothing in the world needs solving: every body is asleep, inactive or
    static. *)
Definition at_rest (w : World.t) : Prop :=
  ∀ b body, World.bodies w !! b = Some body →
    Body.IsAwake body = false ∨ Body.IsActive body = false
    ∨ Body.m_type body = cb2_staticBody.

(** The body [x] is where, and as, the body [y] is: same type, placement,
    velocities, forces, and awake and active states. *)
Definition same_motion (x y : Body.t) : Prop :=
  Body.m_type x = Body.m_type y
  ∧ Body.m_xf x = Body.m_xf y
  ∧ Body.m_sweep x = Body.m_sweep y
  ∧ Body.m_linearVelocity x = Body.m_linearVelocity y
  ∧ Body.m_angularVelocity x = Body.m_angularVelocity y
  ∧ Body.m_force x = Body.m_force y
  ∧ Body.m_torque x = Body.m_torque y
  ∧ Body.IsAwake x = Body.IsAwake y
  ∧ Body.IsActive x = Body.IsActive y.

Definition bodies_stay (w w' : World.t) : Prop :=
  ∀ b body, World.bodies w !! b = Some body →
    ∃ body', World.bodies w' !! b = Some body' ∧ same_motion body' body.

(** Two sleeping bodies in touch, and a static body. *)
Definition sleeping_world : World.t :=
  World.mk World.e_clearForces
    (<[0%nat := sample_body cb2_dynamicBody Body.e_activeFlag [0%nat] [] [mkContactEdge 1 0]]>
       (<[1%nat := sample_body cb2_dynamicBody Body.e_activeFlag [1%nat] []
                     [mkContactEdge 0 0]]>
          (<[2%nat := sample_body cb2_staticBody awake_active [2%nat] [] []]> ∅)))
    (<[0%nat := Fixture.mk 0 false 1]>
       (<[1%nat := Fixture.mk 1 false 1]> (<[2%nat := Fixture.mk 2 false 1]> ∅)))
    (<[0%nat := Contact.mk solid_contact 0 1 0 0 0 0%R]> ∅)
    ∅
    [2%nat; 1%nat; 0%nat] [] 3 0 [0%nat] 1 Vec.zero true 0%R true true false true.

(** ** The makeup of the world

    What a body is made of: its type, its fixtures, its joints, its mass
    and whether it is active and a bullet; the bodies a joint connects; and
    the fixtures, the lists of bodies and of joints and the settings of
    the world. *)

Definition body_makeup (b : Body.t)
    : cb2BodyType * list nat * Z * list cb2JointEdge * R * R * bool * bool :=
  (Body.m_type b, Body.m_fixtureList b, Body.m_fixtureCount b, Body.m_jointList b,
   Body.m_invMass b, Body.m_invI b, Body.IsActive b, Body.IsBullet b).

Definition joint_makeup (j : Joint.t) : nat * nat * bool :=
  (Joint.m_bodyA j, Joint.m_bodyB j, Joint.m_collideConnected j).

Definition settings (w : World.t)
    : gmap nat Fixture.t * list nat * Z * list nat * Z * Vec2 * bool * bool * bool * bool :=
  (World.fixtures w, World.m_bodyList w, World.m_bodyCount w,
   World.m_jointList w, World.m_jointCount w,
   World.m_gravity w, World.m_allowSleep w, World.m_warmStarting w,
   World.m_continuousPhysics w, World.m_subStepping w).

Definition same_makeup (w w' : World.t) : Prop :=
  (∀ b, body_makeup <$> World.bodies w' !! b = body_makeup <$> World.bodies w !! b)
  ∧ (∀ j, joint_makeup <$> World.joints w' !! j = joint_makeup <$> World.joints w !! j)
  ∧ settings w' = settings w.

(** The makeup, the flags and the inverse of the last time step are as
    they were. *)
Definition untouched (w w' : World.t) : Prop :=
  same_makeup w w'
  ∧ World.m_flags w' = World.m_flags w
  ∧ World.m_inv_dt0 w' = World.m_inv_dt0 w.

(** ** The events of the TOI loop *)

(** The event of a turn that went on to move bodies: a contact with a time
    of impact before the end of the step. *)
Definition impact (ev : toi_event) : Prop :=
  is_Some (minContact ev) ∧ (minAlpha ev <= 1 - 10 * cb2_epsilon)%R.

(** No sub-step counter of [w] is above the count at which the search
    passes a contact by. *)
Definition sub_steps_bounded (w : World.t) : Prop :=
  ∀ c ct, World.contacts w !! c = Some ct → Contact.m_toiCount ct <= cb2_maxSubSteps + 1.

(** From [w] to [w'] no sub-step counter has grown: a contact of [w'] is a
    contact of [w] with a counter that is not higher, or has a counter of
    zero. *)
Definition counts_capped (w w' : World.t) : Prop :=
  ∀ c ct', World.contacts w' !! c = Some ct' →
    Contact.m_toiCount ct' <= 0
    ∨ ∃ ct, World.contacts w !! c = Some ct
            ∧ Contact.m_toiCount ct' <= Contact.m_toiCount ct.

(** ** The bodies a pass of Solve has to simulate *)

(** The body is awake, active and not static: a seed of an island. *)
Definition wakeful (w : World.t) (b : nat) : Prop :=
  ∃ body, World.bodies w !! b = Some body
          ∧ Body.IsAwake body = true ∧ Body.IsActive body = true
          ∧ Body.m_type body ≠ cb2_staticBody.

(** From [w] to [w'] no body is lost, no island flag is cleared and no
    body is put to sleep. *)
Definition wakes (w w' : World.t) : Prop :=
  ∀ b body, World.bodies w !! b = Some body →
    ∃ body', World.bodies w' !! b = Some body'
             ∧ (Body.in_island body = true → Body.in_island body' = true)
             ∧ (Body.IsAwake body = true → Body.IsAwake body' = true).

(** A body of [w0] that is not static and that was awake is still awake in
    [w], or it has the island flag. *)
Definition awake_or_flagged (w0 w : World.t) : Prop :=
  ∀ b body0, World.bodies w0 !! b = Some body0 →
    Body.m_type body0 ≠ cb2_staticBody → Body.IsAwake body0 = true →
    ∃ body, World.bodies w !! b = Some body
            ∧ (Body.IsAwake body = true ∨ Body.in_island body = true).

(** ** Contact edges *)

(** The body with an edge for contact [c] towards body [o] at the head of
    its list of contacts, and the body without the edges of contact [c]. *)
Definition with_contact_edge (o c : nat) (b : Body.t) : Body.t :=
  Body.with_contactList (mkContactEdge o c :: Body.m_contactList b) b.

Definition without_contact (c : nat) (b : Body.t) : Body.t :=
  Body.with_contactList (unlink_contact_edge c (Body.m_contactList b)) b.

(** The broad phase reports fixtures of the world, on active bodies of the
    world: the fixtures of a body that is not active have no proxy. *)
Definition broad_phase_active {env : Collaborators} : Prop :=
  ∀ w moved fA fB, (fA, fB) ∈ broad_phase_pairs w moved →
    ∃ fxA fxB bA bB,
      World.fixtures w !! fA = Some fxA ∧ World.fixtures w !! fB = Some fxB
      ∧ World.bodies w !! Fixture.m_body fxA = Some bA
      ∧ World.bodies w !! Fixture.m_body fxB = Some bB
      ∧ Body.IsActive bA = true ∧ Body.IsActive bB = true.

(** From [w] to [w'] the fixtures are the same, no body is lost and no
    body changes its active state. *)
Definition active_kept (w w' : World.t) : Prop :=
  World.fixtures w' = World.fixtures w
  ∧ ∀ b body, World.bodies w !! b = Some body →
      ∃ body', World.bodies w' !! b = Some body'
               ∧ Body.IsActive body' = Body.IsActive body.

(** The chain world with continuous physics turned off. *)
Definition discrete_chain_world : World.t :=
  World.mk (World.m_flags chain_world) (World.bodies chain_world)
    (World.fixtures chain_world) (World.contacts chain_world) (World.joints chain_world)
    (World.m_bodyList chain_world) (World.m_jointList chain_world)
    (World.m_bodyCount chain_world) (World.m_jointCount chain_world)
    (World.m_contactList chain_world) (World.m_contactCount chain_world)
    (World.m_gravity chain_world) (World.m_allowSleep chain_world)
    (World.m_inv_dt0 chain_world) (World.m_warmStarting chain_world) false
    (World.m_subStepping chain_world) (World.m_stepComplete chain_world).

(** ** A step that advances nothing *)

(** The body [x] is where the body [y] is and moves as it does: same
    transform, same sweep, same linear and angular velocity. *)
Definition same_placement (x y : Body.t) : Prop :=
  Body.m_xf x = Body.m_xf y
  ∧ Body.m_sweep x = Body.m_sweep y
  ∧ Body.m_linearVelocity x = Body.m_linearVelocity y
  ∧ Body.m_angularVelocity x = Body.m_angularVelocity y.

(** The body [x] is under the force and the torque of the body [y]. *)
Definition same_forces (x y : Body.t) : Prop :=
  Body.m_force x = Body.m_force y ∧ Body.m_torque x = Body.m_torque y.

(** No body of [w] is lost or moved in [w']. *)
Definition nothing_advanced (w w' : World.t) : Prop :=
  ∀ b body, World.bodies w !! b = Some body →
    ∃ body', World.bodies w' !! b = Some body' ∧ same_placement body' body.

(** ** What the island search reaches

    The body [o] is reached from the body [s] along contact and joint edges
    that leave bodies that are not static: the search reads the edges of
    no other body. *)
Inductive reached (w : World.t) (s : nat) : nat → Prop :=
| reached_seed : reached w s s
| reached_contact (b c o : nat) :
    reached w s b → nonstatic w b → cedge w b c o → reached w s o
| reached_joint (b j o : nat) :
    reached w s b → nonstatic w b → jedge w b j o → reached w s o.

(** The island has grown from a seed that is not static: each of its
    bodies is reached from the seed. *)
Definition grown_from_a_seed (w : World.t) (island : Island.t) : Prop :=
  ∃ seed, nonstatic w seed ∧ seed ∈ Island.m_bodies island
          ∧ ∀ b, b ∈ Island.m_bodies island → reached w seed b.

(** The only links of body [a] are towards body [s]. *)
Definition linked_only_to (w : World.t) (a s : nat) : Prop :=
  (∀ c o, cedge w a c o → o = s) ∧ (∀ j o, jedge w a j o → o = s).

(** * The arithmetic of the program: IEEE 754 binary32

    The C++ type [float] as the program computes with it: a sum, a
    difference, a product, a quotient and a square root are each rounded
    to the nearest binary32 number, ties to even, one operation at a time
    (no fused multiply-add, no wider intermediate format), signed zeros,
    infinities and NaN included; a comparison with a NaN is false. The
    numbers and the operations are those of the specification of floating
    point arithmetic of the standard library, at precision 24 and maximal
    exponent 128. *)

Module Binary32.

Definition prec : Z := 24.
Definition emax : Z := 128.

Definition float : Type := spec_float.

Definition add : float → float → float := SFadd prec emax.
Definition sub : float → float → float := SFsub prec emax.
Definition mul : float → float → float := SFmul prec emax.
Definition div : float → float → float := SFdiv prec emax.
Definition sqrt : float → float := SFsqrt prec emax.
Definition neg : float → float := SFopp.
(* a < b, a <= b *)
Definition ltb : float → float → bool := SFltb.
Definition leb : float → float → bool := SFleb.

(** The binary32 number nearest to an integer, and the literals [0.0f] and
    [1.0f]. *)
Definition of_Z (n : Z) : float := binary_normalize prec emax n 0 false.
Definition zero : float := S754_zero false.
Definition one : float := Eval vm_compute in of_Z 1.

(** A number of the format: the mantissa fits the precision and the
    exponent the range. *)
Definition is_binary32 (x : float) : bool := valid_binary prec emax x.


(** The rational number a finite binary32 number stands for. *)
Definition exact (x : float) : Q :=
  match x with
  | S754_finite s m e =>
      let v := if (0 <=? e)%Z then inject_Z (Zpos m * 2 ^ e)
               else Qmake (Zpos m) (Z.to_pos (2 ^ (- e))) in
      if s then Qopp v else v
  | _ => 0%Q
  end.

Record Vec2 : Type := mkVec2 { vx : float; vy : float }.

Record Matrix22 : Type := mkMatrix22 { m00 : float; m01 : float; m10 : float; m11 : float }.

(** Modelled from the spec: the vector type of the math headers, which
    are not among the sources, with its operations on pairs of floats. *)
Module Vec.
Definition zero : Vec2 := mkVec2 Binary32.zero Binary32.zero.
Definition add (a b : Vec2) : Vec2 := mkVec2 (add (vx a) (vx b)) (add (vy a) (vy b)).
Definition sub (a b : Vec2) : Vec2 := mkVec2 (sub (vx a) (vx b)) (sub (vy a) (vy b)).
Definition neg (a : Vec2) : Vec2 := mkVec2 (neg (vx a)) (neg (vy a)).
(* float * Vec2 *)
Definition scale (s : float) (a : Vec2) : Vec2 := mkVec2 (mul s (vx a)) (mul s (vy a)).
(* Vec2 *= float *)
Definition mul (a : Vec2) (s : float) : Vec2 := mkVec2 (mul (vx a) s) (mul (vy a) s).
(* Vec2f::lengthSquared, length and normalize *)
Definition lengthSquared (a : Vec2) : float :=
  Binary32.add (Binary32.mul (vx a) (vx a)) (Binary32.mul (vy a) (vy a)).
Definition length (a : Vec2) : float := sqrt (lengthSquared a).
Definition normalize (a : Vec2) : Vec2 :=
  let invS := div one (length a) in
  mkVec2 (Binary32.mul (vx a) invS) (Binary32.mul (vy a) invS).
End Vec.

(** Modelled from the spec: [cb2Min], [cb2Max] and [cb2Clamp] of cb2Math.h,
    which is not among the sources; the clamp of [a] to the limits is
    [cb2Max(low, cb2Min(a, high))]. *)
Definition cb2Min (a b : float) : float := if ltb a b then a else b.
Definition cb2Max (a b : float) : float := if ltb b a then a else b.
Definition cb2Clamp (a low high : float) : float := cb2Max low (cb2Min a high).

(** Modelled from the spec: the cross products [cb2Cross(Vec2, Vec2)] and
    [cb2Cross(float, Vec2)], the rotation [cb2Rot] and the products by a
    rotation and by a matrix, all of cb2Math.h. *)
Definition cb2Cross (a b : Vec2) : float := sub (mul (vx a) (vy b)) (mul (vy a) (vx b)).
Definition cb2CrossSV (s : float) (a : Vec2) : Vec2 :=
  mkVec2 (mul (neg s) (vy a)) (mul s (vx a)).

Record cb2Rot : Type := mkRot { rot_s : float; rot_c : float }.
Definition cb2MulRot (q : cb2Rot) (v : Vec2) : Vec2 :=
  mkVec2 (sub (mul (rot_c q) (vx v)) (mul (rot_s q) (vy v)))
         (add (mul (rot_s q) (vx v)) (mul (rot_c q) (vy v))).
Definition cb2MulMat (A : Matrix22) (v : Vec2) : Vec2 :=
  mkVec2 (add (mul (m00 A) (vx v)) (mul (m01 A) (vy v)))
         (add (mul (m10 A) (vx v)) (mul (m11 A) (vy v))).

(** Modelled from the spec: the records of cb2TimeStep.h, a header that is
    not among the sources, with the fields the sources read and write. *)
Record cb2TimeStep : Type := mkTimeStep {
  dt : float;
  inv_dt : float;
  dtRatio : float;
  velocityIterations : Z;
  positionIterations : Z;
  warmStarting : bool
}.

Record cb2Position : Type := mkPosition { pos_c : Vec2; pos_a : float }.
Record cb2Velocity : Type := mkVelocity { vel_v : Vec2; vel_w : float }.

Record cb2SolverData : Type := mkSolverData {
  step : cb2TimeStep;
  positions : list cb2Position;
  velocities : list cb2Velocity
}.

(** The time step of a call [Step(dt, velocityIterations,
    positionIterations)] of a world whose last positive time step had the
    inverse [m_inv_dt0], and the inverse the call leaves in the world
    (cb2World.cpp, the arithmetic of [cb2World::Step]). *)
Definition time_step (m_inv_dt0 : float) (m_warmStarting : bool) (dt : float)
    (velocityIterations positionIterations : Z) : cb2TimeStep :=
  mkTimeStep dt
    (if ltb zero dt then div one dt else zero)
    (mul m_inv_dt0 dt)
    velocityIterations positionIterations
    m_warmStarting.

Definition inv_dt0_after (m_inv_dt0 : float) (step : cb2TimeStep) : float :=
  if ltb zero (dt step) then inv_dt step else m_inv_dt0.

End Binary32.

(** ** The friction joint in binary32 (cb2FrictionJoint.cpp) *)

Module FrictionJoint32.
Import Binary32.

(** What the joint reads from the bodies it connects. *)
Record BodyData : Type := mkBodyData {
  m_islandIndex : Z;
  localCenter : Vec2;
  m_invMass : float;
  m_invI : float
}.

Record cb2FrictionJoint : Type := mkJoint {
  m_localAnchorA : Vec2;
  m_localAnchorB : Vec2;
  (* solver shared *)
  m_linearImpulse : Vec2;
  m_angularImpulse : float;
  m_maxForce : float;
  m_maxTorque : float;
  (* solver temp *)
  m_indexA : Z;
  m_indexB : Z;
  m_rA : Vec2;
  m_rB : Vec2;
  m_localCenterA : Vec2;
  m_localCenterB : Vec2;
  m_invMassA : float;
  m_invMassB : float;
  m_invIA : float;
  m_invIB : float;
  m_linearMass : Matrix22;
  m_angularMass : float
}.

Definition set_impulses (li : Vec2) (ai : float) (j : cb2FrictionJoint) : cb2FrictionJoint :=
  mkJoint (m_localAnchorA j) (m_localAnchorB j) li ai (m_maxForce j) (m_maxTorque j)
          (m_indexA j) (m_indexB j) (m_rA j) (m_rB j)
          (m_localCenterA j) (m_localCenterB j)
          (m_invMassA j) (m_invMassB j) (m_invIA j) (m_invIB j)
          (m_linearMass j) (m_angularMass j).

Definition set_maxForce (f : float) (j : cb2FrictionJoint) : cb2FrictionJoint :=
  mkJoint (m_localAnchorA j) (m_localAnchorB j) (m_linearImpulse j) (m_angularImpulse j)
          f (m_maxTorque j)
          (m_indexA j) (m_indexB j) (m_rA j) (m_rB j)
          (m_localCenterA j) (m_localCenterB j)
          (m_invMassA j) (m_invMassB j) (m_invIA j) (m_invIB j)
          (m_linearMass j) (m_angularMass j).

Definition set_maxTorque (t : float) (j : cb2FrictionJoint) : cb2FrictionJoint :=
  mkJoint (m_localAnchorA j) (m_localAnchorB j) (m_linearImpulse j) (m_angularImpulse j)
          (m_maxForce j) t
          (m_indexA j) (m_indexB j) (m_rA j) (m_rB j)
          (m_localCenterA j) (m_localCenterB j)
          (m_invMassA j) (m_invMassB j) (m_invIA j) (m_invIB j)
          (m_linearMass j) (m_angularMass j).

Section Solver.

(** [Matrix22f::inverted], the sine and cosine behind [cb2Rot(angle)] and
    [cb2::isValid] belong to headers and libraries that are not part of
    the sources; they are parameters of the joint. *)
Variable inverted : Matrix22 → Matrix22.
Variable cb2Rot_of_angle : float → cb2Rot.
Variable isValid : float → bool.

Definition InitVelocityConstraints (bodyA bodyB : BodyData)
    (j : cb2FrictionJoint) (data : cb2SolverData)
    : result (cb2FrictionJoint * cb2SolverData) :=
  let indexA := m_islandIndex bodyA in
  let indexB := m_islandIndex bodyB in
  let localCenterA := localCenter bodyA in
  let localCenterB := localCenter bodyB in
  let invMassA := m_invMass bodyA in
  let invMassB := m_invMass bodyB in
  let invIA := m_invI bodyA in
  let invIB := m_invI bodyB in
  pA ← array_get (positions data) indexA;
  velA ← array_get (velocities data) indexA;
  let aA := pos_a pA in
  let vA := vel_v velA in
  let wA := vel_w velA in
  pB ← array_get (positions data) indexB;
  velB ← array_get (velocities data) indexB;
  let aB := pos_a pB in
  let vB := vel_v velB in
  let wB := vel_w velB in
  let qA := cb2Rot_of_angle aA in
  let qB := cb2Rot_of_angle aB in
  (* Compute the effective mass matrix. *)
  let rA := cb2MulRot qA (Vec.sub (m_localAnchorA j) localCenterA) in
  let rB := cb2MulRot qB (Vec.sub (m_localAnchorB j) localCenterB) in
  let mA := invMassA in let mB := invMassB in
  let iA := invIA in let iB := invIB in
  let K01 := sub (mul (mul (neg iA) (vx rA)) (vy rA)) (mul (mul iB (vx rB)) (vy rB)) in
  let K := mkMatrix22
             (add (add (add mA mB) (mul (mul iA (vy rA)) (vy rA)))
                  (mul (mul iB (vy rB)) (vy rB)))
             K01
             K01
             (add (add (add mA mB) (mul (mul iA (vx rA)) (vx rA)))
                  (mul (mul iB (vx rB)) (vx rB))) in
  let linearMass := inverted K in
  let angularMass0 := add iA iB in
  let angularMass :=
    if ltb zero angularMass0 then div one angularMass0 else angularMass0 in
  let '(linearImpulse, angularImpulse, vA, wA, vB, wB) :=
    if warmStarting (step data)
    then
      (* Scale impulses to support a variable time step. *)
      let linearImpulse := Vec.mul (m_linearImpulse j) (dtRatio (step data)) in
      let angularImpulse := mul (m_angularImpulse j) (dtRatio (step data)) in
      let P := mkVec2 (vx linearImpulse) (vy linearImpulse) in
      let vA := Vec.sub vA (Vec.scale mA P) in
      let wA := sub wA (mul iA (add (cb2Cross rA P) angularImpulse)) in
      let vB := Vec.add vB (Vec.scale mB P) in
      let wB := add wB (mul iB (add (cb2Cross rB P) angularImpulse)) in
      (linearImpulse, angularImpulse, vA, wA, vB, wB)
    else
      (Vec.zero, zero, vA, wA, vB, wB) in
  vs ← array_set (velocities data) indexA (mkVelocity vA wA);
  vs ← array_set vs indexB (mkVelocity vB wB);
  Done (mkJoint (m_localAnchorA j) (m_localAnchorB j)
                linearImpulse angularImpulse (m_maxForce j) (m_maxTorque j)
                indexA indexB rA rB localCenterA localCenterB
                invMassA invMassB invIA invIB linearMass angularMass,
        mkSolverData (step data) (positions data) vs).

Definition SolveVelocityConstraints (j : cb2FrictionJoint) (data : cb2SolverData)
    : result (cb2FrictionJoint * cb2SolverData) :=
  velA ← array_get (velocities data) (m_indexA j);
  velB ← array_get (velocities data) (m_indexB j);
  let vA := vel_v velA in
  let wA := vel_w velA in
  let vB := vel_v velB in
  let wB := vel_w velB in
  let mA := m_invMassA j in let mB := m_invMassB j in
  let iA := m_invIA j in let iB := m_invIB j in
  let h := dt (step data) in
  (* Solve angular friction *)
  let Cdot := sub wB wA in
  let impulse := mul (neg (m_angularMass j)) Cdot in
  let oldImpulse := m_angularImpulse j in
  let maxImpulse := mul h (m_maxTorque j) in
  let angularImpulse :=
    cb2Clamp (add (m_angularImpulse j) impulse) (neg maxImpulse) maxImpulse in
  let impulse := sub angularImpulse oldImpulse in
  let wA := sub wA (mul iA impulse) in
  let wB := add wB (mul iB impulse) in
  (* Solve linear friction *)
  let Cdot := Vec.sub (Vec.sub (Vec.add vB (cb2CrossSV wB (m_rB j))) vA)
                      (cb2CrossSV wA (m_rA j)) in
  let impulse := Vec.neg (cb2MulMat (m_linearMass j) Cdot) in
  let oldImpulse := m_linearImpulse j in
  let linearImpulse := Vec.add (m_linearImpulse j) impulse in
  let maxImpulse := mul h (m_maxForce j) in
  let linearImpulse :=
    if ltb (mul maxImpulse maxImpulse) (Vec.lengthSquared linearImpulse)
    then Vec.mul (Vec.normalize linearImpulse) maxImpulse
    else linearImpulse in
  let impulse := Vec.sub linearImpulse oldImpulse in
  let vA := Vec.sub vA (Vec.scale mA impulse) in
  let wA := sub wA (mul iA (cb2Cross (m_rA j) impulse)) in
  let vB := Vec.add vB (Vec.scale mB impulse) in
  let wB := add wB (mul iB (cb2Cross (m_rB j) impulse)) in
  vs ← array_set (velocities data) (m_indexA j) (mkVelocity vA wA);
  vs ← array_set vs (m_indexB j) (mkVelocity vB wB);
  Done (set_impulses linearImpulse angularImpulse j,
        mkSolverData (step data) (positions data) vs).

Definition SetMaxForce (bm : build) (force : float) (j : cb2FrictionJoint)
    : result cb2FrictionJoint :=
  _ ← cb2Assert bm (isValid force && leb zero force);
  Done (set_maxForce force j).

Definition SetMaxTorque (bm : build) (torque : float) (j : cb2FrictionJoint)
    : result cb2FrictionJoint :=
  _ ← cb2Assert bm (isValid torque && leb zero torque);
  Done (set_maxTorque torque j).


End Solver.

End FrictionJoint32.

(** ** The limits of the friction joint, in binary32 *)

Module Limits32.
Import Binary32 FrictionJoint32.







(** A joint between the solver slots 0 and 1 of two bodies of unit mass
    and inertia, anchored at their centres, with no impulse accumulated
    and with the masses [InitVelocityConstraints] caches for such bodies:
    the inverse of [K = 2 I] and of [iA + iB = 2]. *)
Definition half : float := Eval vm_compute in div one (of_Z 2).

Definition unit_joint (maxF maxT : float) : cb2FrictionJoint :=
  mkJoint Vec.zero Vec.zero Vec.zero zero maxF maxT
    0 1 Vec.zero Vec.zero Vec.zero Vec.zero one one one one
    (mkMatrix22 half zero zero half) half.


Definition inverted_diagonal (K : Matrix22) : Matrix22 :=
  mkMatrix22 (div one (m00 K)) zero zero (div one (m11 K)).
Definition rotation_of_zero (angle : float) : cb2Rot := mkRot zero one.

(** Two bodies of unit mass and inertia in the solver slots 0 and 1. *)
Definition slot_body (i : Z) : BodyData := mkBodyData i Vec.zero one one.

(** A joint that carries impulses from an earlier step, and solver data
    of bodies at rest for a step [step]. *)
Definition warm_joint : cb2FrictionJoint :=
  set_impulses (mkVec2 one (of_Z 2)) (of_Z 3) (unit_joint (of_Z 10) (of_Z 10)).

Definition resting_data (step : cb2TimeStep) : cb2SolverData :=
  mkSolverData step
    [mkPosition Vec.zero zero; mkPosition Vec.zero zero]
    [mkVelocity Vec.zero zero; mkVelocity Vec.zero zero].

(** The time steps of two consecutive calls [Step(dt, 8, 3)] and
    [Step(dt', 8, 3)] on a world that has not been stepped yet, and of two
    calls with the same [dt]. *)
Definition first_step (dt : float) : cb2TimeStep := time_step zero true dt 8 3.
Definition next_step (dt dt' : float) : cb2TimeStep :=
  time_step (inv_dt0_after zero (first_step dt)) true dt' 8 3.
Definition second_step (dt : float) : cb2TimeStep := next_step dt dt.

(** The ratio of the time steps as the specification words it: this step's
    [1/dt] over the previous step's [1/dt]. *)
Definition dtRatio_as_specified (inv_dt inv_dt0 : float) : float := div inv_dt inv_dt0.

End Limits32.

(** What the cleanup after an island does to a body: its type stays, and
    its island flag can only go from set to clear. *)
Definition island_flags_lowered (w w' : World.t) : Prop :=
  ∀ b body, World.bodies w !! b = Some body →
    ∃ body', World.bodies w' !! b = Some body'
             ∧ Body.m_type body' = Body.m_type body
             ∧ (Body.in_island body = false → Body.in_island body' = false).

(** * Properties *)

(** ** Facts on the outcome monad and arrays *)

Lemma bind_Done {A B : Type} (m : result A) (f : A → result B) (b : B) :
  m ≫= f = Done b → ∃ a, m = Done a ∧ f a = Done b.
Proof. destruct m as [a|e]; simpl; [eauto | discriminate]. Qed.



Section FrictionSetters.
Import FrictionJoint.
Variable isValid : R → bool.

(** The check is live in a debug build: a limit that is not valid, or is
    negative, stops both setters there. *)
Lemma friction_setters_checked (x : R) (j : cb2FrictionJoint) :
  isValid x = false ∨ (x < 0)%R →
  SetMaxForce isValid Debug x j = Stop AssertFailed
  ∧ SetMaxTorque isValid Debug x j = Stop AssertFailed.
Proof.
  intros H. unfold SetMaxForce, SetMaxTorque, cb2Assert.
  assert (Hc : isValid x && bool_decide (0 <= x)%R = false).
  { destruct H as [-> | H]; [done|].
    rewrite bool_decide_eq_false_2 by lra. apply andb_false_r. }
  by rewrite Hc.
Qed.

(** C9: [SetMaxForce] and [SetMaxTorque] check by assertion that the
    limit supplied is valid (finite) and non-negative: in a debug build a
    limit that is not valid, or is negative, stops the setter at the
    assertion and nothing is stored. For a valid and non-negative limit
    the assertion holds, so that in every build the setter returns and the
    stored limit is exactly the value supplied, the rest of the joint
    being untouched. *)
Theorem friction_setters_store (x : R) (j : cb2FrictionJoint) :
  (isValid x = false ∨ (x < 0)%R →
     SetMaxForce isValid Debug x j = Stop AssertFailed
     ∧ SetMaxTorque isValid Debug x j = Stop AssertFailed)
  ∧ (isValid x = true → (0 <= x)%R → ∀ bm : build,
       (∃ j', SetMaxForce isValid bm x j = Done j'
              ∧ GetMaxForce j' = x ∧ GetMaxTorque j' = GetMaxTorque j
              ∧ m_linearImpulse j' = m_linearImpulse j
              ∧ m_angularImpulse j' = m_angularImpulse j)
       ∧ (∃ j', SetMaxTorque isValid bm x j = Done j'
              ∧ GetMaxTorque j' = x ∧ GetMaxForce j' = GetMaxForce j
              ∧ m_linearImpulse j' = m_linearImpulse j
              ∧ m_angularImpulse j' = m_angularImpulse j)).
Proof.
  split.
  - apply friction_setters_checked.
  - intros Hv Hx bm. unfold SetMaxForce, SetMaxTorque, cb2Assert.
    rewrite Hv, bool_decide_eq_true_2 by done. cbn [andb].
    split; destruct bm; cbn [mbind result_bind]; eexists; (split; [reflexivity|]); done.
Qed.

End FrictionSetters.

Lemma friction_setters_store_witness :
  (FrictionJoint.SetMaxForce (λ _, true) Debug (-1) (sample_joint 2 5) = Stop AssertFailed
   ∧ FrictionJoint.SetMaxTorque (λ _, true) Debug (-1) (sample_joint 2 5) = Stop AssertFailed)
  ∧ (∃ j', FrictionJoint.SetMaxForce (λ _, true) Debug 3 (sample_joint 2 5) = Done j'
         ∧ FrictionJoint.GetMaxForce j' = 3%R
         ∧ FrictionJoint.GetMaxTorque j' = FrictionJoint.GetMaxTorque (sample_joint 2 5)
         ∧ FrictionJoint.m_linearImpulse j' = FrictionJoint.m_linearImpulse (sample_joint 2 5)
         ∧ FrictionJoint.m_angularImpulse j' = FrictionJoint.m_angularImpulse (sample_joint 2 5))
  ∧ (∃ j', FrictionJoint.SetMaxTorque (λ _, true) Debug 3 (sample_joint 2 5) = Done j'
         ∧ FrictionJoint.GetMaxTorque j' = 3%R
         ∧ FrictionJoint.GetMaxForce j' = FrictionJoint.GetMaxForce (sample_joint 2 5)
         ∧ FrictionJoint.m_linearImpulse j' = FrictionJoint.m_linearImpulse (sample_joint 2 5)
         ∧ FrictionJoint.m_angularImpulse j' = FrictionJoint.m_angularImpulse (sample_joint 2 5)).
Proof.
  split.
  - apply (friction_setters_store (λ _, true) (-1) (sample_joint 2 5)).
    right. lra.
  - apply (friction_setters_store (λ _, true) 3 (sample_joint 2 5)).
    + reflexivity.
    + lra.
Defined.

(** ** Flag words *)

Lemma land_pow2 (f k : Z) :
  0 <= k → Z.land f (2 ^ k) = if Z.testbit f k then 2 ^ k else 0.
Proof.
  intros Hk. apply Z.bits_inj'. intros n Hn.
  rewrite Z.land_spec, Z.pow2_bits_eqb by done.
  destruct (Z.eqb_spec k n) as [->|Hne].
  - destruct (Z.testbit f n); [by rewrite Z.pow2_bits_true | by rewrite Z.bits_0].
  - rewrite andb_false_r.
    destruct (Z.testbit f k); [by rewrite Z.pow2_bits_false | by rewrite Z.bits_0].
Qed.

Lemma flag_on_pow2 (f k : Z) : 0 <= k → flag_on f (2 ^ k) = Z.testbit f k.
Proof.
  intros Hk. unfold flag_on. rewrite land_pow2 by done.
  assert (0 < 2 ^ k) by (apply Z.pow_pos_nonneg; lia).
  destruct (Z.testbit f k); [|done].
  apply negb_true_iff, Z.eqb_neq. lia.
Qed.

Lemma flag_all_pow2 (f k : Z) : 0 <= k → flag_all f (2 ^ k) = Z.testbit f k.
Proof.
  intros Hk. unfold flag_all. rewrite land_pow2 by done.
  assert (0 < 2 ^ k) by (apply Z.pow_pos_nonneg; lia).
  destruct (Z.testbit f k); [apply Z.eqb_refl | apply Z.eqb_neq; lia].
Qed.

Lemma testbit_set_flag (f k n : Z) :
  0 <= k → 0 <= n → Z.testbit (set_flag f (2 ^ k)) n = Z.testbit f n || (k =? n).
Proof. intros Hk Hn. unfold set_flag. by rewrite Z.lor_spec, Z.pow2_bits_eqb. Qed.

Lemma testbit_clear_flag (f k n : Z) :
  0 <= k → 0 <= n → Z.testbit (clear_flag f (2 ^ k)) n = Z.testbit f n && negb (k =? n).
Proof.
  intros Hk Hn. unfold clear_flag.
  by rewrite Z.land_spec, Z.lnot_spec, Z.pow2_bits_eqb.
Qed.

(** The flags of the sources, as bit positions. *)
Lemma body_flags_pow2 :
  Body.e_islandFlag = 2 ^ 0 ∧ Body.e_awakeFlag = 2 ^ 1 ∧ Body.e_bulletFlag = 2 ^ 3
  ∧ Body.e_activeFlag = 2 ^ 5.
Proof. done. Qed.

Lemma contact_flags_pow2 :
  Contact.e_islandFlag = 2 ^ 0 ∧ Contact.e_touchingFlag = 2 ^ 1
  ∧ Contact.e_enabledFlag = 2 ^ 2 ∧ Contact.e_filterFlag = 2 ^ 3
  ∧ Contact.e_toiFlag = 2 ^ 5.
Proof. done. Qed.

Lemma world_flags_pow2 :
  World.e_newFixture = 2 ^ 0 ∧ World.e_locked = 2 ^ 1 ∧ World.e_clearForces = 2 ^ 2.
Proof. done. Qed.

(** Tests and updates of body flags, bit by bit. *)
Lemma Body_IsAwake_bit (b : Body.t) : Body.IsAwake b = Z.testbit (Body.m_flags b) 1.
Proof. unfold Body.IsAwake. change Body.e_awakeFlag with (2 ^ 1). by apply flag_all_pow2. Qed.

Lemma Body_IsActive_bit (b : Body.t) : Body.IsActive b = Z.testbit (Body.m_flags b) 5.
Proof. unfold Body.IsActive. change Body.e_activeFlag with (2 ^ 5). by apply flag_all_pow2. Qed.

Lemma Body_IsBullet_bit (b : Body.t) : Body.IsBullet b = Z.testbit (Body.m_flags b) 3.
Proof. unfold Body.IsBullet. change Body.e_bulletFlag with (2 ^ 3). by apply flag_all_pow2. Qed.

Lemma Body_in_island_bit (b : Body.t) : Body.in_island b = Z.testbit (Body.m_flags b) 0.
Proof. unfold Body.in_island. change Body.e_islandFlag with (2 ^ 0). by apply flag_on_pow2. Qed.

Lemma Body_SetAwake_true_flags (b : Body.t) (n : Z) :
  0 <= n →
  Z.testbit (Body.m_flags (Body.SetAwake true b)) n
  = Z.testbit (Body.m_flags b) n || (1 =? n).
Proof.
  intros Hn. unfold Body.SetAwake. change Body.e_awakeFlag with (2 ^ 1).
  rewrite land_pow2 by done.
  destruct (Z.testbit (Body.m_flags b) 1) eqn:Hb.
  - change (2 ^ 1 =? 0) with false. cbv iota.
    destruct (Z.eqb_spec 1 n) as [<-|]; [by rewrite Hb | by destruct (Z.testbit _ n)].
  - change (0 =? 0) with true. cbv iota.
    cbn [Body.m_flags Body.with_motion Body.with_flags]. by apply testbit_set_flag.
Qed.

Lemma Body_SetAwake_true_awake (b : Body.t) : Body.IsAwake (Body.SetAwake true b) = true.
Proof. rewrite Body_IsAwake_bit, Body_SetAwake_true_flags by done. apply orb_true_r. Qed.

Lemma Body_SetAwake_false_flags (b : Body.t) (n : Z) :
  0 <= n →
  Z.testbit (Body.m_flags (Body.SetAwake false b)) n
  = Z.testbit (Body.m_flags b) n && negb (1 =? n).
Proof.
  intros Hn. unfold Body.SetAwake. cbn [Body.m_flags Body.with_motion Body.with_flags].
  change Body.e_awakeFlag with (2 ^ 1). by apply testbit_clear_flag.
Qed.

(** ** Mutation of a locked world *)

Section Locked.
Context {env : Collaborators}.

(** In a debug build the same calls stop at their assertion. *)
Lemma locked_world_asserts (w : World.t) (def : cb2BodyDef) (jdef : cb2JointDef)
    (j : nat) (o : Vec2) :
  World.IsLocked w = true →
  CreateBody Debug def w = Stop AssertFailed
  ∧ CreateJoint Debug jdef w = Stop AssertFailed
  ∧ DestroyJoint Debug j w = Stop AssertFailed
  ∧ ShiftOrigin Debug o w = Stop AssertFailed.
Proof.
  intros Hl. unfold CreateBody, CreateJoint, DestroyJoint, ShiftOrigin, cb2Assert.
  rewrite Hl. cbn [negb mbind result_bind].
  repeat split; try done.
  unfold World.IsLocked, flag_all in Hl. apply Z.eqb_eq in Hl. rewrite Hl. done.
Qed.

(** C4: while the world is locked, and with assertions compiled out,
    [CreateBody] and [CreateJoint] return NULL and leave the world as it
    is, and [DestroyBody], [DestroyJoint] and [ShiftOrigin] return with the
    world as it is; each call returns normally. *)
Theorem locked_world_is_not_modified (w : World.t) (def : cb2BodyDef)
    (jdef : cb2JointDef) (b j : nat) (o : Vec2) :
  World.IsLocked w = true →
  CreateBody Release def w = Done (w, None)
  ∧ CreateJoint Release jdef w = Done (w, None)
  ∧ DestroyBody Release b w = Done w
  ∧ DestroyJoint Release j w = Done w
  ∧ ShiftOrigin Release o w = Done w.
Proof.
  intros Hl.
  unfold CreateBody, CreateJoint, DestroyBody, DestroyJoint, ShiftOrigin, cb2Assert.
  cbn [mbind result_bind]. rewrite Hl.
  repeat split; try done.
  unfold World.IsLocked, flag_all in Hl. by rewrite Hl.
Qed.

End Locked.

Lemma locked_world_is_not_modified_witness :
  CreateBody (env := still_collaborators) Release
    (Body.mk cb2_dynamicBody 0 0 (Transform.mk Vec.zero (mkRot 0 1))
       (Sweep.mk Vec.zero Vec.zero Vec.zero 0 0 0) Vec.zero 0 Vec.zero 0 [] 0 [] [] 1 0 0)
    locked_world = Done (locked_world, None)
  ∧ CreateJoint (env := still_collaborators) Release (mkJointDef 0 1 false) locked_world = Done (locked_world, None)
  ∧ DestroyBody Release 0 locked_world = Done locked_world
  ∧ DestroyJoint Release 0 locked_world = Done locked_world
  ∧ ShiftOrigin (env := still_collaborators) Release (mkVec2 1 1) locked_world
    = Done locked_world.
Proof.
  apply (locked_world_is_not_modified (env := still_collaborators)).
  reflexivity.
Defined.

(** ** Reading the outcome of the world's helpers *)

Lemma for_each_Done_ind {A S : Type} (P : S → S → Prop) (f : A → S → result S)
    (l : list A) (s s' : S) :
  (∀ s, P s s) →
  (∀ s1 s2 s3, P s1 s2 → P s2 s3 → P s1 s3) →
  (∀ x s1 s2, x ∈ l → f x s1 = Done s2 → P s1 s2) →
  for_each f l s = Done s' → P s s'.
Proof.
  intros Hrefl Htrans. revert s.
  induction l as [|x l IH]; intros s Hf Hrun; simpl in Hrun.
  - by inversion Hrun.
  - apply bind_Done in Hrun as (s1 & H1 & H2).
    apply (Htrans _ s1).
    + apply (Hf x); [left | done].
    + apply IH; [|done]. intros y t1 t2 Hy. apply Hf. by right.
Qed.

Lemma deref_Done {A : Type} (heap : gmap nat A) (p : nat) (a : A) :
  deref heap p = Done a ↔ heap !! p = Some a.
Proof. unfold deref. destruct (heap !! p); split; intros; simplify_eq; done. Qed.

Lemma update_body_Done (f : Body.t → Body.t) (b : nat) (w w' : World.t) :
  update_body f b w = Done w' →
  ∃ x, World.bodies w !! b = Some x ∧ w' = put_body b (f x) w.
Proof.
  unfold update_body, get_body. intros Hu.
  apply bind_Done in Hu as (x & Hx & Hw). apply deref_Done in Hx.
  exists x. split; [done | by inversion Hw].
Qed.

Lemma update_contact_Done (f : Contact.t → Contact.t) (c : nat) (w w' : World.t) :
  update_contact f c w = Done w' →
  ∃ x, World.contacts w !! c = Some x ∧ w' = put_contact c (f x) w.
Proof.
  unfold update_contact, get_contact. intros Hu.
  apply bind_Done in Hu as (x & Hx & Hw). apply deref_Done in Hx.
  exists x. split; [done | by inversion Hw].
Qed.

Lemma update_joint_Done (f : Joint.t → Joint.t) (j : nat) (w w' : World.t) :
  update_joint f j w = Done w' →
  ∃ x, World.joints w !! j = Some x ∧ w' = put_joint j (f x) w.
Proof.
  unfold update_joint, get_joint. intros Hu.
  apply bind_Done in Hu as (x & Hx & Hw). apply deref_Done in Hx.
  exists x. split; [done | by inversion Hw].
Qed.

(** ** Awake flags across the creation and destruction of a joint *)

Lemma body_flags_kept_refl (w : World.t) : body_flags_kept w w.
Proof. intros b body Hb. eauto. Qed.

Lemma body_flags_kept_trans (w1 w2 w3 : World.t) :
  body_flags_kept w1 w2 → body_flags_kept w2 w3 → body_flags_kept w1 w3.
Proof.
  intros H12 H23 b body Hb.
  destruct (H12 b body Hb) as (body2 & Hb2 & Hf2).
  destruct (H23 b body2 Hb2) as (body3 & Hb3 & Hf3).
  exists body3. split; [done | congruence].
Qed.

Lemma body_flags_kept_same_bodies (w w' : World.t) :
  World.bodies w' = World.bodies w → body_flags_kept w w'.
Proof. intros Heq b body Hb. rewrite Heq. eauto. Qed.

Lemma update_body_flags_kept (f : Body.t → Body.t) (b : nat) (w w' : World.t) :
  (∀ x, Body.m_flags (f x) = Body.m_flags x) →
  update_body f b w = Done w' → body_flags_kept w w'.
Proof.
  intros Hf Hu. apply update_body_Done in Hu as (x & Hx & ->).
  intros b' body Hb'. unfold put_body. cbn [World.bodies World.with_bodies].
  destruct (decide (b = b')) as [<-|Hne].
  - rewrite lookup_insert_eq. exists (f x). split; [done|]. rewrite Hf. congruence.
  - rewrite lookup_insert_ne by done. eauto.
Qed.

Lemma flag_contacts_for_filtering_bodies {env : Collaborators}
    (bA bB : nat) (w w' : World.t) :
  flag_contacts_for_filtering bA bB w = Done w' → World.bodies w' = World.bodies w.
Proof.
  unfold flag_contacts_for_filtering. intros Hf.
  apply bind_Done in Hf as (body & _ & Hloop).
  revert Hloop.
  apply (for_each_Done_ind (λ s s', World.bodies s' = World.bodies s)); try done.
  - intros s1 s2 s3 H12 H23. congruence.
  - intros edge s1 s2 _ Hstep. case_decide; [|by inversion Hstep].
    by apply update_contact_Done in Hstep as (x & _ & ->).
Qed.

Lemma body_awake_kept (w w' : World.t) (b : nat) :
  body_flags_kept w w' → body_awake w b → body_awake w' b.
Proof.
  intros Hk (body & Hb & Ha). destruct (Hk b body Hb) as (body' & Hb' & Hf).
  exists body'. split; [done|]. unfold Body.IsAwake in *. by rewrite Hf.
Qed.

Lemma update_body_SetAwake (b b' : nat) (w w' : World.t) :
  update_body (Body.SetAwake true) b w = Done w' →
  body_awake w' b ∧ (body_awake w b' → body_awake w' b').
Proof.
  intros Hu. apply update_body_Done in Hu as (x & Hx & ->).
  unfold body_awake, put_body. cbn [World.bodies World.with_bodies]. split.
  - exists (Body.SetAwake true x). rewrite lookup_insert_eq.
    split; [done | apply Body_SetAwake_true_awake].
  - intros (body & Hb & Ha). destruct (decide (b = b')) as [<-|Hne].
    + exists (Body.SetAwake true x). rewrite lookup_insert_eq.
      split; [done | apply Body_SetAwake_true_awake].
    + exists body. by rewrite lookup_insert_ne.
Qed.

Section JointLifecycle.
Context {env : Collaborators}.
Variable bm : build.

Lemma CreateJoint_flags_kept (def : cb2JointDef) (w w' : World.t) (r : option nat) :
  CreateJoint bm def w = Done (w', r) → body_flags_kept w w'.
Proof.
  unfold CreateJoint. intros Hc.
  apply bind_Done in Hc as (_ & _ & Hc).
  destruct (World.IsLocked w); [inversion Hc; apply body_flags_kept_refl|].
  apply bind_Done in Hc as (w1 & H1 & Hc).
  apply bind_Done in Hc as (w2 & H2 & Hc).
  apply bind_Done in Hc as (w3 & H3 & Hc).
  inversion Hc; subst w3 r; clear Hc.
  apply update_body_flags_kept in H1; [|done].
  apply update_body_flags_kept in H2; [|done].
  assert (H3' : body_flags_kept w2 w').
  { destruct (negb (collideConnected def)).
    - apply body_flags_kept_same_bodies.
      by apply flag_contacts_for_filtering_bodies in H3.
    - inversion H3. apply body_flags_kept_refl. }
  eapply body_flags_kept_trans; [|exact H3'].
  eapply body_flags_kept_trans; [|exact H2].
  eapply body_flags_kept_trans; [|exact H1].
  by apply body_flags_kept_same_bodies.
Qed.

Lemma DestroyJoint_wakes (j : nat) (jt : Joint.t) (w w' : World.t) :
  World.IsLocked w = false →
  World.joints w !! j = Some jt →
  DestroyJoint bm j w = Done w' →
  body_awake w' (Joint.m_bodyA jt) ∧ body_awake w' (Joint.m_bodyB jt)
  ∧ World.joints w' !! j = None.
Proof.
  intros Hl Hj. unfold DestroyJoint. rewrite Hl. intros Hd.
  apply bind_Done in Hd as (_ & _ & Hd).
  unfold get_joint at 1 in Hd. cbn [World.joints World.with_jointList] in Hd.
  apply bind_Done in Hd as (jt' & Hjt & Hd).
  apply deref_Done in Hjt. rewrite Hj in Hjt. inversion Hjt; subst jt'; clear Hjt.
  apply bind_Done in Hd as (w1 & H1 & Hd).
  apply bind_Done in Hd as (w2 & H2 & Hd).
  apply bind_Done in Hd as (w3 & H3 & Hd).
  apply bind_Done in Hd as (w4 & H4 & Hd).
  apply bind_Done in Hd as (_ & _ & Hd).
  destruct (update_body_SetAwake _ (Joint.m_bodyA jt) _ _ H1) as [HA1 _].
  destruct (update_body_SetAwake _ (Joint.m_bodyA jt) _ _ H2) as [HB2 HA2].
  specialize (HA2 HA1).
  apply update_body_flags_kept in H3; [|done].
  apply update_body_flags_kept in H4; [|done].
  pose proof (body_flags_kept_trans _ _ _ H3 H4) as H34.
  set (w5 := World.with_jointList _ _ _) in Hd.
  assert (Hb5 : World.bodies w5 = World.bodies w4) by done.
  assert (Hj5 : World.joints w5 !! j = None).
  { unfold w5. cbn [World.joints World.with_jointList World.with_joints].
    apply lookup_delete_eq. }
  assert (Hw' : World.bodies w' = World.bodies w5 ∧ World.joints w' = World.joints w5).
  { destruct (negb (Joint.m_collideConnected jt)).
    - split; [by apply flag_contacts_for_filtering_bodies in Hd|].
      revert Hd. unfold flag_contacts_for_filtering. intros Hd.
      apply bind_Done in Hd as (body & _ & Hloop). revert Hloop.
      apply (for_each_Done_ind (λ s s', World.joints s' = World.joints s)); try done.
      + intros s1 s2 s3 H12 H23. congruence.
      + intros edge s1 s2 _ Hstep. case_decide; [|by inversion Hstep].
        by apply update_contact_Done in Hstep as (x & _ & ->).
    - by inversion Hd. }
  destruct Hw' as [Hbw Hjw].
  assert (Hk : body_flags_kept w2 w').
  { eapply body_flags_kept_trans; [exact H34|].
    apply body_flags_kept_same_bodies. congruence. }
  repeat split.
  - by apply (body_awake_kept w2).
  - by apply (body_awake_kept w2).
  - by rewrite Hjw.
Qed.

(** C10: [DestroyJoint], called on a world that is not locked, leaves both
    bodies of the joint awake and the joint freed, whatever the awake flags
    were; and [CreateJoint], on any world (one with no joint yet among
    them), leaves the flags of every body, the awake flag of the two
    connected bodies among them, as they were. *)
Theorem joint_lifecycle_and_awake_flags :
  (∀ (w w1 : World.t) (j : nat) (jt : Joint.t),
     World.IsLocked w = false →
     World.joints w !! j = Some jt →
     DestroyJoint bm j w = Done w1 →
     body_awake w1 (Joint.m_bodyA jt) ∧ body_awake w1 (Joint.m_bodyB jt)
     ∧ World.joints w1 !! j = None)
  ∧ (∀ (w w2 : World.t) (def : cb2JointDef) (r : option nat),
       CreateJoint bm def w = Done (w2, r) →
       ∀ b body, World.bodies w !! b = Some body →
         ∃ body', World.bodies w2 !! b = Some body'
                  ∧ Body.m_flags body' = Body.m_flags body
                  ∧ Body.IsAwake body' = Body.IsAwake body).
Proof.
  split.
  - intros w w1 j jt Hl Hj Hd. by apply (DestroyJoint_wakes j jt w).
  - intros w w2 def r Hc b body Hb.
    destruct (CreateJoint_flags_kept _ _ _ _ Hc b body Hb) as (body' & Hb' & Hf).
    exists body'. split; [done|]. split; [done|]. unfold Body.IsAwake. by rewrite Hf.
Qed.

End JointLifecycle.

Lemma joint_lifecycle_and_awake_flags_witness :
  (∃ w1, DestroyJoint Release 0 jointed_pair = Done w1
         ∧ ¬ body_awake jointed_pair 0 ∧ ¬ body_awake jointed_pair 1
         ∧ body_awake w1 0 ∧ body_awake w1 1 ∧ World.joints w1 !! 0%nat = None)
  ∧ (∃ w2 r, CreateJoint (env := still_collaborators) Release (mkJointDef 0 1 false)
               two_bodies = Done (w2, r)
             ∧ World.joints two_bodies = ∅
             ∧ ∀ b body, World.bodies two_bodies !! b = Some body →
                 ∃ body', World.bodies w2 !! b = Some body'
                          ∧ Body.m_flags body' = Body.m_flags body
                          ∧ Body.IsAwake body' = Body.IsAwake body).
Proof.
  destruct (joint_lifecycle_and_awake_flags (env := still_collaborators) Release)
    as [Hdestroy Hcreate].
  split.
  - eexists. split; [vm_compute; reflexivity|].
    split; [intros (body & Hb & Ha); vm_compute in Hb; injection Hb as <-;
            vm_compute in Ha; discriminate|].
    split; [intros (body & Hb & Ha); vm_compute in Hb; injection Hb as <-;
            vm_compute in Ha; discriminate|].
    eapply (Hdestroy jointed_pair _ 0%nat (Joint.mk 0 1 false false)).
    + reflexivity.
    + reflexivity.
    + vm_compute; reflexivity.
  - eexists _, _. split; [vm_compute; reflexivity|].
    split; [reflexivity|].
    eapply (Hcreate two_bodies _ (mkJointDef 0 1 false)). vm_compute; reflexivity.
Defined.

(** ** Static bodies in the island search *)

Lemma Body_clear_island_bit (f : Z) (n : Z) :
  0 <= n →
  Z.testbit (clear_flag f Body.e_islandFlag) n = Z.testbit f n && negb (0 =? n).
Proof. intros Hn. change Body.e_islandFlag with (2 ^ 0). by apply testbit_clear_flag. Qed.

Lemma Body_set_island_bit (f : Z) (n : Z) :
  0 <= n →
  Z.testbit (set_flag f Body.e_islandFlag) n = Z.testbit f n || (0 =? n).
Proof. intros Hn. change Body.e_islandFlag with (2 ^ 0). by apply testbit_set_flag. Qed.

Lemma island_flags_lowered_refl (w : World.t) : island_flags_lowered w w.
Proof. intros b body Hb. eauto. Qed.

Lemma island_flags_lowered_trans (w1 w2 w3 : World.t) :
  island_flags_lowered w1 w2 → island_flags_lowered w2 w3 → island_flags_lowered w1 w3.
Proof.
  intros H12 H23 b body Hb.
  destruct (H12 b body Hb) as (body2 & Hb2 & Ht2 & Hf2).
  destruct (H23 b body2 Hb2) as (body3 & Hb3 & Ht3 & Hf3).
  exists body3. repeat split; [done | congruence | auto].
Qed.

Section Cleanup.

Lemma cleanup_step_spec (b : nat) (w w' : World.t) :
  cleanup_step b w = Done w' →
  island_flags_lowered w w'
  ∧ ∃ body', World.bodies w' !! b = Some body'
             ∧ (Body.m_type body' = cb2_staticBody → Body.in_island body' = false).
Proof.
  unfold cleanup_step, get_body. intros Hc.
  apply bind_Done in Hc as (body & Hb & Hc). apply deref_Done in Hb.
  unfold Body.GetType in Hc. case_decide as Hty; inversion Hc; subst w'; clear Hc.
  - split.
    + intros b' body' Hb'. unfold put_body. cbn [World.bodies World.with_bodies].
      destruct (decide (b = b')) as [<-|Hne].
      * rewrite Hb in Hb'. inversion Hb'; subst body'; clear Hb'.
        rewrite lookup_insert_eq. eexists. split; [done|]. split; [done|].
        intros _. rewrite Body_in_island_bit. cbn [Body.m_flags Body.with_flags].
        rewrite Body_clear_island_bit by done. apply andb_false_r.
      * rewrite lookup_insert_ne by done. eauto.
    + unfold put_body. cbn [World.bodies World.with_bodies].
      rewrite lookup_insert_eq. eexists. split; [done|]. intros _.
      rewrite Body_in_island_bit. cbn [Body.m_flags Body.with_flags].
      rewrite Body_clear_island_bit by done. apply andb_false_r.
  - split; [apply island_flags_lowered_refl|].
    exists body. split; [done|]. intros Hs. congruence.
Qed.

Lemma post_solve_cleanup_spec (island : Island.t) (w w' : World.t) :
  post_solve_cleanup island w = Done w' →
  island_flags_lowered w w'
  ∧ ∀ b, b ∈ Island.m_bodies island →
      ∃ body', World.bodies w' !! b = Some body'
               ∧ (Body.m_type body' = cb2_staticBody → Body.in_island body' = false).
Proof.
  unfold post_solve_cleanup.
  generalize (Island.m_bodies island) as l. intros l. revert w.
  induction l as [|x l IH]; intros w Hrun; simpl in Hrun.
  - inversion Hrun. split; [apply island_flags_lowered_refl|]. intros b Hb. by inversion Hb.
  - apply bind_Done in Hrun as (w1 & H1 & Hrest).
    destruct (cleanup_step_spec _ _ _ H1) as [Hlow1 (bx & Hbx & Hfx)].
    destruct (IH _ Hrest) as [Hlow2 Hall].
    split; [by eapply island_flags_lowered_trans|].
    intros b Hb. apply elem_of_cons in Hb as [->|Hb]; [|by apply Hall].
    destruct (Hlow2 x bx Hbx) as (body' & Hb' & Hty & Hfl).
    exists body'. split; [done|]. intros Hs. apply Hfl, Hfx. congruence.
Qed.

End Cleanup.

Section StaticBodies.
Variable bm : build.

(** Taking a static body off the stack: it joins the island and is woken,
    and the search goes on with the rest of the stack; no contact, joint
    or other body is read or written. *)
Lemma search_static_body (fuel : nat) (stackSize : Z) (w : World.t) (island : Island.t)
    (stack : list nat) (b : nat) (body : Body.t) :
  World.bodies w !! b = Some body →
  Body.GetType body = cb2_staticBody →
  (bm = Debug → Body.IsActive body = true) →
  Island.m_bodyCount island < Island.m_bodyCapacity island →
  ∃ body2,
    search bm (S fuel) stackSize (w, island, b :: stack)
    = search bm fuel stackSize (put_body b body2 w, island_with_body b island, stack)
    ∧ Body.IsAwake body2 = true
    ∧ Body.m_type body2 = Body.m_type body
    ∧ Body.m_contactList body2 = Body.m_contactList body
    ∧ Body.m_jointList body2 = Body.m_jointList body
    ∧ Body.in_island body2 = Body.in_island body.
Proof.
  intros Hb Hty Hact Hcap.
  exists (Body.SetAwake true (Body.with_islandIndex (Island.m_bodyCount island) body)).
  split; [|repeat split].
  - cbn [search]. unfold get_body, deref. rewrite Hb. cbn [mbind result_bind].
    assert (Ha : cb2Assert bm (Body.IsActive body) = Done ()).
    { destruct bm; [|done]. unfold cb2Assert. by rewrite Hact. }
    rewrite Ha. cbn [mbind result_bind]. unfold Island_AddBody.
    assert (Hc : cb2Assert bm (Island.m_bodyCount island <? Island.m_bodyCapacity island)
                 = Done ()).
    { destruct bm; [|done]. unfold cb2Assert.
      by rewrite (proj2 (Z.ltb_lt _ _) Hcap). }
    rewrite Hc. cbn [mbind result_bind]. rewrite decide_False by lia.
    unfold update_body, get_body, deref. rewrite Hb. cbn [mbind result_bind].
    unfold put_body, World.with_bodies. cbn [World.bodies].
    rewrite lookup_insert_eq. cbn [mbind result_bind].
    rewrite decide_True by done. unfold island_with_body.
    cbn -[search]. rewrite insert_insert_eq. reflexivity.
  - apply Body_SetAwake_true_awake.
  - unfold Body.SetAwake. by destruct (_ =? _).
  - unfold Body.SetAwake. by destruct (_ =? _).
  - unfold Body.SetAwake. by destruct (_ =? _).
  - rewrite !Body_in_island_bit, Body_SetAwake_true_flags by done.
    cbn [Body.m_flags Body.with_islandIndex]. apply orb_false_r.
Qed.

End StaticBodies.

(** ** Well-formed worlds: what the edges say *)

Lemma wf_contact_edge (w : World.t) (b c o : nat) :
  wf_world w → cedge w b c o →
  ∃ ct fA fB,
    World.contacts w !! c = Some ct
    ∧ World.fixtures w !! Contact.m_fixtureA ct = Some fA
    ∧ World.fixtures w !! Contact.m_fixtureB ct = Some fB
    ∧ ((b = Fixture.m_body fA ∧ o = Fixture.m_body fB)
       ∨ (b = Fixture.m_body fB ∧ o = Fixture.m_body fA))
    ∧ cedge w o c b ∧ active w o.
Proof.
  intros (Hbodies & _) (body & Hb & Hin).
  destruct (Hbodies b body Hb) as (Hce & _ & _).
  rewrite Forall_forall in Hce. specialize (Hce _ Hin).
  unfold contact_edge_ok in Hce. cbn [ce_contact ce_other] in Hce.
  destruct Hce as [Hc Ho].
  destruct (World.contacts w !! c) as [ct|]; [|done].
  destruct (World.fixtures w !! Contact.m_fixtureA ct) as [fA|] eqn:HfA; [|done].
  destruct (World.fixtures w !! Contact.m_fixtureB ct) as [fB|] eqn:HfB; [|done].
  destruct (World.bodies w !! o) as [other|] eqn:Hother; [|done].
  destruct Ho as [Hback Hact].
  exists ct, fA, fB. repeat split; try done.
  - by exists other.
  - by exists other.
Qed.

Lemma wf_contact_ends (w : World.t) (c b o b' o' : nat) :
  wf_world w → cedge w b c o → cedge w b' c o' →
  (b' = b ∧ o' = o) ∨ (b' = o ∧ o' = b).
Proof.
  intros Hwf H1 H2.
  destruct (wf_contact_edge _ _ _ _ Hwf H1) as (ct & fA & fB & Hc & HfA & HfB & He & _).
  destruct (wf_contact_edge _ _ _ _ Hwf H2) as (ct' & fA' & fB' & Hc' & HfA' & HfB' & He' & _).
  simplify_eq. intuition congruence.
Qed.

Lemma wf_joint_edge (w : World.t) (b j o : nat) :
  wf_world w → jedge w b j o →
  ∃ jt, World.joints w !! j = Some jt
        ∧ ((b = Joint.m_bodyA jt ∧ o = Joint.m_bodyB jt)
           ∨ (b = Joint.m_bodyB jt ∧ o = Joint.m_bodyA jt))
        ∧ jedge w o j b.
Proof.
  intros (Hbodies & _) (body & Hb & Hin).
  destruct (Hbodies b body Hb) as (_ & Hje & _).
  rewrite Forall_forall in Hje. specialize (Hje _ Hin).
  unfold joint_edge_ok in Hje. cbn [je_joint je_other] in Hje.
  destruct Hje as [Hj Ho].
  destruct (World.joints w !! j) as [jt|]; [|done].
  destruct (World.bodies w !! o) as [other|] eqn:Hother; [|done].
  exists jt. repeat split; try done. by exists other.
Qed.

Lemma wf_joint_ends (w : World.t) (j b o b' o' : nat) :
  wf_world w → jedge w b j o → jedge w b' j o' →
  (b' = b ∧ o' = o) ∨ (b' = o ∧ o' = b).
Proof.
  intros Hwf H1 H2.
  destruct (wf_joint_edge _ _ _ _ Hwf H1) as (jt & Hj & He & _).
  destruct (wf_joint_edge _ _ _ _ Hwf H2) as (jt' & Hj' & He' & _).
  simplify_eq. intuition congruence.
Qed.

(** ** The graph is kept by the writes of the search *)

Lemma same_graph_refl (w : World.t) : same_graph w w.
Proof. by repeat split. Qed.

Lemma same_graph_trans (w0 w1 w2 : World.t) :
  same_graph w0 w1 → same_graph w1 w2 → same_graph w0 w2.
Proof.
  intros (A1 & A2 & A3 & A4 & A5 & A6 & A7 & A8 & A9 & A10 & A11)
         (B1 & B2 & B3 & B4 & B5 & B6 & B7 & B8 & B9 & B10 & B11).
  split; [intros b; by rewrite B1|].
  split; [intros c; by rewrite B2|].
  split; [intros j; by rewrite B3|].
  repeat split; congruence.
Qed.

Lemma same_graph_body (w0 w : World.t) (b : nat) (body : Body.t) :
  same_graph w0 w → World.bodies w !! b = Some body →
  ∃ body0, World.bodies w0 !! b = Some body0 ∧ body_shape body = body_shape body0.
Proof.
  intros (H1 & _) Hb. specialize (H1 b). rewrite Hb in H1.
  destruct (World.bodies w0 !! b) as [body0|]; [|done].
  exists body0. split; [done|]. cbn in H1. congruence.
Qed.

Lemma same_graph_body_rev (w0 w : World.t) (b : nat) (body0 : Body.t) :
  same_graph w0 w → World.bodies w0 !! b = Some body0 →
  ∃ body, World.bodies w !! b = Some body ∧ body_shape body = body_shape body0.
Proof.
  intros (H1 & _) Hb. specialize (H1 b). rewrite Hb in H1.
  destruct (World.bodies w !! b) as [body|]; [|done].
  exists body. split; [done|]. cbn in H1. congruence.
Qed.

Lemma same_graph_contact_rev (w0 w : World.t) (c : nat) (ct0 : Contact.t) :
  same_graph w0 w → World.contacts w0 !! c = Some ct0 →
  ∃ ct, World.contacts w !! c = Some ct ∧ contact_shape ct = contact_shape ct0.
Proof.
  intros (_ & H2 & _) Hc. specialize (H2 c). rewrite Hc in H2.
  destruct (World.contacts w !! c) as [ct|]; [|done].
  exists ct. split; [done|]. cbn in H2. congruence.
Qed.

Lemma same_graph_contact (w0 w : World.t) (c : nat) (ct : Contact.t) :
  same_graph w0 w → World.contacts w !! c = Some ct →
  ∃ ct0, World.contacts w0 !! c = Some ct0 ∧ contact_shape ct = contact_shape ct0.
Proof.
  intros (_ & H2 & _) Hc. specialize (H2 c). rewrite Hc in H2.
  destruct (World.contacts w0 !! c) as [ct0|]; [|done].
  exists ct0. split; [done|]. cbn in H2. congruence.
Qed.

Lemma same_graph_joint_rev (w0 w : World.t) (j : nat) (jt0 : Joint.t) :
  same_graph w0 w → World.joints w0 !! j = Some jt0 →
  ∃ jt, World.joints w !! j = Some jt ∧ joint_shape jt = joint_shape jt0.
Proof.
  intros (_ & _ & H3 & _) Hj. specialize (H3 j). rewrite Hj in H3.
  destruct (World.joints w !! j) as [jt|]; [|done].
  exists jt. split; [done|]. cbn in H3. congruence.
Qed.

Lemma same_graph_put_body (w0 w : World.t) (b : nat) (x body : Body.t) :
  same_graph w0 w → World.bodies w !! b = Some body →
  body_shape x = body_shape body → same_graph w0 (put_body b x w).
Proof.
  intros (H1 & Hrest) Hb Hs. split; [|exact Hrest].
  intros b'. unfold put_body. cbn [World.bodies World.with_bodies].
  destruct (decide (b = b')) as [<-|Hne].
  - rewrite lookup_insert_eq. rewrite <- H1, Hb. cbn. by rewrite Hs.
  - by rewrite lookup_insert_ne.
Qed.

Lemma same_graph_put_contact (w0 w : World.t) (c : nat) (x ct : Contact.t) :
  same_graph w0 w → World.contacts w !! c = Some ct →
  contact_shape x = contact_shape ct → same_graph w0 (put_contact c x w).
Proof.
  intros (H1 & H2 & Hrest) Hc Hs. split; [exact H1|]. split; [|exact Hrest].
  intros c'. unfold put_contact. cbn [World.contacts World.with_contacts].
  destruct (decide (c = c')) as [<-|Hne].
  - rewrite lookup_insert_eq. rewrite <- H2, Hc. cbn. by rewrite Hs.
  - by rewrite lookup_insert_ne.
Qed.

Lemma same_graph_put_joint (w0 w : World.t) (j : nat) (x jt : Joint.t) :
  same_graph w0 w → World.joints w !! j = Some jt →
  joint_shape x = joint_shape jt → same_graph w0 (put_joint j x w).
Proof.
  intros (H1 & H2 & H3 & Hrest) Hj Hs. split; [exact H1|]. split; [exact H2|].
  split; [|exact Hrest].
  intros j'. unfold put_joint. cbn [World.joints World.with_joints].
  destruct (decide (j = j')) as [<-|Hne].
  - rewrite lookup_insert_eq. rewrite <- H3, Hj. cbn. by rewrite Hs.
  - by rewrite lookup_insert_ne.
Qed.

(** ** The island flags after a write *)

Lemma bflag_put_body (w : World.t) (b b' : nat) (x : Body.t) :
  bflag (put_body b x w) b' = if decide (b' = b) then Body.in_island x else bflag w b'.
Proof.
  unfold bflag, put_body. cbn [World.bodies World.with_bodies].
  case_decide as Hd.
  - subst. by rewrite lookup_insert_eq.
  - by rewrite lookup_insert_ne.
Qed.

Lemma cflag_put_body (w : World.t) (b c : nat) (x : Body.t) :
  cflag (put_body b x w) c = cflag w c.
Proof. done. Qed.

Lemma jflag_put_body (w : World.t) (b j : nat) (x : Body.t) :
  jflag (put_body b x w) j = jflag w j.
Proof. done. Qed.

Lemma cflag_put_contact (w : World.t) (c c' : nat) (x : Contact.t) :
  cflag (put_contact c x w) c' = if decide (c' = c) then Contact.in_island x else cflag w c'.
Proof.
  unfold cflag, put_contact. cbn [World.contacts World.with_contacts].
  case_decide as Hd.
  - subst. by rewrite lookup_insert_eq.
  - by rewrite lookup_insert_ne.
Qed.

Lemma bflag_put_contact (w : World.t) (c b : nat) (x : Contact.t) :
  bflag (put_contact c x w) b = bflag w b.
Proof. done. Qed.

Lemma jflag_put_contact (w : World.t) (c j : nat) (x : Contact.t) :
  jflag (put_contact c x w) j = jflag w j.
Proof. done. Qed.

Lemma jflag_put_joint (w : World.t) (j j' : nat) (x : Joint.t) :
  jflag (put_joint j x w) j' = if decide (j' = j) then Joint.m_islandFlag x else jflag w j'.
Proof.
  unfold jflag, put_joint. cbn [World.joints World.with_joints].
  case_decide as Hd.
  - subst. by rewrite lookup_insert_eq.
  - by rewrite lookup_insert_ne.
Qed.

Lemma bflag_put_joint (w : World.t) (j b : nat) (x : Joint.t) :
  bflag (put_joint j x w) b = bflag w b.
Proof. done. Qed.

Lemma cflag_put_joint (w : World.t) (j c : nat) (x : Joint.t) :
  cflag (put_joint j x w) c = cflag w c.
Proof. done. Qed.

Lemma bflag_true (w : World.t) (b : nat) :
  bflag w b = true → ∃ body, World.bodies w !! b = Some body ∧ Body.in_island body = true.
Proof. unfold bflag. destruct (World.bodies w !! b); [eauto | done]. Qed.

Lemma bflag_lookup (w : World.t) (b : nat) (body : Body.t) :
  World.bodies w !! b = Some body → bflag w b = Body.in_island body.
Proof. unfold bflag. by intros ->. Qed.

Lemma cflag_lookup (w : World.t) (c : nat) (ct : Contact.t) :
  World.contacts w !! c = Some ct → cflag w c = Contact.in_island ct.
Proof. unfold cflag. by intros ->. Qed.

Lemma jflag_lookup (w : World.t) (j : nat) (jt : Joint.t) :
  World.joints w !! j = Some jt → jflag w j = Joint.m_islandFlag jt.
Proof. unfold jflag. by intros ->. Qed.

Lemma cflag_true (w : World.t) (c : nat) :
  cflag w c = true → is_Some (World.contacts w !! c).
Proof. unfold cflag. destruct (World.contacts w !! c); [eauto | done]. Qed.

Lemma jflag_true (w : World.t) (j : nat) :
  jflag w j = true → is_Some (World.joints w !! j).
Proof. unfold jflag. destruct (World.joints w !! j); [eauto | done]. Qed.

Lemma update_body_lookup (f : Body.t → Body.t) (b : nat) (w : World.t) (body : Body.t) :
  World.bodies w !! b = Some body → update_body f b w = Done (put_body b (f body) w).
Proof. intros Hb. unfold update_body, get_body, deref. by rewrite Hb. Qed.

Lemma update_contact_lookup (f : Contact.t → Contact.t) (c : nat) (w : World.t)
    (ct : Contact.t) :
  World.contacts w !! c = Some ct → update_contact f c w = Done (put_contact c (f ct) w).
Proof. intros Hc. unfold update_contact, get_contact, deref. by rewrite Hc. Qed.

Lemma update_joint_lookup (f : Joint.t → Joint.t) (j : nat) (w : World.t) (jt : Joint.t) :
  World.joints w !! j = Some jt → update_joint f j w = Done (put_joint j (f jt) w).
Proof. intros Hj. unfold update_joint, get_joint, deref. by rewrite Hj. Qed.

(** ** Counting the members of an island *)

Lemma length_le_size {A : Type} (m : gmap nat A) (l : list nat) :
  NoDup l → (∀ x, x ∈ l → is_Some (m !! x)) → (length l ≤ size m)%nat.
Proof.
  intros Hnd Hin.
  rewrite <- (size_dom (D := gset nat) m).
  rewrite <- (size_list_to_set (C := gset nat) l) by done.
  apply subseteq_size. intros x Hx.
  apply elem_of_list_to_set in Hx. apply elem_of_dom. by apply Hin.
Qed.

(** ** Shapes are kept by the writes of the search *)

Lemma Body_shape_set_island (b : Body.t) :
  body_shape (Body.with_flags (set_flag (Body.m_flags b) Body.e_islandFlag) b) = body_shape b.
Proof.
  unfold body_shape. cbn [Body.m_type Body.with_flags Body.m_contactList Body.m_jointList].
  rewrite !Body_IsActive_bit. cbn [Body.m_flags Body.with_flags].
  rewrite Body_set_island_bit by done. by rewrite orb_false_r.
Qed.

Lemma Body_shape_clear_island (b : Body.t) :
  body_shape (Body.with_flags (clear_flag (Body.m_flags b) Body.e_islandFlag) b) = body_shape b.
Proof.
  unfold body_shape. cbn [Body.m_type Body.with_flags Body.m_contactList Body.m_jointList].
  rewrite !Body_IsActive_bit. cbn [Body.m_flags Body.with_flags].
  rewrite Body_clear_island_bit by done. by rewrite andb_true_r.
Qed.

Lemma Body_shape_SetAwake (flag : bool) (b : Body.t) :
  body_shape (Body.SetAwake flag b) = body_shape b.
Proof.
  unfold body_shape. rewrite !Body_IsActive_bit.
  destruct flag.
  - rewrite Body_SetAwake_true_flags by done. rewrite orb_false_r.
    unfold Body.SetAwake. by destruct (_ =? _).
  - rewrite Body_SetAwake_false_flags by done. by rewrite andb_true_r.
Qed.

Lemma Body_shape_islandIndex (i : Z) (b : Body.t) :
  body_shape (Body.with_islandIndex i b) = body_shape b.
Proof. done. Qed.

Lemma Body_in_island_set (b : Body.t) :
  Body.in_island (Body.with_flags (set_flag (Body.m_flags b) Body.e_islandFlag) b) = true.
Proof.
  rewrite Body_in_island_bit. cbn [Body.m_flags Body.with_flags].
  rewrite Body_set_island_bit by done. apply orb_true_r.
Qed.

Lemma Body_in_island_clear (b : Body.t) :
  Body.in_island (Body.with_flags (clear_flag (Body.m_flags b) Body.e_islandFlag) b) = false.
Proof.
  rewrite Body_in_island_bit. cbn [Body.m_flags Body.with_flags].
  rewrite Body_clear_island_bit by done. apply andb_false_r.
Qed.

Lemma Body_in_island_SetAwake (flag : bool) (b : Body.t) :
  Body.in_island (Body.SetAwake flag b) = Body.in_island b.
Proof.
  rewrite !Body_in_island_bit. destruct flag.
  - rewrite Body_SetAwake_true_flags by done. apply orb_false_r.
  - rewrite Body_SetAwake_false_flags by done. apply andb_true_r.
Qed.

Lemma Contact_shape_set_island (c : Contact.t) :
  contact_shape (Contact.with_flags (set_flag (Contact.m_flags c) Contact.e_islandFlag) c)
  = contact_shape c.
Proof.
  unfold contact_shape, Contact.IsEnabled, Contact.IsTouching.
  cbn [Contact.m_flags Contact.with_flags Contact.m_fixtureA Contact.m_fixtureB].
  change Contact.e_enabledFlag with (2 ^ 2). change Contact.e_touchingFlag with (2 ^ 1).
  change Contact.e_islandFlag with (2 ^ 0).
  rewrite !flag_all_pow2, !testbit_set_flag by done. by rewrite !orb_false_r.
Qed.

Lemma Contact_shape_clear_island (c : Contact.t) :
  contact_shape (Contact.with_flags (clear_flag (Contact.m_flags c) Contact.e_islandFlag) c)
  = contact_shape c.
Proof.
  unfold contact_shape, Contact.IsEnabled, Contact.IsTouching.
  cbn [Contact.m_flags Contact.with_flags Contact.m_fixtureA Contact.m_fixtureB].
  change Contact.e_enabledFlag with (2 ^ 2). change Contact.e_touchingFlag with (2 ^ 1).
  change Contact.e_islandFlag with (2 ^ 0).
  rewrite !flag_all_pow2, !testbit_clear_flag by done. by rewrite !andb_true_r.
Qed.

Lemma Contact_in_island_set (c : Contact.t) :
  Contact.in_island (Contact.with_flags (set_flag (Contact.m_flags c) Contact.e_islandFlag) c)
  = true.
Proof.
  unfold Contact.in_island. cbn [Contact.m_flags Contact.with_flags].
  change Contact.e_islandFlag with (2 ^ 0).
  rewrite flag_on_pow2, testbit_set_flag by done. apply orb_true_r.
Qed.

Lemma Contact_in_island_clear (c : Contact.t) :
  Contact.in_island (Contact.with_flags (clear_flag (Contact.m_flags c) Contact.e_islandFlag) c)
  = false.
Proof.
  unfold Contact.in_island. cbn [Contact.m_flags Contact.with_flags].
  change Contact.e_islandFlag with (2 ^ 0).
  rewrite flag_on_pow2, testbit_clear_flag by done. apply andb_false_r.
Qed.

(** ** Reading the graph of [w0] in the current world *)

Section Transfer.
Variables (w0 w : World.t).
Hypothesis Hg : same_graph w0 w.

Lemma cedge_current (b : nat) (body : Body.t) (ce : cb2ContactEdge) :
  World.bodies w !! b = Some body → ce ∈ Body.m_contactList body →
  cedge w0 b (ce_contact ce) (ce_other ce).
Proof.
  intros Hb Hin. destruct (same_graph_body _ _ _ _ Hg Hb) as (body0 & Hb0 & Hs).
  exists body0. split; [done|]. unfold body_shape in Hs.
  assert (Body.m_contactList body = Body.m_contactList body0) as <- by congruence.
  by destruct ce.
Qed.

Lemma jedge_current (b : nat) (body : Body.t) (je : cb2JointEdge) :
  World.bodies w !! b = Some body → je ∈ Body.m_jointList body →
  jedge w0 b (je_joint je) (je_other je).
Proof.
  intros Hb Hin. destruct (same_graph_body _ _ _ _ Hg Hb) as (body0 & Hb0 & Hs).
  exists body0. split; [done|]. unfold body_shape in Hs.
  assert (Body.m_jointList body = Body.m_jointList body0) as <- by congruence.
  by destruct je.
Qed.

Lemma nonstatic_current (b : nat) (body : Body.t) :
  World.bodies w !! b = Some body →
  (nonstatic w0 b ↔ Body.m_type body ≠ cb2_staticBody).
Proof.
  intros Hb. destruct (same_graph_body _ _ _ _ Hg Hb) as (body0 & Hb0 & Hs).
  unfold body_shape in Hs.
  assert (Body.m_type body = Body.m_type body0) as -> by congruence.
  split.
  - intros (body0' & Hb0' & Hty). by simplify_eq.
  - intros Hty. by exists body0.
Qed.

Lemma active_current (b : nat) (body : Body.t) :
  World.bodies w !! b = Some body →
  (active w0 b ↔ Body.IsActive body = true).
Proof.
  intros Hb. destruct (same_graph_body _ _ _ _ Hg Hb) as (body0 & Hb0 & Hs).
  unfold body_shape in Hs.
  assert (Body.IsActive body = Body.IsActive body0) as -> by congruence.
  split.
  - intros (body0' & Hb0' & Hty). by simplify_eq.
  - intros Hty. by exists body0.
Qed.

Lemma solid_current (c : nat) (ct : Contact.t) (fA fB : Fixture.t) :
  World.contacts w !! c = Some ct →
  World.fixtures w !! Contact.m_fixtureA ct = Some fA →
  World.fixtures w !! Contact.m_fixtureB ct = Some fB →
  (solid w0 c ↔
   Contact.IsEnabled ct = true ∧ Contact.IsTouching ct = true
   ∧ Fixture.m_isSensor fA = false ∧ Fixture.m_isSensor fB = false).
Proof.
  intros Hc HfA HfB.
  destruct (same_graph_contact _ _ _ _ Hg Hc) as (ct0 & Hc0 & Hs).
  assert (Hfx : World.fixtures w = World.fixtures w0) by apply Hg.
  unfold contact_shape in Hs.
  assert (Contact.IsEnabled ct = Contact.IsEnabled ct0) as -> by congruence.
  assert (Contact.IsTouching ct = Contact.IsTouching ct0) as -> by congruence.
  assert (HA : Contact.m_fixtureA ct = Contact.m_fixtureA ct0) by congruence.
  assert (HB : Contact.m_fixtureB ct = Contact.m_fixtureB ct0) by congruence.
  rewrite HA, Hfx in HfA. rewrite HB, Hfx in HfB.
  split.
  - intros (ct' & fA' & fB' & Hc' & HfA' & HfB' & H1 & H2 & H3 & H4). by simplify_eq.
  - intros (H1 & H2 & H3 & H4). by exists ct0, fA, fB.
Qed.

End Transfer.

(** ** The steps of the search keep its invariant *)

Section SearchSteps.
Variable bm : build.
Variables (w0 : World.t) (built : list (list nat)).
Hypothesis Hwf : wf_world w0.

Lemma members_exist (w : World.t) (cur : Island.t) (stack : list nat) x pc pj :
  search_inv w0 built w cur stack x pc pj →
  ∀ b, b ∈ stack ++ Island.m_bodies cur → is_Some (World.bodies w0 !! b).
Proof.
  intros Hinv b Hb. apply elem_of_app in Hb.
  assert (Hf : bflag w b = true) by (apply (si_members_flagged _ _ _ _ _ _ _ _ Hinv); tauto).
  apply bflag_true in Hf as (body & Hbody & _).
  destruct (same_graph_body _ _ _ _ (si_graph _ _ _ _ _ _ _ _ Hinv) Hbody) as (b0 & Hb0 & _).
  eauto.
Qed.

(** Pushing a body that exists, is active and is not flagged. *)
Lemma push_body_inv (w : World.t) (cur : Island.t) (stack : list nat) x pc pj
    (o : nat) (ob : Body.t) :
  search_inv w0 built w cur stack x pc pj →
  World.bodies w !! o = Some ob → Body.in_island ob = false → active w0 o →
  ∃ w', push_body (Z.of_nat (size (World.bodies w0))) o w stack = Done (w', o :: stack)
        ∧ search_inv w0 built w' cur (o :: stack) x pc pj
        ∧ World.contacts w' = World.contacts w ∧ World.joints w' = World.joints w.
Proof.
  intros Hinv Ho Hflag Hact.
  pose proof (bflag_lookup _ _ _ Ho) as Hbf. rewrite Hflag in Hbf.
  assert (Hnotin : o ∉ stack ++ Island.m_bodies cur).
  { intros Hin. apply elem_of_app in Hin.
    assert (bflag w o = true) by (apply (si_members_flagged _ _ _ _ _ _ _ _ Hinv); tauto).
    congruence. }
  destruct (same_graph_body _ _ _ _ (si_graph _ _ _ _ _ _ _ _ Hinv) Ho) as (ob0 & Ho0 & Hs).
  assert (Hlen : (length (o :: stack ++ Island.m_bodies cur) ≤ size (World.bodies w0))%nat).
  { apply length_le_size.
    - constructor; [done | apply (si_nodup _ _ _ _ _ _ _ _ Hinv)].
    - intros b Hb. apply elem_of_cons in Hb as [->|Hb]; [eauto|].
      by eapply members_exist. }
  cbn [length] in Hlen. rewrite length_app in Hlen.
  set (ob' := Body.with_flags (set_flag (Body.m_flags ob) Body.e_islandFlag) ob).
  exists (put_body o ob' w). split; [|split; [|done]].
  { unfold push_body. rewrite decide_False by lia.
    unfold update_body, get_body, deref. rewrite Ho. done. }
  destruct Hinv as [Hgr Hcaps Hmem Horig Hbf' Hdis Hnd Hactive Hbc Hcc Hcf Hjf Hcs Hjs].
  constructor.
  - eapply same_graph_put_body; [done | done | apply Body_shape_set_island].
  - done.
  - intros b Hb. rewrite bflag_put_body. case_decide; [apply Body_in_island_set|].
    apply Hmem. rewrite elem_of_cons in Hb. tauto.
  - intros b. rewrite bflag_put_body. case_decide as Hd.
    + intros _. subst. right; left. by left.
    + intros Hb. destruct (Horig b Hb) as [?|[?|?]]; [by left| |by right; right].
      right; left. by right.
  - intros J b HJ Hb Hns. rewrite bflag_put_body. case_decide; [apply Body_in_island_set|].
    by eapply Hbf'.
  - intros J b HJ Hb Hns. destruct (Hdis J b HJ Hb Hns) as [H1 H2]. split; [done|].
    intros Hc. apply elem_of_cons in Hc as [->|Hc]; [|done].
    specialize (Hbf' J o HJ Hb Hns). congruence.
  - cbn [app]. by constructor.
  - intros b Hb. rewrite elem_of_cons in Hb.
    destruct Hb as [Hb|[->|Hb]]; [apply Hactive; by left | done | apply Hactive; by right].
  - done.
  - intros b Hb Hns. destruct (Hcc b Hb Hns) as [Hc Hj]. split.
    + intros c o' He Hso. destruct (Hc c o' He Hso) as [?|[?|?]];
        [by left | right; left; by right | by right; right].
    + intros j o' He Hso. destruct (Hj j o' He Hso) as [?|[?|?]];
        [by left | right; left; by right | by right; right].
  - intros c Hc. rewrite cflag_put_body in Hc. destruct (Hcf c Hc) as [?|He]; [by left|].
    right. intros b o' Hed. destruct (He b o' Hed) as [H1 H2].
    rewrite !elem_of_app, !elem_of_cons in *. intuition congruence.
  - intros j Hj. rewrite jflag_put_body in Hj. destruct (Hjf j Hj) as [?|He]; [by left|].
    right. intros b o' Hed. destruct (He b o' Hed) as [H1 H2].
    rewrite !elem_of_app, !elem_of_cons in *. intuition congruence.
  - done.
  - done.
Qed.

(** An edge whose other end is already a member needs no further care. *)
Lemma drop_pending_contact (w : World.t) (cur : Island.t) (stack : list nat) x ce pc pj :
  search_inv w0 built w cur stack x (ce :: pc) pj →
  (solid w0 (ce_contact ce) → ce_other ce ∈ Island.m_bodies cur ∨ ce_other ce ∈ stack) →
  search_inv w0 built w cur stack x pc pj.
Proof.
  intros [Hgr Hcaps Hmem Horig Hbf' Hdis Hnd Hactive Hbc Hcc Hcf Hjf Hcs Hjs] Hce.
  constructor; try done.
  intros b Hb Hns. destruct (Hcc b Hb Hns) as [Hc Hj]. split; [|done].
  intros c o He Hso. destruct (Hc c o He Hso) as [?|[?|[-> Hin]]]; [by left | by right; left |].
  apply elem_of_cons in Hin as [<-|Hin]; [|by right; right].
  cbn [ce_contact ce_other] in Hce. destruct (Hce Hso); [by left | by right; left].
Qed.

Lemma drop_pending_joint (w : World.t) (cur : Island.t) (stack : list nat) x je pc pj :
  search_inv w0 built w cur stack x pc (je :: pj) →
  (active w0 (je_other je) → je_other je ∈ Island.m_bodies cur ∨ je_other je ∈ stack) →
  search_inv w0 built w cur stack x pc pj.
Proof.
  intros [Hgr Hcaps Hmem Horig Hbf' Hdis Hnd Hactive Hbc Hcc Hcf Hjf Hcs Hjs] Hje.
  constructor; try done.
  intros b Hb Hns. destruct (Hcc b Hb Hns) as [Hc Hj]. split; [done|].
  intros j o He Hso. destruct (Hj j o He Hso) as [?|[?|[-> Hin]]]; [by left | by right; left |].
  apply elem_of_cons in Hin as [<-|Hin]; [|by right; right].
  cbn [je_joint je_other] in Hje. destruct (Hje Hso); [by left | by right; left].
Qed.

(** Flagging a contact whose ends are members, and adding it to the island. *)
Lemma flag_contact_inv (w : World.t) (cur : Island.t) (stack : list nat) x pc pj
    (c : nat) (ct : Contact.t) :
  search_inv w0 built w cur stack x pc pj →
  World.contacts w !! c = Some ct → Contact.in_island ct = false →
  contact_ends_in w0 c (Island.m_bodies cur ++ stack) →
  ∃ cur',
    Island_AddContact bm c cur = Done cur'
    ∧ Island.m_bodies cur' = Island.m_bodies cur
    ∧ search_inv w0 built
        (put_contact c (Contact.with_flags
                          (set_flag (Contact.m_flags ct) Contact.e_islandFlag) ct) w)
        cur' stack x pc pj.
Proof.
  intros Hinv Hc Hflag Hends.
  pose proof (cflag_lookup _ _ _ Hc) as Hcf0. rewrite Hflag in Hcf0.
  destruct Hinv as [Hgr Hcaps Hmem Horig Hbf' Hdis Hnd Hactive Hbc Hcc Hcf Hjf Hcs Hjs].
  destruct Hcs as [Hcnd Hcfl].
  assert (Hnotin : c ∉ Island.m_contacts cur).
  { intros Hin. specialize (Hcfl c Hin). congruence. }
  assert (Hlen : (length (c :: Island.m_contacts cur) ≤ size (World.contacts w0))%nat).
  { apply length_le_size; [by constructor|].
    intros c' Hc'. apply elem_of_cons in Hc' as [->|Hc'].
    - destruct (same_graph_contact _ _ _ _ Hgr Hc) as (? & ? & _). eauto.
    - specialize (Hcfl c' Hc'). apply cflag_true in Hcfl as [ct' Hct'].
      destruct (same_graph_contact _ _ _ _ Hgr Hct') as (? & ? & _). eauto. }
  cbn [length] in Hlen. destruct Hcaps as (Hcap1 & Hcap2 & Hcap3).
  eexists. split; [|split].
  { unfold Island_AddContact, Island.m_contactCount. rewrite Hcap2.
    assert (Ha : cb2Assert bm (Z.of_nat (length (Island.m_contacts cur))
                               <? Z.of_nat (size (World.contacts w0))) = Done ()).
    { destruct bm; [|done]. unfold cb2Assert.
      by rewrite (proj2 (Z.ltb_lt _ _)) by lia. }
    rewrite Ha. cbn [mbind result_bind]. rewrite decide_False by lia. reflexivity. }
  { done. }
  constructor; cbn [Island.m_bodies Island.m_contacts Island.m_joints
                    Island.m_bodyCapacity Island.m_contactCapacity Island.m_jointCapacity];
    try done.
  - eapply same_graph_put_contact; [done | done | apply Contact_shape_set_island].
  - intros c'. rewrite cflag_put_contact. case_decide as Hd; [|apply Hcf].
    intros _. subst c'. by right.
  - split.
    + apply NoDup_app. split; [done|]. split; [|apply NoDup_singleton].
      intros c' Hc' Hc''. apply list_elem_of_singleton in Hc''. by subst.
    + intros c' Hc'. rewrite cflag_put_contact. case_decide; [apply Contact_in_island_set|].
      apply Hcfl. apply elem_of_app in Hc' as [?|Hc']; [done|].
      apply list_elem_of_singleton in Hc'. done.
Qed.

Lemma flag_joint_inv (w : World.t) (cur : Island.t) (stack : list nat) x pc pj
    (j : nat) (jt : Joint.t) :
  search_inv w0 built w cur stack x pc pj →
  World.joints w !! j = Some jt → Joint.m_islandFlag jt = false →
  joint_ends_in w0 j (Island.m_bodies cur ++ stack) →
  ∃ cur',
    Island_AddJoint bm j cur = Done cur'
    ∧ Island.m_bodies cur' = Island.m_bodies cur
    ∧ search_inv w0 built (put_joint j (Joint.with_islandFlag true jt) w)
        cur' stack x pc pj.
Proof.
  intros Hinv Hj Hflag Hends.
  pose proof (jflag_lookup _ _ _ Hj) as Hjf0. rewrite Hflag in Hjf0.
  destruct Hinv as [Hgr Hcaps Hmem Horig Hbf' Hdis Hnd Hactive Hbc Hcc Hcf Hjf Hcs Hjs].
  destruct Hjs as [Hjnd Hjfl].
  assert (Hnotin : j ∉ Island.m_joints cur).
  { intros Hin. specialize (Hjfl j Hin). congruence. }
  assert (Hex : ∀ j' jt', World.joints w !! j' = Some jt' → is_Some (World.joints w0 !! j')).
  { intros j' jt' Hj'. destruct Hgr as (_ & _ & H3 & _). specialize (H3 j').
    rewrite Hj' in H3. destruct (World.joints w0 !! j'); [eauto | done]. }
  assert (Hlen : (length (j :: Island.m_joints cur) ≤ size (World.joints w0))%nat).
  { apply length_le_size; [by constructor|].
    intros j' Hj'. apply elem_of_cons in Hj' as [->|Hj'].
    - by eapply Hex.
    - specialize (Hjfl j' Hj'). apply jflag_true in Hjfl as [jt' Hjt']. by eapply Hex. }
  cbn [length] in Hlen. destruct Hcaps as (Hcap1 & Hcap2 & Hcap3).
  eexists. split; [|split].
  { unfold Island_AddJoint, Island.m_jointCount. rewrite Hcap3.
    assert (Ha : cb2Assert bm (Z.of_nat (length (Island.m_joints cur))
                               <? Z.of_nat (size (World.joints w0))) = Done ()).
    { destruct bm; [|done]. unfold cb2Assert.
      by rewrite (proj2 (Z.ltb_lt _ _)) by lia. }
    rewrite Ha. cbn [mbind result_bind]. rewrite decide_False by lia. reflexivity. }
  { done. }
  constructor; cbn [Island.m_bodies Island.m_contacts Island.m_joints
                    Island.m_bodyCapacity Island.m_contactCapacity Island.m_jointCapacity];
    try done.
  - eapply same_graph_put_joint; [done | done | done].
  - intros j'. rewrite jflag_put_joint. case_decide as Hd; [|apply Hjf].
    intros _. subst j'. by right.
  - split.
    + apply NoDup_app. split; [done|]. split; [|apply NoDup_singleton].
      intros j' Hj' Hj''. apply list_elem_of_singleton in Hj''. by subst.
    + intros j' Hj'. rewrite jflag_put_joint. case_decide; [done|].
      apply Hjfl. apply elem_of_app in Hj' as [?|Hj']; [done|].
      apply list_elem_of_singleton in Hj'. done.
Qed.

(** Where the other end of an edge of a member is, once it is flagged. *)
Lemma flagged_contact_other (w : World.t) (cur : Island.t) (stack : list nat) x pc pj
    (c o : nat) :
  search_inv w0 built w cur stack x pc pj →
  x ∈ Island.m_bodies cur → nonstatic w0 x → cedge w0 x c o → solid w0 c →
  bflag w o = true → o ∈ Island.m_bodies cur ∨ o ∈ stack.
Proof.
  intros Hinv Hx Hns He Hso Hf.
  destruct (si_flag_origin _ _ _ _ _ _ _ _ Hinv o Hf) as [?|[?|[Hno (J & HJ & HoJ)]]];
    [by left | by right | exfalso].
  destruct (wf_contact_edge _ _ _ _ Hwf He) as (_ & _ & _ & _ & _ & _ & _ & Hback & _).
  destruct (si_built_closed _ _ _ _ _ _ _ _ Hinv J HJ o HoJ Hno) as [Hcl _].
  specialize (Hcl c x Hback Hso).
  by destruct (si_disjoint _ _ _ _ _ _ _ _ Hinv J x HJ Hcl Hns).
Qed.

Lemma flagged_joint_other (w : World.t) (cur : Island.t) (stack : list nat) x pc pj
    (j o : nat) :
  search_inv w0 built w cur stack x pc pj →
  x ∈ Island.m_bodies cur → nonstatic w0 x → jedge w0 x j o →
  bflag w o = true → o ∈ Island.m_bodies cur ∨ o ∈ stack.
Proof.
  intros Hinv Hx Hns He Hf.
  destruct (si_flag_origin _ _ _ _ _ _ _ _ Hinv o Hf) as [?|[?|[Hno (J & HJ & HoJ)]]];
    [by left | by right | exfalso].
  destruct (wf_joint_edge _ _ _ _ Hwf He) as (_ & _ & _ & Hback).
  destruct (si_built_closed _ _ _ _ _ _ _ _ Hinv J HJ o HoJ Hno) as [_ Hcl].
  assert (Hax : active w0 x) by (apply (si_active _ _ _ _ _ _ _ _ Hinv); by left).
  specialize (Hcl j x Hback Hax).
  by destruct (si_disjoint _ _ _ _ _ _ _ _ Hinv J x HJ Hcl Hns).
Qed.

Lemma island_contact_other (w : World.t) (cur : Island.t) (stack : list nat) x pc pj
    (c o : nat) :
  search_inv w0 built w cur stack x pc pj →
  x ∈ Island.m_bodies cur → nonstatic w0 x → cedge w0 x c o →
  cflag w c = true → o ∈ Island.m_bodies cur ∨ o ∈ stack.
Proof.
  intros Hinv Hx Hns He Hf.
  destruct (si_cflag _ _ _ _ _ _ _ _ Hinv c Hf) as [(J & HJ & Hends)|Hends].
  - exfalso. destruct (Hends x o He) as [HxJ _].
    by destruct (si_disjoint _ _ _ _ _ _ _ _ Hinv J x HJ HxJ Hns).
  - destruct (Hends x o He) as [_ Ho]. by apply elem_of_app in Ho.
Qed.

Lemma island_joint_other (w : World.t) (cur : Island.t) (stack : list nat) x pc pj
    (j o : nat) :
  search_inv w0 built w cur stack x pc pj →
  x ∈ Island.m_bodies cur → nonstatic w0 x → jedge w0 x j o →
  jflag w j = true → o ∈ Island.m_bodies cur ∨ o ∈ stack.
Proof.
  intros Hinv Hx Hns He Hf.
  destruct (si_jflag _ _ _ _ _ _ _ _ Hinv j Hf) as [(J & HJ & Hends)|Hends].
  - exfalso. destruct (Hends x o He) as [HxJ _].
    by destruct (si_disjoint _ _ _ _ _ _ _ _ Hinv J x HJ HxJ Hns).
  - destruct (Hends x o He) as [_ Ho]. by apply elem_of_app in Ho.
Qed.

Lemma contact_ends_members (X : list nat) (x c o : nat) :
  cedge w0 x c o → x ∈ X → o ∈ X → contact_ends_in w0 c X.
Proof.
  intros He Hx Ho b' o' He'.
  destruct (wf_contact_ends _ _ _ _ _ _ Hwf He He') as [[-> ->]|[-> ->]]; done.
Qed.

Lemma joint_ends_members (X : list nat) (x j o : nat) :
  jedge w0 x j o → x ∈ X → o ∈ X → joint_ends_in w0 j X.
Proof.
  intros He Hx Ho b' o' He'.
  destruct (wf_joint_ends _ _ _ _ _ _ Hwf He He') as [[-> ->]|[-> ->]]; done.
Qed.

Lemma push_body_capacity (sz : Z) (o : nat) (w : World.t) (stack : list nat)
    (r : World.t * list nat) :
  push_body sz o w stack = Done r → Z.of_nat (length stack) < sz.
Proof. unfold push_body. case_decide; [done | lia]. Qed.

(** One contact edge of the body [x] being read. *)
Lemma search_contact_inv (w : World.t) (cur : Island.t) (stack : list nat) x ce pc pj :
  search_inv w0 built w cur stack x (ce :: pc) pj →
  x ∈ Island.m_bodies cur → nonstatic w0 x →
  cedge w0 x (ce_contact ce) (ce_other ce) →
  ∃ w' cur' stack',
    search_contact bm (Z.of_nat (size (World.bodies w0))) ce (w, cur, stack)
    = Done (w', cur', stack')
    ∧ Island.m_bodies cur' = Island.m_bodies cur
    ∧ search_inv w0 built w' cur' stack' x pc pj.
Proof.
  intros Hinv Hx Hns He.
  pose proof (si_graph _ _ _ _ _ _ _ _ Hinv) as Hgr.
  destruct (wf_contact_edge _ _ _ _ Hwf He)
    as (ct0 & fA & fB & Hc0 & HfA0 & HfB0 & _ & Hback & Hact).
  destruct (same_graph_contact_rev _ _ _ _ Hgr Hc0) as (ct & Hc & Hshape).
  assert (Hfx : World.fixtures w = World.fixtures w0) by apply Hgr.
  assert (HfA : World.fixtures w !! Contact.m_fixtureA ct = Some fA).
  { unfold contact_shape in Hshape. rewrite Hfx.
    replace (Contact.m_fixtureA ct) with (Contact.m_fixtureA ct0) by congruence. done. }
  assert (HfB : World.fixtures w !! Contact.m_fixtureB ct = Some fB).
  { unfold contact_shape in Hshape. rewrite Hfx.
    replace (Contact.m_fixtureB ct) with (Contact.m_fixtureB ct0) by congruence. done. }
  pose proof (solid_current _ _ Hgr _ _ _ _ Hc HfA HfB) as Hsolid.
  destruct Hact as (ob0 & Hob0 & Hactive0).
  destruct (same_graph_body_rev _ _ _ _ Hgr Hob0) as (ob & Hob & _).
  unfold search_contact, get_contact, get_fixture, deref. rewrite Hc.
  cbn [mbind result_bind].
  destruct (Contact.in_island ct) eqn:Hci.
  { exists w, cur, stack. split; [done|]. split; [done|].
    eapply drop_pending_contact; [done|]. intros Hso.
    eapply island_contact_other; try done.
    by rewrite (cflag_lookup _ _ _ Hc). }
  destruct (negb (Contact.IsEnabled ct) || negb (Contact.IsTouching ct)) eqn:Het.
  { exists w, cur, stack. split; [done|]. split; [done|].
    eapply drop_pending_contact; [done|]. intros Hso. exfalso.
    apply Hsolid in Hso as (H1 & H2 & _). rewrite H1, H2 in Het. done. }
  rewrite HfA, HfB. cbn [mbind result_bind].
  destruct (Fixture.m_isSensor fA || Fixture.m_isSensor fB) eqn:Hsens.
  { exists w, cur, stack. split; [done|]. split; [done|].
    eapply drop_pending_contact; [done|]. intros Hso. exfalso.
    apply Hsolid in Hso as (_ & _ & H3 & H4). rewrite H3, H4 in Hsens. done. }
  assert (Hso : solid w0 (ce_contact ce)).
  { apply Hsolid. apply orb_false_iff in Het as [H1 H2].
    apply orb_false_iff in Hsens as [H3 H4].
    apply negb_false_iff in H1, H2. done. }
  destruct (Body.in_island ob) eqn:Hoi.
  - (* the other body is already flagged: it is a member *)
    assert (Hmem : ce_other ce ∈ Island.m_bodies cur ∨ ce_other ce ∈ stack).
    { eapply flagged_contact_other; try done. by rewrite (bflag_lookup _ _ _ Hob). }
    assert (Hinv' : search_inv w0 built w cur stack x pc pj).
    { eapply drop_pending_contact; [done|]. by intros _. }
    destruct (flag_contact_inv w cur stack x pc pj _ ct Hinv' Hc Hci)
      as (cur' & Hadd & Hbodies & Hinv'').
    { eapply contact_ends_members; [done | |]; rewrite elem_of_app; tauto. }
    eexists _, cur', stack. split; [|split; [done | exact Hinv'']].
    rewrite Hadd. cbn [mbind result_bind].
    unfold update_contact, get_contact, deref. rewrite Hc. cbn [mbind result_bind].
    unfold get_body, deref. cbn [put_contact World.bodies World.with_contacts].
    rewrite Hob. cbn [mbind result_bind]. by rewrite Hoi.
  - (* the other body is pushed *)
    destruct (push_body_inv w cur stack x (ce :: pc) pj _ ob Hinv Hob Hoi)
      as (wp & Hpush & Hinvp & Hcp & _); [by exists ob0|].
    pose proof (push_body_capacity _ _ _ _ _ Hpush) as Hcap.
    assert (Hinvp' : search_inv w0 built wp cur (ce_other ce :: stack) x pc pj).
    { eapply drop_pending_contact; [done|]. intros _. right. by left. }
    assert (Hcwp : World.contacts wp !! ce_contact ce = Some ct) by (by rewrite Hcp).
    destruct (flag_contact_inv wp cur (ce_other ce :: stack) x pc pj _ ct Hinvp' Hcwp Hci)
      as (cur' & Hadd & Hbodies & Hinv'').
    { eapply contact_ends_members; [done | |]; rewrite elem_of_app, ?elem_of_cons; tauto. }
    eexists _, cur', (ce_other ce :: stack). split; [|split; [done | exact Hinv'']].
    rewrite Hadd. cbn [mbind result_bind].
    unfold update_contact, get_contact, deref. rewrite Hc. cbn [mbind result_bind].
    unfold get_body, deref. cbn [put_contact World.bodies World.with_contacts].
    rewrite Hob. cbn [mbind result_bind]. rewrite Hoi.
    assert (Ha : cb2Assert bm (Z.of_nat (length stack) <? Z.of_nat (size (World.bodies w0)))
                 = Done ()).
    { destruct bm; [|done]. unfold cb2Assert. by rewrite (proj2 (Z.ltb_lt _ _)). }
    rewrite Ha. cbn [mbind result_bind].
    assert (Hwp : wp = put_body (ce_other ce)
                         (Body.with_flags (set_flag (Body.m_flags ob) Body.e_islandFlag) ob)
                         w).
    { revert Hpush. unfold push_body. rewrite decide_False by lia.
      unfold update_body, get_body, deref. rewrite Hob. cbn [mbind result_bind].
      intros Hpush. by inversion Hpush. }
    unfold push_body. rewrite decide_False by lia.
    unfold update_body, get_body, deref. cbn [put_contact World.bodies World.with_contacts].
    rewrite Hob. cbn [mbind result_bind]. rewrite Hwp. reflexivity.
Qed.

(** One joint edge of the body [x] being read. *)
Lemma search_joint_inv (w : World.t) (cur : Island.t) (stack : list nat) x je pc pj :
  search_inv w0 built w cur stack x pc (je :: pj) →
  x ∈ Island.m_bodies cur → nonstatic w0 x →
  jedge w0 x (je_joint je) (je_other je) →
  ∃ w' cur' stack',
    search_joint bm (Z.of_nat (size (World.bodies w0))) je (w, cur, stack)
    = Done (w', cur', stack')
    ∧ Island.m_bodies cur' = Island.m_bodies cur
    ∧ search_inv w0 built w' cur' stack' x pc pj.
Proof.
  intros Hinv Hx Hns He.
  pose proof (si_graph _ _ _ _ _ _ _ _ Hinv) as Hgr.
  destruct (wf_joint_edge _ _ _ _ Hwf He) as (jt0 & Hj0 & _ & Hback).
  destruct (same_graph_joint_rev _ _ _ _ Hgr Hj0) as (jt & Hj & _).
  destruct Hback as (ob0 & Hob0 & Hback).
  destruct (same_graph_body_rev _ _ _ _ Hgr Hob0) as (ob & Hob & _).
  pose proof (active_current _ _ Hgr _ _ Hob) as Hact.
  unfold search_joint, get_joint, get_body, deref. rewrite Hj.
  cbn [mbind result_bind].
  destruct (Joint.m_islandFlag jt) eqn:Hji.
  { exists w, cur, stack. split; [done|]. split; [done|].
    eapply drop_pending_joint; [done|]. intros _.
    eapply island_joint_other; try done.
    by rewrite (jflag_lookup _ _ _ Hj). }
  rewrite Hob. cbn [mbind result_bind].
  destruct (Body.IsActive ob) eqn:Hoa; cbn [negb].
  2:{ exists w, cur, stack. split; [done|]. split; [done|].
      eapply drop_pending_joint; [done|]. intros Ha. apply Hact in Ha. done. }
  assert (Hao : active w0 (je_other je)) by (by apply Hact).
  destruct (Body.in_island ob) eqn:Hoi.
  - assert (Hmem : je_other je ∈ Island.m_bodies cur ∨ je_other je ∈ stack).
    { eapply flagged_joint_other; try done. by rewrite (bflag_lookup _ _ _ Hob). }
    assert (Hinv' : search_inv w0 built w cur stack x pc pj).
    { eapply drop_pending_joint; [done|]. by intros _. }
    destruct (flag_joint_inv w cur stack x pc pj _ jt Hinv' Hj Hji)
      as (cur' & Hadd & Hbodies & Hinv'').
    { eapply joint_ends_members; [done | |]; rewrite elem_of_app; tauto. }
    eexists _, cur', stack. split; [|split; [done | exact Hinv'']].
    rewrite Hadd. cbn [mbind result_bind].
    unfold update_joint, get_joint, deref. rewrite Hj. cbn [mbind result_bind].
    reflexivity.
  - destruct (push_body_inv w cur stack x pc (je :: pj) _ ob Hinv Hob Hoi Hao)
      as (wp & Hpush & Hinvp & _ & Hjp).
    pose proof (push_body_capacity _ _ _ _ _ Hpush) as Hcap.
    assert (Hinvp' : search_inv w0 built wp cur (je_other je :: stack) x pc pj).
    { eapply drop_pending_joint; [done|]. intros _. right. by left. }
    assert (Hjwp : World.joints wp !! je_joint je = Some jt) by (by rewrite Hjp).
    destruct (flag_joint_inv wp cur (je_other je :: stack) x pc pj _ jt Hinvp' Hjwp Hji)
      as (cur' & Hadd & Hbodies & Hinv'').
    { eapply joint_ends_members; [done | |]; rewrite elem_of_app, ?elem_of_cons; tauto. }
    eexists _, cur', (je_other je :: stack). split; [|split; [done | exact Hinv'']].
    rewrite Hadd. cbn [mbind result_bind].
    unfold update_joint, get_joint, deref. rewrite Hj. cbn [mbind result_bind].
    assert (Ha : cb2Assert bm (Z.of_nat (length stack) <? Z.of_nat (size (World.bodies w0)))
                 = Done ()).
    { destruct bm; [|done]. unfold cb2Assert. by rewrite (proj2 (Z.ltb_lt _ _)). }
    rewrite Ha. cbn [mbind result_bind].
    assert (Hwp : wp = put_body (je_other je)
                         (Body.with_flags (set_flag (Body.m_flags ob) Body.e_islandFlag) ob)
                         w).
    { revert Hpush. unfold push_body. rewrite decide_False by lia.
      unfold update_body, get_body, deref. rewrite Hob. cbn [mbind result_bind].
      intros Hpush. by inversion Hpush. }
    unfold push_body. rewrite decide_False by lia.
    unfold update_body, get_body, deref. cbn [put_joint World.bodies World.with_joints].
    rewrite Hob. cbn [mbind result_bind]. rewrite Hwp. reflexivity.
Qed.

(** The two loops over the edges of [x]. *)
Lemma search_contacts_inv (l : list cb2ContactEdge) (w : World.t) (cur : Island.t)
    (stack : list nat) x pj :
  search_inv w0 built w cur stack x l pj →
  x ∈ Island.m_bodies cur → nonstatic w0 x →
  (∀ ce, ce ∈ l → cedge w0 x (ce_contact ce) (ce_other ce)) →
  ∃ w' cur' stack',
    for_each (search_contact bm (Z.of_nat (size (World.bodies w0)))) l (w, cur, stack)
    = Done (w', cur', stack')
    ∧ Island.m_bodies cur' = Island.m_bodies cur
    ∧ search_inv w0 built w' cur' stack' x [] pj.
Proof.
  revert w cur stack. induction l as [|ce l IH]; intros w cur stack Hinv Hx Hns Hedges.
  - exists w, cur, stack. done.
  - destruct (search_contact_inv w cur stack x ce l pj Hinv Hx Hns)
      as (w1 & cur1 & stack1 & Hstep & Hb1 & Hinv1); [apply Hedges; by left|].
    destruct (IH w1 cur1 stack1 Hinv1) as (w2 & cur2 & stack2 & Hrest & Hb2 & Hinv2).
    { by rewrite Hb1. }
    { done. }
    { intros ce' Hce'. apply Hedges. by right. }
    exists w2, cur2, stack2. split; [|split; [congruence | done]].
    cbn [for_each]. rewrite Hstep. exact Hrest.
Qed.

Lemma search_joints_inv (l : list cb2JointEdge) (w : World.t) (cur : Island.t)
    (stack : list nat) x :
  search_inv w0 built w cur stack x [] l →
  x ∈ Island.m_bodies cur → nonstatic w0 x →
  (∀ je, je ∈ l → jedge w0 x (je_joint je) (je_other je)) →
  ∃ w' cur' stack',
    for_each (search_joint bm (Z.of_nat (size (World.bodies w0)))) l (w, cur, stack)
    = Done (w', cur', stack')
    ∧ Island.m_bodies cur' = Island.m_bodies cur
    ∧ search_inv w0 built w' cur' stack' x [] [].
Proof.
  revert w cur stack. induction l as [|je l IH]; intros w cur stack Hinv Hx Hns Hedges.
  - exists w, cur, stack. done.
  - destruct (search_joint_inv w cur stack x je [] l Hinv Hx Hns)
      as (w1 & cur1 & stack1 & Hstep & Hb1 & Hinv1); [apply Hedges; by left|].
    destruct (IH w1 cur1 stack1 Hinv1) as (w2 & cur2 & stack2 & Hrest & Hb2 & Hinv2).
    { by rewrite Hb1. }
    { done. }
    { intros je' Hje'. apply Hedges. by right. }
    exists w2, cur2, stack2. split; [|split; [congruence | done]].
    cbn [for_each]. rewrite Hstep. exact Hrest.
Qed.

(** A write to a body that keeps its shape and its island flag. *)
Lemma put_body_inv (w : World.t) (cur : Island.t) (stack : list nat) x pc pj
    (b : nat) (body body' : Body.t) :
  search_inv w0 built w cur stack x pc pj →
  World.bodies w !! b = Some body →
  body_shape body' = body_shape body → Body.in_island body' = Body.in_island body →
  search_inv w0 built (put_body b body' w) cur stack x pc pj.
Proof.
  intros [Hgr Hcaps Hmem Horig Hbf' Hdis Hnd Hactive Hbc Hcc Hcf Hjf Hcs Hjs] Hb Hs Hi.
  assert (Hbf : ∀ b', bflag (put_body b body' w) b' = bflag w b').
  { intros b'. rewrite bflag_put_body. case_decide as Hd; [|done].
    subst. by rewrite (bflag_lookup _ _ _ Hb). }
  constructor; try done.
  - by eapply same_graph_put_body.
  - intros b' Hb'. rewrite Hbf. by apply Hmem.
  - intros b'. rewrite Hbf. apply Horig.
  - intros J b' HJ Hb' Hns. rewrite Hbf. by eapply Hbf'.
Qed.

(** Taking a body off the stack. *)
Lemma pop_inv (w : World.t) (cur : Island.t) (stack : list nat) x (b : nat) (body : Body.t) :
  search_inv w0 built w cur (b :: stack) x [] [] →
  World.bodies w !! b = Some body →
  ∃ w1 w2,
    cb2Assert bm (Body.IsActive body) = Done ()
    ∧ Island_AddBody bm b (w, cur) = Done (w1, island_with_body b cur)
    ∧ update_body (Body.SetAwake true) b w1 = Done w2
    ∧ search_inv w0 built w2 (island_with_body b cur) stack b
        (Body.m_contactList body) (Body.m_jointList body).
Proof.
  intros Hinv Hb.
  pose proof (si_graph _ _ _ _ _ _ _ _ Hinv) as Hgr.
  assert (Hlen : (length ((b :: stack) ++ Island.m_bodies cur) ≤ size (World.bodies w0))%nat).
  { apply length_le_size; [apply (si_nodup _ _ _ _ _ _ _ _ Hinv)|].
    by eapply members_exist. }
  cbn [app length] in Hlen. rewrite length_app in Hlen.
  destruct (si_caps _ _ _ _ _ _ _ _ Hinv) as (Hcap1 & Hcap2 & Hcap3).
  set (b1 := Body.with_islandIndex (Island.m_bodyCount cur) body).
  set (b2 := Body.SetAwake true b1).
  exists (put_body b b1 w), (put_body b b2 (put_body b b1 w)).
  split; [|split; [|split]].
  - destruct bm; [|done]. unfold cb2Assert.
    assert (Ha : active w0 b).
    { apply (si_active _ _ _ _ _ _ _ _ Hinv). right. by left. }
    apply (active_current _ _ Hgr _ _ Hb) in Ha. by rewrite Ha.
  - unfold Island_AddBody.
    assert (Hlt : Island.m_bodyCount cur < Island.m_bodyCapacity cur).
    { unfold Island.m_bodyCount. lia. }
    assert (Ha : cb2Assert bm (Island.m_bodyCount cur <? Island.m_bodyCapacity cur)
                 = Done ()).
    { destruct bm; [|done]. unfold cb2Assert. by rewrite (proj2 (Z.ltb_lt _ _)). }
    rewrite Ha. cbn [mbind result_bind]. rewrite decide_False by lia.
    unfold update_body, get_body, deref. rewrite Hb. reflexivity.
  - unfold update_body, get_body, deref, put_body. cbn [World.bodies World.with_bodies].
    rewrite lookup_insert_eq. reflexivity.
  - assert (Hinv1 : search_inv w0 built (put_body b b2 (put_body b b1 w)) cur (b :: stack)
                      x [] []).
    { eapply put_body_inv.
      - eapply put_body_inv; [exact Hinv | exact Hb | done | done].
      - unfold put_body. cbn [World.bodies World.with_bodies]. apply lookup_insert_eq.
      - apply Body_shape_SetAwake.
      - apply Body_in_island_SetAwake. }
    destruct Hinv1 as [Hgr1 Hcaps Hmem Horig Hbf' Hdis Hnd Hactive Hbc Hcc Hcf Hjf Hcs Hjs].
    constructor; cbn [island_with_body Island.m_bodies Island.m_contacts Island.m_joints
                      Island.m_bodyCapacity Island.m_contactCapacity Island.m_jointCapacity];
      try done.
    + intros b' Hb'. apply Hmem. rewrite elem_of_app, list_elem_of_singleton in Hb'.
      rewrite elem_of_cons. tauto.
    + intros b' Hb'. specialize (Horig b' Hb').
      rewrite elem_of_app, list_elem_of_singleton. rewrite elem_of_cons in Horig. tauto.
    + intros J b' HJ Hb' Hns. destruct (Hdis J b' HJ Hb' Hns) as [H1 H2].
      rewrite elem_of_app, list_elem_of_singleton. rewrite elem_of_cons in H2. tauto.
    + cbn [app] in Hnd. apply NoDup_cons in Hnd as [Hnb Hnd].
      apply NoDup_app in Hnd as (Hn1 & Hn2 & Hn3).
      apply NoDup_app. split; [done|]. split.
      * intros y Hy Hy'. apply elem_of_app in Hy' as [Hy'|Hy'].
        -- by apply (Hn2 y).
        -- apply list_elem_of_singleton in Hy'. subst. apply Hnb. apply elem_of_app. by left.
      * apply NoDup_app. split; [done|]. split; [|apply NoDup_singleton].
        intros y Hy Hy'. apply list_elem_of_singleton in Hy'. subst.
        apply Hnb. apply elem_of_app. by right.
    + intros b' Hb'. apply Hactive. rewrite elem_of_app, list_elem_of_singleton in Hb'.
      rewrite elem_of_cons. tauto.
    + intros b' Hb' Hns. apply elem_of_app in Hb' as [Hb'|Hb'].
      * destruct (Hcc b' Hb' Hns) as [Hc Hj]. split.
        -- intros c o He Hso. destruct (Hc c o He Hso) as [?|[Ho|[_ Ho]]].
           ++ left. apply elem_of_app. by left.
           ++ apply elem_of_cons in Ho as [->|Ho]; [|by right; left].
              left. apply elem_of_app. right. by apply list_elem_of_singleton.
           ++ by apply elem_of_nil in Ho.
        -- intros j o He Hso. destruct (Hj j o He Hso) as [?|[Ho|[_ Ho]]].
           ++ left. apply elem_of_app. by left.
           ++ apply elem_of_cons in Ho as [->|Ho]; [|by right; left].
              left. apply elem_of_app. right. by apply list_elem_of_singleton.
           ++ by apply elem_of_nil in Ho.
      * apply list_elem_of_singleton in Hb'. subst b'.
        destruct (same_graph_body _ _ _ _ Hgr Hb) as (body0 & Hb0 & Hs).
        unfold body_shape in Hs. split.
        -- intros c o (body0' & Hb0' & Hin) _. right; right. split; [done|].
           rewrite Hb0 in Hb0'. inversion Hb0'; subst body0'.
           replace (Body.m_contactList body) with (Body.m_contactList body0)
             by congruence. done.
        -- intros j o (body0' & Hb0' & Hin) _. right; right. split; [done|].
           rewrite Hb0 in Hb0'. inversion Hb0'; subst body0'.
           replace (Body.m_jointList body) with (Body.m_jointList body0)
             by congruence. done.
    + intros c Hc. destruct (Hcf c Hc) as [?|He]; [by left|]. right.
      intros b' o Hed. destruct (He b' o Hed) as [H1 H2].
      rewrite !elem_of_app, !elem_of_cons, ?list_elem_of_singleton in *. tauto.
    + intros j Hj. destruct (Hjf j Hj) as [?|He]; [by left|]. right.
      intros b' o Hed. destruct (He b' o Hed) as [H1 H2].
      rewrite !elem_of_app, !elem_of_cons, ?list_elem_of_singleton in *. tauto.
Qed.

(** The stack only grows while the edges of a body are read. *)
Lemma push_body_stack (sz : Z) (o : nat) (w w' : World.t) (stack stack' : list nat) :
  push_body sz o w stack = Done (w', stack') → stack' = o :: stack.
Proof.
  unfold push_body. case_decide; [done|]. intros Hp.
  apply bind_Done in Hp as (w1 & _ & Hp). by inversion Hp.
Qed.

Lemma search_contact_stack (sz : Z) (ce : cb2ContactEdge) (st st' : search_state) :
  search_contact bm sz ce st = Done st' → ∀ b, b ∈ st.2 → b ∈ st'.2.
Proof.
  destruct st as [[w cur] stack], st' as [[w' cur'] stack']. unfold search_contact.
  intros Hs. apply bind_Done in Hs as (ct & _ & Hs).
  destruct (Contact.in_island ct); [by inversion Hs|].
  destruct (_ || _); [by inversion Hs|].
  apply bind_Done in Hs as (fA & _ & Hs). apply bind_Done in Hs as (fB & _ & Hs).
  destruct (_ || _); [by inversion Hs|].
  apply bind_Done in Hs as (cur1 & _ & Hs). apply bind_Done in Hs as (w1 & _ & Hs).
  apply bind_Done in Hs as (ob & _ & Hs).
  destruct (Body.in_island ob); [by inversion Hs|].
  apply bind_Done in Hs as (_ & _ & Hs).
  apply bind_Done in Hs as ([w2 stack2] & Hp & Hs).
  apply push_body_stack in Hp. inversion Hs; subst. intros b Hb. by right.
Qed.

Lemma search_joint_stack (sz : Z) (je : cb2JointEdge) (st st' : search_state) :
  search_joint bm sz je st = Done st' → ∀ b, b ∈ st.2 → b ∈ st'.2.
Proof.
  destruct st as [[w cur] stack], st' as [[w' cur'] stack']. unfold search_joint.
  intros Hs. apply bind_Done in Hs as (jt & _ & Hs).
  destruct (Joint.m_islandFlag jt); [by inversion Hs|].
  apply bind_Done in Hs as (ob & _ & Hs).
  destruct (negb _); [by inversion Hs|].
  apply bind_Done in Hs as (cur1 & _ & Hs). apply bind_Done in Hs as (w1 & _ & Hs).
  destruct (Body.in_island ob); [by inversion Hs|].
  apply bind_Done in Hs as (_ & _ & Hs).
  apply bind_Done in Hs as ([w2 stack2] & Hp & Hs).
  apply push_body_stack in Hp. inversion Hs; subst. intros b Hb. by right.
Qed.

Lemma for_each_stack {A : Type} (f : A → search_state → result search_state)
    (l : list A) (st st' : search_state) :
  (∀ x s s', f x s = Done s' → ∀ b, b ∈ s.2 → b ∈ s'.2) →
  for_each f l st = Done st' → ∀ b, b ∈ st.2 → b ∈ st'.2.
Proof.
  intros Hf. apply (for_each_Done_ind (λ s s', ∀ b, b ∈ s.2 → b ∈ s'.2)).
  - done.
  - intros s1 s2 s3 H12 H23 b Hb. by apply H23, H12.
  - intros x s1 s2 _. apply Hf.
Qed.

(** The edges of a static body are never read. *)
Lemma static_pending_drop (w : World.t) (cur : Island.t) (stack : list nat) x pc pj :
  search_inv w0 built w cur stack x pc pj → ¬ nonstatic w0 x →
  search_inv w0 built w cur stack x [] [].
Proof.
  intros [Hgr Hcaps Hmem Horig Hbf' Hdis Hnd Hactive Hbc Hcc Hcf Hjf Hcs Hjs] Hst.
  constructor; try done.
  intros b Hb Hns. destruct (Hcc b Hb Hns) as [Hc Hj]. split.
  - intros c o He Hso. destruct (Hc c o He Hso) as [?|[?|[-> _]]]; [by left | by right; left | done].
  - intros j o He Hso. destruct (Hj j o He Hso) as [?|[?|[-> _]]]; [by left | by right; left | done].
Qed.

(** The search returns, with an island closed under the links. *)
Lemma search_total (fuel : nat) :
  ∀ (w : World.t) (cur : Island.t) (stack : list nat) (x : nat),
    search_inv w0 built w cur stack x [] [] →
    (size (World.bodies w0) < fuel + length (Island.m_bodies cur))%nat →
    ∃ w' cur' x',
      search bm fuel (Z.of_nat (size (World.bodies w0))) (w, cur, stack) = Done (w', cur')
      ∧ search_inv w0 built w' cur' [] x' [] []
      ∧ (∀ b, b ∈ Island.m_bodies cur ∨ b ∈ stack → b ∈ Island.m_bodies cur').
Proof.
  induction fuel as [|fuel IH]; intros w cur stack x Hinv Hfuel.
  - destruct stack as [|b stack].
    + exists w, cur, x. split; [done|]. split; [done|]. intros b [?|Hb]; [done|].
      by apply elem_of_nil in Hb.
    + exfalso.
      assert (Hlen : (length ((b :: stack) ++ Island.m_bodies cur)
                      ≤ size (World.bodies w0))%nat).
      { apply length_le_size; [apply (si_nodup _ _ _ _ _ _ _ _ Hinv)|].
        by eapply members_exist. }
      cbn [app length] in Hlen. rewrite length_app in Hlen. lia.
  - destruct stack as [|b stack].
    { exists w, cur, x. split; [done|]. split; [done|]. intros b [?|Hb]; [done|].
      by apply elem_of_nil in Hb. }
    pose proof (si_graph _ _ _ _ _ _ _ _ Hinv) as Hgr.
    assert (Hbf : bflag w b = true).
    { apply (si_members_flagged _ _ _ _ _ _ _ _ Hinv). right. by left. }
    apply bflag_true in Hbf as (body & Hb & _).
    destruct (pop_inv w cur stack x b body Hinv Hb) as (w1 & w2 & Hassert & Hadd & Hwake & Hinv2).
    assert (Hfuel' : (size (World.bodies w0)
                      < fuel + length (Island.m_bodies (island_with_body b cur)))%nat).
    { cbn [island_with_body Island.m_bodies]. rewrite length_app. cbn [length]. lia. }
    assert (Hbin : b ∈ Island.m_bodies (island_with_body b cur)).
    { cbn [island_with_body Island.m_bodies]. apply elem_of_app. right. by left. }
    assert (Hsub : ∀ b', b' ∈ Island.m_bodies cur ∨ b' ∈ b :: stack →
                     b' ∈ Island.m_bodies (island_with_body b cur) ∨ b' ∈ stack).
    { intros b'. cbn [island_with_body Island.m_bodies].
      rewrite elem_of_app, elem_of_cons, list_elem_of_singleton. tauto. }
    cbn [search]. unfold get_body at 1, deref. rewrite Hb. cbn [mbind result_bind].
    rewrite Hassert. cbn [mbind result_bind]. rewrite Hadd. cbn [mbind result_bind].
    rewrite Hwake. cbn [mbind result_bind].
    pose proof (nonstatic_current _ _ Hgr _ _ Hb) as Hns.
    unfold Body.GetType. case_decide as Hty.
    + (* a static body *)
      assert (Hinv3 : search_inv w0 built w2 (island_with_body b cur) stack b [] []).
      { eapply static_pending_drop; [done|]. intros Hn. by apply Hns in Hn. }
      destruct (IH _ _ _ _ Hinv3 Hfuel') as (w' & cur' & x' & Hrun & Hinv' & Hmem').
      exists w', cur', x'. split; [done|]. split; [done|].
      intros b' Hb'. by apply Hmem', Hsub.
    + assert (Hnsb : nonstatic w0 b) by (by apply Hns).
      destruct (search_contacts_inv (Body.m_contactList body) w2 _ stack b
                  (Body.m_jointList body) Hinv2 Hbin Hnsb)
        as (w3 & cur3 & stack3 & Hloop1 & Hbodies3 & Hinv3).
      { intros ce Hce. by eapply cedge_current. }
      rewrite Hloop1. cbn [mbind result_bind].
      destruct (search_joints_inv (Body.m_jointList body) w3 cur3 stack3 b Hinv3)
        as (w4 & cur4 & stack4 & Hloop2 & Hbodies4 & Hinv4).
      { by rewrite Hbodies3. }
      { done. }
      { intros je Hje. by eapply jedge_current. }
      rewrite Hloop2. cbn [mbind result_bind].
      destruct (IH _ _ _ _ Hinv4) as (w' & cur' & x' & Hrun & Hinv' & Hmem').
      { rewrite Hbodies4, Hbodies3. exact Hfuel'. }
      exists w', cur', x'. split; [done|]. split; [done|].
      intros b' Hb'. apply Hmem'.
      destruct (Hsub b' Hb') as [Hin|Hs].
      * left. by rewrite Hbodies4, Hbodies3.
      * (* a body left on the stack is still there after the edges are read *)
        right.
        apply (for_each_stack _ _ _ _ (search_joint_stack _) Hloop2 b').
        apply (for_each_stack _ _ _ _ (search_contact_stack _) Hloop1 b').
        exact Hs.
Qed.

End SearchSteps.

(** ** Solving an island and cleaning up after it *)

Section IslandDone.
Context {env : Collaborators}.
Variable bm : build.
Variables (w0 : World.t) (built : list (list nat)).
Hypothesis Hwf : wf_world w0.

Lemma sleep_loop_inv (cur : Island.t) x (l : list nat) :
  ∀ w, search_inv w0 built w cur [] x [] [] →
       (∀ b, b ∈ l → b ∈ Island.m_bodies cur) →
       ∃ w', for_each (update_body (Body.SetAwake false)) l w = Done w'
             ∧ search_inv w0 built w' cur [] x [] [].
Proof.
  induction l as [|b l IH]; intros w Hinv Hl.
  - by exists w.
  - assert (Hbf : bflag w b = true).
    { apply (si_members_flagged _ _ _ _ _ _ _ _ Hinv). left. apply Hl. by left. }
    apply bflag_true in Hbf as (body & Hb & _).
    destruct (IH (put_body b (Body.SetAwake false body) w)) as (w' & Hrun & Hinv').
    + eapply put_body_inv; [done | done | apply Body_shape_SetAwake
                           | apply Body_in_island_SetAwake].
    + intros b' Hb'. apply Hl. by right.
    + exists w'. split; [|done]. cbn [for_each].
      rewrite (update_body_lookup _ _ _ _ Hb). exact Hrun.
Qed.

Lemma Island_Solve_inv (step : cb2TimeStep) (allowSleep : bool) (cur : Island.t) x
    (w : World.t) :
  search_inv w0 built w cur [] x [] [] →
  ∃ w', Island_Solve step allowSleep cur w = Done w'
        ∧ search_inv w0 built w' cur [] x [] [].
Proof.
  intros Hinv. unfold Island_Solve.
  destruct (allowSleep && island_sleeps w cur step); [|by exists w].
  by apply sleep_loop_inv.
Qed.

(** The cleanup clears the island flag of the static bodies of the island
    and of them only. *)
Lemma cleanup_loop (l : list nat) :
  ∀ w, same_graph w0 w → (∀ b, b ∈ l → is_Some (World.bodies w !! b)) →
       ∃ w', for_each cleanup_step l w = Done w'
             ∧ same_graph w0 w'
             ∧ World.contacts w' = World.contacts w
             ∧ World.joints w' = World.joints w
             ∧ (∀ b, b ∈ l → ¬ nonstatic w0 b → bflag w' b = false)
             ∧ (∀ b, nonstatic w0 b → bflag w' b = bflag w b)
             ∧ (∀ b, bflag w' b = true → bflag w b = true).
Proof.
  induction l as [|b l IH]; intros w Hgr Hl.
  - exists w. split; [done|]. split; [done|]. split; [done|]. split; [done|].
    split; [|done]. intros b Hb. by apply elem_of_nil in Hb.
  - destruct (Hl b) as [body Hb]; [by left|].
    pose proof (nonstatic_current _ _ Hgr _ _ Hb) as Hns.
    destruct (decide (Body.m_type body = cb2_staticBody)) as [Hty|Hty].
    + set (body' := Body.with_flags (clear_flag (Body.m_flags body) Body.e_islandFlag) body).
      assert (Hstep : cleanup_step b w = Done (put_body b body' w)).
      { unfold cleanup_step, get_body, deref. rewrite Hb. cbn [mbind result_bind].
        unfold Body.GetType. by rewrite decide_True. }
      destruct (IH (put_body b body' w)) as (w' & Hrun & Hgr' & Hc & Hj & H1 & H2 & H3).
      * eapply same_graph_put_body; [done | done | apply Body_shape_clear_island].
      * intros b' Hb'. unfold put_body. cbn [World.bodies World.with_bodies].
        destruct (decide (b = b')) as [<-|Hne].
        -- rewrite lookup_insert_eq. eauto.
        -- rewrite lookup_insert_ne by done. apply Hl. by right.
      * exists w'. cbn [for_each]. rewrite Hstep. cbn [mbind result_bind].
        split; [done|]. split; [done|].
        split; [done|]. split; [done|]. split; [|split].
        -- intros b' Hb' Hst. apply elem_of_cons in Hb' as [->|Hb']; [|by apply H1].
           destruct (bflag w' b) eqn:Hf; [|done].
           apply H3 in Hf. rewrite bflag_put_body, decide_True in Hf by done.
           unfold body' in Hf. by rewrite Body_in_island_clear in Hf.
        -- intros b' Hb'. rewrite H2 by done. rewrite bflag_put_body.
           case_decide as Hd; [|done]. subst b'. apply Hns in Hb'. done.
        -- intros b' Hb'. apply H3 in Hb'. rewrite bflag_put_body in Hb'.
           case_decide as Hd; [|done]. subst b'. unfold body' in Hb'.
           by rewrite Body_in_island_clear in Hb'.
    + assert (Hstep : cleanup_step b w = Done w).
      { unfold cleanup_step, get_body, deref. rewrite Hb. cbn [mbind result_bind].
        unfold Body.GetType. by rewrite decide_False. }
      destruct (IH w Hgr) as (w' & Hrun & Hgr' & Hc & Hj & H1 & H2 & H3).
      * intros b' Hb'. apply Hl. by right.
      * exists w'. cbn [for_each]. rewrite Hstep. cbn [mbind result_bind].
        split; [done|]. split; [done|].
        split; [done|]. split; [done|]. split; [|done].
        intros b' Hb' Hst. apply elem_of_cons in Hb' as [->|Hb']; [|by apply H1].
        exfalso. apply Hst. by apply Hns.
Qed.

Lemma cleanup_inv (cur : Island.t) x (w : World.t) :
  search_inv w0 built w cur [] x [] [] →
  ∃ w', post_solve_cleanup cur w = Done w'
        ∧ search_inv w0 (built ++ [Island.m_bodies cur]) w' (Island.Clear cur) [] 0%nat [] [].
Proof.
  intros Hinv.
  destruct Hinv as [Hgr Hcaps Hmem Horig Hbf' Hdis Hnd Hactive Hbc Hcc Hcf Hjf Hcs Hjs].
  destruct (cleanup_loop (Island.m_bodies cur) w Hgr)
    as (w' & Hrun & Hgr' & Hc & Hj & H1 & H2 & H3).
  { intros b Hb. assert (Hf : bflag w b = true) by (apply Hmem; by left).
    apply bflag_true in Hf as (body & ? & _). eauto. }
  exists w'. split; [done|].
  assert (Hcfl : ∀ c, cflag w' c = cflag w c) by (intros c; unfold cflag; by rewrite Hc).
  assert (Hjfl : ∀ j, jflag w' j = jflag w j) by (intros j; unfold jflag; by rewrite Hj).
  constructor; cbn [Island.Clear Island.m_bodies Island.m_contacts Island.m_joints
                    Island.m_bodyCapacity Island.m_contactCapacity Island.m_jointCapacity].
  - done.
  - done.
  - intros b [Hb|Hb]; by apply elem_of_nil in Hb.
  - intros b Hb. right; right.
    pose proof (H3 b Hb) as Hbw.
    destruct (bflag_true _ _ Hbw) as (body & Hbody & _).
    pose proof (nonstatic_current _ _ Hgr _ _ Hbody) as Hns.
    destruct (Horig b Hbw) as [Hin|[Hin|[Hn (J & HJ & HbJ)]]].
    + destruct (decide (Body.m_type body = cb2_staticBody)) as [Hty|Hty].
      * assert (Hst : ¬ nonstatic w0 b) by (intros Hn; by apply Hns in Hn).
        rewrite (H1 b Hin Hst) in Hb. done.
      * split; [by apply Hns|]. exists (Island.m_bodies cur).
        split; [|done]. apply elem_of_app. right. by left.
    + by apply elem_of_nil in Hin.
    + split; [done|]. exists J. split; [|done]. apply elem_of_app. by left.
  - intros J b HJ Hb Hns. rewrite H2 by done.
    apply elem_of_app in HJ as [HJ|HJ].
    + by eapply Hbf'.
    + apply list_elem_of_singleton in HJ. subst J. apply Hmem. by left.
  - intros J b _ _ _. split; apply not_elem_of_nil.
  - apply NoDup_nil_2.
  - intros b [Hb|Hb]; by apply elem_of_nil in Hb.
  - intros J HJ. apply elem_of_app in HJ as [HJ|HJ]; [by apply Hbc|].
    apply list_elem_of_singleton in HJ. subst J.
    intros b Hb Hns. destruct (Hcc b Hb Hns) as [Hce Hje]. split.
    + intros c o He Hso. destruct (Hce c o He Hso) as [?|[Ho|[_ Ho]]];
        [done | by apply elem_of_nil in Ho | by apply elem_of_nil in Ho].
    + intros j o He Hso. destruct (Hje j o He Hso) as [?|[Ho|[_ Ho]]];
        [done | by apply elem_of_nil in Ho | by apply elem_of_nil in Ho].
  - intros b Hb. by apply elem_of_nil in Hb.
  - intros c Hcf'. rewrite Hcfl in Hcf'. left.
    destruct (Hcf c Hcf') as [(J & HJ & He)|He].
    + exists J. split; [|done]. apply elem_of_app. by left.
    + exists (Island.m_bodies cur). split; [apply elem_of_app; right; by left|].
      by rewrite app_nil_r in He.
  - intros j Hjf'. rewrite Hjfl in Hjf'. left.
    destruct (Hjf j Hjf') as [(J & HJ & He)|He].
    + exists J. split; [|done]. apply elem_of_app. by left.
    + exists (Island.m_bodies cur). split; [apply elem_of_app; right; by left|].
      by rewrite app_nil_r in He.
  - split; [apply NoDup_nil_2|]. intros c Hc'. by apply elem_of_nil in Hc'.
  - split; [apply NoDup_nil_2|]. intros j Hj'. by apply elem_of_nil in Hj'.
Qed.

End IslandDone.

(** ** The loop over the seeds *)

Section Seeds.
Context {env : Collaborators}.
Variable bm : build.
Variable w0 : World.t.
Hypothesis Hwf : wf_world w0.

Lemma Solve_seed_inv (fuel : nat) (step : cb2TimeStep) (seed : nat)
    (built : list Island.t) (w : World.t) (island : Island.t) :
  outer_inv w0 built w island →
  is_Some (World.bodies w0 !! seed) →
  (size (World.bodies w0) < fuel)%nat →
  ∃ w' island' built',
    Solve_seed bm fuel step (Z.of_nat (size (World.bodies w0))) seed (w, island, built)
    = Done (w', island', built')
    ∧ outer_inv w0 built' w' island'.
Proof.
  intros [Hinv Huniq] [s0 Hs0] Hfuel.
  pose proof (si_graph _ _ _ _ _ _ _ _ Hinv) as Hgr.
  destruct (same_graph_body_rev _ _ _ _ Hgr Hs0) as (s & Hs & _).
  unfold Solve_seed, get_body, deref. rewrite Hs. cbn [mbind result_bind].
  destruct (Body.in_island s) eqn:Hsi; [by exists w, island, built|].
  destruct (negb (Body.IsAwake s) || negb (Body.IsActive s)) eqn:Haw;
    [by exists w, island, built|].
  unfold Body.GetType. case_decide as Hty; [by exists w, island, built|].
  apply orb_false_iff in Haw as [_ Hact]. apply negb_false_iff in Hact.
  assert (Hactive : active w0 seed) by (by apply (active_current _ _ Hgr _ _ Hs)).
  destruct (push_body_inv w0 _ w _ [] 0%nat [] [] seed s Hinv Hs Hsi Hactive)
    as (wp & Hpush & Hinvp & _).
  rewrite Hpush. cbn [mbind result_bind].
  destruct (search_total bm w0 _ Hwf fuel wp _ [seed] 0%nat Hinvp)
    as (w1 & cur1 & x1 & Hsearch & Hinv1 & Hmem1).
  { cbn [Island.Clear Island.m_bodies length]. lia. }
  rewrite Hsearch. cbn [mbind result_bind].
  destruct (Island_Solve_inv w0 _ step (World.m_allowSleep w1) cur1 x1 w1 Hinv1)
    as (w2 & Hsolve & Hinv2).
  rewrite Hsolve. cbn [mbind result_bind].
  destruct (cleanup_inv w0 _ cur1 x1 w2 Hinv2) as (w3 & Hclean & Hinv3).
  rewrite Hclean. cbn [mbind result_bind].
  exists w3, cur1, (built ++ [cur1]). split; [done|]. split.
  - by rewrite fmap_app.
  - rewrite fmap_app. cbn [fmap list_fmap].
    intros i k J J' b Hi Hk HbJ HbJ' Hns.
    apply lookup_app_Some in Hi as [Hi|[Hil Hi]];
      apply lookup_app_Some in Hk as [Hk|[Hkl Hk]].
    + by eapply Huniq.
    + exfalso. apply list_lookup_singleton_Some in Hk as [_ <-].
      apply list_elem_of_lookup_2 in Hi.
      by destruct (si_disjoint _ _ _ _ _ _ _ _ Hinv1 J b Hi HbJ Hns).
    + exfalso. apply list_lookup_singleton_Some in Hi as [_ <-].
      apply list_elem_of_lookup_2 in Hk.
      by destruct (si_disjoint _ _ _ _ _ _ _ _ Hinv1 J' b Hk HbJ' Hns).
    + apply list_lookup_singleton_Some in Hi as [Hi _].
      apply list_lookup_singleton_Some in Hk as [Hk _]. lia.
Qed.

Lemma Solve_seeds_inv (fuel : nat) (step : cb2TimeStep) (l : list nat) :
  ∀ (built : list Island.t) (w : World.t) (island : Island.t),
    outer_inv w0 built w island →
    (∀ b, b ∈ l → is_Some (World.bodies w0 !! b)) →
    (size (World.bodies w0) < fuel)%nat →
    ∃ w' island' built',
      for_each (Solve_seed bm fuel step (Z.of_nat (size (World.bodies w0)))) l
               (w, island, built)
      = Done (w', island', built')
      ∧ outer_inv w0 built' w' island'.
Proof.
  induction l as [|seed l IH]; intros built w island Hinv Hl Hfuel.
  - by exists w, island, built.
  - destruct (Solve_seed_inv fuel step seed built w island Hinv)
      as (w1 & island1 & built1 & Hstep & Hinv1); [apply Hl; by left | done |].
    destruct (IH built1 w1 island1 Hinv1) as (w2 & island2 & built2 & Hrest & Hinv2).
    { intros b Hb. apply Hl. by right. }
    { done. }
    exists w2, island2, built2. split; [|done].
    cbn [for_each]. rewrite Hstep. exact Hrest.
Qed.

End Seeds.

(** ** Clearing the island flags at the start of a pass *)

Section Clearing.
Variable w0 : World.t.

Lemma clear_bodies_loop (l : list nat) :
  ∀ w, same_graph w0 w → (∀ b, b ∈ l → is_Some (World.bodies w0 !! b)) →
    ∃ w', for_each (update_body
                      (λ b, Body.with_flags (clear_flag (Body.m_flags b) Body.e_islandFlag) b))
                   l w = Done w'
          ∧ same_graph w0 w'
          ∧ World.contacts w' = World.contacts w ∧ World.joints w' = World.joints w
          ∧ (∀ b, b ∈ l → bflag w' b = false)
          ∧ (∀ b, bflag w b = false → bflag w' b = false).
Proof.
  induction l as [|b l IH]; intros w Hgr Hl.
  - exists w. split; [done|]. split; [done|]. split; [done|]. split; [done|].
    split; [|done]. intros b Hb. by apply elem_of_nil in Hb.
  - destruct (Hl b) as [body0 Hb0]; [by left|].
    destruct (same_graph_body_rev _ _ _ _ Hgr Hb0) as (body & Hb & _).
    set (body' := Body.with_flags (clear_flag (Body.m_flags body) Body.e_islandFlag) body).
    destruct (IH (put_body b body' w)) as (w' & Hrun & Hgr' & Hc & Hj & H1 & H2).
    + eapply same_graph_put_body; [done | done | apply Body_shape_clear_island].
    + intros b' Hb'. apply Hl. by right.
    + exists w'. cbn [for_each]. rewrite (update_body_lookup _ _ _ _ Hb).
      cbn [mbind result_bind]. split; [done|]. split; [done|]. split; [done|].
      split; [done|]. split.
      * intros b' Hb'. apply elem_of_cons in Hb' as [->|Hb']; [|by apply H1].
        apply H2. rewrite bflag_put_body, decide_True by done.
        apply Body_in_island_clear.
      * intros b' Hb'. apply H2. rewrite bflag_put_body. case_decide; [|done].
        apply Body_in_island_clear.
Qed.

Lemma clear_contacts_loop (l : list nat) :
  ∀ w, same_graph w0 w → (∀ c, c ∈ l → is_Some (World.contacts w0 !! c)) →
    ∃ w', for_each (update_contact
                      (λ c, Contact.with_flags
                              (clear_flag (Contact.m_flags c) Contact.e_islandFlag) c))
                   l w = Done w'
          ∧ same_graph w0 w'
          ∧ World.bodies w' = World.bodies w ∧ World.joints w' = World.joints w
          ∧ (∀ c, c ∈ l → cflag w' c = false)
          ∧ (∀ c, cflag w c = false → cflag w' c = false).
Proof.
  induction l as [|c l IH]; intros w Hgr Hl.
  - exists w. split; [done|]. split; [done|]. split; [done|]. split; [done|].
    split; [|done]. intros c Hc. by apply elem_of_nil in Hc.
  - destruct (Hl c) as [ct0 Hc0]; [by left|].
    destruct (same_graph_contact_rev _ _ _ _ Hgr Hc0) as (ct & Hc & _).
    set (ct' := Contact.with_flags (clear_flag (Contact.m_flags ct) Contact.e_islandFlag) ct).
    destruct (IH (put_contact c ct' w)) as (w' & Hrun & Hgr' & Hb & Hj & H1 & H2).
    + eapply same_graph_put_contact; [done | done | apply Contact_shape_clear_island].
    + intros c' Hc'. apply Hl. by right.
    + exists w'. cbn [for_each]. rewrite (update_contact_lookup _ _ _ _ Hc).
      cbn [mbind result_bind]. split; [done|]. split; [done|]. split; [done|].
      split; [done|]. split.
      * intros c' Hc'. apply elem_of_cons in Hc' as [->|Hc']; [|by apply H1].
        apply H2. rewrite cflag_put_contact, decide_True by done.
        apply Contact_in_island_clear.
      * intros c' Hc'. apply H2. rewrite cflag_put_contact. case_decide; [|done].
        apply Contact_in_island_clear.
Qed.

Lemma clear_joints_loop (l : list nat) :
  ∀ w, same_graph w0 w → (∀ j, j ∈ l → is_Some (World.joints w0 !! j)) →
    ∃ w', for_each (update_joint (Joint.with_islandFlag false)) l w = Done w'
          ∧ same_graph w0 w'
          ∧ World.bodies w' = World.bodies w ∧ World.contacts w' = World.contacts w
          ∧ (∀ j, j ∈ l → jflag w' j = false)
          ∧ (∀ j, jflag w j = false → jflag w' j = false).
Proof.
  induction l as [|j l IH]; intros w Hgr Hl.
  - exists w. split; [done|]. split; [done|]. split; [done|]. split; [done|].
    split; [|done]. intros j Hj. by apply elem_of_nil in Hj.
  - destruct (Hl j) as [jt0 Hj0]; [by left|].
    destruct (same_graph_joint_rev _ _ _ _ Hgr Hj0) as (jt & Hj & _).
    destruct (IH (put_joint j (Joint.with_islandFlag false jt) w))
      as (w' & Hrun & Hgr' & Hb & Hc & H1 & H2).
    + eapply same_graph_put_joint; [done | done | done].
    + intros j' Hj'. apply Hl. by right.
    + exists w'. cbn [for_each]. rewrite (update_joint_lookup _ _ _ _ Hj).
      cbn [mbind result_bind]. split; [done|]. split; [done|]. split; [done|].
      split; [done|]. split.
      * intros j' Hj'. apply elem_of_cons in Hj' as [->|Hj']; [|by apply H1].
        apply H2. by rewrite jflag_put_joint, decide_True.
      * intros j' Hj'. apply H2. rewrite jflag_put_joint. by case_decide.
Qed.

End Clearing.

(** ** New contacts *)

Section NewContacts.
Context {env : Collaborators}.

Lemma AddPair_Done (w0 w : World.t) (fA fB : nat) (fxA fxB : Fixture.t) :
  World.fixtures w = World.fixtures w0 →
  (∀ b, is_Some (World.bodies w0 !! b) → is_Some (World.bodies w !! b)) →
  World.fixtures w0 !! fA = Some fxA → World.fixtures w0 !! fB = Some fxB →
  is_Some (World.bodies w0 !! Fixture.m_body fxA) →
  is_Some (World.bodies w0 !! Fixture.m_body fxB) →
  ∃ w', AddPair (fA, fB) w = Done w'
        ∧ World.fixtures w' = World.fixtures w0
        ∧ (∀ b, is_Some (World.bodies w0 !! b) → is_Some (World.bodies w' !! b)).
Proof.
  intros Hfx Hbodies HfA HfB HbA HbB.
  unfold AddPair, get_fixture, get_body, deref. rewrite Hfx, HfA, HfB.
  cbn [mbind result_bind]. unfold Fixture.GetBody.
  case_decide as Hsame; [by exists w|].
  destruct (Hbodies _ HbB) as [bB HbB']. rewrite HbB'. cbn [mbind result_bind].
  destruct (contact_exists _ _ _ _); [by exists w|].
  destruct (Hbodies _ HbA) as [bA HbA'].
  set (w1 := World.with_contactList _ _ _).
  assert (Hb1 : World.bodies w1 = World.bodies w) by done.
  rewrite (update_body_lookup _ _ w1 bA) by (by rewrite Hb1).
  cbn [mbind result_bind].
  rewrite (update_body_lookup _ _ _ bB).
  2:{ unfold put_body. cbn [World.bodies World.with_bodies].
      rewrite lookup_insert_ne by done. by rewrite Hb1. }
  eexists. split; [done|]. split.
  - unfold put_body. cbn. exact Hfx.
  - intros b Hb. unfold put_body. cbn [World.bodies World.with_bodies].
    destruct (decide (Fixture.m_body fxB = b)) as [<-|Hne1];
      [by rewrite lookup_insert_eq|].
    rewrite lookup_insert_ne by done.
    destruct (decide (Fixture.m_body fxA = b)) as [<-|Hne2];
      [by rewrite lookup_insert_eq|].
    rewrite lookup_insert_ne by done. rewrite Hb1. by apply Hbodies.
Qed.

Lemma AddPairs_Done (w0 : World.t) (l : list (nat * nat)) :
  (∀ fA fB, (fA, fB) ∈ l →
     ∃ fxA fxB, World.fixtures w0 !! fA = Some fxA ∧ World.fixtures w0 !! fB = Some fxB
                ∧ is_Some (World.bodies w0 !! Fixture.m_body fxA)
                ∧ is_Some (World.bodies w0 !! Fixture.m_body fxB)) →
  ∀ wi, World.fixtures wi = World.fixtures w0 →
        (∀ b, is_Some (World.bodies w0 !! b) → is_Some (World.bodies wi !! b)) →
        ∃ w', for_each AddPair l wi = Done w'.
Proof.
  induction l as [|[fA fB] l IH]; intros Hbp wi Hfx Hb.
  - by exists wi.
  - destruct (Hbp fA fB) as (fxA & fxB & HfA & HfB & HbA & HbB); [by left|].
    destruct (AddPair_Done w0 wi fA fB fxA fxB Hfx Hb HfA HfB HbA HbB)
      as (w1 & Hstep & Hfx1 & Hb1).
    destruct (IH) with (wi := w1) as (w' & Hrun); [|done|done|].
    { intros fA' fB' Hin. apply Hbp. by right. }
    exists w'. cbn [for_each]. rewrite Hstep. exact Hrun.
Qed.

Lemma FindNewContacts_Done (moved : list nat) (w : World.t) :
  broad_phase_sound → ∃ w', FindNewContacts moved w = Done w'.
Proof.
  intros Hbp. unfold FindNewContacts.
  apply (AddPairs_Done w); [apply Hbp | done | done].
Qed.

End NewContacts.

(** ** The islands of a pass *)

Section SolveIslands.
Context {env : Collaborators}.
Variable bm : build.

Lemma Solve_islands (fuel : nat) (step : cb2TimeStep) (w : World.t) :
  wf_world w → broad_phase_sound → (size (World.bodies w) < fuel)%nat →
  ∃ w' islands w4 island',
    Solve bm fuel step w = Done (w', islands)
    ∧ outer_inv w islands w4 island'.
Proof.
  intros Hwf Hbp Hfuel.
  pose proof Hwf as (Hbodies & Hcs & Hjs & Hbl & Hcl & Hjl & Hbc & Hcc & Hjc).
  rewrite Forall_forall in Hbl, Hcl, Hjl.
  destruct (clear_bodies_loop w (World.m_bodyList w) w (same_graph_refl w))
    as (w1 & Hrun1 & Hgr1 & Hc1 & Hj1 & Hbf1 & _); [done|].
  destruct (clear_contacts_loop w (World.m_contactList w) w1 Hgr1)
    as (w2 & Hrun2 & Hgr2 & Hb2 & Hj2 & Hcf2 & _); [done|].
  destruct (clear_joints_loop w (World.m_jointList w) w2 Hgr2)
    as (w3 & Hrun3 & Hgr3 & Hb3 & Hc3 & Hjf3 & _); [done|].
  assert (Hl1 : World.m_contactList w1 = World.m_contactList w) by apply Hgr1.
  assert (Hl2 : World.m_jointList w2 = World.m_jointList w) by apply Hgr2.
  assert (Hl3 : World.m_bodyList w3 = World.m_bodyList w) by apply Hgr3.
  assert (Hn3 : World.m_bodyCount w3 = World.m_bodyCount w) by apply Hgr3.
  (* every island flag is clear *)
  assert (Hbflag : ∀ b, bflag w3 b = false).
  { intros b. unfold bflag. rewrite Hb3, Hb2.
    destruct (World.bodies w1 !! b) as [body|] eqn:Hb; [|done].
    destruct (same_graph_body _ _ _ _ Hgr1 Hb) as (body0 & Hb0 & _).
    destruct (Hbodies b body0 Hb0) as (_ & _ & Hin).
    specialize (Hbf1 b Hin). unfold bflag in Hbf1. by rewrite Hb in Hbf1. }
  assert (Hcflag : ∀ c, cflag w3 c = false).
  { intros c. unfold cflag. rewrite Hc3.
    destruct (World.contacts w2 !! c) as [ct|] eqn:Hc; [|done].
    destruct (same_graph_contact _ _ _ _ Hgr2 Hc) as (ct0 & Hct0 & _).
    specialize (Hcf2 c (Hcs c ct0 Hct0)). unfold cflag in Hcf2. by rewrite Hc in Hcf2. }
  assert (Hjflag : ∀ j, jflag w3 j = false).
  { intros j. destruct (jflag w3 j) eqn:Hj; [|done].
    destruct (jflag_true _ _ Hj) as [jt Hjt].
    assert (Hj0 : is_Some (World.joints w !! j)).
    { destruct Hgr3 as (_ & _ & H3 & _). specialize (H3 j). rewrite Hjt in H3.
      destruct (World.joints w !! j); [eauto | done]. }
    destruct Hj0 as [jt0 Hj0]. rewrite (Hjf3 j (Hjs j jt0 Hj0)) in Hj. done. }
  set (island0 := Island.create (World.m_bodyCount w) (World.m_contactCount w)
                                (World.m_jointCount w)).
  assert (Hinit : outer_inv w [] w3 island0).
  { split.
    - constructor; cbn [Island.Clear Island.create island0 Island.m_bodies Island.m_contacts
                        Island.m_joints Island.m_bodyCapacity Island.m_contactCapacity
                        Island.m_jointCapacity fmap list_fmap].
      + done.
      + done.
      + intros b [Hb|Hb]; by apply elem_of_nil in Hb.
      + intros b Hb. by rewrite Hbflag in Hb.
      + intros J b HJ. by apply elem_of_nil in HJ.
      + intros J b HJ. by apply elem_of_nil in HJ.
      + apply NoDup_nil_2.
      + intros b [Hb|Hb]; by apply elem_of_nil in Hb.
      + intros J HJ. by apply elem_of_nil in HJ.
      + intros b Hb. by apply elem_of_nil in Hb.
      + intros c Hc. by rewrite Hcflag in Hc.
      + intros j Hj. by rewrite Hjflag in Hj.
      + split; [apply NoDup_nil_2|]. intros c Hc. by apply elem_of_nil in Hc.
      + split; [apply NoDup_nil_2|]. intros j Hj. by apply elem_of_nil in Hj.
    - intros i k J J' b Hi. cbn in Hi. by rewrite lookup_nil in Hi. }
  destruct (Solve_seeds_inv bm w Hwf fuel step (World.m_bodyList w) [] w3 island0 Hinit)
    as (w4 & island4 & built & Hseeds & Hinv4); [done | done |].
  pose proof (si_graph _ _ _ _ _ _ _ _ (proj1 Hinv4)) as Hgr4.
  assert (Hsync : ∃ moved, synchronized_bodies w4 (World.m_bodyList w4) = Done moved).
  { assert (Hl4 : World.m_bodyList w4 = World.m_bodyList w) by apply Hgr4.
    rewrite Hl4. clear Hl4.
    assert (Hex : ∀ b, b ∈ World.m_bodyList w → is_Some (World.bodies w4 !! b)).
    { intros b Hb. destruct (Hbl b Hb) as [body0 Hb0].
      destruct (same_graph_body_rev _ _ _ _ Hgr4 Hb0) as (body & ? & _). eauto. }
    revert Hex. generalize (World.m_bodyList w) as l.
    induction l as [|b l IH]; intros Hex; [by exists []|].
    cbn [synchronized_bodies]. destruct (Hex b) as [body Hb]; [by left|].
    assert (Hget : get_body w4 b = Done body) by (by apply deref_Done).
    rewrite Hget. cbn [mbind result_bind].
    destruct IH as [moved Hm]; [intros b' Hb'; apply Hex; by right|].
    rewrite Hm. cbn [mbind result_bind].
    destruct (negb _); [eauto|]. case_decide; eauto. }
  destruct Hsync as [moved Hsync].
  destruct (FindNewContacts_Done moved w4 Hbp) as (w5 & Hnew).
  exists w5, built, w4, island4. split; [|done].
  - unfold Solve. rewrite Hrun1. cbn [mbind result_bind].
    rewrite Hl1, Hrun2. cbn [mbind result_bind].
    rewrite Hl2, Hrun3. cbn [mbind result_bind].
    rewrite Hl3, Hn3, Hbc. unfold island0 in Hseeds. rewrite Hbc in Hseeds.
    rewrite Hseeds. cbn [mbind result_bind].
    rewrite Hsync. cbn [mbind result_bind]. rewrite Hnew. done.
Qed.

End SolveIslands.

Section IslandsClosed.
Context {env : Collaborators}.
Variable bm : build.

(** C1 (amended): on a well-formed world, with enough fuel for the search,
    [Solve] returns, and every island it builds contains, with each of its
    non-static bodies, every body linked to it by a contact that is
    enabled, touching and free of sensors, or by a joint whose other body
    is active; and a non-static body is in at most one island. *)
Theorem islands_closed_under_links (fuel : nat) (step : cb2TimeStep) (w : World.t) :
  wf_world w → broad_phase_sound → (size (World.bodies w) < fuel)%nat →
  ∃ w' islands,
    Solve bm fuel step w = Done (w', islands)
    ∧ (∀ island, island ∈ islands → closed w (Island.m_bodies island))
    ∧ (∀ i k I I' b,
         islands !! i = Some I → islands !! k = Some I' →
         b ∈ Island.m_bodies I → b ∈ Island.m_bodies I' → nonstatic w b → i = k).
Proof.
  intros Hwf Hbp Hfuel.
  destruct (Solve_islands bm fuel step w Hwf Hbp Hfuel)
    as (w' & islands & w4 & island' & Hrun & Hinv & Huniq).
  exists w', islands. split; [done|]. split.
  - intros island Hin. apply (si_built_closed _ _ _ _ _ _ _ _ Hinv).
    apply list_elem_of_fmap. by exists island.
  - intros i k I I' b Hi Hk Hb Hb' Hns.
    apply (Huniq i k (Island.m_bodies I) (Island.m_bodies I') b); try done.
    + by rewrite list_lookup_fmap, Hi.
    + by rewrite list_lookup_fmap, Hk.
Qed.

End IslandsClosed.

Lemma still_broad_phase_sound : broad_phase_sound (env := still_collaborators).
Proof. intros w moved fA fB Hin. by apply elem_of_nil in Hin. Qed.

Lemma islands_closed_under_links_witness :
  ∃ w' islands,
    Solve (env := still_collaborators) Debug 4 sample_step chain_world = Done (w', islands)
    ∧ (∀ island, island ∈ islands → closed chain_world (Island.m_bodies island))
    ∧ (∀ i k I I' b,
         islands !! i = Some I → islands !! k = Some I' →
         b ∈ Island.m_bodies I → b ∈ Island.m_bodies I' → nonstatic chain_world b → i = k).
Proof.
  apply (islands_closed_under_links (env := still_collaborators) Debug 4 sample_step
           chain_world).
  - apply (bool_decide_unpack _). vm_compute. exact I.
  - exact still_broad_phase_sound.
  - vm_compute. lia.
Defined.

(** C1 as stated fails: the static bodies 1 and 2 are linked by a joint and
    both are active, yet body 1 is only in the island of A and body 2 only
    in the island of B. *)
Lemma static_bodies_joined_but_apart :
  wf_world static_joint_world
  ∧ jedge static_joint_world 1 0 2
  ∧ active static_joint_world 1 ∧ active static_joint_world 2
  ∧ ∃ w', Solve (env := still_collaborators) Release 5 sample_step static_joint_world
          = Done (w', [Island.mk [3%nat; 2%nat] [1%nat] [] 4 2 1;
                       Island.mk [0%nat; 1%nat] [0%nat] [] 4 2 1])
          ∧ (1%nat ∉ [3%nat; 2%nat]) ∧ (2%nat ∉ [0%nat; 1%nat]).
Proof.
  split; [apply (bool_decide_unpack _); vm_compute; exact I|].
  split; [eexists; split; [reflexivity | by left]|].
  split; [eexists; split; [reflexivity | reflexivity]|].
  split; [eexists; split; [reflexivity | reflexivity]|].
  eexists. split; [vm_compute; reflexivity|].
  split; intros Hin; repeat (apply elem_of_cons in Hin as [Hin|Hin]; [done|]);
    by apply elem_of_nil in Hin.
Qed.

(** ** Clearing the forces *)

Lemma ClearForces_step_spec (b : nat) (w w' : World.t) :
  update_body (λ b, Body.with_motion (Body.m_linearVelocity b) (Body.m_angularVelocity b)
                      Vec.zero 0%R (Body.m_sleepTime b) b) b w = Done w' →
  forces_cleared w' b
  ∧ (∀ b', forces_cleared w b' → forces_cleared w' b')
  ∧ World.m_bodyList w' = World.m_bodyList w
  ∧ World.m_flags w' = World.m_flags w
  ∧ World.m_inv_dt0 w' = World.m_inv_dt0 w.
Proof.
  intros Hu. apply update_body_Done in Hu as (x & Hx & ->).
  unfold forces_cleared, put_body. cbn [World.bodies World.with_bodies].
  split; [|split; [|done]].
  - eexists. rewrite lookup_insert_eq. done.
  - intros b' (body & Hb' & Hf & Ht). destruct (decide (b = b')) as [<-|Hne].
    + eexists. rewrite lookup_insert_eq. done.
    + exists body. by rewrite lookup_insert_ne.
Qed.

Lemma ClearForces_spec (w w' : World.t) :
  ClearForces w = Done w' →
  (∀ b, b ∈ World.m_bodyList w → forces_cleared w' b)
  ∧ World.m_bodyList w' = World.m_bodyList w
  ∧ World.m_flags w' = World.m_flags w
  ∧ World.m_inv_dt0 w' = World.m_inv_dt0 w.
Proof.
  unfold ClearForces. generalize (World.m_bodyList w) at 1 2 as l. intros l. revert w.
  induction l as [|b l IH]; intros w Hrun; cbn [for_each] in Hrun.
  - inversion Hrun. split; [|done]. intros b Hb. by apply elem_of_nil in Hb.
  - apply bind_Done in Hrun as (w1 & Hstep & Hrest).
    apply ClearForces_step_spec in Hstep as (Hb & Hkeep & Hl1 & Hf1 & Hd1).
    pose proof Hrest as Hrest'.
    apply IH in Hrest as (Hall & Hl & Hf & Hd).
    split; [|split; [by rewrite Hl | split; [by rewrite Hf | by rewrite Hd]]].
    intros b' Hb'. apply elem_of_cons in Hb' as [->|Hb']; [|by apply Hall].
    revert Hrest' Hb. clear.
    apply (for_each_Done_ind (λ s s', forces_cleared s b → forces_cleared s' b)).
    + done.
    + intros s1 s2 s3 H12 H23 H. by apply H23, H12.
    + intros x s1 s2 _ Hs. apply ClearForces_step_spec in Hs as (_ & Hk & _). apply Hk.
Qed.

(** ** The time step a call of [Step] leaves behind *)

Lemma Step_inv_dt0 {env : Collaborators} (bm : build) (fuel : nat) (dt : R) (vi pi : Z)
    (w w' : World.t) (log : step_log) :
  (0 < dt)%R →
  Step bm fuel dt vi pi w = Done (w', log) →
  World.m_inv_dt0 w' = (1 / dt)%R.
Proof.
  intros Hdt. unfold Step, time_step.
  destruct (decide (0 < dt)%R) as [_|?]; [|lra].
  intros Hrun.
  apply bind_Done in Hrun as (w1 & _ & Hrun). cbv zeta in Hrun.
  apply bind_Done in Hrun as (w2 & _ & Hrun).
  apply bind_Done in Hrun as ([w3 solved] & _ & Hrun).
  apply bind_Done in Hrun as ([w4 toi] & _ & Hrun).
  apply bind_Done in Hrun as (w5 & Hclear & Hrun).
  inversion Hrun; subst w' log; clear Hrun.
  cbn [World.m_inv_dt0 World.with_flags].
  destruct (flag_on _ World.e_clearForces).
  - apply ClearForces_spec in Hclear as (_ & _ & _ & ->). done.
  - inversion Hclear. done.
Qed.

Lemma array_set_same {A : Type} (arr arr' : list A) (i : Z) (a : A) :
  array_get arr i = Done a → array_set arr i a = Done arr' → arr' = arr.
Proof.
  unfold array_get, array_set. intros Hget Hset.
  destruct (decide (0 <= i)) as [Hi|]; [|done].
  destruct (arr !! Z.to_nat i) as [x|] eqn:Hx; [|done].
  destruct (decide _); [|done].
  inversion Hget; subst x. inversion Hset. by apply list_insert_id.
Qed.

Lemma array_set_lookup {A : Type} (arr arr' : list A) (i : Z) (a : A) :
  array_set arr i a = Done arr' →
  arr' !! Z.to_nat i = Some a
  ∧ (∀ k, 0 <= k → k ≠ i → arr' !! Z.to_nat k = arr !! Z.to_nat k)
  ∧ length arr' = length arr.
Proof.
  unfold array_set. intros Hset. destruct (decide _) as [Hi|]; [|done].
  inversion Hset; subst arr'. split; [|split].
  - apply list_lookup_insert_eq. lia.
  - intros k Hk Hne. apply list_lookup_insert_ne. lia.
  - apply length_insert.
Qed.

(** ** Sub-step counters during the TOI loop *)

(** Taking a run apart: every bind, branch and pair of a hypothesis
    [... = Done _] is split until only calls are left. *)
Ltac run_all :=
  repeat match goal with
  | H : Stop _ = Done _ |- _ => discriminate H
  | H : Done _ = Done _ |- _ => apply (inj Done) in H
  | H : (_, _) = (_, _) |- _ => apply pair_equal_spec in H as [? ?]
  | H : (_ ≫= _) = Done _ |- _ => apply bind_Done in H as (? & ? & H)
  | H : (let '(_, _) := ?p in _) = Done _ |- _ => destruct p
  | H : (if ?b then _ else _) = Done _ |- _ => destruct b eqn:?
  | H : match ?x with Some _ => _ | None => _ end = Done _ |- _ => destruct x eqn:?
  end.

#[global] Instance Done_inj {A : Type} : Inj (=) (=) (@Done A).
Proof. intros x y H. by inversion H. Qed.

#[global] Instance counts_kept_preorder : PreOrder counts_kept.
Proof.
  split.
  - intros w c ct Hc. exists ct. split; [done | lia].
  - intros w1 w2 w3 H12 H23 c ct Hc.
    destruct (H12 c ct Hc) as (ct2 & Hc2 & Hle2).
    destruct (H23 c ct2 Hc2) as (ct3 & Hc3 & Hle3).
    exists ct3. split; [done | lia].
Qed.

Lemma counts_kept_contacts (w w' : World.t) :
  World.contacts w' = World.contacts w → counts_kept w w'.
Proof. intros Heq c ct Hc. exists ct. rewrite Heq. split; [done | lia]. Qed.

Lemma update_body_counts (f : Body.t → Body.t) (b : nat) (w w' : World.t) :
  update_body f b w = Done w' → counts_kept w w'.
Proof.
  intros Hu. apply update_body_Done in Hu as (x & _ & ->).
  by apply counts_kept_contacts.
Qed.

Lemma update_contact_counts (f : Contact.t → Contact.t) (c : nat) (w w' : World.t) :
  (∀ ct, Contact.m_toiCount ct <= Contact.m_toiCount (f ct)) →
  update_contact f c w = Done w' → counts_kept w w'.
Proof.
  intros Hf Hu. apply update_contact_Done in Hu as (x & Hx & ->).
  intros c' ct Hc'. unfold put_contact. cbn [World.contacts World.with_contacts].
  destruct (decide (c = c')) as [<-|Hne].
  - rewrite lookup_insert_eq. eexists. split; [done|]. simplify_eq. apply Hf.
  - rewrite lookup_insert_ne by done. exists ct. split; [done | lia].
Qed.

Lemma exhausted_kept (w w' : World.t) (c : nat) :
  counts_kept w w' → exhausted w c → exhausted w' c.
Proof.
  intros Hk (ct & Hc & Hn). destruct (Hk c ct Hc) as (ct' & Hc' & Hle).
  exists ct'. split; [done | lia].
Qed.

Ltac chain :=
  repeat first
    [ reflexivity
    | eassumption
    | etransitivity; [eassumption|]
    | apply counts_kept_contacts; reflexivity ].

Section Counts.
Context {env : Collaborators}.
Variable bm : build.

Lemma restore_sweep_counts (s : Sweep.t) (b : nat) (w w' : World.t) :
  restore_sweep s b w = Done w' → counts_kept w w'.
Proof. apply update_body_counts. Qed.

Lemma Contact_Update_counts (c : nat) (w w' : World.t) :
  Contact_Update c w = Done w' → counts_kept w w'.
Proof.
  unfold Contact_Update. destruct (narrow_phase w c) as [touching enabled].
  apply update_contact_counts. intros ct. cbn. lia.
Qed.

Lemma Island_AddBody_counts (b : nat) (w w' : World.t) (island island' : Island.t) :
  Island_AddBody bm b (w, island) = Done (w', island') → counts_kept w w'.
Proof.
  unfold Island_AddBody. intros Hrun. run_all. subst.
  by eapply update_body_counts.
Qed.

Lemma AddPair_counts (pair : nat * nat) (w w' : World.t) :
  AddPair pair w = Done w' → counts_kept w w'.
Proof.
  unfold AddPair. destruct pair as [fixtureA fixtureB]. intros Hrun.
  cbv zeta in Hrun. run_all; subst; try reflexivity.
  repeat match goal with
  | H : update_body _ _ _ = Done _ |- _ => apply update_body_counts in H
  end.
  match goal with
  | H : counts_kept ?a ?b, H' : counts_kept ?b w' |- _ =>
      transitivity a; [|by transitivity b]
  end.
  intros c ct Hc. exists ct. split; [|lia].
  cbn [World.contacts World.with_contacts World.with_contactList].
  rewrite lookup_insert_ne; [done|].
  intros <-. apply elem_of_dom_2 in Hc. by apply is_fresh in Hc.
Qed.

Lemma FindNewContacts_counts (moved : list nat) (w w' : World.t) :
  FindNewContacts moved w = Done w' → counts_kept w w'.
Proof.
  unfold FindNewContacts.
  apply (for_each_Done_ind counts_kept); [apply reflexivity | apply transitivity |].
  intros x s1 s2 _. apply AddPair_counts.
Qed.

Lemma Island_SolveTOI_counts (subStep : cb2TimeStep) (island : Island.t) (w w' : World.t) :
  Island_SolveTOI subStep island w = Done w' → counts_kept w w'.
Proof.
  unfold Island_SolveTOI. generalize w at 1 as w0. intros w0.
  apply (for_each_Done_ind counts_kept); [apply reflexivity | apply transitivity |].
  intros x s1 s2 _. apply update_body_counts.
Qed.

Lemma toi_reset_body_counts (b : nat) (w w' : World.t) (moved moved' : list nat) :
  toi_reset_body b (w, moved) = Done (w', moved') → counts_kept w w'.
Proof.
  unfold toi_reset_body. intros Hrun. run_all; subst.
  - by eapply update_body_counts.
  - etransitivity; [by eapply update_body_counts|].
    match goal with H : for_each _ _ _ = Done _ |- _ => revert H end.
    apply (for_each_Done_ind counts_kept);
      [apply reflexivity | apply transitivity |].
    intros ce s1 s2 _. apply update_contact_counts. intros ct. cbn. lia.
Qed.

Lemma toi_reset_counts (bodies moved moved' : list nat) (w w' : World.t) :
  for_each toi_reset_body bodies (w, moved) = Done (w', moved') → counts_kept w w'.
Proof.
  apply (for_each_Done_ind (λ s s', counts_kept s.1 s'.1) toi_reset_body bodies
           (w, moved) (w', moved')).
  - intros s. reflexivity.
  - intros s1 s2 s3. apply transitivity.
  - intros b [w1 m1] [w2 m2] _. apply toi_reset_body_counts.
Qed.

Ltac to_counts :=
  repeat match goal with
  | H : update_body _ _ _ = Done _ |- _ => apply update_body_counts in H
  | H : restore_sweep _ _ _ = Done _ |- _ => apply restore_sweep_counts in H
  | H : Contact_Update _ _ = Done _ |- _ => apply Contact_Update_counts in H
  | H : Island_AddBody _ _ _ = Done _ |- _ => apply Island_AddBody_counts in H
  | H : Island_SolveTOI _ _ _ = Done _ |- _ => apply Island_SolveTOI_counts in H
  | H : FindNewContacts _ _ = Done _ |- _ => apply FindNewContacts_counts in H
  | H : for_each toi_reset_body _ _ = Done _ |- _ => apply toi_reset_counts in H
  | H : update_contact _ _ _ = Done _ |- _ =>
      apply update_contact_counts in H; [|intros ?; cbn; lia]
  end.

Lemma toi_collect_edge_counts (alpha : R) (body : nat) (ce : cb2ContactEdge)
    (w w' : World.t) (island island' : Island.t) :
  toi_collect_edge bm alpha body ce (w, island) = Done (w', island') → counts_kept w w'.
Proof.
  unfold toi_collect_edge. intros Hrun. cbv zeta in Hrun.
  run_all; subst; to_counts; chain.
Qed.

Lemma toi_collect_counts (alpha : R) (body : nat) (edges : list cb2ContactEdge)
    (w w' : World.t) (island island' : Island.t) :
  toi_collect bm alpha body edges (w, island) = Done (w', island') → counts_kept w w'.
Proof.
  revert w island. induction edges as [|ce edges IH]; intros w island Hrun;
    cbn [toi_collect] in Hrun.
  - run_all. subst. reflexivity.
  - run_all; subst; try reflexivity.
    match goal with H : toi_collect_edge _ _ _ _ _ = Done ?x |- _ => destruct x end.
    etransitivity; [by eapply toi_collect_edge_counts | by eapply IH].
Qed.

Lemma toi_collect_body_counts (alpha : R) (body : nat)
    (w w' : World.t) (island island' : Island.t) :
  toi_collect_body bm alpha body (w, island) = Done (w', island') → counts_kept w w'.
Proof.
  unfold toi_collect_body. intros Hrun. cbn [fst] in Hrun.
  run_all; subst; [by eapply toi_collect_counts | reflexivity].
Qed.

Lemma compute_toi_counts (c : nat) (ct : Contact.t) (w w' : World.t) (alpha : R) :
  compute_toi bm c ct w = Done (Some (w', alpha)) → counts_kept w w'.
Proof.
  unfold compute_toi. intros Hrun. cbv zeta in Hrun.
  run_all; simplify_eq; to_counts; chain.
Qed.

Lemma toi_scan_contact_counts (c : nat) (w w' : World.t) (ev ev' : toi_event) :
  toi_scan_contact bm c (w, ev) = Done (w', ev') → counts_kept w w'.
Proof.
  unfold toi_scan_contact. intros Hrun.
  run_all; simplify_eq; try reflexivity.
  all: by eapply compute_toi_counts.
Qed.

Lemma toi_scan_counts (w w' : World.t) (ev : toi_event) :
  toi_scan bm w = Done (w', ev) → counts_kept w w'.
Proof.
  unfold toi_scan.
  apply (for_each_Done_ind (λ s s', counts_kept s.1 s'.1) (toi_scan_contact bm)
           (World.m_contactList w) (w, mkEvent None 1) (w', ev)).
  - intros s. reflexivity.
  - intros s1 s2 s3. apply transitivity.
  - intros c [w1 e1] [w2 e2] _. apply toi_scan_contact_counts.
Qed.

Lemma toi_iteration_counts (step : cb2TimeStep) (island island' : Island.t)
    (w w' : World.t) (ev : toi_event) (control : loop_control) :
  toi_iteration bm step island w = Done (w', island', ev, control) → counts_kept w w'.
Proof.
  unfold toi_iteration. intros Hrun. cbv zeta in Hrun.
  run_all; simplify_eq.
  all: repeat match goal with
       | H : toi_collect_body _ _ _ _ = Done ?x |- _ => is_var x; destruct x
       | H : toi_scan _ _ = Done _ |- _ => apply toi_scan_counts in H
       | H : toi_collect_body _ _ _ _ = Done _ |- _ => apply toi_collect_body_counts in H
       end.
  all: to_counts; chain.
Qed.

(** The search for the first TOI passes an exhausted contact by: nothing
    is changed and nothing is reported. *)
Lemma toi_scan_contact_skips (c : nat) (w : World.t) (ev : toi_event) :
  exhausted w c → toi_scan_contact bm c (w, ev) = Done (w, ev).
Proof.
  intros (ct & Hc & Hn). unfold toi_scan_contact, get_contact.
  apply deref_Done in Hc. rewrite Hc. cbn [mbind result_bind].
  destruct (negb (Contact.IsEnabled ct)); [done|].
  by rewrite decide_True.
Qed.

Lemma toi_scan_contact_excludes (c c' : nat) (w w' : World.t) (ev ev' : toi_event) :
  exhausted w c → minContact ev ≠ Some c →
  toi_scan_contact bm c' (w, ev) = Done (w', ev') →
  minContact ev' ≠ Some c.
Proof.
  intros Hex Hev Hrun. destruct (decide (c' = c)) as [->|Hne].
  - rewrite toi_scan_contact_skips in Hrun by done. by simplify_eq.
  - unfold toi_scan_contact in Hrun. run_all; simplify_eq; try done.
    all: cbn [minContact]; congruence.
Qed.

Lemma toi_scan_excludes (c : nat) (w w' : World.t) (ev : toi_event) :
  exhausted w c → toi_scan bm w = Done (w', ev) → minContact ev ≠ Some c.
Proof.
  intros Hex Hrun.
  enough (exhausted w' c ∧ minContact ev ≠ Some c) as [_ ?] by done.
  revert Hrun. unfold toi_scan. intros Hrun.
  apply (for_each_Done_ind
           (λ s s', exhausted s.1 c ∧ minContact s.2 ≠ Some c →
                    exhausted s'.1 c ∧ minContact s'.2 ≠ Some c)
           (toi_scan_contact bm) (World.m_contactList w)
           (w, mkEvent None 1) (w', ev)); [done| | |done|done].
  - intros s1 s2 s3 H12 H23 H. by apply H23, H12.
  - intros c' [w1 e1] [w2 e2] _ Hstep [Hex1 He1]. cbn [fst snd] in *. split.
    + eapply exhausted_kept; [by eapply toi_scan_contact_counts | done].
    + by eapply toi_scan_contact_excludes.
Qed.

Lemma toi_iteration_excludes (c : nat) (step : cb2TimeStep) (island island' : Island.t)
    (w w' : World.t) (ev : toi_event) (control : loop_control) :
  exhausted w c →
  toi_iteration bm step island w = Done (w', island', ev, control) →
  minContact ev ≠ Some c.
Proof.
  intros Hex. unfold toi_iteration. intros Hrun.
  apply bind_Done in Hrun as ([w1 ev1] & Hscan & Hrun).
  apply (toi_scan_excludes c) in Hscan; [|done].
  cbv zeta in Hrun. run_all; simplify_eq; congruence.
Qed.

(** C8: a contact whose sub-step counter is above [cb2_maxSubSteps] is
    passed by in the search for the first TOI, which goes on as if the
    contact was not there and stops with no error on its account; and
    whatever the loop over the TOI events of [SolveTOI] does from there on,
    the contact is never the event of a turn and stays exhausted. *)
Theorem exhausted_contact_is_skipped (fuel : nat) (step : cb2TimeStep)
    (island : Island.t) (w w' : World.t) (events : list toi_event) (c : nat) :
  exhausted w c →
  toi_loop bm fuel step island w = Done (w', events) →
  (∀ ev, toi_scan_contact bm c (w, ev) = Done (w, ev))
  ∧ (∀ ev, ev ∈ events → minContact ev ≠ Some c)
  ∧ exhausted w' c.
Proof.
  intros Hex Hrun. split; [intros ev; by apply toi_scan_contact_skips|].
  revert island w events Hex Hrun.
  induction fuel as [|fuel IH]; intros island w events Hex Hrun;
    cbn [toi_loop] in Hrun; [done|].
  apply bind_Done in Hrun as ([[[w1 island1] ev1] control] & Hturn & Hrun).
  pose proof (toi_iteration_excludes c _ _ _ _ _ _ _ Hex Hturn) as Hev.
  apply toi_iteration_counts in Hturn.
  pose proof (exhausted_kept _ _ _ Hturn Hex) as Hex1.
  destruct control.
  - simplify_eq. split; [|done].
    intros ev Hin. apply list_elem_of_singleton in Hin as ->. done.
  - apply bind_Done in Hrun as ([w2 events2] & Hloop & Hrun). simplify_eq.
    destruct (IH _ _ _ Hex1 Hloop) as [Hall Hex2]. split; [|done].
    intros ev Hin. apply elem_of_cons in Hin as [->|Hin]; [done | by apply Hall].
Qed.

End Counts.

Lemma exhausted_contact_is_skipped_witness :
  ∃ w' events,
    exhausted worn_world 0
    ∧ SolveTOI (env := still_collaborators) Release 1 sample_step worn_world
      = Done (w', events)
    ∧ (∀ ev, toi_scan_contact (env := still_collaborators) Release 0 (worn_world, ev)
             = Done (worn_world, ev))
    ∧ (∀ ev, ev ∈ events → minContact ev ≠ Some 0%nat)
    ∧ exhausted w' 0.
Proof.
  assert (Hex : exhausted worn_world 0).
  { eexists. split; [reflexivity|]. cbn. unfold cb2_maxSubSteps. lia. }
  assert (Hrun : ∃ r, SolveTOI (env := still_collaborators) Release 1 sample_step worn_world
                      = Done r).
  { eexists. vm_compute. reflexivity. }
  destruct Hrun as ([w' events] & Hrun).
  exists w', events. split; [exact Hex|]. split; [exact Hrun|].
  exact (exhausted_contact_is_skipped (env := still_collaborators) Release 1 sample_step
           (Island.create (2 * cb2_maxTOIContacts) cb2_maxTOIContacts 0)
           worn_world w' events 0 Hex Hrun).
Defined.

(** ** The invariant of the TOI loop under the writes of the loop *)

Lemma live_put_contact (c : nat) (x : Contact.t) (w : World.t) (ct : Contact.t) :
  live (put_contact c x w) ct ↔ live w ct.
Proof. done. Qed.

Lemma touches_put_contact (c : nat) (x : Contact.t) (w : World.t) (ct : Contact.t) (b : nat) :
  touches (put_contact c x w) ct b ↔ touches w ct b.
Proof. done. Qed.

Lemma touches_put_body (b' : nat) (x : Body.t) (w : World.t) (ct : Contact.t) (b : nat) :
  touches (put_body b' x w) ct b ↔ touches w ct b.
Proof. done. Qed.

(** A contact that is live once a body is written was live before, unless
    the body is one of its own. *)
Lemma live_put_body (b : nat) (old new : Body.t) (w : World.t) (ct : Contact.t) :
  World.bodies w !! b = Some old →
  live (put_body b new w) ct →
  touches w ct b
  ∨ live w ct.
Proof.
  intros Hold (Hen & Hn & fA & fB & bodyA & bodyB & HfA & HfB & HbA & HbB & Hrest).
  cbn [World.fixtures World.bodies put_body World.with_bodies] in *.
  destruct (decide (Fixture.m_body fA = b)) as [HA|HA].
  { left. exists fA. split; [by left | done]. }
  destruct (decide (Fixture.m_body fB = b)) as [HB|HB].
  { left. exists fB. split; [by right | done]. }
  right. rewrite lookup_insert_ne in HbA, HbB by done.
  split; [done|]. split; [done|]. by exists fA, fB, bodyA, bodyB.
Qed.

(** With the same answers to the tests of the search, nothing changes. *)
Lemma live_put_body_same (b : nat) (old new : Body.t) (w : World.t) (ct : Contact.t) :
  World.bodies w !! b = Some old →
  toi_active new = toi_active old → toi_collide new = toi_collide old →
  live (put_body b new w) ct → live w ct.
Proof.
  intros Hold Hact Hcol (Hen & Hn & fA & fB & bodyA & bodyB & HfA & HfB & HbA & HbB
                          & HsA & HsB & Ha & Hc).
  cbn [World.fixtures World.bodies put_body World.with_bodies] in *.
  split; [done|]. split; [done|].
  assert (Hlook : ∀ x body, <[b:=new]> (World.bodies w) !! x = Some body →
            ∃ body0, World.bodies w !! x = Some body0
                     ∧ toi_active body = toi_active body0
                     ∧ toi_collide body = toi_collide body0).
  { intros x body Hx. destruct (decide (b = x)) as [<-|Hne].
    - rewrite lookup_insert_eq in Hx. simplify_eq. by exists old.
    - rewrite lookup_insert_ne in Hx by done. by exists body. }
  destruct (Hlook _ _ HbA) as (bodyA0 & HbA0 & HaA & HcA).
  destruct (Hlook _ _ HbB) as (bodyB0 & HbB0 & HaB & HcB).
  exists fA, fB, bodyA0, bodyB0. rewrite <- HaA, <- HaB, <- HcA, <- HcB. done.
Qed.

Section Writes.
Variables (T : R) (L E : nat → Prop).

(** A write to a body that keeps its contact list and the start of its
    sweep in the step. If the body is one of [L], the start of the sweep
    stays at [T] or later; if not, the tests of the search on the body have
    the same answers. *)
Lemma toi_inv_put_body (b : nat) (old new : Body.t) (w : World.t) :
  toi_inv T L E w →
  World.bodies w !! b = Some old →
  (∀ ce, ce ∈ Body.m_contactList new →
     ce ∈ Body.m_contactList old
     ∨ ∃ ct, World.contacts w !! ce_contact ce = Some ct ∧ touches w ct b) →
  (0 <= alpha0_of new <= 1)%R →
  (L b → (T <= alpha0_of new)%R) →
  (L b ∨ (toi_active new = toi_active old ∧ toi_collide new = toi_collide old)) →
  toi_inv T L E (put_body b new w).
Proof.
  intros [Hadv Hcached Hfresh Hrange Hlisted Hedges Hunit] Hold Hlist Hr HL Hsame.
  constructor; cbn [World.bodies World.contacts World.m_contactList put_body
                    World.with_bodies].
  - intros x body Hx Hlook. destruct (decide (b = x)) as [<-|Hne].
    + rewrite lookup_insert_eq in Hlook. simplify_eq. by apply HL.
    + rewrite lookup_insert_ne in Hlook by done. by eapply Hadv.
  - done.
  - intros c ct Hc Hflag Hlive.
    destruct Hsame as [Hb|[Hact Hcol]].
    + destruct (live_put_body _ _ _ _ _ Hold Hlive) as [Ht|Hl].
      * right. by exists b.
      * by apply (Hfresh c ct).
    + apply (Hfresh c ct); [done | done |]. by eapply live_put_body_same.
  - intros x body Hlook. destruct (decide (b = x)) as [<-|Hne].
    + rewrite lookup_insert_eq in Hlook. by simplify_eq.
    + rewrite lookup_insert_ne in Hlook by done. by eapply Hrange.
  - done.
  - intros x body ce Hlook Hce. destruct (decide (b = x)) as [<-|Hne].
    + rewrite lookup_insert_eq in Hlook. simplify_eq.
      destruct (Hlist ce Hce) as [Hin|?]; [|done]. by apply (Hedges b old).
    + rewrite lookup_insert_ne in Hlook by done. by apply (Hedges x body).
  - done.
Qed.

(** A write to a contact that keeps its fixtures. The contact is one of
    [E], or what the search would make of it is covered: a cached TOI in
    use was in use, and is the same, or is not before [T]; and if the
    search would compute a TOI for the contact it would have before, or the
    contact has a body in [L]. *)
Lemma toi_inv_put_contact (c : nat) (old new : Contact.t) (w : World.t) :
  toi_inv T L E w →
  World.contacts w !! c = Some old →
  Contact.m_fixtureA new = Contact.m_fixtureA old →
  Contact.m_fixtureB new = Contact.m_fixtureB old →
  (Contact.has_toi new = true →
   (0 <= Contact.m_toi new <= 1)%R
   ∨ (Contact.has_toi old = true ∧ Contact.m_toi new = Contact.m_toi old)) →
  (E c
   ∨ ((Contact.has_toi new = true → Contact.IsEnabled new = true →
       Contact.m_toiCount new <= cb2_maxSubSteps →
       (T <= Contact.m_toi new)%R
       ∨ (Contact.has_toi old = true ∧ Contact.IsEnabled old = true
          ∧ Contact.m_toiCount old <= cb2_maxSubSteps
          ∧ Contact.m_toi new = Contact.m_toi old))
      ∧ (Contact.has_toi new = false → live w new →
         (∃ b, touches w old b ∧ L b)
         ∨ (Contact.has_toi old = false ∧ Contact.IsEnabled old = true
            ∧ Contact.m_toiCount old <= cb2_maxSubSteps)))) →
  toi_inv T L E (put_contact c new w).
Proof.
  intros [Hadv Hcached Hfresh Hrange Hlisted Hedges Hunit] Hold HfA HfB Hu Hcase.
  assert (Hlive : ∀ x, live w new → Contact.IsEnabled x = true →
                       Contact.m_toiCount x <= cb2_maxSubSteps →
                       Contact.m_fixtureA x = Contact.m_fixtureA new →
                       Contact.m_fixtureB x = Contact.m_fixtureB new → live w x).
  { intros x (_ & _ & Hex) Hen Hn HA HB. split; [done|]. split; [done|].
    by rewrite HA, HB. }
  assert (Htouch : ∀ b, touches w old b → touches w new b).
  { intros b (fx & Hfx & Hb). exists fx. by rewrite HfA, HfB. }
  constructor; cbn [World.bodies World.contacts World.m_contactList put_contact
                    World.with_contacts].
  - done.
  - intros x ct Hlook Hflag Hen Hn. destruct (decide (c = x)) as [<-|Hne].
    + rewrite lookup_insert_eq in Hlook. simplify_eq.
      destruct Hcase as [He|[Hc _]]; [by left|].
      destruct (Hc Hflag Hen Hn) as [?|(Hf & He & Hn' & Heq)]; [by right|].
      rewrite Heq. by apply (Hcached c old).
    + rewrite lookup_insert_ne in Hlook by done. by apply (Hcached x ct).
  - intros x ct Hlook Hflag Hl. apply (proj1 (live_put_contact c new w ct)) in Hl.
    destruct (decide (c = x)) as [<-|Hne].
    + rewrite lookup_insert_eq in Hlook. simplify_eq.
      destruct Hcase as [He|[_ Hc]]; [by left|].
      destruct (Hc Hflag Hl) as [(b & Hb & HLb)|(Hf & He & Hn')].
      * right. exists b. split; [by apply Htouch | done].
      * assert (Hlo : live w old).
        { apply (Hlive old); done. }
        destruct (Hfresh c old Hold Hf Hlo) as [?|(b & Hb & HLb)]; [by left|].
        right. exists b. split; [by apply Htouch | done].
    + rewrite lookup_insert_ne in Hlook by done. by apply (Hfresh x ct).
  - done.
  - intros x ct Hlook. destruct (decide (c = x)) as [<-|Hne].
    + by apply (Hlisted c old).
    + rewrite lookup_insert_ne in Hlook by done. by apply (Hlisted x ct).
  - intros b body ce Hb Hce. destruct (Hedges b body ce Hb Hce) as (ct & Hct & Ht).
    destruct (decide (c = ce_contact ce)) as [Heq|Hne].
    + exists new. rewrite <- Heq, lookup_insert_eq. split; [done|].
      rewrite <- Heq in Hct. simplify_eq. by apply Htouch.
    + exists ct. by rewrite lookup_insert_ne.
  - intros x ct Hlook Hf. destruct (decide (c = x)) as [<-|Hne].
    + rewrite lookup_insert_eq in Hlook. simplify_eq.
      destruct (Hu Hf) as [?|[Hfo Heq]]; [done|]. rewrite Heq. by apply (Hunit c old).
    + rewrite lookup_insert_ne in Hlook by done. by apply (Hunit x ct).
Qed.

End Writes.

(** More bodies in [L], more contacts in [E]. *)
Lemma toi_inv_weaken (T : R) (L L' E E' : nat → Prop) (w : World.t) :
  toi_inv T L E w →
  (∀ b, L b → L' b) → (∀ c, E c → E' c) →
  (∀ b body, L' b → ¬ L b → World.bodies w !! b = Some body → (T <= alpha0_of body)%R) →
  toi_inv T L' E' w.
Proof.
  intros [Hadv Hcached Hfresh Hrange Hlisted Hedges Hunit] HL HE Hnew.
  constructor; try done.
  - intros b body Hb Hlook.
    destruct (Classical_Prop.classic (L b)) as [?|Hn]; [by eapply Hadv | by eapply Hnew].
  - intros c ct Hc Hf He Hn. destruct (Hcached c ct Hc Hf He Hn); [left; auto | by right].
  - intros c ct Hc Hf Hl. destruct (Hfresh c ct Hc Hf Hl) as [?|(b & Hb & HLb)].
    + left; auto.
    + right. exists b. auto.
Qed.

(** The contacts of [E] that are done with leave [E]: they have no cached
    TOI in use before [T], and a body in [L] if the search would compute a
    TOI for them. *)
Lemma toi_inv_settle (T : R) (L E E' : nat → Prop) (w : World.t) :
  toi_inv T L E w →
  (∀ c ct, E c → ¬ E' c → World.contacts w !! c = Some ct →
     (Contact.has_toi ct = true → Contact.IsEnabled ct = true →
      Contact.m_toiCount ct <= cb2_maxSubSteps → (T <= Contact.m_toi ct)%R)
     ∧ (Contact.has_toi ct = false → live w ct → ∃ b, touches w ct b ∧ L b)) →
  toi_inv T L E' w.
Proof.
  intros [Hadv Hcached Hfresh Hrange Hlisted Hedges Hunit] Hdone.
  constructor; try done.
  - intros c ct Hc Hf He Hn.
    destruct (Classical_Prop.classic (E' c)) as [?|HnE]; [by left|]. right.
    destruct (Hcached c ct Hc Hf He Hn) as [HE|?]; [|done].
    by apply (Hdone c ct HE HnE Hc).
  - intros c ct Hc Hf Hl.
    destruct (Classical_Prop.classic (E' c)) as [?|HnE]; [by left|]. right.
    destruct (Hfresh c ct Hc Hf Hl) as [HE|?]; [|done].
    by apply (Hdone c ct HE HnE Hc).
Qed.

(** ** What the writes of the loop do to a body *)

Lemma same_tests_flags (new old : Body.t) :
  Body.m_contactList new = Body.m_contactList old →
  Body.m_type new = Body.m_type old →
  Z.testbit (Body.m_flags new) 1 = Z.testbit (Body.m_flags old) 1 →
  Z.testbit (Body.m_flags new) 3 = Z.testbit (Body.m_flags old) 3 →
  same_tests new old.
Proof.
  intros Hl Ht H1 H3. split; [done|].
  unfold toi_active, toi_collide. rewrite !Body_IsAwake_bit, !Body_IsBullet_bit.
  by rewrite Ht, H1, H3.
Qed.

Lemma Body_Advance_tests (alpha : R) (b : Body.t) :
  same_tests (Body.Advance alpha b) b ∧ alpha0_of (Body.Advance alpha b) = alpha.
Proof. split; [by apply same_tests_flags | done]. Qed.

Lemma set_sweep_tests (s : Sweep.t) (b : Body.t) :
  same_tests (set_sweep s b) b ∧ alpha0_of (set_sweep s b) = Sweep.alpha0 s.
Proof. split; [by apply same_tests_flags | done]. Qed.

Lemma restore_tests (s : Sweep.t) (b : Body.t) :
  same_tests (Body.SynchronizeTransform (set_sweep s b)) b
  ∧ alpha0_of (Body.SynchronizeTransform (set_sweep s b)) = Sweep.alpha0 s.
Proof. split; [by apply same_tests_flags | done]. Qed.

Lemma set_island_tests (b : Body.t) :
  same_tests (Body.with_flags (set_flag (Body.m_flags b) Body.e_islandFlag) b) b
  ∧ alpha0_of (Body.with_flags (set_flag (Body.m_flags b) Body.e_islandFlag) b)
    = alpha0_of b.
Proof.
  split; [|done]. apply same_tests_flags; try done.
  all: cbn [Body.m_flags Body.with_flags]; change Body.e_islandFlag with (2 ^ 0).
  all: rewrite testbit_set_flag by done; apply orb_false_r.
Qed.

Lemma clear_island_tests (b : Body.t) :
  same_tests (Body.with_flags (clear_flag (Body.m_flags b) Body.e_islandFlag) b) b
  ∧ alpha0_of (Body.with_flags (clear_flag (Body.m_flags b) Body.e_islandFlag) b)
    = alpha0_of b.
Proof.
  split; [|done]. apply same_tests_flags; try done.
  all: cbn [Body.m_flags Body.with_flags]; change Body.e_islandFlag with (2 ^ 0).
  all: rewrite testbit_clear_flag by done; apply andb_true_r.
Qed.

Lemma islandIndex_tests (i : Z) (b : Body.t) :
  same_tests (Body.with_islandIndex i b) b
  ∧ alpha0_of (Body.with_islandIndex i b) = alpha0_of b.
Proof. split; [by apply same_tests_flags | done]. Qed.

(** Waking a body changes one of the tests only. *)
Lemma SetAwake_tests (b : Body.t) :
  Body.m_contactList (Body.SetAwake true b) = Body.m_contactList b
  ∧ alpha0_of (Body.SetAwake true b) = alpha0_of b.
Proof.
  unfold Body.SetAwake. by destruct (Z.land (Body.m_flags b) Body.e_awakeFlag =? 0).
Qed.

Section Updates.
Variables (T : R) (L E : nat → Prop).

Lemma toi_inv_update_body (f : Body.t → Body.t) (b : nat) (w w' : World.t) :
  toi_inv T L E w →
  update_body f b w = Done w' →
  (∀ old, World.bodies w !! b = Some old →
     Body.m_contactList (f old) = Body.m_contactList old
     ∧ (0 <= alpha0_of (f old) <= 1)%R
     ∧ (L b → (T <= alpha0_of (f old))%R)
     ∧ (L b ∨ (toi_active (f old) = toi_active old
               ∧ toi_collide (f old) = toi_collide old))) →
  toi_inv T L E w'.
Proof.
  intros Hinv Hu Hf. apply update_body_Done in Hu as (old & Hold & ->).
  destruct (Hf old Hold) as (Hl & Hr & HL & Hs).
  apply (toi_inv_put_body T L E b old); try done.
  intros ce Hce. left. by rewrite <- Hl.
Qed.

(** A write the search cannot tell, which keeps the start of the sweep. *)
Lemma toi_inv_update_quiet (f : Body.t → Body.t) (b : nat) (w w' : World.t) :
  toi_inv T L E w →
  update_body f b w = Done w' →
  (∀ old, same_tests (f old) old ∧ alpha0_of (f old) = alpha0_of old) →
  toi_inv T L E w'.
Proof.
  intros Hinv Hu Hf. eapply toi_inv_update_body; [done | done |].
  intros old Hold. destruct (Hf old) as ((Hl & Ha & Hc) & Heq). rewrite Heq.
  split; [done|]. split; [by eapply ti_range|]. split; [|by right].
  intros Hb. by eapply ti_advanced.
Qed.

Lemma toi_inv_update_contact (f : Contact.t → Contact.t) (c : nat) (w w' : World.t) :
  toi_inv T L E w →
  update_contact f c w = Done w' →
  E c →
  (∀ old, Contact.m_fixtureA (f old) = Contact.m_fixtureA old
          ∧ Contact.m_fixtureB (f old) = Contact.m_fixtureB old
          ∧ (Contact.has_toi (f old) = true →
             Contact.has_toi old = true ∧ Contact.m_toi (f old) = Contact.m_toi old)) →
  toi_inv T L E w'.
Proof.
  intros Hinv Hu He Hf. apply update_contact_Done in Hu as (old & Hold & ->).
  destruct (Hf old) as (HA & HB & Hkeep).
  apply (toi_inv_put_contact T L E c old); [done | done | done | done | | by left].
  intros Hnew. right. by apply Hkeep.
Qed.

End Updates.

(** ** The search for the first TOI *)

Lemma Contact_has_toi_bit (ct : Contact.t) :
  Contact.has_toi ct = Z.testbit (Contact.m_flags ct) 5.
Proof. unfold Contact.has_toi. change Contact.e_toiFlag with (2 ^ 5). by apply flag_on_pow2. Qed.

Lemma Contact_IsEnabled_bit (ct : Contact.t) :
  Contact.IsEnabled ct = Z.testbit (Contact.m_flags ct) 2.
Proof.
  unfold Contact.IsEnabled. change Contact.e_enabledFlag with (2 ^ 2).
  by apply flag_all_pow2.
Qed.

Lemma Contact_has_toi_set (n : Z) (a : R) (ct : Contact.t) :
  Contact.has_toi
    (Contact.with_toi n a
       (Contact.with_flags (set_flag (Contact.m_flags ct) Contact.e_toiFlag) ct)) = true.
Proof.
  rewrite Contact_has_toi_bit. cbn [Contact.m_flags Contact.with_toi Contact.with_flags].
  change Contact.e_toiFlag with (2 ^ 5). rewrite testbit_set_flag by done.
  apply orb_true_r.
Qed.

(** Reads through pointers, as lookups. *)
Ltac lookups :=
  repeat match goal with
  | H : get_fixture _ _ = Done _ |- _ => apply deref_Done in H
  | H : get_body _ _ = Done _ |- _ => apply deref_Done in H
  | H : get_contact _ _ = Done _ |- _ => apply deref_Done in H
  end.

Section Scan.
Context {env : Collaborators}.
Variable bm : build.
Hypothesis oracle : toi_oracle_ok.

Lemma compute_toi_None (c : nat) (ct : Contact.t) (w : World.t) :
  compute_toi bm c ct w = Done None → ¬ live w ct.
Proof.
  unfold compute_toi. intros Hrun Hlive. cbv zeta in Hrun.
  destruct Hlive as (_ & _ & fA & fB & bodyA & bodyB & HfA & HfB & HbA & HbB
                     & HsA & HsB & Ha & Hc).
  run_all; try discriminate; lookups; unfold Fixture.IsSensor, Fixture.GetBody in *;
    simplify_eq.
  - rewrite HsA, HsB in *. done.
  - unfold toi_active in Ha.
    match goal with H : negb _ && negb _ = true |- _ =>
      apply andb_true_iff in H as [Hn1 Hn2]; apply negb_true_iff in Hn1, Hn2 end.
    destruct Ha; congruence.
  - unfold toi_collide in Hc.
    match goal with H : negb _ && negb _ = true |- _ =>
      apply andb_true_iff in H as [Hn1 Hn2]; apply negb_true_iff in Hn1, Hn2 end.
    destruct Hc; congruence.
Qed.

(** Putting the sweeps of the two bodies onto the same time interval moves
    the start of one of them forward. *)
Lemma align_sweeps (T : R) (L E : nat → Prop) (bA bB : nat) (bodyA bodyB : Body.t)
    (w w1 : World.t) (a0 : R) :
  toi_inv T L E w →
  World.bodies w !! bA = Some bodyA → World.bodies w !! bB = Some bodyB →
  (if decide (Sweep.alpha0 (Body.m_sweep bodyA) < Sweep.alpha0 (Body.m_sweep bodyB))%R
   then w ← update_body
              (λ b, set_sweep (Sweep.Advance (Sweep.alpha0 (Body.m_sweep bodyB))
                                 (Body.m_sweep b)) b) bA w;
        Done (w, Sweep.alpha0 (Body.m_sweep bodyB))
   else if decide (Sweep.alpha0 (Body.m_sweep bodyB) < Sweep.alpha0 (Body.m_sweep bodyA))%R
   then w ← update_body
              (λ b, set_sweep (Sweep.Advance (Sweep.alpha0 (Body.m_sweep bodyA))
                                 (Body.m_sweep b)) b) bB w;
        Done (w, Sweep.alpha0 (Body.m_sweep bodyA))
   else Done (w, Sweep.alpha0 (Body.m_sweep bodyA))) = Done (w1, a0) →
  toi_inv T L E w1
  ∧ (alpha0_of bodyA <= a0)%R ∧ (alpha0_of bodyB <= a0)%R ∧ (a0 <= 1)%R
  ∧ World.contacts w1 = World.contacts w
  ∧ World.m_contactList w1 = World.m_contactList w
  ∧ (∀ x, live w1 x → live w x).
Proof.
  intros Hinv HbA HbB Hrun.
  pose proof (ti_range _ _ _ _ Hinv _ _ HbA) as HrA.
  pose proof (ti_range _ _ _ _ Hinv _ _ HbB) as HrB.
  unfold alpha0_of in *.
  assert (Hmove : ∀ b body a w2,
            World.bodies w !! b = Some body →
            (Sweep.alpha0 (Body.m_sweep body) <= a <= 1)%R →
            update_body (λ b, set_sweep (Sweep.Advance a (Body.m_sweep b)) b) b w = Done w2 →
            toi_inv T L E w2 ∧ World.contacts w2 = World.contacts w
            ∧ World.m_contactList w2 = World.m_contactList w
            ∧ (∀ x, live w2 x → live w x)).
  { intros b body a w2 Hb Ha Hu. split.
    - eapply toi_inv_update_body; [done | done |]. intros old Hold.
      assert (old = body) as -> by congruence.
      destruct (set_sweep_tests (Sweep.Advance a (Body.m_sweep body)) body)
        as ((Hl & Hact & Hcol) & Heq).
      rewrite Heq. cbn [Sweep.alpha0 Sweep.Advance].
      pose proof (ti_range _ _ _ _ Hinv _ _ Hold) as Hr. unfold alpha0_of in Hr.
      split; [done|]. split; [lra|]. split; [|by right].
      intros HLb. pose proof (ti_advanced _ _ _ _ Hinv _ _ HLb Hold) as Hadv.
      unfold alpha0_of in Hadv. lra.
    - apply update_body_Done in Hu as (old & Hold & ->).
      split; [done|]. split; [done|]. intros x.
      destruct (set_sweep_tests (Sweep.Advance a (Body.m_sweep old)) old)
        as ((Hl & Hact & Hcol) & Heq).
      by apply (live_put_body_same b old). }
  destruct (decide _) as [Hlt|Hge].
  - apply bind_Done in Hrun as (w2 & Hu & Hrun). simplify_eq.
    destruct (Hmove bA bodyA _ w1 HbA (conj (Rlt_le _ _ Hlt) (proj2 HrB)) Hu) as (? & ? & ? & ?).
    split; [done|]. split; [lra|]. split; [lra|]. split; [lra|]. split; [done|]. by split.
  - destruct (decide _) as [Hlt|Hge'].
    + apply bind_Done in Hrun as (w2 & Hu & Hrun). simplify_eq.
      destruct (Hmove bB bodyB _ w1 HbB (conj (Rlt_le _ _ Hlt) (proj2 HrA)) Hu) as (? & ? & ? & ?).
      split; [done|]. split; [lra|]. split; [lra|]. split; [lra|]. split; [done|]. by split.
    + simplify_eq. split; [done|]. split; [lra|]. split; [lra|]. split; [lra|]. split; [done|]. by split.
Qed.

Lemma compute_toi_Some (T : R) (L : nat → Prop) (c : nat) (ct : Contact.t)
    (w w' : World.t) (alpha : R) :
  toi_inv T L nobody w → (0 <= T <= 1)%R →
  World.contacts w !! c = Some ct →
  Contact.has_toi ct = false → Contact.IsEnabled ct = true →
  Contact.m_toiCount ct <= cb2_maxSubSteps →
  compute_toi bm c ct w = Done (Some (w', alpha)) →
  toi_inv T L nobody w' ∧ (T <= alpha <= 1)%R
  ∧ (∃ new, World.contacts w' !! c = Some new
            ∧ Contact.has_toi new = true ∧ Contact.m_toi new = alpha)
  ∧ (∀ c0, c0 ≠ c → World.contacts w' !! c0 = World.contacts w !! c0)
  ∧ World.m_contactList w' = World.m_contactList w
  ∧ (∀ x, live w' x → live w x).
Proof.
  intros Hinv HT Hc Hflag Hen Hn. unfold compute_toi. intros Hrun. cbv zeta in Hrun.
  apply bind_Done in Hrun as (fA & HfA & Hrun).
  apply bind_Done in Hrun as (fB & HfB & Hrun).
  destruct (Fixture.IsSensor fA || Fixture.IsSensor fB) eqn:Hsens; [done|].
  apply bind_Done in Hrun as (bodyA & HbA & Hrun).
  apply bind_Done in Hrun as (bodyB & HbB & Hrun).
  apply bind_Done in Hrun as (u & _ & Hrun).
  destruct (negb _ && negb _) eqn:Hact in Hrun; [done|].
  destruct (negb _ && negb _) eqn:Hcol in Hrun; [done|].
  apply bind_Done in Hrun as ([w1 a0] & Halign & Hrun).
  apply bind_Done in Hrun as (u' & _ & Hrun).
  apply bind_Done in Hrun as (bodyA1 & HbA1 & Hrun).
  apply bind_Done in Hrun as (bodyB1 & HbB1 & Hrun).
  apply bind_Done in Hrun as (w2 & Hupd & Hrun).
  lookups. unfold Fixture.IsSensor, Fixture.GetBody in *.
  apply orb_false_iff in Hsens as [HsA HsB].
  apply (align_sweeps T L nobody _ _ _ _ _ _ _ Hinv HbA HbB) in Halign
    as (Hinv1 & HA & HB & Ha1 & Hcs & Hcl & Hlive1).
  assert (Hlive : live w ct).
  { split; [done|]. split; [done|]. exists fA, fB, bodyA, bodyB.
    repeat split; try done.
    - apply andb_false_iff in Hact as [H|H]; apply negb_false_iff in H; auto.
    - apply andb_false_iff in Hcol as [H|H]; apply negb_false_iff in H; auto. }
  assert (HTa : (T <= a0)%R).
  { destruct (ti_fresh _ _ _ _ Hinv c ct Hc Hflag Hlive) as [[]|(b & (fx & Hfx & Hb) & HLb)].
    destruct Hfx as [Hfx|Hfx]; simplify_eq.
    - pose proof (ti_advanced _ _ _ _ Hinv _ _ HLb HbA). lra.
    - pose proof (ti_advanced _ _ _ _ Hinv _ _ HLb HbB). lra. }
  pose proof (ti_range _ _ _ _ Hinv _ _ HbA) as HrA.
  match type of Hrun with Done (Some (_, ?e)) = _ => remember e as al eqn:Hal end.
  assert (Hbound : (T <= al <= 1)%R).
  { rewrite Hal. destruct (decide _); [|lra].
    pose proof (oracle w1 (mkTOIInput (Contact.m_fixtureA ct) (Contact.m_indexA ct)
                             (Contact.m_fixtureB ct) (Contact.m_indexB ct)
                             (Body.m_sweep bodyA1) (Body.m_sweep bodyB1) 1)) as Hbeta.
    unfold cb2Min. destruct (decide _); [|lra]. split; [|lra].
    assert (0 <= (1 - a0) * toi_t (cb2TimeOfImpact w1
              (mkTOIInput (Contact.m_fixtureA ct) (Contact.m_indexA ct)
                 (Contact.m_fixtureB ct) (Contact.m_indexB ct)
                 (Body.m_sweep bodyA1) (Body.m_sweep bodyB1) 1)))%R
      by (apply Rmult_le_pos; lra).
    lra. }
  clear Hal. simplify_eq.
  apply update_contact_Done in Hupd as (old & Hold & ->).
  rewrite Hcs in Hold. simplify_eq.
  split; [|split; [done|split; [|split; [|split; [done|]]]]].
  - apply (toi_inv_put_contact T L nobody c ct); [done | by rewrite Hcs | done | done | |].
    { intros _. left. cbn [Contact.m_toi Contact.with_toi]. lra. }
    right. split.
    + intros _ _ _. left. cbn [Contact.m_toi Contact.with_toi]. lra.
    + intros Hf. by rewrite Contact_has_toi_set in Hf.
  - eexists. unfold put_contact. cbn [World.contacts World.with_contacts].
    rewrite lookup_insert_eq. split; [done|]. split; [apply Contact_has_toi_set | done].
  - intros c0 Hne. unfold put_contact. cbn [World.contacts World.with_contacts].
    rewrite lookup_insert_ne by done. by rewrite Hcs.
  - intros x Hx. by apply Hlive1.
Qed.

Lemma scanned_later (w w' : World.t) (ev ev' : toi_event) (c : nat) :
  scanned w ev c →
  World.contacts w' !! c = World.contacts w !! c →
  (∀ x, live w' x → live w x) →
  (minAlpha ev' <= minAlpha ev)%R →
  scanned w' ev' c.
Proof.
  intros Hs Hc Hlive Hle ct Hct Hen Hn. rewrite Hc in Hct.
  destruct (Hs ct Hct Hen Hn) as [H1 H2]. split.
  - intros Hf. specialize (H1 Hf). lra.
  - intros Hf Hl. apply (H2 Hf). by apply Hlive.
Qed.

(** One turn of the search. *)
Lemma toi_scan_contact_inv (T : R) (L : nat → Prop) (P : nat → Prop) (c : nat)
    (w w' : World.t) (ev ev' : toi_event) :
  toi_inv T L nobody w → (0 <= T)%R → (T <= minAlpha ev <= 1)%R →
  (∀ c0, P c0 → scanned w ev c0) →
  toi_scan_contact bm c (w, ev) = Done (w', ev') →
  toi_inv T L nobody w' ∧ (T <= minAlpha ev' <= 1)%R
  ∧ (∀ c0, P c0 ∨ c0 = c → scanned w' ev' c0)
  ∧ World.m_contactList w' = World.m_contactList w.
Proof.
  intros Hinv HT0 Hev HP. unfold toi_scan_contact. intros Hrun.
  apply bind_Done in Hrun as (ct & Hct & Hrun). lookups.
  assert (Hsame : ∀ e, (minAlpha e <= minAlpha ev)%R →
            (Contact.IsEnabled ct = true → Contact.m_toiCount ct <= cb2_maxSubSteps →
             (Contact.has_toi ct = true → (minAlpha e <= Contact.m_toi ct)%R)
             ∧ (Contact.has_toi ct = false → ¬ live w ct)) →
            ∀ c0, P c0 ∨ c0 = c → scanned w e c0).
  { intros e Hle Hc c0 [H0| ->].
    - by apply (scanned_later w w ev e c0); [apply HP | | |].
    - intros ct' Hct' Hen Hn. simplify_eq. by apply Hc. }
  destruct (negb (Contact.IsEnabled ct)) eqn:Hen.
  { simplify_eq. split; [done|]. split; [done|]. split; [|done].
    apply Hsame; [lra|]. intros He. apply negb_true_iff in Hen. congruence. }
  apply negb_false_iff in Hen.
  destruct (decide (cb2_maxSubSteps < Contact.m_toiCount ct)) as [Hex|Hn].
  { simplify_eq. split; [done|]. split; [done|]. split; [|done].
    apply Hsame; [lra|]. intros _ Hn. lia. }
  apply bind_Done in Hrun as (r & Hr & Hrun).
  destruct (Contact.has_toi ct) eqn:Hflag.
  - simplify_eq.
    destruct (ti_cached _ _ _ _ Hinv c ct Hct Hflag Hen ltac:(lia)) as [[]|Htoi].
    destruct (decide (Contact.m_toi ct < minAlpha ev)%R) as [Hlt|Hge]; simplify_eq.
    + split; [done|]. cbn [minAlpha]. split; [lra|]. split; [|done].
      apply Hsame; cbn [minAlpha]; [lra|]. intros _ _. split; [lra | done].
    + split; [done|]. split; [done|]. split; [|done].
      apply Hsame; [lra|]. intros _ _. split; [lra | done].
  - destruct r as [[w1 alpha]|].
    + destruct (compute_toi_Some T L c ct w w1 alpha Hinv ltac:(lra) Hct Hflag Hen
                  ltac:(lia) Hr)
        as (Hinv1 & Hal & (new & Hnew & Hnf & Hnt) & Hother & Hcl & Hlive).
      assert (Hscan : ∀ e, (minAlpha e <= minAlpha ev)%R → (minAlpha e <= alpha)%R →
                ∀ c0, P c0 ∨ c0 = c → scanned w1 e c0).
      { intros e Hle Hle' c0 Hc0. destruct (decide (c0 = c)) as [->|Hne].
        - intros ct' Hct' _ _. simplify_eq. split; [lra | congruence].
        - destruct Hc0 as [H0|?]; [|done].
          apply (scanned_later w w1 ev e c0); [by apply HP | by apply Hother | done | done]. }
      destruct (decide (alpha < minAlpha ev)%R) as [Hlt|Hge]; simplify_eq.
      * split; [done|]. cbn [minAlpha]. split; [lra|]. split; [|done].
        apply Hscan; cbn [minAlpha]; lra.
      * split; [done|]. split; [done|]. split; [|done]. apply Hscan; lra.
    + simplify_eq. split; [done|]. split; [done|]. split; [|done].
      apply Hsame; [lra|]. intros _ _. split; [done|]. intros _.
      by apply compute_toi_None in Hr.
Qed.

(** The search for the first TOI, started with the invariant at [T], ends
    with the invariant at the time it found: every cached TOI in use is at
    that time or later, and no contact is left to compute a TOI for. *)
Lemma toi_scan_inv (T : R) (L : nat → Prop) (w w' : World.t) (ev : toi_event) :
  toi_inv T L nobody w → (0 <= T <= 1)%R →
  toi_scan bm w = Done (w', ev) →
  (T <= minAlpha ev <= 1)%R ∧ toi_inv (minAlpha ev) nobody nobody w'.
Proof.
  intros Hinv HT. unfold toi_scan. intros Hrun.
  assert (Hloop : ∀ l P w0 e0,
            toi_inv T L nobody w0 → (T <= minAlpha e0 <= 1)%R →
            (∀ c0, P c0 → scanned w0 e0 c0) →
            for_each (toi_scan_contact bm) l (w0, e0) = Done (w', ev) →
            toi_inv T L nobody w' ∧ (T <= minAlpha ev <= 1)%R
            ∧ (∀ c0, P c0 ∨ c0 ∈ l → scanned w' ev c0)
            ∧ World.m_contactList w' = World.m_contactList w0).
  { clear Hinv Hrun.
    induction l as [|c l IH]; intros P w0 e0 Hinv0 He0 HP Hl; cbn [for_each] in Hl.
    - simplify_eq. split; [done|]. split; [done|]. split; [|done].
      intros c0 [H0|H0]; [by apply HP | by apply elem_of_nil in H0].
    - apply bind_Done in Hl as ([w1 e1] & Hstep & Hl).
      destruct (toi_scan_contact_inv T L P c w0 w1 e0 e1 Hinv0 (proj1 HT) He0 HP Hstep)
        as (Hinv1 & He1 & HP1 & Hcl1).
      destruct (IH (λ c0, P c0 ∨ c0 = c) w1 e1 Hinv1 He1 HP1 Hl)
        as (Hinv' & He' & HP' & Hcl').
      split; [done|]. split; [done|]. split; [|congruence].
      intros c0 Hc0. apply HP'. rewrite elem_of_cons in Hc0. tauto. }
  destruct (Hloop _ nobody w (mkEvent None 1) Hinv ltac:(cbn; lra) ltac:(by intros ? [])
              Hrun) as (Hinv' & He & Hall & Hcl).
  split; [done|].
  destruct Hinv' as [Hadv Hcached Hfresh Hrange Hlisted Hedges Hunit].
  constructor; try done.
  - intros c ct Hc Hf Hen Hn. right.
    assert (Hin : c ∈ World.m_contactList w) by (rewrite <- Hcl; by eapply Hlisted).
    by apply (Hall c (or_intror Hin) ct Hc Hen Hn).
  - intros c ct Hc Hf Hl. exfalso.
    assert (Hin : c ∈ World.m_contactList w) by (rewrite <- Hcl; by eapply Hlisted).
    destruct Hl as (Hen & Hn & Hex).
    by apply (proj2 (Hall c (or_intror Hin) ct Hc Hen Hn) Hf).
Qed.

End Scan.

(** ** What the writes of the loop do to a contact *)

Lemma Contact_set_island_flags (ct : Contact.t) :
  let new := Contact.with_flags (set_flag (Contact.m_flags ct) Contact.e_islandFlag) ct in
  Contact.has_toi new = Contact.has_toi ct ∧ Contact.IsEnabled new = Contact.IsEnabled ct.
Proof.
  cbv zeta. rewrite !Contact_has_toi_bit, !Contact_IsEnabled_bit.
  cbn [Contact.m_flags Contact.with_flags]. change Contact.e_islandFlag with (2 ^ 0).
  rewrite !testbit_set_flag by done. by rewrite !orb_false_r.
Qed.

Lemma Contact_clear_toi_island_flags (ct : Contact.t) :
  let new := Contact.with_flags
               (clear_flag (Contact.m_flags ct)
                  (Z.lor Contact.e_toiFlag Contact.e_islandFlag)) ct in
  Contact.has_toi new = false ∧ Contact.IsEnabled new = Contact.IsEnabled ct.
Proof.
  cbv zeta. rewrite !Contact_has_toi_bit, !Contact_IsEnabled_bit.
  cbn [Contact.m_flags Contact.with_flags]. unfold clear_flag.
  rewrite !Z.land_spec, !Z.lnot_spec by done.
  change (Z.testbit (Z.lor Contact.e_toiFlag Contact.e_islandFlag) 5) with true.
  change (Z.testbit (Z.lor Contact.e_toiFlag Contact.e_islandFlag) 2) with false.
  by rewrite andb_false_r, andb_true_r.
Qed.

Lemma Contact_clear_toi_flag (n : Z) (a : R) (ct : Contact.t) :
  Contact.has_toi
    (Contact.with_toi n a
       (Contact.with_flags (clear_flag (Contact.m_flags ct) Contact.e_toiFlag) ct)) = false.
Proof.
  rewrite Contact_has_toi_bit. cbn [Contact.m_flags Contact.with_toi Contact.with_flags].
  change Contact.e_toiFlag with (2 ^ 5). rewrite testbit_clear_flag by done.
  apply andb_false_r.
Qed.

Lemma Contact_SetEnabled_false (ct : Contact.t) :
  Contact.IsEnabled (Contact.SetEnabled false ct) = false.
Proof.
  rewrite Contact_IsEnabled_bit. unfold Contact.SetEnabled.
  cbn [Contact.m_flags Contact.with_flags]. change Contact.e_enabledFlag with (2 ^ 2).
  rewrite testbit_clear_flag by done. apply andb_false_r.
Qed.

(** A write to a contact that the search cannot tell. *)
Lemma toi_inv_update_contact_quiet (T : R) (L E : nat → Prop)
    (f : Contact.t → Contact.t) (c : nat) (w w' : World.t) :
  toi_inv T L E w →
  update_contact f c w = Done w' →
  (∀ old, Contact.m_fixtureA (f old) = Contact.m_fixtureA old
          ∧ Contact.m_fixtureB (f old) = Contact.m_fixtureB old
          ∧ Contact.has_toi (f old) = Contact.has_toi old
          ∧ Contact.IsEnabled (f old) = Contact.IsEnabled old
          ∧ Contact.m_toiCount (f old) = Contact.m_toiCount old
          ∧ Contact.m_toi (f old) = Contact.m_toi old) →
  toi_inv T L E w'.
Proof.
  intros Hinv Hu Hf. apply update_contact_Done in Hu as (old & Hold & ->).
  destruct (Hf old) as (HA & HB & Ht & He & Hn & Ha).
  apply (toi_inv_put_contact T L E c old); [done | done | done | done | |].
  { intros Hf'. right. by rewrite <- Ht. }
  right. split.
  - intros Hf' He' Hn'. right. rewrite <- Ht, <- He, <- Hn. done.
  - intros Hf' (He' & Hn' & _). right. rewrite <- Ht, <- He, <- Hn. done.
Qed.

(** ** The edges of the bodies during the loop *)

#[global] Instance same_edges_preorder : PreOrder same_edges.
Proof.
  split.
  - intros w b body Hb. by exists body.
  - intros w1 w2 w3 H12 H23 b body Hb.
    destruct (H12 b body Hb) as (body2 & Hb2 & Hl2 & Ht2).
    destruct (H23 b body2 Hb2) as (body3 & Hb3 & Hl3 & Ht3).
    exists body3. split; [done|]. split; congruence.
Qed.

Lemma same_edges_bodies (w w' : World.t) :
  World.bodies w' = World.bodies w → same_edges w w'.
Proof. intros Heq b body Hb. exists body. by rewrite Heq. Qed.

Lemma update_body_edges (f : Body.t → Body.t) (b : nat) (w w' : World.t) :
  (∀ old, Body.m_contactList (f old) = Body.m_contactList old
          ∧ Body.m_type (f old) = Body.m_type old) →
  update_body f b w = Done w' → same_edges w w'.
Proof.
  intros Hf Hu. apply update_body_Done in Hu as (old & Hold & ->).
  intros x body Hx. unfold put_body. cbn [World.bodies World.with_bodies].
  destruct (decide (b = x)) as [<-|Hne].
  - rewrite lookup_insert_eq. eexists. split; [done|]. simplify_eq. apply Hf.
  - rewrite lookup_insert_ne by done. by exists body.
Qed.

Lemma update_contact_edges (f : Contact.t → Contact.t) (c : nat) (w w' : World.t) :
  update_contact f c w = Done w' → same_edges w w'.
Proof.
  intros Hu. apply update_contact_Done in Hu as (old & Hold & ->).
  by apply same_edges_bodies.
Qed.

#[global] Instance toi_flags_lowered_preorder : PreOrder toi_flags_lowered.
Proof.
  split.
  - by intros w x Hx.
  - intros w1 w2 w3 H12 H23 x Hx. by apply H23, H12.
Qed.

Lemma update_body_toi_flags (f : Body.t → Body.t) (b : nat) (w w' : World.t) :
  update_body f b w = Done w' → toi_flags_lowered w w'.
Proof. intros Hu. apply update_body_Done in Hu as (old & Hold & ->). by intros x Hx. Qed.

Lemma update_contact_toi_flags (f : Contact.t → Contact.t) (c : nat) (w w' : World.t) :
  (∀ old, Contact.has_toi old = false → Contact.has_toi (f old) = false) →
  update_contact f c w = Done w' → toi_flags_lowered w w'.
Proof.
  intros Hf Hu. apply update_contact_Done in Hu as (old & Hold & ->).
  intros x Hx ct. unfold put_contact. cbn [World.contacts World.with_contacts].
  destruct (decide (c = x)) as [<-|Hne].
  - rewrite lookup_insert_eq. intros ?. simplify_eq. apply Hf. by apply Hx.
  - rewrite lookup_insert_ne by done. apply Hx.
Qed.

(** ** Runs that keep the invariant *)

Section Kept.
Variables (T : R) (L E : nat → Prop).

#[global] Instance kept_preorder : PreOrder (kept T L E).
Proof.
  split.
  - intros w. split; [done | reflexivity].
  - intros w1 w2 w3 [H12 E12] [H23 E23]. split; [auto | by transitivity w2].
Qed.

Lemma kept_update_body_quiet (f : Body.t → Body.t) (b : nat) (w w' : World.t) :
  (∀ old, same_tests (f old) old ∧ alpha0_of (f old) = alpha0_of old) →
  (∀ old, Body.m_type (f old) = Body.m_type old) →
  update_body f b w = Done w' → kept T L E w w'.
Proof.
  intros Hf Ht Hu. split.
  - intros Hinv. by eapply toi_inv_update_quiet.
  - eapply update_body_edges; [|done]. intros old. split; [apply Hf | apply Ht].
Qed.

(** Moving the start of the sweep of a body to [a], at [T] or later. *)
Lemma kept_update_body_sweep (f : Body.t → Body.t) (b : nat) (a : R) (w w' : World.t) :
  (∀ old, same_tests (f old) old ∧ alpha0_of (f old) = a) →
  (∀ old, Body.m_type (f old) = Body.m_type old) →
  (0 <= a <= 1)%R → (L b → (T <= a)%R) →
  update_body f b w = Done w' → kept T L E w w'.
Proof.
  intros Hf Ht Ha HL Hu. split.
  - intros Hinv. eapply toi_inv_update_body; [done | done |]. intros old Hold.
    destruct (Hf old) as ((Hl & Hact & Hcol) & Heq). rewrite Heq.
    split; [done|]. split; [done|]. split; [done | by right].
  - eapply update_body_edges; [|done]. intros old. split; [apply Hf | apply Ht].
Qed.

(** Waking a body of [L]. *)
Lemma kept_wake (b : nat) (w w' : World.t) :
  L b → update_body (Body.SetAwake true) b w = Done w' → kept T L E w w'.
Proof.
  intros HL Hu. split.
  - intros Hinv. eapply toi_inv_update_body; [done | done |]. intros old Hold.
    destruct (SetAwake_tests old) as [Hl Ha]. rewrite Ha.
    split; [done|]. split; [by eapply ti_range|]. split; [|by left].
    intros _. by eapply ti_advanced.
  - eapply update_body_edges; [|done]. intros old. split; [apply SetAwake_tests|].
    unfold Body.SetAwake. by destruct (Z.land _ _ =? 0).
Qed.

Lemma kept_update_contact (f : Contact.t → Contact.t) (c : nat) (w w' : World.t) :
  E c →
  (∀ old, Contact.m_fixtureA (f old) = Contact.m_fixtureA old
          ∧ Contact.m_fixtureB (f old) = Contact.m_fixtureB old
          ∧ (Contact.has_toi (f old) = true →
             Contact.has_toi old = true ∧ Contact.m_toi (f old) = Contact.m_toi old)) →
  update_contact f c w = Done w' → kept T L E w w'.
Proof.
  intros He Hf Hu. split.
  - intros Hinv. by eapply toi_inv_update_contact.
  - by eapply update_contact_edges.
Qed.

Lemma kept_update_contact_quiet (f : Contact.t → Contact.t) (c : nat) (w w' : World.t) :
  (∀ old, Contact.m_fixtureA (f old) = Contact.m_fixtureA old
          ∧ Contact.m_fixtureB (f old) = Contact.m_fixtureB old
          ∧ Contact.has_toi (f old) = Contact.has_toi old
          ∧ Contact.IsEnabled (f old) = Contact.IsEnabled old
          ∧ Contact.m_toiCount (f old) = Contact.m_toiCount old
          ∧ Contact.m_toi (f old) = Contact.m_toi old) →
  update_contact f c w = Done w' → kept T L E w w'.
Proof.
  intros Hf Hu. split.
  - intros Hinv. by eapply toi_inv_update_contact_quiet.
  - by eapply update_contact_edges.
Qed.

End Kept.

Section Island.
Context {env : Collaborators}.
Variable bm : build.
Variables (T : R) (L E : nat → Prop).

Lemma Island_AddBody_kept (b : nat) (w w' : World.t) (island island' : Island.t) :
  Island_AddBody bm b (w, island) = Done (w', island') →
  kept T L E w w'
  ∧ Island.m_bodies island' = Island.m_bodies island ++ [b].
Proof.
  unfold Island_AddBody. intros Hrun. run_all. subst. split; [|done].
  eapply kept_update_body_quiet; [| |done].
  - intros old. apply islandIndex_tests.
  - done.
Qed.

Lemma Island_AddContact_bodies (c : nat) (island island' : Island.t) :
  Island_AddContact bm c island = Done island' →
  Island.m_bodies island' = Island.m_bodies island.
Proof. unfold Island_AddContact. intros Hrun. run_all. by subst. Qed.

Lemma Contact_Update_kept (c : nat) (w w' : World.t) :
  E c → Contact_Update c w = Done w' → kept T L E w w'.
Proof.
  intros He. unfold Contact_Update. destruct (narrow_phase w c) as [touching enabled].
  apply kept_update_contact; [done|]. intros old. split; [done|]. split; [done|].
  rewrite !Contact_has_toi_bit. cbn [Contact.m_flags Contact.with_flags Contact.m_toi].
  change Contact.e_enabledFlag with (2 ^ 2). change Contact.e_touchingFlag with (2 ^ 1).
  destruct enabled, touching;
    repeat first [rewrite testbit_set_flag by done | rewrite testbit_clear_flag by done];
    change (1 =? 5) with false; change (2 =? 5) with false; cbn [negb];
    rewrite ?orb_false_r, ?andb_true_r; done.
Qed.

Lemma restore_sweep_kept (s : Sweep.t) (b : nat) (w w' : World.t) :
  (0 <= Sweep.alpha0 s <= 1)%R → (L b → (T <= Sweep.alpha0 s)%R) →
  restore_sweep s b w = Done w' → kept T L E w w'.
Proof.
  intros Hr HL. unfold restore_sweep.
  apply (kept_update_body_sweep T L E _ b (Sweep.alpha0 s)); [|done|done|done].
  intros old. apply restore_tests.
Qed.

Lemma Advance_kept (a : R) (b : nat) (w w' : World.t) :
  (0 <= a <= 1)%R → (L b → (T <= a)%R) →
  update_body (Body.Advance a) b w = Done w' → kept T L E w w'.
Proof.
  intros Hr HL.
  apply (kept_update_body_sweep T L E _ b a); [|done|done|done].
  intros old. apply Body_Advance_tests.
Qed.

Hypothesis solver : toi_solver_keeps_time.

Lemma Island_SolveTOI_kept (subStep : cb2TimeStep) (island : Island.t) (w w' : World.t) :
  Island_SolveTOI subStep island w = Done w' → kept T L E w w'.
Proof.
  unfold Island_SolveTOI. generalize w at 1 as w0. intros w0.
  apply (for_each_Done_ind (kept T L E)); [apply reflexivity | apply transitivity |].
  intros b s1 s2 _. apply kept_update_body_quiet.
  - intros old. pose proof (solver w0 island subStep b old) as Hs.
    destruct (island_toi_solution w0 island subStep b old) as [[[xf sweep] v] omega].
    cbn [fst snd] in Hs. split; [by apply same_tests_flags|].
    unfold alpha0_of. cbn [Body.m_sweep Body.with_motion Body.with_placement]. done.
  - intros old.
    by destruct (island_toi_solution w0 island subStep b old) as [[[xf sweep] v] omega].
Qed.

End Island.

(** ** The end of a turn: island flags reset, cached TOIs dropped *)

Section Reset.
Variables (T : R) (L E : nat → Prop).

Lemma clear_edges_inv (b : nat) (body : Body.t) (edges : list cb2ContactEdge)
    (w w' : World.t) :
  toi_inv T L E w → L b →
  World.bodies w !! b = Some body →
  (∀ ce, ce ∈ edges → ce ∈ Body.m_contactList body) →
  for_each (λ ce w,
              update_contact
                (λ c, Contact.with_flags
                        (clear_flag (Contact.m_flags c)
                           (Z.lor Contact.e_toiFlag Contact.e_islandFlag)) c)
                (ce_contact ce) w) edges w = Done w' →
  toi_inv T L E w' ∧ World.bodies w' = World.bodies w
  ∧ toi_flags_lowered w w'
  ∧ ∀ ce, ce ∈ edges → no_toi w' (ce_contact ce).
Proof.
  intros Hinv HL. revert w Hinv.
  induction edges as [|ce edges IH]; intros w Hinv Hb Hsub Hrun; cbn [for_each] in Hrun.
  - simplify_eq. split; [done|]. split; [done|]. split; [reflexivity|].
    intros ce Hce. by apply elem_of_nil in Hce.
  - apply bind_Done in Hrun as (w1 & Hstep & Hrun).
    pose proof (update_contact_toi_flags _ _ _ _
                  (λ old _, proj1 (Contact_clear_toi_island_flags old)) Hstep) as Hlow.
    apply update_contact_Done in Hstep as (old & Hold & ->).
    destruct (Contact_clear_toi_island_flags old) as [Hno Hen]. cbv zeta in Hno, Hen.
    assert (Hinv1 : toi_inv T L E
              (put_contact (ce_contact ce)
                 (Contact.with_flags
                    (clear_flag (Contact.m_flags old)
                       (Z.lor Contact.e_toiFlag Contact.e_islandFlag)) old) w)).
    { apply (toi_inv_put_contact T L E _ old); [done | done | done | done | |].
      { intros Hf. congruence. }
      right. split; [intros Hf; congruence|]. intros _ _. left.
      destruct (ti_edges _ _ _ _ Hinv b body ce Hb) as (ct & Hct & Ht).
      { apply Hsub. by left. }
      simplify_eq. by exists b. }
    destruct (IH _ Hinv1 Hb) as (Hinv' & Hbodies & Hlow' & Hall); [|done|].
    { intros ce' Hce'. apply Hsub. by right. }
    split; [done|]. split; [done|]. split; [by transitivity
      (put_contact (ce_contact ce)
         (Contact.with_flags
            (clear_flag (Contact.m_flags old)
               (Z.lor Contact.e_toiFlag Contact.e_islandFlag)) old) w)|].
    intros ce' Hce'. apply elem_of_cons in Hce' as [->|Hce']; [|by apply Hall].
    apply Hlow'. intros ct. unfold put_contact. cbn [World.contacts World.with_contacts].
    rewrite lookup_insert_eq. intros ?. by simplify_eq.
Qed.

Lemma toi_reset_body_inv (b : nat) (w w' : World.t) (moved moved' : list nat) :
  toi_inv T L E w → L b →
  toi_reset_body b (w, moved) = Done (w', moved') →
  toi_inv T L E w' ∧ same_edges w w' ∧ toi_flags_lowered w w'
  ∧ (∀ m, m ∈ moved' → m ∈ moved ∨ m = b)
  ∧ (∀ body x, World.bodies w !! b = Some body → edge_of body x → no_toi w' x).
Proof.
  intros Hinv HL. unfold toi_reset_body. intros Hrun.
  apply bind_Done in Hrun as (w1 & Hclear & Hrun).
  apply bind_Done in Hrun as (body1 & Hb1 & Hrun). lookups.
  pose proof (kept_update_body_quiet T L E _ _ _ _ clear_island_tests (λ _, eq_refl) Hclear)
    as [Hk1 He1].
  pose proof (update_body_toi_flags _ _ _ _ Hclear) as Hl1.
  assert (Hsame : ∀ body, World.bodies w !! b = Some body →
            Body.m_contactList body1 = Body.m_contactList body
            ∧ Body.m_type body1 = Body.m_type body).
  { intros body Hb. destruct (He1 b body Hb) as (body' & Hb' & ? & ?). by simplify_eq. }
  destruct (decide (Body.m_type body1 ≠ cb2_dynamicBody)) as [Hty|Hty].
  - simplify_eq. split; [auto|]. split; [done|]. split; [done|]. split; [auto|].
    intros body x Hb [Hdyn _]. destruct (Hsame body Hb) as [_ Heq]. congruence.
  - apply bind_Done in Hrun as (w2 & Hloop & Hrun). simplify_eq.
    destruct (clear_edges_inv b body1 _ w1 _ (Hk1 Hinv) HL Hb1 (λ _ H, H) Hloop)
      as (Hinv2 & Hbodies & Hl2 & Hall).
    split; [done|]. split; [|split; [by transitivity w1|split]].
    + transitivity w1; [done | by apply same_edges_bodies].
    + intros m Hm. apply elem_of_app in Hm as [?|Hm]; [by left|].
      apply list_elem_of_singleton in Hm. by right.
    + intros body x Hb (_ & ce & Hce & <-). apply Hall.
      destruct (Hsame body Hb) as [Heq _]. by rewrite Heq.
Qed.

(** The loop over the bodies of the island. *)
Lemma toi_reset_inv (bodies moved moved' : list nat) (w w' : World.t) :
  toi_inv T L E w → (∀ b, b ∈ bodies → L b) →
  for_each toi_reset_body bodies (w, moved) = Done (w', moved') →
  toi_inv T L E w' ∧ same_edges w w'
  ∧ (∀ m, m ∈ moved' → m ∈ moved ∨ m ∈ bodies)
  ∧ (∀ b body x, b ∈ bodies → World.bodies w !! b = Some body →
       edge_of body x → no_toi w' x).
Proof.
  revert w moved. induction bodies as [|b bodies IH]; intros w moved Hinv HL Hrun;
    cbn [for_each] in Hrun.
  - simplify_eq. split; [done|]. split; [reflexivity|]. split; [auto|].
    intros b body x Hb. by apply elem_of_nil in Hb.
  - apply bind_Done in Hrun as ([w1 moved1] & Hstep & Hrun).
    destruct (toi_reset_body_inv b w w1 moved moved1 Hinv (HL b ltac:(by left)) Hstep)
      as (Hinv1 & He1 & Hl1 & Hm1 & Hno1).
    destruct (IH w1 moved1 Hinv1 (λ x Hx, HL x ltac:(by right)) Hrun)
      as (Hinv' & He' & Hm' & Hno').
    assert (Hlow : toi_flags_lowered w1 w').
    { clear -Hrun. revert Hrun.
      apply (for_each_Done_ind (λ s s', toi_flags_lowered s.1 s'.1) toi_reset_body bodies
               (w1, moved1) (w', moved')).
      - intros s. reflexivity.
      - intros s1 s2 s3. apply transitivity.
      - intros x [s1 m1] [s2 m2] _ Hs. cbn [fst]. unfold toi_reset_body in Hs.
        apply bind_Done in Hs as (s3 & Hc & Hs).
        apply bind_Done in Hs as (body & _ & Hs).
        apply update_body_toi_flags in Hc.
        destruct (decide _); [by simplify_eq|].
        apply bind_Done in Hs as (s4 & Hloop & Hs). simplify_eq.
        transitivity s3; [done|]. revert Hloop.
        apply (for_each_Done_ind toi_flags_lowered); [apply reflexivity | apply transitivity |].
        intros ce t1 t2 _. apply update_contact_toi_flags.
        intros old _. apply Contact_clear_toi_island_flags. }
    split; [done|]. split; [by transitivity w1|]. split.
    + intros m Hm. destruct (Hm' m Hm) as [Hin|Hin]; [|right; by right].
      destruct (Hm1 m Hin) as [? | ->]; [by left | right; by left].
    + intros b' body x Hb' Hbody Hedge.
      apply elem_of_cons in Hb' as [->|Hb'].
      * apply Hlow. by apply (Hno1 body).
      * destruct (He1 b' body Hbody) as (body1 & Hbody1 & Hlist & Hty).
        apply (Hno' b' body1 x Hb' Hbody1).
        destruct Hedge as [Hdyn Hce]. split; [congruence | by rewrite Hlist].
Qed.

End Reset.

(** ** New contacts *)

Section NewContacts.
Context {env : Collaborators}.
Variables (T : R) (L : nat → Prop).

Lemma toi_inv_new_contact (fixtureA fixtureB : nat) (w : World.t) :
  let c := fresh (dom (World.contacts w)) in
  let ct := Contact.mk Contact.e_enabledFlag fixtureA fixtureB 0 0 0 0%R in
  toi_inv T L nobody w →
  (∃ fx, (World.fixtures w !! fixtureA = Some fx ∨ World.fixtures w !! fixtureB = Some fx)
         ∧ L (Fixture.m_body fx)) →
  toi_inv T L nobody
    (World.with_contactList (c :: World.m_contactList w) (World.m_contactCount w + 1)
       (World.with_contacts (<[c := ct]> (World.contacts w)) w)).
Proof.
  intros c ct [Hadv Hcached Hfresh Hrange Hlisted Hedges Hunit] (fx & Hfx & HLfx).
  assert (Hc : World.contacts w !! c = None).
  { apply not_elem_of_dom. apply is_fresh. }
  constructor;
    cbn [World.bodies World.contacts World.m_contactList World.with_contacts
         World.with_contactList].
  - done.
  - intros x ctx Hx Hf. destruct (decide (c = x)) as [<-|Hne].
    + rewrite lookup_insert_eq in Hx. by simplify_eq.
    + rewrite lookup_insert_ne in Hx by done. by apply (Hcached x ctx).
  - intros x ctx Hx Hf Hl. destruct (decide (c = x)) as [<-|Hne].
    + rewrite lookup_insert_eq in Hx. simplify_eq. right.
      exists (Fixture.m_body fx). split; [|done]. by exists fx.
    + rewrite lookup_insert_ne in Hx by done. by apply (Hfresh x ctx).
  - done.
  - intros x ctx Hx. destruct (decide (c = x)) as [<-|Hne]; [by left|].
    rewrite lookup_insert_ne in Hx by done. right. by apply (Hlisted x ctx).
  - intros b body ce Hb Hce. destruct (Hedges b body ce Hb Hce) as (ctx & Hctx & Ht).
    exists ctx. split; [|done]. rewrite lookup_insert_ne; [done|]. congruence.
  - intros x ctx Hx Hf. destruct (decide (c = x)) as [<-|Hne].
    + rewrite lookup_insert_eq in Hx. by simplify_eq.
    + rewrite lookup_insert_ne in Hx by done. by apply (Hunit x ctx).
Qed.

Lemma AddPair_inv (pair : nat * nat) (w w' : World.t) :
  toi_inv T L nobody w →
  (∃ fx, (World.fixtures w !! pair.1 = Some fx ∨ World.fixtures w !! pair.2 = Some fx)
         ∧ L (Fixture.m_body fx)) →
  AddPair pair w = Done w' →
  toi_inv T L nobody w' ∧ World.fixtures w' = World.fixtures w.
Proof.
  intros Hinv Hfx. unfold AddPair. destruct pair as [fixtureA fixtureB]. cbn [fst snd] in Hfx.
  intros Hrun. cbv zeta in Hrun.
  apply bind_Done in Hrun as (fA & HfA & Hrun).
  apply bind_Done in Hrun as (fB & HfB & Hrun).
  destruct (decide _); [by simplify_eq|].
  apply bind_Done in Hrun as (bB & HbB & Hrun).
  destruct (contact_exists _ _ _ _); [by simplify_eq|].
  apply bind_Done in Hrun as (w1 & Hu1 & Hu2). lookups. unfold Fixture.GetBody in *.
  pose proof (toi_inv_new_contact fixtureA fixtureB w Hinv Hfx) as Hinv0.
  cbv zeta in Hinv0.
  set (c := fresh (dom (World.contacts w))) in *.
  set (ct := Contact.mk Contact.e_enabledFlag fixtureA fixtureB 0 0 0 0%R) in *.
  set (w0 := World.with_contactList _ _ _) in *.
  assert (Hedge : ∀ (b o : nat) (s s' : World.t),
            toi_inv T L nobody s → World.contacts s !! c = Some ct →
            World.fixtures s = World.fixtures w →
            Fixture.m_body fA = b ∨ Fixture.m_body fB = b →
            update_body (λ body, Body.with_contactList
                                   (mkContactEdge o c :: Body.m_contactList body) body)
              b s = Done s' →
            toi_inv T L nobody s' ∧ World.contacts s' !! c = Some ct
            ∧ World.fixtures s' = World.fixtures w).
  { intros b o s s' Hs Hc Hfix Hb Hu.
    apply update_body_Done in Hu as (old & Hold & ->). split; [|done].
    apply (toi_inv_put_body T L nobody b old); [done | done | | | |].
    - intros ce Hce. cbn [Body.m_contactList Body.with_contactList] in Hce.
      apply elem_of_cons in Hce as [->|Hce]; [|by left]. right. exists ct.
      split; [done|]. unfold touches. rewrite Hfix. cbn [Contact.m_fixtureA Contact.m_fixtureB ct].
      destruct Hb as [Hb|Hb]; [exists fA | exists fB]; auto.
    - change (0 <= alpha0_of old <= 1)%R. by eapply ti_range.
    - intros Hb'. change (T <= alpha0_of old)%R. by eapply ti_advanced.
    - by right. }
  assert (Hc0 : World.contacts w0 !! c = Some ct).
  { unfold w0. cbn [World.contacts World.with_contacts World.with_contactList].
    apply lookup_insert_eq. }
  destruct (Hedge _ _ _ _ Hinv0 Hc0 eq_refl (or_introl eq_refl) Hu1) as (Hinv1 & Hc1 & Hf1).
  destruct (Hedge _ _ _ _ Hinv1 Hc1 Hf1 (or_intror eq_refl) Hu2) as (Hinv2 & Hc2 & Hf2).
  done.
Qed.

Hypothesis broad_phase : broad_phase_of_moved.

Lemma FindNewContacts_inv (moved : list nat) (w w' : World.t) :
  toi_inv T L nobody w → (∀ b, b ∈ moved → L b) →
  FindNewContacts moved w = Done w' →
  toi_inv T L nobody w'.
Proof.
  intros Hinv HL. unfold FindNewContacts.
  pose proof (broad_phase w moved) as Hpairs. revert Hpairs.
  generalize (broad_phase_pairs w moved) as pairs. intros pairs. revert w Hinv.
  induction pairs as [|[fA fB] pairs IH]; intros w Hinv Hpairs Hrun; cbn [for_each] in Hrun.
  - by simplify_eq.
  - apply bind_Done in Hrun as (w1 & Hstep & Hrun).
    destruct (AddPair_inv (fA, fB) w w1 Hinv) as [Hinv1 Hfix]; [|done|].
    { destruct (Hpairs fA fB ltac:(by left)) as (fx & Hfx & Hm). exists fx. auto. }
    apply (IH w1 Hinv1); [|done].
    intros fA' fB' Hin. rewrite Hfix. apply Hpairs. by right.
Qed.

End NewContacts.

(** ** Gathering the island of a TOI event *)

Lemma update_contact_bodies (f : Contact.t → Contact.t) (c : nat) (w w' : World.t) :
  update_contact f c w = Done w' → World.bodies w' = World.bodies w.
Proof. intros Hu. by apply update_contact_Done in Hu as (old & Hold & ->). Qed.

Section Collect.
Context {env : Collaborators}.
Variable bm : build.
Variables (alpha : R) (E : nat → Prop).
Hypothesis alpha_range : (0 <= alpha <= 1)%R.

Lemma Contact_Update_bodies (c : nat) (w w' : World.t) :
  Contact_Update c w = Done w' → World.bodies w' = World.bodies w.
Proof.
  unfold Contact_Update. destruct (narrow_phase w c) as [touching enabled].
  apply update_contact_bodies.
Qed.

Lemma toi_collect_edge_inv (L : nat → Prop) (this : nat) (ce : cb2ContactEdge)
    (w w' : World.t) (island island' : Island.t) :
  toi_inv alpha L E w →
  (∀ b, b ∈ Island.m_bodies island → L b) →
  E (ce_contact ce) →
  toi_collect_edge bm alpha this ce (w, island) = Done (w', island') →
  ∃ L', toi_inv alpha L' E w' ∧ (∀ b, L b → L' b)
        ∧ (∀ b, b ∈ Island.m_bodies island' → L' b)
        ∧ same_edges w w'
        ∧ (∀ b, b ∈ Island.m_bodies island → b ∈ Island.m_bodies island').
Proof.
  intros Hinv Hisl HE. unfold toi_collect_edge. intros Hrun.
  assert (Hskip : ∀ st : World.t * Island.t, Done (w, island) = Done st → st = (w', island') →
            ∃ L', toi_inv alpha L' E w' ∧ (∀ b, L b → L' b)
                  ∧ (∀ b, b ∈ Island.m_bodies island' → L' b) ∧ same_edges w w'
                  ∧ (∀ b, b ∈ Island.m_bodies island → b ∈ Island.m_bodies island')).
  { intros st Hst ->. simplify_eq. exists L. split; [done|]. split; [done|]. split; [done|]. by split. }
  apply bind_Done in Hrun as (contact & Hcontact & Hrun).
  destruct (Contact.in_island contact); [by eapply Hskip|].
  apply bind_Done in Hrun as (other & Hother & Hrun).
  apply bind_Done in Hrun as (thisb & Hthis & Hrun).
  destruct (_ && _ && _); [by eapply Hskip|].
  apply bind_Done in Hrun as (fA & HfA & Hrun).
  apply bind_Done in Hrun as (fB & HfB & Hrun).
  destruct (_ || _); [by eapply Hskip|].
  cbv zeta in Hrun. clear Hskip.
  apply bind_Done in Hrun as (w1 & Hadv & Hrun).
  apply bind_Done in Hrun as (w2 & Hupd & Hrun).
  apply bind_Done in Hrun as (contact2 & Hcontact2 & Hrun).
  lookups.
  pose proof (ti_range _ _ _ _ Hinv _ _ Hother) as Hro.
  assert (HLo : L (ce_other ce) → (alpha <= alpha0_of other)%R).
  { intros HL. by eapply ti_advanced. }
  assert (Hk1 : kept alpha L E w w1
                ∧ (Body.in_island other = false →
                   World.bodies w1 !! ce_other ce = Some (Body.Advance alpha other))
                ∧ (Body.in_island other = true → w1 = w)).
  { destruct (Body.in_island other).
    - cbn [negb] in Hadv. simplify_eq. split; [reflexivity|]. by split.
    - cbn [negb] in Hadv. split; [|split; [|done]].
      + apply (Advance_kept alpha L E alpha (ce_other ce)); [done | intros _; lra | done].
      + intros _. apply update_body_Done in Hadv as (old & Hold & ->). simplify_eq.
        unfold put_body. cbn [World.bodies World.with_bodies]. apply lookup_insert_eq. }
  destruct Hk1 as (Hk1 & Hadv1 & Hadv0).
  pose proof (Contact_Update_kept alpha L E _ _ _ HE Hupd) as Hk2.
  pose proof (Contact_Update_bodies _ _ _ Hupd) as Hb2.
  assert (Hrestore : ∀ w3, restore_sweep (Body.m_sweep other) (ce_other ce) w2 = Done w3 →
            kept alpha L E w w3).
  { intros w3 Hr. transitivity w1; [done|]. transitivity w2; [done|].
    by eapply restore_sweep_kept. }
  destruct (negb (Contact.IsEnabled contact2)).
  { apply bind_Done in Hrun as (w3 & Hr & Hrun). simplify_eq.
    destruct (Hrestore _ Hr) as [Hk He]. exists L. split; [auto|]. split; [done|].
    split; [done|]. by split. }
  destruct (negb (Contact.IsTouching contact2)).
  { apply bind_Done in Hrun as (w3 & Hr & Hrun). simplify_eq.
    destruct (Hrestore _ Hr) as [Hk He]. exists L. split; [auto|]. split; [done|].
    split; [done|]. by split. }
  clear Hrestore.
  apply bind_Done in Hrun as (w3 & Hflag & Hrun).
  apply bind_Done in Hrun as (island1 & Hadd & Hrun).
  apply bind_Done in Hrun as (other2 & Hother2 & Hrun). lookups.
  pose proof (update_contact_bodies _ _ _ _ Hflag) as Hb3.
  assert (Hk3 : kept alpha L E w w3).
  { transitivity w1; [done|]. transitivity w2; [done|].
    eapply kept_update_contact; [done | | exact Hflag]. intros old.
    destruct (Contact_set_island_flags old) as [H1 _]. cbv zeta in H1.
    split; [done|]. split; [done|]. rewrite H1. done. }
  apply Island_AddContact_bodies in Hadd.
  destruct (Body.in_island other2) eqn:Hin2.
  { simplify_eq. destruct Hk3 as [Hk He]. exists L. split; [auto|].
    split; [done|]. split; [by rewrite Hadd|]. split; [done | by rewrite Hadd]. }
  assert (Hadvanced : alpha0_of other2 = alpha).
  { rewrite Hb3, Hb2 in Hother2. destruct (Body.in_island other) eqn:Hin.
    - rewrite (Hadv0 eq_refl) in Hother2. congruence.
    - rewrite (Hadv1 eq_refl) in Hother2. by simplify_eq. }
  set (L' := λ b, L b ∨ b = ce_other ce).
  assert (Hinv3 : toi_inv alpha L' E w3).
  { apply (toi_inv_weaken alpha L L' E E w3); [by apply Hk3 | by left | done |].
    intros b body [HL| ->] HnL Hb; [done|]. simplify_eq. lra. }
  apply bind_Done in Hrun as (w4 & Hflag4 & Hrun).
  apply bind_Done in Hrun as (w5 & Hwake & Hrun).
  destruct (Island_AddBody_kept bm alpha L' E _ _ _ _ _ Hrun) as [Hk6 Hbodies].
  assert (Hk4 : kept alpha L' E w3 w4).
  { by eapply kept_update_body_quiet; [apply set_island_tests | |]. }
  assert (Hk5 : kept alpha L' E w4 w5).
  { destruct (decide _); [|simplify_eq; reflexivity].
    eapply kept_wake; [by right | done]. }
  exists L'. split; [|split; [by left|split]].
  - by apply Hk6, Hk5, Hk4.
  - intros b Hb. rewrite Hbodies, Hadd in Hb. apply elem_of_app in Hb as [Hb|Hb].
    + left. by apply Hisl.
    + right. by apply list_elem_of_singleton in Hb.
  - split.
    + transitivity w3; [apply Hk3|]. transitivity w4; [apply Hk4|].
      transitivity w5; [apply Hk5 | apply Hk6].
    + intros b Hb. rewrite Hbodies, Hadd. apply elem_of_app. by left.
Qed.

Lemma toi_collect_inv (L : nat → Prop) (this : nat) (edges : list cb2ContactEdge)
    (w w' : World.t) (island island' : Island.t) :
  toi_inv alpha L E w →
  (∀ b, b ∈ Island.m_bodies island → L b) →
  (∀ ce, ce ∈ edges → E (ce_contact ce)) →
  toi_collect bm alpha this edges (w, island) = Done (w', island') →
  ∃ L', toi_inv alpha L' E w' ∧ (∀ b, L b → L' b)
        ∧ (∀ b, b ∈ Island.m_bodies island' → L' b)
        ∧ same_edges w w'
        ∧ (∀ b, b ∈ Island.m_bodies island → b ∈ Island.m_bodies island').
Proof.
  revert L w island.
  induction edges as [|ce edges IH]; intros L w island Hinv Hisl HE Hrun;
    cbn [toi_collect] in Hrun.
  - simplify_eq. exists L. split; [done|]. split; [done|]. split; [done|]. by split.
  - destruct (decide _).
    { simplify_eq. exists L. split; [done|]. split; [done|]. split; [done|]. by split. }
    destruct (decide _).
    { simplify_eq. exists L. split; [done|]. split; [done|]. split; [done|]. by split. }
    apply bind_Done in Hrun as ([w1 island1] & Hstep & Hrun).
    destruct (toi_collect_edge_inv L this ce w w1 island island1 Hinv Hisl
                (HE ce ltac:(by left)) Hstep) as (L1 & Hinv1 & HL1 & Hisl1 & He1 & Hm1).
    destruct (IH L1 w1 island1 Hinv1 Hisl1 (λ x Hx, HE x ltac:(by right)) Hrun)
      as (L2 & Hinv2 & HL2 & Hisl2 & He2 & Hm2).
    exists L2. split; [done|]. split; [auto|]. split; [done|].
    split; [by transitivity w1 | auto].
Qed.

Lemma toi_collect_body_inv (L : nat → Prop) (this : nat)
    (w w' : World.t) (island island' : Island.t) :
  toi_inv alpha L E w →
  (∀ b, b ∈ Island.m_bodies island → L b) →
  (∀ body x, World.bodies w !! this = Some body → edge_of body x → E x) →
  toi_collect_body bm alpha this (w, island) = Done (w', island') →
  ∃ L', toi_inv alpha L' E w' ∧ (∀ b, L b → L' b)
        ∧ (∀ b, b ∈ Island.m_bodies island' → L' b)
        ∧ same_edges w w'
        ∧ (∀ b, b ∈ Island.m_bodies island → b ∈ Island.m_bodies island').
Proof.
  intros Hinv Hisl HE. unfold toi_collect_body. cbn [fst]. intros Hrun.
  apply bind_Done in Hrun as (body & Hbody & Hrun). lookups.
  destruct (decide _) as [Hdyn|].
  - apply (toi_collect_inv L this (Body.m_contactList body) w w' island island' Hinv Hisl);
      [|done].
    intros ce Hce. apply (HE body _ Hbody). split; [done|]. by exists ce.
  - simplify_eq. exists L. split; [done|]. split; [done|]. split; [done|]. by split.
Qed.

End Collect.

(** ** One turn of the loop over the TOI events *)

Lemma toi_inv_stepComplete (T : R) (L E : nat → Prop) (v : bool) (w : World.t) :
  toi_inv T L E w → toi_inv T L E (World.with_stepComplete v w).
Proof. intros [? ? ? ? ? ? ?]. by constructor. Qed.

Lemma update_body_parts (f : Body.t → Body.t) (b : nat) (w w' : World.t) :
  update_body f b w = Done w' →
  ∃ old, World.bodies w !! b = Some old
         ∧ World.bodies w' = <[b := f old]> (World.bodies w)
         ∧ World.contacts w' = World.contacts w
         ∧ World.fixtures w' = World.fixtures w.
Proof. intros Hu. apply update_body_Done in Hu as (old & Hold & ->). by exists old. Qed.

Lemma update_contact_parts (f : Contact.t → Contact.t) (c : nat) (w w' : World.t) :
  update_contact f c w = Done w' →
  ∃ old, World.contacts w !! c = Some old
         ∧ World.contacts w' = <[c := f old]> (World.contacts w)
         ∧ World.bodies w' = World.bodies w
         ∧ World.fixtures w' = World.fixtures w.
Proof. intros Hu. apply update_contact_Done in Hu as (old & Hold & ->). by exists old. Qed.

Section Turn.
Context {env : Collaborators}.
Variable bm : build.
Hypothesis oracle : toi_oracle_ok.
Hypothesis solver : toi_solver_keeps_time.
Hypothesis broad_phase : broad_phase_of_moved.

(** The TOI contact turned out not to be solid: it is disabled and the
    sweeps are restored. *)
Lemma toi_turn_undone (alpha : R) (c bA bB : nat) (bodyA bodyB : Body.t)
    (w1 w3 w4 w5 w6 w7 w8 : World.t) (f5 : Contact.t → Contact.t) :
  (0 <= alpha <= 1)%R →
  toi_inv alpha nobody nobody w1 →
  World.bodies w1 !! bA = Some bodyA → World.bodies w1 !! bB = Some bodyB →
  kept alpha nobody nobody w1 w3 →
  Contact_Update c w3 = Done w4 →
  (∀ old, Contact.m_fixtureA (f5 old) = Contact.m_fixtureA old
          ∧ Contact.m_fixtureB (f5 old) = Contact.m_fixtureB old
          ∧ Contact.has_toi (f5 old) = false) →
  update_contact f5 c w4 = Done w5 →
  update_contact (Contact.SetEnabled false) c w5 = Done w6 →
  restore_sweep (Body.m_sweep bodyA) bA w6 = Done w7 →
  restore_sweep (Body.m_sweep bodyB) bB w7 = Done w8 →
  toi_inv alpha nobody nobody w8.
Proof.
  intros Ha Hinv HbA HbB Hk3 Hupd Hf5 Hcount Hdis Hr1 Hr2.
  set (E := λ x : nat, x = c).
  pose proof (ti_range _ _ _ _ Hinv _ _ HbA) as HrA.
  pose proof (ti_range _ _ _ _ Hinv _ _ HbB) as HrB.
  assert (Hinv3 : toi_inv alpha nobody E w3).
  { apply (toi_inv_weaken alpha nobody nobody nobody E); [by apply Hk3 | done | done |].
    by intros b body []. }
  pose proof (Contact_Update_kept alpha nobody E c w3 w4 eq_refl Hupd) as [Hk4 _].
  assert (Hf5' : ∀ old, Contact.m_fixtureA (f5 old) = Contact.m_fixtureA old
                        ∧ Contact.m_fixtureB (f5 old) = Contact.m_fixtureB old
                        ∧ (Contact.has_toi (f5 old) = true →
                           Contact.has_toi old = true
                           ∧ Contact.m_toi (f5 old) = Contact.m_toi old)).
  { intros old. destruct (Hf5 old) as (? & ? & Hno). split; [done|]. split; [done|].
    intros Hyes. congruence. }
  pose proof (kept_update_contact alpha nobody E f5 c w4 w5 eq_refl Hf5' Hcount) as [Hk5 _].
  assert (Hoff : ∀ old, Contact.m_fixtureA (Contact.SetEnabled false old)
                        = Contact.m_fixtureA old
                        ∧ Contact.m_fixtureB (Contact.SetEnabled false old)
                          = Contact.m_fixtureB old
                        ∧ (Contact.has_toi (Contact.SetEnabled false old) = true →
                           Contact.has_toi old = true
                           ∧ Contact.m_toi (Contact.SetEnabled false old)
                             = Contact.m_toi old)).
  { intros old. split; [done|]. split; [done|].
    rewrite !Contact_has_toi_bit. unfold Contact.SetEnabled.
    cbn [Contact.m_flags Contact.with_flags Contact.m_toi].
    change Contact.e_enabledFlag with (2 ^ 2). rewrite testbit_clear_flag by done.
    change (2 =? 5) with false. cbn [negb]. rewrite andb_true_r. done. }
  pose proof (kept_update_contact alpha nobody E (Contact.SetEnabled false) c w5 w6 eq_refl
                Hoff Hdis) as [Hk6 _].
  pose proof (restore_sweep_kept alpha nobody E _ bA w6 w7 HrA ltac:(by intros []) Hr1)
    as [Hk7 _].
  pose proof (restore_sweep_kept alpha nobody E _ bB w7 w8 HrB ltac:(by intros []) Hr2)
    as [Hk8 _].
  apply (toi_inv_settle alpha nobody E nobody); [by apply Hk8, Hk7, Hk6, Hk5, Hk4|].
  intros x ct -> _ Hct.
  assert (Hen : Contact.IsEnabled ct = false).
  { apply update_contact_parts in Hdis as (old & _ & Hc6 & _).
    apply update_body_parts in Hr1 as (? & _ & _ & Hc7 & _).
    apply update_body_parts in Hr2 as (? & _ & _ & Hc8 & _).
    rewrite Hc8, Hc7, Hc6, lookup_insert_eq in Hct. simplify_eq.
    apply Contact_SetEnabled_false. }
  split; [congruence|]. intros _ (He & _). congruence.
Qed.

Lemma Contact_Update_lookup (c : nat) (w w' : World.t) :
  Contact_Update c w = Done w' →
  ∃ old new, World.contacts w !! c = Some old
             ∧ World.contacts w' = <[c := new]> (World.contacts w)
             ∧ Contact.m_fixtureA new = Contact.m_fixtureA old
             ∧ Contact.m_fixtureB new = Contact.m_fixtureB old
             ∧ World.bodies w' = World.bodies w
             ∧ World.fixtures w' = World.fixtures w.
Proof.
  unfold Contact_Update. destruct (narrow_phase w c) as [touching enabled]. intros Hu.
  apply update_contact_parts in Hu as (old & Hold & Hc & Hb & Hf).
  eexists old, _. split; [done|]. split; [exact Hc|]. done.
Qed.

(** The TOI contact is solid: its bodies are woken, the island of the
    event is gathered and solved, its flags are reset and the new contacts
    are found. *)
Lemma toi_turn_solved {X : Type} (alpha : R) (subStep : cb2TimeStep) (c : nat)
    (ct : Contact.t) (fA fB : Fixture.t) (bodyA bodyB : Body.t) (island0 : Island.t)
    (w1 w5 : World.t) (f5 : Contact.t → Contact.t)
    (k : World.t → Island.t → result X) (r : X) :
  let bA := Fixture.m_body fA in
  let bB := Fixture.m_body fB in
  (0 <= alpha <= 1)%R →
  toi_inv alpha nobody nobody w1 →
  World.contacts w1 !! c = Some ct →
  World.fixtures w1 !! Contact.m_fixtureA ct = Some fA →
  World.fixtures w1 !! Contact.m_fixtureB ct = Some fB →
  World.bodies w1 !! bA = Some bodyA → World.bodies w1 !! bB = Some bodyB →
  (∀ old, Contact.m_fixtureA (f5 old) = Contact.m_fixtureA old
          ∧ Contact.m_fixtureB (f5 old) = Contact.m_fixtureB old
          ∧ Contact.has_toi (f5 old) = false) →
  (w ← update_body (Body.Advance alpha) bA w1;
   w ← update_body (Body.Advance alpha) bB w;
   w ← Contact_Update c w;
   update_contact f5 c w) = Done w5 →
  (w ← update_body (Body.SetAwake true) bA w5;
   w ← update_body (Body.SetAwake true) bB w;
   '(w, island) ← Island_AddBody bm bA (w, island0);
   '(w, island) ← Island_AddBody bm bB (w, island);
   island ← Island_AddContact bm c island;
   w ← update_body
         (λ b, Body.with_flags (set_flag (Body.m_flags b) Body.e_islandFlag) b) bA w;
   w ← update_body
         (λ b, Body.with_flags (set_flag (Body.m_flags b) Body.e_islandFlag) b) bB w;
   w ← update_contact
         (λ c, Contact.with_flags (set_flag (Contact.m_flags c) Contact.e_islandFlag) c)
         c w;
   st ← toi_collect_body bm alpha bA (w, island);
   '(w, island) ← toi_collect_body bm alpha bB st;
   w ← Island_SolveTOI subStep island w;
   '(w, moved) ← for_each toi_reset_body (Island.m_bodies island) (w, []);
   w ← FindNewContacts moved w;
   k w island) = Done r →
  Island.m_bodies island0 = [] →
  ∃ w' island', k w' island' = Done r ∧ ∃ L', toi_inv alpha L' nobody w'.
Proof.
  intros bA bB Ha Hinv Hct HfA HfB HbA HbB Hf5 Hfirst Hrest Hempty.
  apply bind_Done in Hfirst as (w2 & Hadv1 & Hfirst).
  apply bind_Done in Hfirst as (w3 & Hadv2 & Hfirst).
  apply bind_Done in Hfirst as (w4 & Hupd & Hcount).
  set (E' := λ x : nat, edge_of bodyA x ∨ edge_of bodyB x).
  set (E := λ x : nat, x = c ∨ E' x).
  set (L2 := λ b : nat, b = bA ∨ b = bB).
  pose proof (Advance_kept alpha nobody nobody alpha bA w1 w2 Ha ltac:(by intros []) Hadv1)
    as [Hk2 He2].
  pose proof (Advance_kept alpha nobody nobody alpha bB w2 w3 Ha ltac:(by intros []) Hadv2)
    as [Hk3 He3].
  apply update_body_parts in Hadv1 as (oldA & _ & Hb2 & Hc2 & Hx2).
  apply update_body_parts in Hadv2 as (oldB & _ & Hb3 & Hc3 & Hx3).
  assert (Hinv3 : toi_inv alpha L2 E w3).
  { apply (toi_inv_weaken alpha nobody L2 nobody E); [auto | done | done |].
    intros b body HL _ Hb. rewrite Hb3 in Hb.
    destruct (decide (bB = b)) as [<-|Hne].
    - rewrite lookup_insert_eq in Hb. simplify_eq.
      rewrite (proj2 (Body_Advance_tests alpha oldB)). lra.
    - rewrite lookup_insert_ne in Hb by done. destruct HL as [-> | ->]; [|done].
      rewrite Hb2, lookup_insert_eq in Hb. simplify_eq.
      rewrite (proj2 (Body_Advance_tests alpha oldA)). lra. }
  pose proof (Contact_Update_kept alpha L2 E c w3 w4 (or_introl eq_refl) Hupd) as [Hk4 He4].
  assert (Hf5' : ∀ old, Contact.m_fixtureA (f5 old) = Contact.m_fixtureA old
                        ∧ Contact.m_fixtureB (f5 old) = Contact.m_fixtureB old
                        ∧ (Contact.has_toi (f5 old) = true →
                           Contact.has_toi old = true
                           ∧ Contact.m_toi (f5 old) = Contact.m_toi old)).
  { intros old. destruct (Hf5 old) as (? & ? & Hno). split; [done|]. split; [done|].
    intros Hyes. congruence. }
  pose proof (kept_update_contact alpha L2 E f5 c w4 w5 (or_introl eq_refl) Hf5' Hcount)
    as [Hk5 He5].
  apply Contact_Update_lookup in Hupd as (old3 & new3 & Hold3 & Hc4 & HA4 & HB4 & Hb4 & Hx4).
  apply update_contact_parts in Hcount as (old4 & Hold4 & Hc5 & Hb5 & Hx5).
  assert (Hinv5 : toi_inv alpha L2 E' w5).
  { apply (toi_inv_settle alpha L2 E E'); [auto|].
    intros x ctx [->|?] HnE Hx; [|done].
    rewrite Hc5, lookup_insert_eq in Hx. simplify_eq.
    destruct (Hf5 old4) as (HA5 & HB5 & Hno). split; [congruence|]. intros _ _.
    exists bA. split; [|by left]. exists fA. split; [|done]. left.
    rewrite Hx5, Hx4, Hx3, Hx2, HA5.
    rewrite Hc4, lookup_insert_eq in Hold4. simplify_eq.
    rewrite HA4. rewrite Hc3, Hc2 in Hold3. by simplify_eq. }
  assert (He15 : same_edges w1 w5).
  { transitivity w2; [done|]. transitivity w3; [done|]. by transitivity w4. }
  clear Hk2 Hk3 Hk4 Hk5 Hinv3 He2 He3 He4 He5 Hb2 Hc2 Hx2 Hb3 Hc3 Hx3 Hold3 Hc4 HA4 HB4 Hb4
        Hx4 Hold4 Hc5 Hb5 Hx5.
  apply bind_Done in Hrest as (w6 & Hwake1 & Hrest).
  apply bind_Done in Hrest as (w7 & Hwake2 & Hrest).
  apply bind_Done in Hrest as ([w8 i1] & Hadd1 & Hrest).
  apply bind_Done in Hrest as ([w9 i2] & Hadd2 & Hrest).
  apply bind_Done in Hrest as (i3 & Hadd3 & Hrest).
  apply bind_Done in Hrest as (w10 & Hflag1 & Hrest).
  apply bind_Done in Hrest as (w11 & Hflag2 & Hrest).
  apply bind_Done in Hrest as (w12 & Hflag3 & Hrest).
  apply bind_Done in Hrest as ([w13 i4] & Hcol1 & Hrest).
  apply bind_Done in Hrest as ([w14 i5] & Hcol2 & Hrest).
  apply bind_Done in Hrest as (w15 & Hsolve & Hrest).
  apply bind_Done in Hrest as ([w16 moved] & Hreset & Hrest).
  apply bind_Done in Hrest as (w' & Hfind & Hk).
  pose proof (kept_wake alpha L2 E' bA w5 w6 (or_introl eq_refl) Hwake1) as [Hk6 He6].
  pose proof (kept_wake alpha L2 E' bB w6 w7 (or_intror eq_refl) Hwake2) as [Hk7 He7].
  destruct (Island_AddBody_kept bm alpha L2 E' _ _ _ _ _ Hadd1) as [[Hk8 He8] Hi1].
  destruct (Island_AddBody_kept bm alpha L2 E' _ _ _ _ _ Hadd2) as [[Hk9 He9] Hi2].
  apply Island_AddContact_bodies in Hadd3 as Hi3.
  pose proof (kept_update_body_quiet alpha L2 E' _ _ _ _ set_island_tests (λ _, eq_refl)
                Hflag1) as [Hk10 He10].
  pose proof (kept_update_body_quiet alpha L2 E' _ _ _ _ set_island_tests (λ _, eq_refl)
                Hflag2) as [Hk11 He11].
  assert (Hk12 : kept alpha L2 E' w11 w12).
  { eapply kept_update_contact_quiet; [|exact Hflag3]. intros old.
    destruct (Contact_set_island_flags old) as [H1 H2]. cbv zeta in H1, H2. done. }
  destruct Hk12 as [Hk12 He12].
  assert (Hinv12 : toi_inv alpha L2 E' w12) by auto 10.
  assert (He112 : same_edges w1 w12).
  { transitivity w5; [done|]. transitivity w6; [done|]. transitivity w7; [done|].
    transitivity w8; [done|]. transitivity w9; [done|]. transitivity w10; [done|].
    by transitivity w11. }
  assert (Hi3' : Island.m_bodies i3 = [bA; bB]).
  { by rewrite Hi3, Hi2, Hi1, Hempty. }
  assert (Hedges : ∀ w b body0, same_edges w1 w → World.bodies w1 !! b = Some body0 →
            (∀ x, edge_of body0 x → E' x) →
            ∀ body x, World.bodies w !! b = Some body → edge_of body x → E' x).
  { intros w b body0 He Hb0 HE body x Hb (Hty & ce & Hce & Hx).
    destruct (He b body0 Hb0) as (body' & Hb' & Hl & Ht). simplify_eq.
    apply HE. split; [congruence|]. exists ce. by rewrite <- Hl. }
  destruct (toi_collect_body_inv bm alpha E' Ha L2 bA w12 w13 i3 i4 Hinv12)
    as (L3 & Hinv13 & HL3 & Hisl3 & He13 & Hm3); [| |done|].
  { intros b Hb. rewrite Hi3' in Hb. apply elem_of_cons in Hb as [->|Hb]; [by left|].
    apply list_elem_of_singleton in Hb. by right. }
  { apply (Hedges w12 bA bodyA); [done | done |]. intros x Hx. by left. }
  destruct (toi_collect_body_inv bm alpha E' Ha L3 bB w13 w14 i4 i5 Hinv13 Hisl3)
    as (L4 & Hinv14 & HL4 & Hisl4 & He14 & Hm4); [|done|].
  { apply (Hedges w13 bB bodyB); [by transitivity w12 | done |]. intros x Hx. by right. }
  destruct (Island_SolveTOI_kept alpha L4 E' solver _ _ _ _ Hsolve) as [Hk15 He15'].
  destruct (toi_reset_inv alpha L4 E' _ _ _ _ _ (Hk15 Hinv14) Hisl4 Hreset)
    as (Hinv16 & He16 & Hmoved & Hno).
  assert (He115 : same_edges w1 w15).
  { transitivity w12; [done|]. transitivity w13; [done|]. by transitivity w14. }
  assert (Hinv16' : toi_inv alpha L4 nobody w16).
  { apply (toi_inv_settle alpha L4 E' nobody); [done|].
    intros x ctx HE _ Hx.
    assert (Hcase : ∃ b body0, (b = bA ∨ b = bB) ∧ World.bodies w1 !! b = Some body0
                               ∧ edge_of body0 x).
    { destruct HE as [HE|HE]; [by exists bA, bodyA; auto | by exists bB, bodyB; auto]. }
    destruct Hcase as (b & body0 & Hb & Hb0 & Hty & ce & Hce & <-).
    assert (Hin : b ∈ Island.m_bodies i5).
    { apply Hm4, Hm3. rewrite Hi3'. destruct Hb as [->| ->]; [by left | right; by left]. }
    destruct (He115 b body0 Hb0) as (body15 & Hb15 & Hl15 & Ht15).
    destruct (He16 b body15 Hb15) as (body16 & Hb16 & Hl16 & Ht16).
    assert (Hnone : no_toi w16 (ce_contact ce)).
    { apply (Hno b body15); [done | done |]. split; [congruence|]. exists ce.
      by rewrite Hl15. }
    split; [intros Hf; rewrite (Hnone ctx Hx) in Hf; done|]. intros _ _.
    destruct (ti_edges _ _ _ _ Hinv16 b body16 ce Hb16) as (ct' & Hct' & Ht').
    { by rewrite Hl16, Hl15. }
    simplify_eq. exists b. split; [done|]. apply HL4, HL3. done. }
  exists w', i5. split; [done|].
  exists L4. apply (FindNewContacts_inv alpha L4 broad_phase moved w16 w'); [done | | done].
  intros b Hb. destruct (Hmoved b Hb) as [Hn|Hi]; [by apply elem_of_nil in Hn | by apply Hisl4].
Qed.

(** One turn of the loop, started with the invariant at [T]: the time of
    the event is [T] or later, and the turn ends with the invariant at the
    time of the event. *)
Lemma toi_iteration_inv (T : R) (L : nat → Prop) (step : cb2TimeStep)
    (island island' : Island.t) (w w' : World.t) (ev : toi_event)
    (control : loop_control) :
  toi_inv T L nobody w → (0 <= T <= 1)%R →
  toi_iteration bm step island w = Done (w', island', ev, control) →
  (T <= minAlpha ev <= 1)%R ∧ ∃ L', toi_inv (minAlpha ev) L' nobody w'.
Proof.
  intros Hinv HT. unfold toi_iteration. intros Hrun.
  apply bind_Done in Hrun as ([w1 ev1] & Hscan & Hrun).
  destruct (toi_scan_inv bm oracle T L w w1 ev1 Hinv HT Hscan) as [Hev Hs].
  destruct (minContact ev1) as [c|] eqn:Hmin.
  2: { simplify_eq. split; [done|]. exists nobody. by apply toi_inv_stepComplete. }
  destruct (decide _).
  { simplify_eq. split; [done|]. exists nobody. by apply toi_inv_stepComplete. }
  cbv zeta in Hrun.
  assert (Ha : (0 <= minAlpha ev1 <= 1)%R) by lra.
  apply bind_Done in Hrun as (ct & Hct & Hrun).
  apply bind_Done in Hrun as ([bA bB] & Hbodies & Hrun).
  apply bind_Done in Hrun as (bodyA & HbA & Hrun).
  apply bind_Done in Hrun as (bodyB & HbB & Hrun).
  apply bind_Done in Hrun as (w2 & Hadv1 & Hrun).
  apply bind_Done in Hrun as (w3 & Hadv2 & Hrun).
  apply bind_Done in Hrun as (w4 & Hupd & Hrun).
  apply bind_Done in Hrun as (w5 & Hcount & Hrun).
  apply bind_Done in Hrun as (ct5 & Hct5 & Hrun).
  unfold contact_bodies in Hbodies.
  apply bind_Done in Hbodies as (fA & HfA & Hbodies).
  apply bind_Done in Hbodies as (fB & HfB & Hbodies).
  unfold Fixture.GetBody in Hbodies. lookups. simplify_eq.
  destruct (_ || _).
  - apply bind_Done in Hrun as (w6 & Hdis & Hrun).
    apply bind_Done in Hrun as (w7 & Hr1 & Hrun).
    apply bind_Done in Hrun as (w8 & Hr2 & Hrun). simplify_eq.
    split; [done|]. exists nobody.
    eapply (toi_turn_undone (minAlpha ev) c (Fixture.m_body fA) (Fixture.m_body fB)
              bodyA bodyB w1 w3 w4 w5 w6 w7 w');
      [exact Ha | exact Hs | exact HbA | exact HbB | | exact Hupd | | exact Hcount
       | exact Hdis | exact Hr1 | exact Hr2].
    + transitivity w2.
      * apply (Advance_kept _ nobody nobody (minAlpha ev) (Fixture.m_body fA) w1 w2 Ha);
          [by intros []|done].
      * apply (Advance_kept _ nobody nobody (minAlpha ev) (Fixture.m_body fB) w2 w3 Ha);
          [by intros []|done].
    + intros old. split; [done|]. split; [done|]. apply Contact_clear_toi_flag.
  - eapply (toi_turn_solved (minAlpha ev1) _ c ct fA fB bodyA bodyB (Island.Clear island)
              w1 w5
              (λ ct, Contact.with_toi (Contact.m_toiCount ct + 1) (Contact.m_toi ct)
                       (Contact.with_flags
                          (clear_flag (Contact.m_flags ct) Contact.e_toiFlag) ct)))
      in Hrun as (w17 & i5 & Hk & L' & Hinv17); try done.
    + destruct (World.m_subStepping w17); simplify_eq.
      * split; [done|]. exists L'. by apply toi_inv_stepComplete.
      * split; [done|]. by exists L'.
    + intros old. split; [done|]. split; [done|]. apply Contact_clear_toi_flag.
    + rewrite Hadv1. cbn [mbind result_bind]. rewrite Hadv2. cbn [mbind result_bind].
      rewrite Hupd. cbn [mbind result_bind]. exact Hcount.
Qed.

End Turn.

(** ** The loop over the TOI events *)

Lemma toi_ready_inv (w : World.t) : toi_ready w → toi_inv 0 everybody nobody w.
Proof.
  intros (Hrange & Hunit & Hlisted & Hedges). constructor; try done.
  - intros b body _ Hb. by apply (Hrange b body).
  - intros c ct Hc Hf _ _. right. by apply (Hunit c ct).
  - intros c ct Hc Hf (_ & _ & fA & fB & bodyA & bodyB & HfA & _). right.
    exists (Fixture.m_body fA). split; [|done]. exists fA. auto.
Qed.

Lemma toi_inv_ready (T : R) (L : nat → Prop) (w : World.t) :
  toi_inv T L nobody w → toi_ready w.
Proof. intros [Hadv Hcached Hfresh Hrange Hlisted Hedges Hunit]. by split. Qed.

Lemma events_in_order_cons (ev : toi_event) (events : list toi_event) :
  (∀ e, e ∈ events → (minAlpha ev <= minAlpha e)%R) →
  events_in_order events → events_in_order (ev :: events).
Proof.
  intros Hfirst Hrest i j ei ej Hij Hi Hj.
  destruct i as [|i], j as [|j]; cbn in Hi, Hj; simplify_eq.
  - lra.
  - apply Hfirst. by eapply list_elem_of_lookup_2.
  - lia.
  - apply (Hrest i j); [lia | done | done].
Qed.

Section Loop.
Context {env : Collaborators}.
Variable bm : build.
Hypothesis oracle : toi_oracle_ok.
Hypothesis solver : toi_solver_keeps_time.
Hypothesis broad_phase : broad_phase_of_moved.

Lemma toi_loop_inv (fuel : nat) (T : R) (L : nat → Prop) (step : cb2TimeStep)
    (island : Island.t) (w w' : World.t) (events : list toi_event) :
  toi_inv T L nobody w → (0 <= T <= 1)%R →
  toi_loop bm fuel step island w = Done (w', events) →
  (∀ ev, ev ∈ events → (T <= minAlpha ev <= 1)%R)
  ∧ events_in_order events
  ∧ toi_ready w'.
Proof.
  revert T L island w events.
  induction fuel as [|fuel IH]; intros T L island w events Hinv HT Hrun;
    cbn [toi_loop] in Hrun; [done|].
  apply bind_Done in Hrun as ([[[w1 island1] ev] control] & Hturn & Hrun).
  destruct (toi_iteration_inv bm oracle solver broad_phase T L step island island1 w w1 ev
              control Hinv HT Hturn) as (Hev & L1 & Hinv1).
  destruct control.
  - simplify_eq. split; [|split].
    + intros e He. apply list_elem_of_singleton in He as ->. done.
    + apply events_in_order_cons.
      * intros e He. by apply elem_of_nil in He.
      * intros i j ei ej _ Hi. by rewrite lookup_nil in Hi.
    + by eapply toi_inv_ready.
  - apply bind_Done in Hrun as ([w2 events2] & Hloop & Hrun). simplify_eq.
    destruct (IH (minAlpha ev) L1 island1 w1 events2 Hinv1 ltac:(lra) Hloop)
      as (Hall & Hord & Hready).
    split; [|split; [|done]].
    + intros e He. apply elem_of_cons in He as [->|He]; [done|].
      specialize (Hall e He). lra.
    + apply events_in_order_cons; [|done]. intros e He. by apply Hall.
Qed.

(** The start of a step: every sweep starts at 0 and no TOI is cached. *)
Lemma toi_start_inv (w w' : World.t) :
  toi_inv 0 everybody nobody w →
  (w ← for_each (update_body
                   (λ b,
                      let s := Body.m_sweep b in
                      set_sweep (Sweep.mk (Sweep.localCenter s) (Sweep.c0 s) (Sweep.c s)
                                          (Sweep.a0 s) (Sweep.a s) 0)
                        (Body.with_flags
                           (clear_flag (Body.m_flags b) Body.e_islandFlag) b)))
                (World.m_bodyList w) w;
   for_each (update_contact
               (λ c,
                  Contact.with_toi 0 1
                    (Contact.with_flags
                       (clear_flag (Contact.m_flags c)
                          (Z.lor Contact.e_toiFlag Contact.e_islandFlag)) c)))
            (World.m_contactList w) w) = Done w' →
  toi_inv 0 everybody nobody w'.
Proof.
  intros Hinv Hrun. apply bind_Done in Hrun as (w1 & Hbodies & Hcontacts).
  assert (Hinv1 : toi_inv 0 everybody nobody w1).
  { revert Hbodies Hinv.
    apply (for_each_Done_ind (λ s s', toi_inv 0 everybody nobody s →
                                      toi_inv 0 everybody nobody s')); [done| |].
    - intros s1 s2 s3 H12 H23 H. by apply H23, H12.
    - intros b s1 s2 _ Hu Hs. eapply toi_inv_update_body; [done | done |].
      intros old Hold. split; [done|]. unfold alpha0_of. cbn.
      split; [lra|]. split; [intros _; lra|]. right.
      destruct (clear_island_tests old) as ((_ & Hact & Hcol) & _). by split. }
  revert Hcontacts Hinv1.
  apply (for_each_Done_ind (λ s s', toi_inv 0 everybody nobody s →
                                    toi_inv 0 everybody nobody s')); [done| |].
  - intros s1 s2 s3 H12 H23 H. by apply H23, H12.
  - intros c s1 s2 _ Hu Hs. apply update_contact_Done in Hu as (old & Hold & ->).
    destruct (Contact_clear_toi_island_flags old) as [Hno _]. cbv zeta in Hno.
    apply (toi_inv_put_contact 0 everybody nobody c old); [done | done | done | done | |].
    + intros Hf. exfalso. rewrite Contact_has_toi_bit in Hf, Hno.
      cbn [Contact.m_flags Contact.with_toi Contact.with_flags] in Hf, Hno. congruence.
    + right. split.
      * intros Hf. exfalso. rewrite Contact_has_toi_bit in Hf, Hno.
        cbn [Contact.m_flags Contact.with_toi Contact.with_flags] in Hf, Hno. congruence.
      * intros _ (_ & _ & fA & fB & bodyA & bodyB & HfA & _). left.
        exists (Fixture.m_body fA). split; [|done]. exists fA. auto.
Qed.

(** C7: within one call of [SolveTOI], on a world whose sweeps start in
    the step and whose cached TOIs are fractions of the step, and with
    collaborators that return a time of impact that is not negative, keep
    the start of a sweep and report new pairs on moved bodies only, the
    times of the events of the successive turns of the loop never decrease,
    each of them lies in [0, 1], and so does every TOI that is cached when
    the call returns. *)
Theorem toi_events_in_order (fuel : nat) (step : cb2TimeStep) (w w' : World.t)
    (events : list toi_event) :
  toi_ready w →
  SolveTOI bm fuel step w = Done (w', events) →
  events_in_order events
  ∧ (∀ ev, ev ∈ events → (0 <= minAlpha ev <= 1)%R)
  ∧ (∀ c ct, World.contacts w' !! c = Some ct → Contact.has_toi ct = true →
       (0 <= Contact.m_toi ct <= 1)%R)
  ∧ toi_ready w'.
Proof.
  intros Hready. unfold SolveTOI. intros Hrun. cbv zeta in Hrun.
  apply bind_Done in Hrun as (w1 & Hstart & Hloop).
  assert (Hinv1 : toi_inv 0 everybody nobody w1).
  { destruct (World.m_stepComplete w).
    - by apply (toi_start_inv w w1 (toi_ready_inv w Hready)).
    - simplify_eq. by apply toi_ready_inv. }
  destruct (toi_loop_inv fuel 0 everybody step _ w1 w' events Hinv1 ltac:(lra) Hloop)
    as (Hall & Hord & Hready').
  split; [done|]. split; [done|]. split; [|done]. apply Hready'.
Qed.

End Loop.

(** The simple collaborators are as the loop takes them to be. *)
Lemma still_toi_oracle_ok : toi_oracle_ok (env := still_collaborators).
Proof. intros w input. cbn. lra. Qed.

Lemma still_toi_solver_keeps_time : toi_solver_keeps_time (env := still_collaborators).
Proof. by intros w island subStep b body. Qed.

Lemma still_broad_phase_of_moved : broad_phase_of_moved (env := still_collaborators).
Proof. intros w moved fA fB Hin. by apply elem_of_nil in Hin. Qed.

Lemma impact_world_ready : toi_ready impact_world.
Proof.
  split; [|split; [|split]].
  - intros b body Hb. unfold impact_world in Hb. cbn [World.bodies] in Hb.
    apply lookup_insert_Some in Hb as [[_ <-]|[_ Hb]].
    { unfold alpha0_of. cbn. lra. }
    apply lookup_insert_Some in Hb as [[_ <-]|[_ Hb]]; [|done].
    unfold alpha0_of. cbn. lra.
  - intros c ct Hc _. unfold impact_world in Hc. cbn [World.contacts] in Hc.
    apply lookup_insert_Some in Hc as [[_ <-]|[_ Hc]]; [|done].
    cbn [Contact.m_toi]. lra.
  - intros c ct Hc. unfold impact_world in Hc. cbn [World.contacts] in Hc.
    apply lookup_insert_Some in Hc as [[<- _]|[_ Hc]]; [|done]. by left.
  - intros b body ce Hb Hce. unfold impact_world in Hb. cbn [World.bodies] in Hb.
    assert (Hct : World.contacts impact_world !! 0%nat
                  = Some (Contact.mk (set_flag solid_contact Contact.e_toiFlag)
                            0 1 0 0 0 (1 / 2)%R)) by done.
    apply lookup_insert_Some in Hb as [[<- <-]|[_ Hb]].
    { apply list_elem_of_singleton in Hce as ->. eexists. split; [exact Hct|].
      exists (Fixture.mk 0 false 1). split; [by left | done]. }
    apply lookup_insert_Some in Hb as [[<- <-]|[_ Hb]]; [|done].
    apply list_elem_of_singleton in Hce as ->. eexists. split; [exact Hct|].
    exists (Fixture.mk 1 false 1). split; [by right | done].
Qed.

(** The call on the sample world: the cached TOI is the first event, at
    half of the step; the bodies are advanced to it, and the next search
    finds nothing before the end of the step. *)
Lemma impact_world_events :
  ∃ w' e1 e2,
    SolveTOI (env := still_collaborators) Release 3 sample_step impact_world
    = Done (w', [e1; e2])
    ∧ minContact e1 = Some 0%nat ∧ minAlpha e1 = (1 / 2)%R
    ∧ minContact e2 = None ∧ minAlpha e2 = 1%R.
Proof.
  eexists _, _, _. split.
  - vm_compute.
    repeat match goal with
    | |- context [Rlt_dec ?a ?b] => destruct (Rlt_dec a b) as [?|?]; try lra
    end.
    reflexivity.
  - cbn [minAlpha minContact]. repeat split; lra.
Qed.

Lemma toi_events_in_order_witness :
  ∃ w' e1 e2,
    toi_ready impact_world
    ∧ SolveTOI (env := still_collaborators) Release 3 sample_step impact_world
      = Done (w', [e1; e2])
    ∧ minAlpha e1 = (1 / 2)%R ∧ minAlpha e2 = 1%R
    ∧ events_in_order [e1; e2]
    ∧ (∀ ev, ev ∈ [e1; e2] → (0 <= minAlpha ev <= 1)%R)
    ∧ (∀ c ct, World.contacts w' !! c = Some ct → Contact.has_toi ct = true →
         (0 <= Contact.m_toi ct <= 1)%R)
    ∧ toi_ready w'.
Proof.
  destruct impact_world_events as (w' & e1 & e2 & Hrun & _ & H1 & _ & H2).
  exists w', e1, e2. split; [exact impact_world_ready|]. split; [exact Hrun|].
  split; [exact H1|]. split; [exact H2|].
  exact (toi_events_in_order (env := still_collaborators) Release
           still_toi_oracle_ok still_toi_solver_keeps_time still_broad_phase_of_moved
           3 sample_step impact_world w' [e1; e2] impact_world_ready Hrun).
Defined.

(** ** More on the friction joint *)


Lemma array_set_inv {A : Type} (arr arr' : list A) (i : Z) (a : A) :
  array_set arr i a = Done arr' →
  0 <= i < Z.of_nat (length arr) ∧ arr' = <[Z.to_nat i := a]> arr.
Proof. unfold array_set. case_decide; [|done]. by intros [= <-]. Qed.



Section FrictionMore.
Import FrictionJoint.

(** The parts of a call that returns. *)
Lemma SolveVelocityConstraints_parts (j j' : cb2FrictionJoint) (data data' : cb2SolverData) :
  SolveVelocityConstraints j data = Done (j', data') →
  ∃ velA velB,
    array_get (velocities data) (m_indexA j) = Done velA
    ∧ array_get (velocities data) (m_indexB j) = Done velB
    ∧ 0 <= m_indexA j < Z.of_nat (length (velocities data))
    ∧ 0 <= m_indexB j < Z.of_nat (length (velocities data))
    ∧ let L := (m_angularImpulse j' - m_angularImpulse j)%R in
      let P := Vec.sub (m_linearImpulse j') (m_linearImpulse j) in
      let wA1 := (vel_w velA - m_invIA j * L)%R in
      let wB1 := (vel_w velB + m_invIB j * L)%R in
      m_angularImpulse j'
      = cb2Clamp (m_angularImpulse j + - m_angularMass j * angular_Cdot velA velB)
                 (- (dt (step data) * m_maxTorque j)) (dt (step data) * m_maxTorque j)
      ∧ (let unclamped :=
           Vec.add (m_linearImpulse j)
             (Vec.neg (cb2MulMat (m_linearMass j)
                         (linear_Cdot j (mkVelocity (vel_v velA) wA1)
                                        (mkVelocity (vel_v velB) wB1)))) in
         m_linearImpulse j'
         = if decide (dt (step data) * m_maxForce j * (dt (step data) * m_maxForce j)
                      < Vec.lengthSquared unclamped)%R
           then Vec.mul (Vec.normalize unclamped) (dt (step data) * m_maxForce j)
           else unclamped)
      ∧ j' = set_impulses (m_linearImpulse j') (m_angularImpulse j') j
      ∧ data' = mkSolverData (step data) (positions data)
                  (<[Z.to_nat (m_indexB j) :=
                       mkVelocity (Vec.add (vel_v velB) (Vec.scale (m_invMassB j) P))
                                  (wB1 + m_invIB j * cb2Cross (m_rB j) P)%R]>
                     (<[Z.to_nat (m_indexA j) :=
                          mkVelocity (Vec.sub (vel_v velA) (Vec.scale (m_invMassA j) P))
                                     (wA1 - m_invIA j * cb2Cross (m_rA j) P)%R]>
                        (velocities data))).
Proof.
  unfold SolveVelocityConstraints. cbv zeta. intros Hrun.
  apply bind_Done in Hrun as (velA & HvA & Hrun).
  apply bind_Done in Hrun as (velB & HvB & Hrun).
  apply bind_Done in Hrun as (vs1 & Hs1 & Hrun).
  apply bind_Done in Hrun as (vs2 & Hs2 & Hrun).
  apply array_set_inv in Hs1 as [HiA ->].
  apply array_set_inv in Hs2 as [HiB ->].
  rewrite length_insert in HiB.
  injection Hrun as <- <-.
  exists velA, velB. repeat (split; [done|]).
  cbn [m_angularImpulse m_linearImpulse set_impulses]. done.
Qed.



(** X2: a velocity iteration of the friction joint that returns writes the
    two velocities of its bodies and the two accumulated impulses and
    nothing else: the step, the positions, the number of velocities and the
    velocities of the other bodies of the island are as before, and so are
    the limits, the indices and the masses of the joint. *)
Theorem friction_iteration_writes_its_bodies_only
    (j j' : cb2FrictionJoint) (data data' : cb2SolverData) :
  SolveVelocityConstraints j data = Done (j', data') →
  step data' = step data
  ∧ positions data' = positions data
  ∧ length (velocities data') = length (velocities data)
  ∧ (∀ i : nat, Z.of_nat i ≠ m_indexA j → Z.of_nat i ≠ m_indexB j →
       velocities data' !! i = velocities data !! i)
  ∧ j' = set_impulses (m_linearImpulse j') (m_angularImpulse j') j.
Proof.
  intros Hrun.
  apply SolveVelocityConstraints_parts in Hrun
    as (velA & velB & _ & _ & HiA & HiB & _ & _ & Hj & ->).
  cbn [step positions velocities]. rewrite !length_insert.
  repeat (split; [done|]). split; [|done].
  intros i HA HB. by rewrite !list_lookup_insert_ne by lia.
Qed.

Lemma friction_iteration_writes_its_bodies_only_witness :
  ∃ j' data',
    SolveVelocityConstraints (sample_joint 2 5) drifting_data = Done (j', data')
    ∧ step data' = step drifting_data
    ∧ positions data' = positions drifting_data
    ∧ length (velocities data') = length (velocities drifting_data)
    ∧ (∀ i : nat, Z.of_nat i ≠ m_indexA (sample_joint 2 5) →
         Z.of_nat i ≠ m_indexB (sample_joint 2 5) →
         velocities data' !! i = velocities drifting_data !! i)
    ∧ j' = set_impulses (m_linearImpulse j') (m_angularImpulse j') (sample_joint 2 5).
Proof.
  eexists _, _. split; [reflexivity|].
  exact (friction_iteration_writes_its_bodies_only (sample_joint 2 5) _ drifting_data _ eq_refl).
Defined.



End FrictionMore.

Section FrictionSettersMore.
Import FrictionJoint.
Variable isValid : R → bool.

(** X6: the setters of the limits check their argument in a debug build
    only. A limit that is negative, or not a valid number, stops
    [SetMaxForce] and [SetMaxTorque] with a failed assertion in a debug
    build; in a release build both return and store the value as it is. *)
Theorem friction_setters_reject_in_debug_only (x : R) (j : cb2FrictionJoint) :
  isValid x = false ∨ (x < 0)%R →
  SetMaxForce isValid Debug x j = Stop AssertFailed
  ∧ SetMaxTorque isValid Debug x j = Stop AssertFailed
  ∧ (∃ j', SetMaxForce isValid Release x j = Done j' ∧ GetMaxForce j' = x)
  ∧ (∃ j', SetMaxTorque isValid Release x j = Done j' ∧ GetMaxTorque j' = x).
Proof.
  intros H. destruct (friction_setters_checked isValid x j H) as [HF HT].
  split; [done|]. split; [done|].
  split; eexists; (split; [reflexivity|]); done.
Qed.

End FrictionSettersMore.

Lemma friction_setters_reject_in_debug_only_witness :
  FrictionJoint.SetMaxForce (λ _, true) Debug (-1) (sample_joint 2 5) = Stop AssertFailed
  ∧ FrictionJoint.SetMaxTorque (λ _, true) Debug (-1) (sample_joint 2 5) = Stop AssertFailed
  ∧ (∃ j', FrictionJoint.SetMaxForce (λ _, true) Release (-1) (sample_joint 2 5) = Done j'
           ∧ FrictionJoint.GetMaxForce j' = (-1)%R)
  ∧ (∃ j', FrictionJoint.SetMaxTorque (λ _, true) Release (-1) (sample_joint 2 5) = Done j'
           ∧ FrictionJoint.GetMaxTorque j' = (-1)%R).
Proof.
  apply (friction_setters_reject_in_debug_only (λ _, true) (-1) (sample_joint 2 5)).
  right. lra.
Defined.

(** ** Loops that write every body of a list *)

Lemma update_body_alter (f : Body.t → Body.t) (b : nat) (w w' : World.t) :
  update_body f b w = Done w' →
  is_Some (World.bodies w !! b)
  ∧ w' = World.with_bodies (alter f b (World.bodies w)) w.
Proof.
  intros Hu. apply update_body_Done in Hu as (x & Hx & ->).
  split; [by eexists|]. unfold put_body. f_equal.
  apply map_eq. intros k. destruct (decide (b = k)) as [<-|Hne].
  - by rewrite lookup_insert_eq, lookup_alter_eq, Hx.
  - by rewrite lookup_insert_ne, lookup_alter_ne.
Qed.

Lemma update_body_alter_Done (f : Body.t → Body.t) (b : nat) (w : World.t) :
  is_Some (World.bodies w !! b) →
  update_body f b w = Done (World.with_bodies (alter f b (World.bodies w)) w).
Proof.
  intros [x Hx]. unfold update_body, get_body, deref. rewrite Hx.
  cbn [mbind result_bind]. f_equal. unfold put_body. f_equal.
  apply map_eq. intros k. destruct (decide (b = k)) as [<-|Hne].
  - by rewrite lookup_insert_eq, lookup_alter_eq, Hx.
  - by rewrite lookup_insert_ne, lookup_alter_ne.
Qed.

Lemma each_body_is_Some (f : Body.t → Body.t) (l : list nat) (m : gmap nat Body.t) (b : nat) :
  is_Some (each_body f l m !! b) ↔ is_Some (m !! b).
Proof.
  revert m. induction l as [|x l IH]; intros m; [done|].
  cbn [each_body foldl]. fold (each_body f l (alter f x m)).
  rewrite IH. apply lookup_alter_is_Some.
Qed.

Lemma each_body_notin (f : Body.t → Body.t) (l : list nat) (m : gmap nat Body.t) (b : nat) :
  b ∉ l → each_body f l m !! b = m !! b.
Proof.
  revert m. induction l as [|x l IH]; intros m Hb; [done|].
  apply not_elem_of_cons in Hb as [Hne Hb].
  cbn [each_body foldl]. fold (each_body f l (alter f x m)).
  rewrite IH by done. by apply lookup_alter_ne.
Qed.

(** Each body of a list without repetition is written once. *)
Lemma each_body_NoDup (f : Body.t → Body.t) (l : list nat) (m : gmap nat Body.t) (b : nat) :
  NoDup l → b ∈ l → each_body f l m !! b = f <$> m !! b.
Proof.
  revert m. induction l as [|x l IH]; intros m Hnd Hb; [by apply elem_of_nil in Hb|].
  apply NoDup_cons in Hnd as [Hx Hnd].
  cbn [each_body foldl]. fold (each_body f l (alter f x m)).
  apply elem_of_cons in Hb as [->|Hb].
  - rewrite each_body_notin by done. apply lookup_alter_eq.
  - rewrite IH by done. rewrite lookup_alter_ne; [done|]. intros ->. done.
Qed.

(** A write that changes nothing when repeated can be read off any list. *)
Lemma each_body_idemp (f : Body.t → Body.t) (l : list nat) (m : gmap nat Body.t) (b : nat) :
  (∀ x, f (f x) = f x) → b ∈ l → each_body f l m !! b = f <$> m !! b.
Proof.
  intros Hf. revert m. induction l as [|x l IH]; intros m Hb; [by apply elem_of_nil in Hb|].
  cbn [each_body foldl]. fold (each_body f l (alter f x m)).
  destruct (decide (b ∈ l)) as [Hin|Hnin].
  - rewrite IH by done. destruct (decide (x = b)) as [->|Hne].
    + rewrite lookup_alter_eq. destruct (m !! b); cbn; [by rewrite Hf | done].
    + by rewrite lookup_alter_ne.
  - apply elem_of_cons in Hb as [->|Hb]; [|done].
    rewrite each_body_notin by done. apply lookup_alter_eq.
Qed.

Lemma for_each_update_body (f : Body.t → Body.t) (l : list nat) (w w' : World.t) :
  for_each (update_body f) l w = Done w' →
  Forall (λ b, is_Some (World.bodies w !! b)) l
  ∧ w' = World.with_bodies (each_body f l (World.bodies w)) w.
Proof.
  revert w. induction l as [|x l IH]; intros w Hrun; cbn [for_each] in Hrun.
  - injection Hrun as <-. split; [done|]. by destruct w.
  - apply bind_Done in Hrun as (w1 & H1 & Hrun).
    apply update_body_alter in H1 as [Hx ->].
    apply IH in Hrun as [Hall ->]. split.
    + constructor; [done|]. eapply Forall_impl; [exact Hall|].
      intros b. cbn [World.bodies World.with_bodies]. by rewrite lookup_alter_is_Some.
    + done.
Qed.

Lemma for_each_update_body_Done (f : Body.t → Body.t) (l : list nat) (w : World.t) :
  Forall (λ b, is_Some (World.bodies w !! b)) l →
  for_each (update_body f) l w
  = Done (World.with_bodies (each_body f l (World.bodies w)) w).
Proof.
  revert w. induction l as [|x l IH]; intros w Hall; cbn [for_each].
  - by destruct w.
  - apply Forall_cons in Hall as [Hx Hall].
    rewrite (update_body_alter_Done f x w Hx). cbn [mbind result_bind].
    rewrite IH; [done|].
    eapply Forall_impl; [exact Hall|].
    intros b. cbn [World.bodies World.with_bodies]. by rewrite lookup_alter_is_Some.
Qed.

(** ** Clearing the forces *)

(** X7: [ClearForces], when it returns, has replaced every body of the
    list of the world by the same body without force and torque; the
    other bodies, and everything else in the world, are as before. *)
Theorem ClearForces_zeroes_forces_only (w w' : World.t) :
  ClearForces w = Done w' →
  (∀ b, b ∈ World.m_bodyList w →
     World.bodies w' !! b = force_cleared <$> World.bodies w !! b)
  ∧ (∀ b, b ∉ World.m_bodyList w → World.bodies w' !! b = World.bodies w !! b)
  ∧ w' = World.with_bodies (World.bodies w') w.
Proof.
  unfold ClearForces. intros Hrun.
  apply for_each_update_body in Hrun as [_ ->].
  cbn [World.bodies World.with_bodies]. split; [|split; [|done]].
  - intros b Hb. by apply (each_body_idemp force_cleared).
  - intros b Hb. by apply each_body_notin.
Qed.

Lemma ClearForces_zeroes_forces_only_witness :
  ∃ w',
    ClearForces two_bodies = Done w'
    ∧ (∀ b, b ∈ World.m_bodyList two_bodies →
         World.bodies w' !! b = force_cleared <$> World.bodies two_bodies !! b)
    ∧ (∀ b, b ∉ World.m_bodyList two_bodies →
         World.bodies w' !! b = World.bodies two_bodies !! b)
    ∧ w' = World.with_bodies (World.bodies w') two_bodies.
Proof.
  eexists. split; [vm_compute; reflexivity|].
  apply (ClearForces_zeroes_forces_only two_bodies). vm_compute. reflexivity.
Defined.

(** ** Sleeping *)

Lemma SetAwake_true_idemp (x : Body.t) :
  Body.SetAwake true (Body.SetAwake true x) = Body.SetAwake true x.
Proof.
  pose proof (Body_SetAwake_true_awake x) as Ha.
  unfold Body.IsAwake, flag_all in Ha. apply Z.eqb_eq in Ha.
  unfold Body.SetAwake at 1. by rewrite Ha.
Qed.

(** X8: [SetAllowSleeping] with the value the world has already returns
    the world as it is. With [false] on a world that allows sleeping, when
    it returns, sleeping is off and every body of the list of the world
    has been woken by [SetAwake(true)], the other bodies being as before;
    with [true] on a world that does not allow sleeping only the setting
    changes. *)
Theorem SetAllowSleeping_wakes_when_turned_off (flag : bool) (w w' : World.t) :
  SetAllowSleeping flag w = Done w' →
  (flag = World.m_allowSleep w → w' = w)
  ∧ World.m_allowSleep w' = flag
  ∧ (flag = false → World.m_allowSleep w = true →
     (∀ b, b ∈ World.m_bodyList w →
        World.bodies w' !! b = Body.SetAwake true <$> World.bodies w !! b)
     ∧ (∀ b, b ∈ World.m_bodyList w → body_awake w' b)
     ∧ (∀ b, b ∉ World.m_bodyList w → World.bodies w' !! b = World.bodies w !! b))
  ∧ (flag = true → World.m_allowSleep w = false → w' = with_allowSleep true w).
Proof.
  unfold SetAllowSleeping. intros Hrun.
  destruct flag, (World.m_allowSleep w) eqn:Hs; cbn [Bool.eqb negb] in Hrun.
  - injection Hrun as <-. done.
  - cbn [with_allowSleep World.m_allowSleep negb] in Hrun. injection Hrun as <-. done.
  - cbn [with_allowSleep World.m_allowSleep World.m_bodyList negb] in Hrun.
    apply for_each_update_body in Hrun as [Hall ->].
    unfold with_allowSleep in *.
    cbn [World.bodies World.with_bodies World.m_allowSleep] in *.
    split; [done|]. split; [done|]. split; [|done]. intros _ _.
    assert (Hl : ∀ b, b ∈ World.m_bodyList w →
              each_body (Body.SetAwake true) (World.m_bodyList w) (World.bodies w) !! b
              = Body.SetAwake true <$> World.bodies w !! b).
    { intros b Hb. apply each_body_idemp; [apply SetAwake_true_idemp | done]. }
    split; [done|]. split.
    + intros b Hb. rewrite Forall_forall in Hall. destruct (Hall b Hb) as [x Hx].
      exists (Body.SetAwake true x).
      rewrite Hl, Hx by done. split; [done | apply Body_SetAwake_true_awake].
    + intros b Hb. by apply each_body_notin.
  - injection Hrun as <-. done.
Qed.

Lemma SetAllowSleeping_wakes_when_turned_off_witness :
  ∃ w',
    SetAllowSleeping false two_bodies = Done w'
    ∧ (false = World.m_allowSleep two_bodies → w' = two_bodies)
    ∧ World.m_allowSleep w' = false
    ∧ (false = false → World.m_allowSleep two_bodies = true →
       (∀ b, b ∈ World.m_bodyList two_bodies →
          World.bodies w' !! b = Body.SetAwake true <$> World.bodies two_bodies !! b)
       ∧ (∀ b, b ∈ World.m_bodyList two_bodies → body_awake w' b)
       ∧ (∀ b, b ∉ World.m_bodyList two_bodies →
            World.bodies w' !! b = World.bodies two_bodies !! b))
    ∧ (false = true → World.m_allowSleep two_bodies = false →
       w' = with_allowSleep true two_bodies).
Proof.
  eexists. split; [vm_compute; reflexivity|].
  apply (SetAllowSleeping_wakes_when_turned_off false two_bodies). vm_compute. reflexivity.
Defined.

(** ** Writes that keep the links of a world *)

Lemma same_keys_size {A B : Type} (f : A → B) (m m' : gmap nat A) :
  (∀ k, f <$> m' !! k = f <$> m !! k) → size m' = size m.
Proof.
  intros H. rewrite <- !size_dom. f_equal. apply set_eq. intros k.
  rewrite !elem_of_dom. specialize (H k).
  destruct (m' !! k), (m !! k); cbn in H; try done; split; intros [? ?]; done.
Qed.

Lemma same_links_refl (w : World.t) : same_links w w.
Proof. by repeat split. Qed.

Lemma same_links_trans (w1 w2 w3 : World.t) :
  same_links w1 w2 → same_links w2 w3 → same_links w1 w3.
Proof.
  intros (A1 & A2 & A3 & A4 & A5 & A6 & A7 & A8 & A9 & A10)
         (B1 & B2 & B3 & B4 & B5 & B6 & B7 & B8 & B9 & B10).
  split; [intros b; by rewrite B1|].
  split; [intros c; by rewrite B2|].
  split; [intros j; by rewrite B3|].
  repeat split; congruence.
Qed.

#[global] Instance same_links_preorder : PreOrder same_links.
Proof. split; [exact same_links_refl | exact same_links_trans]. Qed.

Lemma same_links_put_body (w : World.t) (b : nat) (x body : Body.t) :
  World.bodies w !! b = Some body → body_links x = body_links body →
  same_links w (put_body b x w).
Proof.
  intros Hb Hs. split; [|by repeat split].
  intros b'. unfold put_body. cbn [World.bodies World.with_bodies].
  destruct (decide (b = b')) as [<-|Hne].
  - rewrite lookup_insert_eq, Hb. cbn. by rewrite Hs.
  - by rewrite lookup_insert_ne.
Qed.

Lemma same_links_put_contact (w : World.t) (c : nat) (x ct : Contact.t) :
  World.contacts w !! c = Some ct → contact_links x = contact_links ct →
  same_links w (put_contact c x w).
Proof.
  intros Hc Hs. split; [done|]. split; [|by repeat split].
  intros c'. unfold put_contact. cbn [World.contacts World.with_contacts].
  destruct (decide (c = c')) as [<-|Hne].
  - rewrite lookup_insert_eq, Hc. cbn. by rewrite Hs.
  - by rewrite lookup_insert_ne.
Qed.

Lemma same_links_put_joint (w : World.t) (j : nat) (x jt : Joint.t) :
  World.joints w !! j = Some jt → joint_shape x = joint_shape jt →
  same_links w (put_joint j x w).
Proof.
  intros Hj Hs. split; [done|]. split; [done|]. split; [|by repeat split].
  intros j'. unfold put_joint. cbn [World.joints World.with_joints].
  destruct (decide (j = j')) as [<-|Hne].
  - rewrite lookup_insert_eq, Hj. cbn. by rewrite Hs.
  - by rewrite lookup_insert_ne.
Qed.

Lemma update_body_links (f : Body.t → Body.t) (b : nat) (w w' : World.t) :
  (∀ x, body_links (f x) = body_links x) →
  update_body f b w = Done w' → same_links w w'.
Proof.
  intros Hf Hu. apply update_body_Done in Hu as (x & Hx & ->).
  by apply (same_links_put_body w b (f x) x).
Qed.

Lemma update_contact_links (f : Contact.t → Contact.t) (c : nat) (w w' : World.t) :
  (∀ x, contact_links (f x) = contact_links x) →
  update_contact f c w = Done w' → same_links w w'.
Proof.
  intros Hf Hu. apply update_contact_Done in Hu as (x & Hx & ->).
  by apply (same_links_put_contact w c (f x) x).
Qed.

Lemma update_joint_links (f : Joint.t → Joint.t) (j : nat) (w w' : World.t) :
  (∀ x, joint_shape (f x) = joint_shape x) →
  update_joint f j w = Done w' → same_links w w'.
Proof.
  intros Hf Hu. apply update_joint_Done in Hu as (x & Hx & ->).
  by apply (same_links_put_joint w j (f x) x).
Qed.

Lemma same_graph_links (w w' : World.t) : same_graph w w' → same_links w w'.
Proof.
  intros (A1 & A2 & A3 & A4 & A5 & A6 & A7 & A8 & A9 & A10 & A11).
  split; [|split; [|by repeat split]].
  - intros b. specialize (A1 b).
    destruct (World.bodies w' !! b) as [x|], (World.bodies w !! b) as [y|];
      cbn in *; try done.
    injection A1 as ? ? ? ?. unfold body_links. congruence.
  - intros c. specialize (A2 c).
    destruct (World.contacts w' !! c) as [x|], (World.contacts w !! c) as [y|];
      cbn in *; try done.
    injection A2 as ? ? ? ?. unfold contact_links. congruence.
Qed.

Lemma same_links_body (w w' : World.t) (b : nat) (body' : Body.t) :
  same_links w w' → World.bodies w' !! b = Some body' →
  ∃ body, World.bodies w !! b = Some body ∧ body_links body' = body_links body.
Proof.
  intros (H1 & _) Hb. specialize (H1 b). rewrite Hb in H1.
  destruct (World.bodies w !! b) as [body|]; [|done].
  exists body. split; [done|]. cbn in H1. congruence.
Qed.

Lemma same_links_body_rev (w w' : World.t) (b : nat) (body : Body.t) :
  same_links w w' → World.bodies w !! b = Some body →
  ∃ body', World.bodies w' !! b = Some body' ∧ body_links body' = body_links body.
Proof.
  intros (H1 & _) Hb. specialize (H1 b). rewrite Hb in H1.
  destruct (World.bodies w' !! b) as [body'|]; [|done].
  exists body'. split; [done|]. cbn in H1. congruence.
Qed.

Lemma contact_edge_ok_links (w w' : World.t) (b : nat) (ce : cb2ContactEdge) :
  same_links w w' → contact_edge_ok w b ce → contact_edge_ok w' b ce.
Proof.
  intros (H1 & H2 & _ & H4 & _) [Hc Ho]. unfold contact_edge_ok. rewrite H4.
  specialize (H2 (ce_contact ce)). specialize (H1 (ce_other ce)). split.
  - destruct (World.contacts w !! ce_contact ce) as [ct|]; [|done].
    destruct (World.contacts w' !! ce_contact ce) as [ct'|]; [|done].
    cbn in H2. injection H2 as -> ->. done.
  - destruct (World.bodies w !! ce_other ce) as [o|]; [|done].
    destruct (World.bodies w' !! ce_other ce) as [o'|]; [|done].
    cbn in H1. injection H1 as -> -> _. done.
Qed.

Lemma joint_edge_ok_links (w w' : World.t) (b : nat) (je : cb2JointEdge) :
  same_links w w' → joint_edge_ok w b je → joint_edge_ok w' b je.
Proof.
  intros (H1 & _ & H3 & _) [Hj Ho]. unfold joint_edge_ok.
  specialize (H3 (je_joint je)). specialize (H1 (je_other je)). split.
  - destruct (World.joints w !! je_joint je) as [jt|]; [|done].
    destruct (World.joints w' !! je_joint je) as [jt'|]; [|done].
    cbn in H3. injection H3 as -> ->. done.
  - destruct (World.bodies w !! je_other je) as [o|]; [|done].
    destruct (World.bodies w' !! je_other je) as [o'|]; [|done].
    cbn in H1. injection H1 as _ _ ->. done.
Qed.

(** A world with the same links as a well-formed world is well formed. *)
Lemma wf_same_links (w w' : World.t) : same_links w w' → wf_kept w w'.
Proof.
  intros Hs (W1 & W2 & W3 & W4 & W5 & W6 & W7 & W8 & W9).
  pose proof Hs as (H1 & H2 & H3 & H4 & H5 & H6 & H7 & H8 & H9 & H10).
  assert (Hsome : ∀ {A B : Type} (f : A → B) (m m' : gmap nat A) k,
            f <$> m' !! k = f <$> m !! k → is_Some (m !! k) → is_Some (m' !! k)).
  { intros A B f m m' k Hk [x Hx]. rewrite Hx in Hk.
    destruct (m' !! k); [by eexists | done]. }
  split; [|split; [|split; [|split; [|split; [|split; [|split; [|split]]]]]]].
  - intros b body' Hb'.
    destruct (same_links_body _ _ _ _ Hs Hb') as (body & Hb & Hl).
    destruct (W1 b body Hb) as (Hce & Hje & Hin).
    injection Hl as _ Hcl Hjl. rewrite Hcl, Hjl, H5. split; [|split; [|done]].
    + eapply Forall_impl; [exact Hce|]. intros ce. by apply contact_edge_ok_links.
    + eapply Forall_impl; [exact Hje|]. intros je. by apply joint_edge_ok_links.
  - intros c ct' Hc'. rewrite H6. specialize (H2 c). rewrite Hc' in H2.
    destruct (World.contacts w !! c) as [ct|] eqn:Hc; [|done]. by apply (W2 c ct).
  - intros j jt' Hj'. rewrite H7. specialize (H3 j). rewrite Hj' in H3.
    destruct (World.joints w !! j) as [jt|] eqn:Hj; [|done]. by apply (W3 j jt).
  - rewrite H5. eapply Forall_impl; [exact W4|]. intros b. by apply (Hsome _ _ body_links).
  - rewrite H6. eapply Forall_impl; [exact W5|]. intros c. by apply (Hsome _ _ contact_links).
  - rewrite H7. eapply Forall_impl; [exact W6|]. intros j. by apply (Hsome _ _ joint_shape).
  - rewrite H8, W7. f_equal. symmetry. by apply (same_keys_size body_links).
  - rewrite H9, W8. f_equal. symmetry. by apply (same_keys_size contact_links).
  - rewrite H10, W9. f_equal. symmetry. by apply (same_keys_size joint_shape).
Qed.

#[global] Instance wf_kept_preorder : PreOrder wf_kept.
Proof.
  split.
  - intros w H. exact H.
  - intros w1 w2 w3 H12 H23 H. apply H23, H12, H.
Qed.

(** ** Edges that stay in order when the world changes around them *)

Lemma wf_world_alt (w : World.t) :
  wf_world w ↔
  (∀ b body, World.bodies w !! b = Some body →
     (∀ ce, ce ∈ Body.m_contactList body → contact_edge_ok w b ce)
     ∧ (∀ je, je ∈ Body.m_jointList body → joint_edge_ok w b je)
     ∧ b ∈ World.m_bodyList w)
  ∧ (∀ c, is_Some (World.contacts w !! c) → c ∈ World.m_contactList w)
  ∧ (∀ j, is_Some (World.joints w !! j) → j ∈ World.m_jointList w)
  ∧ (∀ b, b ∈ World.m_bodyList w → is_Some (World.bodies w !! b))
  ∧ (∀ c, c ∈ World.m_contactList w → is_Some (World.contacts w !! c))
  ∧ (∀ j, j ∈ World.m_jointList w → is_Some (World.joints w !! j))
  ∧ World.m_bodyCount w = Z.of_nat (size (World.bodies w))
  ∧ World.m_contactCount w = Z.of_nat (size (World.contacts w))
  ∧ World.m_jointCount w = Z.of_nat (size (World.joints w)).
Proof.
  unfold wf_world, map_Forall. rewrite !Forall_forall.
  split; intros (W1 & W2 & W3 & W4 & W5 & W6 & W7 & W8 & W9);
    (split; [|split; [|split; [|split; [|split; [|split; [|split; [|split]]]]]]]);
    try done.
  - intros k body Hk. destruct (W1 k body Hk) as (Hce & Hje & Hin).
    rewrite !Forall_forall in *. done.
  - intros c [ct Hc]. by apply (W2 c ct).
  - intros j [jt Hj]. by apply (W3 j jt).
  - intros k body Hk. destruct (W1 k body Hk) as (Hce & Hje & Hin).
    rewrite !Forall_forall. done.
  - intros c ct Hc. apply W2. by eexists.
  - intros j jt Hj. apply W3. by eexists.
Qed.

Lemma contact_edge_ok_mono (w w' : World.t) (b : nat) (ce : cb2ContactEdge) :
  (∀ ct, World.contacts w !! ce_contact ce = Some ct →
     ∃ ct', World.contacts w' !! ce_contact ce = Some ct'
            ∧ contact_links ct' = contact_links ct) →
  (∀ f fx, World.fixtures w !! f = Some fx → World.fixtures w' !! f = Some fx) →
  (∀ body, World.bodies w !! ce_other ce = Some body →
     mkContactEdge b (ce_contact ce) ∈ Body.m_contactList body →
     ∃ body', World.bodies w' !! ce_other ce = Some body'
              ∧ mkContactEdge b (ce_contact ce) ∈ Body.m_contactList body'
              ∧ Body.IsActive body' = Body.IsActive body) →
  contact_edge_ok w b ce → contact_edge_ok w' b ce.
Proof.
  intros Hc Hf Ho [H1 H2]. unfold contact_edge_ok. split.
  - destruct (World.contacts w !! ce_contact ce) as [ct|]; [|done].
    destruct (Hc ct eq_refl) as (ct' & -> & Hl). injection Hl as -> ->.
    destruct (World.fixtures w !! Contact.m_fixtureA ct) as [fA|] eqn:HfA; [|done].
    destruct (World.fixtures w !! Contact.m_fixtureB ct) as [fB|] eqn:HfB; [|done].
    by rewrite (Hf _ _ HfA), (Hf _ _ HfB).
  - destruct (World.bodies w !! ce_other ce) as [o|]; [|done].
    destruct H2 as [Hin Hact].
    destruct (Ho o eq_refl Hin) as (o' & -> & Hin' & Hact'). split; [done | congruence].
Qed.

Lemma joint_edge_ok_mono (w w' : World.t) (b : nat) (je : cb2JointEdge) :
  (∀ jt, World.joints w !! je_joint je = Some jt →
     ∃ jt', World.joints w' !! je_joint je = Some jt' ∧ joint_shape jt' = joint_shape jt) →
  (∀ body, World.bodies w !! je_other je = Some body →
     mkJointEdge b (je_joint je) ∈ Body.m_jointList body →
     ∃ body', World.bodies w' !! je_other je = Some body'
              ∧ mkJointEdge b (je_joint je) ∈ Body.m_jointList body') →
  joint_edge_ok w b je → joint_edge_ok w' b je.
Proof.
  intros Hj Ho [H1 H2]. unfold joint_edge_ok. split.
  - destruct (World.joints w !! je_joint je) as [jt|]; [|done].
    destruct (Hj jt eq_refl) as (jt' & -> & Hl). injection Hl as -> ->. done.
  - destruct (World.bodies w !! je_other je) as [o|]; [|done].
    destruct (Ho o eq_refl H2) as (o' & -> & Hin'). done.
Qed.

Lemma contact_edge_ok_contact (w : World.t) (b : nat) (ce : cb2ContactEdge) :
  contact_edge_ok w b ce → is_Some (World.contacts w !! ce_contact ce).
Proof.
  intros [H _]. destruct (World.contacts w !! ce_contact ce); [by eexists | done].
Qed.

Lemma contact_edge_ok_other (w : World.t) (b : nat) (ce : cb2ContactEdge) :
  contact_edge_ok w b ce → is_Some (World.bodies w !! ce_other ce).
Proof.
  intros [_ H]. destruct (World.bodies w !! ce_other ce); [by eexists | done].
Qed.

Lemma joint_edge_ok_joint (w : World.t) (b : nat) (je : cb2JointEdge) :
  joint_edge_ok w b je →
  ∃ jt, World.joints w !! je_joint je = Some jt
        ∧ ((b = Joint.m_bodyA jt ∧ je_other je = Joint.m_bodyB jt)
           ∨ (b = Joint.m_bodyB jt ∧ je_other je = Joint.m_bodyA jt)).
Proof.
  intros [H _]. destruct (World.joints w !! je_joint je) as [jt|]; [by exists jt | done].
Qed.

Lemma joint_edge_ok_other (w : World.t) (b : nat) (je : cb2JointEdge) :
  joint_edge_ok w b je → is_Some (World.bodies w !! je_other je).
Proof.
  intros [_ H]. destruct (World.bodies w !! je_other je); [by eexists | done].
Qed.

(** ** Creating and destroying a body *)

Lemma unlink_notin (x : nat) (l : list nat) : x ∉ l → unlink x l = l.
Proof.
  intros Hx. unfold unlink. induction l as [|y l IH]; [done|].
  apply not_elem_of_cons in Hx as [Hne Hx].
  rewrite filter_cons_True by done. by rewrite IH.
Qed.

Lemma unlink_head (x : nat) (l : list nat) : x ∉ l → unlink x (x :: l) = l.
Proof.
  intros Hx. unfold unlink. rewrite filter_cons_False by (intros H; by apply H).
  by apply unlink_notin.
Qed.

Lemma not_locked_bit (w : World.t) :
  World.IsLocked w = false → Z.land (World.m_flags w) World.e_locked = 0.
Proof.
  unfold World.IsLocked, flag_all. intros Hl.
  change World.e_locked with (2 ^ 1) in *. rewrite land_pow2 in * by done.
  by destruct (Z.testbit (World.m_flags w) 1).
Qed.

Section Lifecycle.
Context {env : Collaborators}.
Variable bm : build.

Lemma CreateBody_unlocked (def : cb2BodyDef) (w : World.t) :
  World.IsLocked w = false →
  CreateBody bm def w
  = Done (World.with_bodyList (fresh (dom (World.bodies w)) :: World.m_bodyList w)
            (World.m_bodyCount w + 1)
            (World.with_bodies
               (<[fresh (dom (World.bodies w)) := cb2Body_new def]> (World.bodies w)) w),
          Some (fresh (dom (World.bodies w)))).
Proof. intros Hl. unfold CreateBody. rewrite Hl. by destruct bm. Qed.

(** X10: on a world that is not locked, [CreateBody] returns a handle that
    names no body of the world so far; the new body is the one its
    constructor builds, it is the head of the list of bodies, and the
    bodies the world had are untouched. When the world lists bodies it
    holds, and the constructor builds a body in no joint, no contact and
    with no fixture, [DestroyBody] on the new handle then returns the world
    as it was before the body was created. *)
Theorem DestroyBody_undoes_CreateBody (def : cb2BodyDef) (w : World.t) :
  World.IsLocked w = false →
  0 <= World.m_bodyCount w →
  Forall (λ b, is_Some (World.bodies w !! b)) (World.m_bodyList w) →
  unattached (cb2Body_new def) →
  ∃ b w',
    CreateBody bm def w = Done (w', Some b)
    ∧ World.bodies w !! b = None
    ∧ World.bodies w' !! b = Some (cb2Body_new def)
    ∧ (∀ b', b' ≠ b → World.bodies w' !! b' = World.bodies w !! b')
    ∧ World.m_bodyList w' = b :: World.m_bodyList w
    ∧ World.m_bodyCount w' = World.m_bodyCount w + 1
    ∧ DestroyBody bm b w' = Done w.
Proof.
  intros Hl Hcount Hlist (Hj & Hc & Hf).
  set (b := fresh (dom (World.bodies w))).
  assert (Hfresh : World.bodies w !! b = None).
  { apply not_elem_of_dom. apply is_fresh. }
  assert (Hnotin : b ∉ World.m_bodyList w).
  { intros Hin. rewrite Forall_forall in Hlist. destruct (Hlist b Hin) as [x Hx].
    congruence. }
  eexists b, _. split; [by apply CreateBody_unlocked|].
  cbn [World.bodies World.with_bodies World.with_bodyList World.m_bodyList World.m_bodyCount].
  split; [done|]. split; [apply lookup_insert_eq|].
  split; [intros b' Hne; by apply lookup_insert_ne|].
  split; [done|]. split; [done|].
  unfold DestroyBody.
  assert (Hl' : ∀ l n m, World.IsLocked (World.with_bodyList l n (World.with_bodies m w)) = false)
    by done.
  rewrite Hl'. cbn [World.m_bodyCount World.with_bodyList negb].
  assert (Hpos : 0 <? World.m_bodyCount w + 1 = true) by (apply Z.ltb_lt; lia).
  rewrite Hpos.
  replace (cb2Assert bm true) with (Done ()) by (by destruct bm).
  cbn [mbind result_bind]. unfold get_body at 1.
  cbn [World.bodies World.with_bodies World.with_bodyList]. unfold deref at 1.
  rewrite lookup_insert_eq. cbn [mbind result_bind]. rewrite Hj, Hc, Hf. cbn [for_each].
  cbn [mbind result_bind].
  erewrite update_body_lookup by apply lookup_insert_eq. cbn [mbind result_bind].
  erewrite update_body_lookup by apply lookup_insert_eq. cbn [mbind result_bind].
  erewrite update_body_lookup by apply lookup_insert_eq. cbn [mbind result_bind].
  f_equal. unfold put_body.
  cbn [World.bodies World.with_bodies World.with_bodyList World.m_bodyList World.m_bodyCount].
  rewrite !delete_insert_eq, delete_id by done.
  fold b. rewrite unlink_head by done.
  replace (World.m_bodyCount w + 1 - 1) with (World.m_bodyCount w) by lia.
  clearbody b. by destruct w.
Qed.

End Lifecycle.

Lemma DestroyBody_undoes_CreateBody_witness :
  ∃ b w',
    CreateBody (env := still_collaborators) Debug (sample_body cb2_dynamicBody awake_active [] [] [])
      two_bodies = Done (w', Some b)
    ∧ World.bodies two_bodies !! b = None
    ∧ World.bodies w' !! b = Some (sample_body cb2_dynamicBody awake_active [] [] [])
    ∧ (∀ b', b' ≠ b → World.bodies w' !! b' = World.bodies two_bodies !! b')
    ∧ World.m_bodyList w' = b :: World.m_bodyList two_bodies
    ∧ World.m_bodyCount w' = World.m_bodyCount two_bodies + 1
    ∧ DestroyBody Debug b w' = Done two_bodies.
Proof.
  apply (DestroyBody_undoes_CreateBody (env := still_collaborators) Debug
           (sample_body cb2_dynamicBody awake_active [] [] []) two_bodies).
  - reflexivity.
  - cbn. lia.
  - cbn. repeat constructor; by eexists.
  - by repeat split.
Defined.

(** ** The links of the world across the creation of a body or a joint *)

Section Links.
Context {env : Collaborators}.
Variable bm : build.

Lemma CreateBody_wf (def : cb2BodyDef) (w : World.t) :
  wf_world w → unattached (cb2Body_new def) →
  wf_world (World.with_bodyList (fresh (dom (World.bodies w)) :: World.m_bodyList w)
              (World.m_bodyCount w + 1)
              (World.with_bodies
                 (<[fresh (dom (World.bodies w)) := cb2Body_new def]> (World.bodies w)) w)).
Proof.
  intros Hwf (Hj & Hc & _).
  set (b := fresh (dom (World.bodies w))).
  assert (Hfresh : World.bodies w !! b = None).
  { apply not_elem_of_dom. apply is_fresh. }
  clearbody b.
  apply wf_world_alt in Hwf as (W1 & W2 & W3 & W4 & W5 & W6 & W7 & W8 & W9).
  apply wf_world_alt.
  cbn [World.bodies World.contacts World.joints World.fixtures World.m_bodyList
       World.m_contactList World.m_jointList World.m_bodyCount World.m_contactCount
       World.m_jointCount World.with_bodies World.with_bodyList].
  split; [|split; [|split; [|split; [|split; [|split; [|split; [|split]]]]]]]; try done.
  - intros k body Hk. apply lookup_insert_Some in Hk as [[<- <-]|[Hne Hk]].
    + rewrite Hj, Hc. split; [|split; [|by left]]; intros e He; by apply elem_of_nil in He.
    + destruct (W1 k body Hk) as (Hce & Hje & Hin).
      split; [|split; [|by right]].
      * intros ce Hce'. apply (contact_edge_ok_mono w); [by eauto | done | | by apply Hce].
        intros o Ho Hback. exists o. split; [|done].
        cbn [World.bodies World.with_bodies World.with_bodyList].
        rewrite lookup_insert_ne; [done|]. intros Heq. rewrite Heq in Hfresh. congruence.
      * intros je Hje'. apply (joint_edge_ok_mono w); [by eauto | | by apply Hje].
        intros o Ho Hback. exists o. split; [|done].
        cbn [World.bodies World.with_bodies World.with_bodyList].
        rewrite lookup_insert_ne; [done|]. intros Heq. rewrite Heq in Hfresh. congruence.
  - intros k Hk. apply elem_of_cons in Hk as [->|Hk].
    + rewrite lookup_insert_eq. by eexists.
    + apply W4 in Hk as [x Hx]. exists x. rewrite lookup_insert_ne; [done|].
      intros <-. congruence.
  - rewrite map_size_insert_None by done. lia.
Qed.

(** X11: [CreateBody] keeps a world well formed, provided that the
    constructor of bodies builds a body in no joint and no contact: the
    edges of every body still name contacts and joints of the world that
    lead to the body at the other end and back, the lists still hold the
    objects of the world, and the counts are still their numbers. *)
Theorem CreateBody_keeps_the_world_well_formed
    (def : cb2BodyDef) (w w' : World.t) (r : option nat) :
  wf_world w → unattached (cb2Body_new def) →
  CreateBody bm def w = Done (w', r) →
  wf_world w'.
Proof.
  intros Hwf Hnew Hrun.
  destruct (World.IsLocked w) eqn:Hl.
  - unfold CreateBody in Hrun. rewrite Hl in Hrun.
    destruct bm; cbn in Hrun; [done|]. by injection Hrun as <- _.
  - rewrite CreateBody_unlocked in Hrun by done. injection Hrun as <- _.
    by apply CreateBody_wf.
Qed.

End Links.

Lemma CreateBody_keeps_the_world_well_formed_witness :
  ∃ w' r,
    CreateBody (env := still_collaborators) Debug
      (sample_body cb2_dynamicBody awake_active [] [] []) chain_world = Done (w', r)
    ∧ wf_world w'.
Proof.
  eexists _, _. split; [vm_compute; reflexivity|].
  eapply (CreateBody_keeps_the_world_well_formed (env := still_collaborators) Debug
            (sample_body cb2_dynamicBody awake_active [] [] []) chain_world).
  - apply (bool_decide_unpack _). vm_compute. exact I.
  - by repeat split.
  - vm_compute. reflexivity.
Defined.

(** ** Creating and destroying a joint *)

Section Joints.
Context {env : Collaborators}.
Variable bm : build.

(** Flagging the contacts between two bodies writes flags of contacts only. *)
Lemma flag_contacts_for_filtering_frame (bA bB : nat) (w w' : World.t) :
  flag_contacts_for_filtering bA bB w = Done w' →
  same_links w w'
  ∧ w' = World.with_contacts (World.contacts w') w.
Proof.
  unfold flag_contacts_for_filtering. intros Hf.
  apply bind_Done in Hf as (body & _ & Hloop). revert Hloop.
  apply (for_each_Done_ind
           (λ s s', same_links s s' ∧ s' = World.with_contacts (World.contacts s') s)).
  - intros s. split; [reflexivity | by destruct s].
  - intros s1 s2 s3 [H12 E12] [H23 E23]. split; [by etransitivity|].
    rewrite E23 at 1. rewrite E12 at 1. by destruct s1.
  - intros edge s1 s2 _ Hstep. case_decide.
    + split; [by apply update_contact_links in Hstep|].
      apply update_contact_Done in Hstep as (x & _ & ->). by destruct s1.
    + injection Hstep as <-. split; [reflexivity | by destruct s1].
Qed.

Lemma flag_contacts_for_filtering_Done (bA bB : nat) (w : World.t) :
  wf_world w → is_Some (World.bodies w !! bB) →
  ∃ w', flag_contacts_for_filtering bA bB w = Done w'.
Proof.
  intros Hwf [body Hb]. unfold flag_contacts_for_filtering, get_body, deref.
  rewrite Hb. cbn [mbind result_bind].
  apply wf_world_alt in Hwf as (W1 & _).
  destruct (W1 bB body Hb) as (Hce & _ & _).
  assert (Hall : ∀ e, e ∈ Body.m_contactList body →
            is_Some (World.contacts w !! ce_contact e)).
  { intros e He. by apply (contact_edge_ok_contact w bB), Hce. }
  clear Hce Hb W1. revert w Hall.
  induction (Body.m_contactList body) as [|e l IH]; intros w Hall; cbn [for_each].
  - by eexists.
  - case_decide.
    + destruct (Hall e) as [ct Hct]; [by left|].
      rewrite (update_contact_lookup _ _ _ _ Hct). cbn [mbind result_bind].
      apply IH. intros e' He'. unfold put_contact. cbn [World.contacts World.with_contacts].
      apply lookup_insert_is_Some'. right. apply Hall. by right.
    + cbn [mbind result_bind]. apply IH. intros e' He'. apply Hall. by right.
Qed.

(** The bodies after the two edges of a new joint have been added. *)
Lemma linked_lookup (A B j k : nat) (m : gmap nat Body.t) (body' : Body.t) :
  alter (with_joint_edge A j) B (alter (with_joint_edge B j) A m) !! k = Some body' →
  ∃ body, m !! k = Some body
          ∧ Body.m_contactList body' = Body.m_contactList body
          ∧ Body.IsActive body' = Body.IsActive body
          ∧ (∀ e, e ∈ Body.m_jointList body' ↔
                  (k = B ∧ e = mkJointEdge A j) ∨ (k = A ∧ e = mkJointEdge B j)
                  ∨ e ∈ Body.m_jointList body).
Proof.
  intros Hk. destruct (decide (B = k)) as [<-|HB].
  - rewrite lookup_alter_eq in Hk. destruct (decide (A = B)) as [->|HA].
    + rewrite lookup_alter_eq in Hk.
      destruct (m !! B) as [body|]; [|done]. injection Hk as <-.
      exists body. repeat (split; [done|]). intros e. cbn [with_joint_edge Body.m_jointList
        Body.with_jointList]. rewrite !elem_of_cons. naive_solver.
    + rewrite lookup_alter_ne in Hk by done.
      destruct (m !! B) as [body|]; [|done]. injection Hk as <-.
      exists body. repeat (split; [done|]). intros e. cbn [with_joint_edge Body.m_jointList
        Body.with_jointList]. rewrite !elem_of_cons. naive_solver.
  - rewrite lookup_alter_ne in Hk by done. destruct (decide (A = k)) as [<-|HA].
    + rewrite lookup_alter_eq in Hk.
      destruct (m !! A) as [body|]; [|done]. injection Hk as <-.
      exists body. repeat (split; [done|]). intros e. cbn [with_joint_edge Body.m_jointList
        Body.with_jointList]. rewrite !elem_of_cons. naive_solver.
    + rewrite lookup_alter_ne in Hk by done.
      exists body'. repeat (split; [done|]). intros e. naive_solver.
Qed.

Lemma linked_lookup_rev (A B j k : nat) (m : gmap nat Body.t) (body : Body.t) :
  m !! k = Some body →
  ∃ body', alter (with_joint_edge A j) B (alter (with_joint_edge B j) A m) !! k = Some body'.
Proof.
  intros Hk. apply lookup_alter_is_Some, lookup_alter_is_Some. by eexists.
Qed.

Lemma link_joint_wf (j : nat) (jt : Joint.t) (w : World.t) :
  wf_world w → World.joints w !! j = None →
  is_Some (World.bodies w !! Joint.m_bodyA jt) →
  is_Some (World.bodies w !! Joint.m_bodyB jt) →
  wf_world
    (World.with_bodies
       (alter (with_joint_edge (Joint.m_bodyA jt) j) (Joint.m_bodyB jt)
          (alter (with_joint_edge (Joint.m_bodyB jt) j) (Joint.m_bodyA jt) (World.bodies w)))
       (World.with_jointList (j :: World.m_jointList w) (World.m_jointCount w + 1)
          (World.with_joints (<[j := jt]> (World.joints w)) w))).
Proof.
  intros Hwf Hfresh HA HB.
  set (A := Joint.m_bodyA jt) in *. set (B := Joint.m_bodyB jt) in *.
  apply wf_world_alt in Hwf as (W1 & W2 & W3 & W4 & W5 & W6 & W7 & W8 & W9).
  apply wf_world_alt.
  set (m' := alter _ B _).
  cbn [World.bodies World.contacts World.joints World.fixtures World.m_bodyList
       World.m_contactList World.m_jointList World.m_bodyCount World.m_contactCount
       World.m_jointCount World.with_bodies World.with_jointList World.with_joints].
  assert (Hsome : ∀ k, is_Some (m' !! k) ↔ is_Some (World.bodies w !! k)).
  { intros k. unfold m'. by rewrite !lookup_alter_is_Some. }
  assert (Hold : ∀ k body e, World.bodies w !! k = Some body → e ∈ Body.m_jointList body →
            ∃ body', m' !! k = Some body' ∧ e ∈ Body.m_jointList body').
  { intros k body e Hk He. destruct (proj2 (Hsome k)) as [body' Hk']; [by eexists|].
    exists body'. split; [done|].
    destruct (linked_lookup _ _ _ _ _ _ Hk') as (body0 & Hk0 & _ & _ & Hin).
    apply Hin. right. right. congruence. }
  split; [|split; [|split; [|split; [|split; [|split; [|split; [|split]]]]]]]; try done.
  - intros k body' Hk'.
    destruct (linked_lookup _ _ _ _ _ _ Hk') as (body & Hk & Hcl & Hact & Hjl).
    destruct (W1 k body Hk) as (Hce & Hje & Hin).
    split; [|split; [|done]].
    + intros ce Hce'. rewrite Hcl in Hce'.
      apply (contact_edge_ok_mono w); [by eauto | done | | by apply Hce].
      intros o Ho Hback. cbn [World.bodies World.with_bodies].
      destruct (proj2 (Hsome (ce_other ce))) as [o' Ho']; [by eexists|].
      destruct (linked_lookup _ _ _ _ _ _ Ho') as (o0 & Ho0 & Hcl0 & Hact0 & _).
      exists o'. split; [done|]. assert (o0 = o) as -> by congruence.
      by rewrite Hcl0, Hact0.
    + intros je Hje'. apply Hjl in Hje' as [[-> ->]|[[-> ->]|Hje']].
      * unfold joint_edge_ok. cbn [je_joint je_other World.joints World.with_joints
          World.with_jointList World.bodies World.with_bodies].
        rewrite lookup_insert_eq. split; [by right|].
        destruct (proj2 (Hsome A)) as [a Ha]; [done|]. rewrite Ha.
        destruct (linked_lookup _ _ _ _ _ _ Ha) as (a0 & _ & _ & _ & Hin0).
        apply Hin0. right. left. done.
      * unfold joint_edge_ok. cbn [je_joint je_other World.joints World.with_joints
          World.with_jointList World.bodies World.with_bodies].
        rewrite lookup_insert_eq. split; [by left|].
        destruct (proj2 (Hsome B)) as [b Hb]; [done|]. rewrite Hb.
        destruct (linked_lookup _ _ _ _ _ _ Hb) as (b0 & _ & _ & _ & Hin0).
        apply Hin0. left. done.
      * apply (joint_edge_ok_mono w); [| | by apply Hje].
        -- intros jt0 Hjt0. exists jt0. split; [|done].
           cbn [World.joints World.with_joints World.with_jointList World.with_bodies].
           rewrite lookup_insert_ne; [done|]. intros Heq. rewrite Heq in Hfresh. congruence.
        -- intros o Ho Hback. cbn [World.bodies World.with_bodies]. by eapply Hold.
  - intros k [x Hx]. apply lookup_insert_Some in Hx as [[<- _]|[Hne Hx]]; [by left|].
    right. apply W3. by eexists.
  - intros k Hk. apply Hsome. by apply W4.
  - intros k Hk. apply elem_of_cons in Hk as [->|Hk].
    + rewrite lookup_insert_eq. by eexists.
    + apply lookup_insert_is_Some'. right. by apply W6.
  - rewrite W7. f_equal. unfold m'. rewrite <- !size_dom, !dom_alter_L. done.
  - rewrite map_size_insert_None by done. lia.
Qed.

Lemma same_links_alter_body (f : Body.t → Body.t) (b : nat) (w : World.t) :
  (∀ x, body_links (f x) = body_links x) →
  same_links w (World.with_bodies (alter f b (World.bodies w)) w).
Proof.
  intros Hf. split; [|by repeat split].
  intros k. cbn [World.bodies World.with_bodies]. rewrite lookup_alter.
  case_decide as Hk; [subst k|done].
  destruct (World.bodies w !! b); cbn; [by rewrite Hf | done].
Qed.

Lemma body_links_SetAwake (flag : bool) (x : Body.t) :
  body_links (Body.SetAwake flag x) = body_links x.
Proof.
  pose proof (Body_shape_SetAwake flag x) as H. unfold body_shape in H.
  injection H as _ H1 H2 H3. unfold body_links. congruence.
Qed.

Lemma unlinked_lookup (A B j k : nat) (m : gmap nat Body.t) (body' : Body.t) :
  alter (without_joint j) B (alter (without_joint j) A m) !! k = Some body' →
  ∃ body, m !! k = Some body
          ∧ Body.m_contactList body' = Body.m_contactList body
          ∧ Body.IsActive body' = Body.IsActive body
          ∧ (∀ e, e ∈ Body.m_jointList body' ↔
                  e ∈ Body.m_jointList body ∧ (k = A ∨ k = B → je_joint e ≠ j)).
Proof.
  intros Hk. destruct (decide (B = k)) as [<-|HB].
  - rewrite lookup_alter_eq in Hk. destruct (decide (A = B)) as [->|HA].
    + rewrite lookup_alter_eq in Hk.
      destruct (m !! B) as [body|]; [|done]. injection Hk as <-.
      exists body. repeat (split; [done|]). intros e.
      cbn [without_joint Body.m_jointList Body.with_jointList]. unfold unlink_joint_edge.
      rewrite !list_elem_of_filter. tauto.
    + rewrite lookup_alter_ne in Hk by done.
      destruct (m !! B) as [body|]; [|done]. injection Hk as <-.
      exists body. repeat (split; [done|]). intros e.
      cbn [without_joint Body.m_jointList Body.with_jointList]. unfold unlink_joint_edge.
      rewrite !list_elem_of_filter. tauto.
  - rewrite lookup_alter_ne in Hk by done. destruct (decide (A = k)) as [<-|HA].
    + rewrite lookup_alter_eq in Hk.
      destruct (m !! A) as [body|]; [|done]. injection Hk as <-.
      exists body. repeat (split; [done|]). intros e.
      cbn [without_joint Body.m_jointList Body.with_jointList]. unfold unlink_joint_edge.
      rewrite !list_elem_of_filter. tauto.
    + rewrite lookup_alter_ne in Hk by done.
      exists body'. repeat (split; [done|]). intros e. split; [|tauto].
      intros He. split; [done|]. intros [?|?]; congruence.
Qed.

(** The world after the edges of joint [j], and the joint, are gone. *)
Lemma unlinked_joint_wf (j : nat) (jt : Joint.t) (w w' : World.t) :
  wf_world w → World.joints w !! j = Some jt →
  World.bodies w'
  = alter (without_joint j) (Joint.m_bodyB jt)
      (alter (without_joint j) (Joint.m_bodyA jt) (World.bodies w)) →
  World.joints w' = delete j (World.joints w) →
  World.m_jointList w' = unlink j (World.m_jointList w) →
  World.m_jointCount w' = World.m_jointCount w - 1 →
  World.contacts w' = World.contacts w →
  World.fixtures w' = World.fixtures w →
  World.m_bodyList w' = World.m_bodyList w →
  World.m_contactList w' = World.m_contactList w →
  World.m_bodyCount w' = World.m_bodyCount w →
  World.m_contactCount w' = World.m_contactCount w →
  wf_world w'.
Proof.
  intros Hwf Hj Eb Ej Ejl Ejc Ec Ef Ebl Ecl Ebc Ecc.
  set (A := Joint.m_bodyA jt) in *. set (B := Joint.m_bodyB jt) in *.
  apply wf_world_alt in Hwf as (W1 & W2 & W3 & W4 & W5 & W6 & W7 & W8 & W9).
  apply wf_world_alt. rewrite Eb, Ej, Ejl, Ejc, Ec, Ebl, Ecl, Ebc, Ecc.
  set (m' := alter _ B _).
  assert (Hsome : ∀ k, is_Some (m' !! k) ↔ is_Some (World.bodies w !! k)).
  { intros k. unfold m'. by rewrite !lookup_alter_is_Some. }
  assert (Hlook : ∀ k body', m' !! k = Some body' →
            ∃ body, World.bodies w !! k = Some body
                    ∧ Body.m_contactList body' = Body.m_contactList body
                    ∧ Body.IsActive body' = Body.IsActive body
                    ∧ (∀ e, e ∈ Body.m_jointList body' ↔
                            e ∈ Body.m_jointList body ∧ je_joint e ≠ j)).
  { intros k body' Hk.
    destruct (unlinked_lookup _ _ _ _ _ _ Hk) as (body & Hb & Hcl & Hact & Hjl).
    exists body. repeat (split; [done|]). intros e. rewrite Hjl.
    split; [|tauto]. intros [He Hne]. split; [done|].
    intros Hej. destruct (W1 k body Hb) as (_ & Hje & _).
    destruct (joint_edge_ok_joint _ _ _ (Hje e He)) as (jt0 & Hjt0 & Hends).
    rewrite Hej, Hj in Hjt0. injection Hjt0 as <-. tauto. }
  split; [|split; [|split; [|split; [|split; [|split; [|split; [|split]]]]]]]; try done.
  - intros k body' Hk'.
    destruct (Hlook k body' Hk') as (body & Hk & Hcl & Hact & Hjl).
    destruct (W1 k body Hk) as (Hce & Hje & Hin).
    split; [|split; [|done]].
    + intros ce Hce'. rewrite Hcl in Hce'.
      apply (contact_edge_ok_mono w); [ | by rewrite Ef | | by apply Hce].
      * intros ct Hct. rewrite Ec. by eauto.
      * intros o Ho Hback. rewrite Eb. fold m'.
        destruct (proj2 (Hsome (ce_other ce))) as [o' Ho']; [by eexists|].
        destruct (Hlook _ _ Ho') as (o0 & Ho0 & Hcl0 & Hact0 & _).
        exists o'. split; [done|]. assert (o0 = o) as -> by congruence.
        by rewrite Hcl0, Hact0.
    + intros je Hje'. apply Hjl in Hje' as [Hje' Hne].
      apply (joint_edge_ok_mono w); [| | by apply Hje].
      * intros jt0 Hjt0. exists jt0. split; [|done].
        rewrite Ej. by rewrite lookup_delete_ne.
      * intros o Ho Hback. rewrite Eb. fold m'.
        destruct (proj2 (Hsome (je_other je))) as [o' Ho']; [by eexists|].
        destruct (Hlook _ _ Ho') as (o0 & Ho0 & _ & _ & Hjl0).
        exists o'. split; [done|]. apply Hjl0. split; [congruence | done].
  - intros k Hk. apply lookup_delete_is_Some in Hk as [Hne Hk].
    unfold unlink. apply list_elem_of_filter. split; [done|]. by apply W3.
  - intros k Hk. apply Hsome. by apply W4.
  - intros k Hk. unfold unlink in Hk. apply list_elem_of_filter in Hk as [Hne Hk].
    apply lookup_delete_is_Some. split; [done|]. by apply W6.
  - rewrite W7. f_equal. unfold m'. rewrite <- !size_dom, !dom_alter_L. done.
  - rewrite map_size_delete_Some by (by eexists).
    assert (size (World.joints w) ≠ 0%nat).
    { apply map_size_ne_0_lookup. by exists j, jt. }
    lia.
Qed.

(** The world after [DestroyJoint] has unlinked the joint, before the
    contacts between the two bodies are flagged. *)
Lemma DestroyJoint_run (j : nat) (jt : Joint.t) (w : World.t) :
  World.IsLocked w = false →
  World.joints w !! j = Some jt →
  is_Some (World.bodies w !! Joint.m_bodyA jt) →
  is_Some (World.bodies w !! Joint.m_bodyB jt) →
  0 < World.m_jointCount w →
  DestroyJoint bm j w
  = if negb (Joint.m_collideConnected jt)
    then flag_contacts_for_filtering (Joint.m_bodyA jt) (Joint.m_bodyB jt)
           (World.with_jointList (unlink j (World.m_jointList w)) (World.m_jointCount w - 1)
              (World.with_joints (delete j (World.joints w))
                 (World.with_bodies
                    (alter (without_joint j) (Joint.m_bodyB jt)
                       (alter (without_joint j) (Joint.m_bodyA jt)
                          (alter (Body.SetAwake true) (Joint.m_bodyB jt)
                             (alter (Body.SetAwake true) (Joint.m_bodyA jt)
                                (World.bodies w)))))
                    w)))
    else Done
           (World.with_jointList (unlink j (World.m_jointList w)) (World.m_jointCount w - 1)
              (World.with_joints (delete j (World.joints w))
                 (World.with_bodies
                    (alter (without_joint j) (Joint.m_bodyB jt)
                       (alter (without_joint j) (Joint.m_bodyA jt)
                          (alter (Body.SetAwake true) (Joint.m_bodyB jt)
                             (alter (Body.SetAwake true) (Joint.m_bodyA jt)
                                (World.bodies w)))))
                    w))).
Proof.
  intros Hl Hj HA HB Hcount. unfold DestroyJoint. rewrite Hl.
  replace (cb2Assert bm (negb false)) with (Done ()) by (by destruct bm).
  cbn [mbind result_bind]. unfold get_joint, deref. rewrite Hj. cbn [mbind result_bind].
  rewrite update_body_alter_Done by done. cbn [mbind result_bind].
  rewrite update_body_alter_Done
    by (cbn [World.bodies World.with_bodies World.with_jointList];
        by rewrite lookup_alter_is_Some).
  cbn [mbind result_bind].
  rewrite update_body_alter_Done
    by (cbn [World.bodies World.with_bodies World.with_jointList];
        by rewrite !lookup_alter_is_Some).
  cbn [mbind result_bind].
  rewrite update_body_alter_Done
    by (cbn [World.bodies World.with_bodies World.with_jointList];
        by rewrite !lookup_alter_is_Some).
  cbn [mbind result_bind].
  cbn [World.m_jointCount World.with_jointList World.with_bodies World.with_joints].
  assert (Hpos : 0 <? World.m_jointCount w = true) by (by apply Z.ltb_lt).
  rewrite Hpos. replace (cb2Assert bm true) with (Done ()) by (by destruct bm).
  cbn [mbind result_bind].
  assert (Heq : ∀ (P : World.t → result World.t) x y, x = y → P x = P y) by (by intros ? ? ? ->).
  destruct (negb (Joint.m_collideConnected jt)); [apply Heq | f_equal]; by destruct w.
Qed.

(** X12: on a well-formed world that is not locked, [DestroyJoint] on a
    joint of the world whose two bodies are in the world returns; the
    joint is then gone from the world and from the list of joints, no body
    has an edge for it any more, the count of joints is one less, the other
    joints are as they were, and the world is still well formed. *)
Theorem DestroyJoint_unlinks_the_joint (j : nat) (jt : Joint.t) (w : World.t) :
  wf_world w → World.IsLocked w = false →
  World.joints w !! j = Some jt →
  is_Some (World.bodies w !! Joint.m_bodyA jt) →
  is_Some (World.bodies w !! Joint.m_bodyB jt) →
  ∃ w',
    DestroyJoint bm j w = Done w'
    ∧ World.joints w' !! j = None
    ∧ j ∉ World.m_jointList w'
    ∧ (∀ b o, ¬ jedge w' b j o)
    ∧ World.m_jointCount w' = World.m_jointCount w - 1
    ∧ (∀ j', j' ≠ j → World.joints w' !! j' = World.joints w !! j')
    ∧ wf_world w'.
Proof.
  intros Hwf Hl Hj HA HB.
  set (A := Joint.m_bodyA jt) in *. set (B := Joint.m_bodyB jt) in *.
  set (ws := World.with_bodies
               (alter (Body.SetAwake true) B (alter (Body.SetAwake true) A (World.bodies w)))
               w).
  assert (Hws : wf_world ws).
  { apply (wf_same_links w); [|done]. unfold ws. split; [|by repeat split].
    intros k. cbn [World.bodies World.with_bodies]. clear. clearbody A B.
    rewrite !lookup_alter.
    repeat case_decide; subst; destruct (World.bodies w !! _);
      cbn [fmap option_fmap option_map]; by rewrite ?body_links_SetAwake. }
  set (w6 := World.with_jointList (unlink j (World.m_jointList w)) (World.m_jointCount w - 1)
               (World.with_joints (delete j (World.joints w))
                  (World.with_bodies
                     (alter (without_joint j) B (alter (without_joint j) A (World.bodies ws)))
                     w))).
  assert (Hw6 : wf_world w6).
  { apply (unlinked_joint_wf j jt ws); done. }
  assert (Hrun : DestroyJoint bm j w
                 = if negb (Joint.m_collideConnected jt)
                   then flag_contacts_for_filtering A B w6 else Done w6).
  { apply DestroyJoint_run; try done.
    apply wf_world_alt in Hwf as (_ & _ & _ & _ & _ & _ & _ & _ & ->).
    assert (size (World.joints w) ≠ 0%nat).
    { apply map_size_ne_0_lookup. by exists j, jt. }
    lia. }
  assert (Hfinal : ∃ w', DestroyJoint bm j w = Done w'
                         ∧ same_links w6 w' ∧ World.joints w' = World.joints w6
                         ∧ World.m_jointList w' = World.m_jointList w6
                         ∧ World.m_jointCount w' = World.m_jointCount w6).
  { rewrite Hrun. destruct (negb (Joint.m_collideConnected jt)).
    - destruct (flag_contacts_for_filtering_Done A B w6 Hw6) as [w' Hw'].
      { unfold w6, ws. cbn [World.bodies World.with_bodies World.with_jointList
          World.with_joints]. by rewrite !lookup_alter_is_Some. }
      exists w'. split; [done|].
      destruct (flag_contacts_for_filtering_frame _ _ _ _ Hw') as [Hs Ew].
      split; [done|]. by rewrite Ew.
    - exists w6. split; [done|]. split; [reflexivity | done]. }
  destruct Hfinal as (w' & Hrun' & Hs & Ej & Ejl & Ejc).
  assert (Hwf' : wf_world w') by (by apply (wf_same_links w6)).
  assert (Hgone : World.joints w' !! j = None).
  { rewrite Ej. unfold w6. cbn [World.joints World.with_joints World.with_jointList].
    apply lookup_delete_eq. }
  exists w'. split; [done|]. split; [done|]. split; [|split; [|split; [|split; [|done]]]].
  - rewrite Ejl. unfold w6. cbn [World.m_jointList World.with_jointList].
    unfold unlink. rewrite list_elem_of_filter. tauto.
  - intros b o Hedge.
    destruct (wf_joint_edge _ _ _ _ Hwf' Hedge) as (jt' & Hjt' & _). congruence.
  - rewrite Ejc. done.
  - intros j' Hne. rewrite Ej. unfold w6.
    cbn [World.joints World.with_joints World.with_jointList World.with_bodies].
    by rewrite lookup_delete_ne.
Qed.

End Joints.

Lemma DestroyJoint_unlinks_the_joint_witness :
  ∃ w',
    DestroyJoint Debug 0 static_joint_world = Done w'
    ∧ World.joints w' !! 0%nat = None
    ∧ 0%nat ∉ World.m_jointList w'
    ∧ (∀ b o, ¬ jedge w' b 0 o)
    ∧ World.m_jointCount w' = World.m_jointCount static_joint_world - 1
    ∧ (∀ j', j' ≠ 0%nat → World.joints w' !! j' = World.joints static_joint_world !! j')
    ∧ wf_world w'.
Proof.
  apply (DestroyJoint_unlinks_the_joint Debug 0 (Joint.mk 1 2 false false) static_joint_world).
  - apply (bool_decide_unpack _). vm_compute. exact I.
  - reflexivity.
  - reflexivity.
  - by eexists.
  - by eexists.
Defined.

Section JointsMore.
Context {env : Collaborators}.
Variable bm : build.

(** The world after [CreateJoint] has linked the new joint, before the
    contacts between the two bodies are flagged. *)
Lemma CreateJoint_run (def : cb2JointDef) (w : World.t) :
  World.IsLocked w = false →
  is_Some (World.bodies w !! Joint.m_bodyA (cb2Joint_Create def)) →
  is_Some (World.bodies w !! Joint.m_bodyB (cb2Joint_Create def)) →
  let j := fresh (dom (World.joints w)) in
  let jt := cb2Joint_Create def in
  let w2 :=
    World.with_bodies
      (alter (with_joint_edge (Joint.m_bodyA jt) j) (Joint.m_bodyB jt)
         (alter (with_joint_edge (Joint.m_bodyB jt) j) (Joint.m_bodyA jt) (World.bodies w)))
      (World.with_jointList (j :: World.m_jointList w) (World.m_jointCount w + 1)
         (World.with_joints (<[j := jt]> (World.joints w)) w)) in
  CreateJoint bm def w
  = w3 ← (if negb (collideConnected def)
          then flag_contacts_for_filtering (bodyA def) (bodyB def) w2
          else Done w2);
    Done (w3, Some j).
Proof.
  intros Hl HA HB j jt w2. unfold CreateJoint. rewrite Hl.
  replace (cb2Assert bm (negb false)) with (Done ()) by (by destruct bm).
  cbn [mbind result_bind]. fold j jt.
  rewrite (update_body_alter_Done (λ b, Body.with_jointList
             (mkJointEdge (Joint.m_bodyB jt) j :: Body.m_jointList b) b)) by done.
  cbn [mbind result_bind].
  rewrite (update_body_alter_Done (λ b, Body.with_jointList
             (mkJointEdge (Joint.m_bodyA jt) j :: Body.m_jointList b) b))
    by (cbn [World.bodies World.with_bodies World.with_jointList World.with_joints];
        by rewrite lookup_alter_is_Some).
  cbn [mbind result_bind].
  assert (Heq : ∀ (P : World.t → result (World.t * option nat)) x y, x = y → P x = P y)
    by (by intros ? ? ? ->).
  apply (Heq (λ x, w3 ← (if negb (collideConnected def)
                         then flag_contacts_for_filtering (bodyA def) (bodyB def) x
                         else Done x); Done (w3, Some j))).
  unfold w2. by destruct w.
Qed.

(** X13: on a well-formed world that is not locked, [CreateJoint] between
    two bodies of the world returns a handle that names no joint of the
    world so far. The new joint is the one its constructor builds, it is
    the head of the list of joints, each of the two bodies has got an edge
    for it towards the other, the joints the world had are untouched, and
    the world is still well formed. *)
Theorem CreateJoint_links_both_bodies (def : cb2JointDef) (w : World.t) :
  wf_world w → World.IsLocked w = false →
  joint_copies_def def →
  is_Some (World.bodies w !! bodyA def) →
  is_Some (World.bodies w !! bodyB def) →
  ∃ j w',
    CreateJoint bm def w = Done (w', Some j)
    ∧ World.joints w !! j = None
    ∧ World.joints w' !! j = Some (cb2Joint_Create def)
    ∧ jedge w' (bodyA def) j (bodyB def)
    ∧ jedge w' (bodyB def) j (bodyA def)
    ∧ World.m_jointList w' = j :: World.m_jointList w
    ∧ World.m_jointCount w' = World.m_jointCount w + 1
    ∧ (∀ j', j' ≠ j → World.joints w' !! j' = World.joints w !! j')
    ∧ wf_world w'.
Proof.
  intros Hwf Hl (EA & EB & _) HA HB.
  set (j := fresh (dom (World.joints w))).
  assert (Hfresh : World.joints w !! j = None).
  { apply not_elem_of_dom. apply is_fresh. }
  pose proof (CreateJoint_run def w Hl) as Hrun. cbv zeta in Hrun.
  rewrite EA, EB in Hrun. specialize (Hrun HA HB). fold j in Hrun.
  set (jt := cb2Joint_Create def) in *.
  set (w2 := World.with_bodies _ _) in Hrun.
  assert (Hw2 : wf_world w2).
  { unfold w2. rewrite <- EA, <- EB. fold jt. apply link_joint_wf; try done.
    - by rewrite EA.
    - by rewrite EB. }
  assert (Hfinal : ∃ w', CreateJoint bm def w = Done (w', Some j)
                         ∧ same_links w2 w' ∧ w' = World.with_contacts (World.contacts w') w2).
  { rewrite Hrun. destruct (negb (collideConnected def)).
    - destruct (flag_contacts_for_filtering_Done (bodyA def) (bodyB def) w2 Hw2) as [w' Hw'].
      { unfold w2. cbn [World.bodies World.with_bodies World.with_jointList World.with_joints].
        by rewrite !lookup_alter_is_Some. }
      exists w'. rewrite Hw'. split; [done|].
      by apply flag_contacts_for_filtering_frame in Hw'.
    - exists w2. split; [done|]. split; [reflexivity | by destruct w2]. }
  destruct Hfinal as (w' & Hrun' & Hs & Ew).
  assert (Hb' : World.bodies w' = World.bodies w2) by (by rewrite Ew).
  assert (Hedge : ∀ k o, (k = bodyA def ∧ o = bodyB def) ∨ (k = bodyB def ∧ o = bodyA def) →
            jedge w' k j o).
  { intros k o Hko. unfold jedge. rewrite Hb'. unfold w2.
    cbn [World.bodies World.with_bodies World.with_jointList World.with_joints].
    assert (Hk : is_Some (World.bodies w !! k)) by (by destruct Hko as [[-> _]|[-> _]]).
    destruct Hk as [x Hx].
    destruct (linked_lookup_rev (bodyA def) (bodyB def) j k _ x Hx) as [x' Hx'].
    exists x'. split; [done|].
    destruct (linked_lookup _ _ _ _ _ _ Hx') as (x0 & _ & _ & _ & Hin).
    apply Hin. destruct Hko as [[-> ->]|[-> ->]]; [right; left | left]; done. }
  exists j, w'. split; [done|]. split; [done|].
  split; [rewrite Ew; unfold w2; cbn; apply lookup_insert_eq|].
  split; [apply Hedge; by left|]. split; [apply Hedge; by right|].
  split; [by rewrite Ew|]. split; [by rewrite Ew|].
  split; [|by apply (wf_same_links w2)].
  intros j' Hne. rewrite Ew. unfold w2. cbn. by rewrite lookup_insert_ne.
Qed.

End JointsMore.

Lemma CreateJoint_links_both_bodies_witness :
  ∃ j w',
    CreateJoint (env := still_collaborators) Debug (mkJointDef 0 2 false) chain_world
    = Done (w', Some j)
    ∧ World.joints chain_world !! j = None
    ∧ World.joints w' !! j = Some (Joint.mk 0 2 false false)
    ∧ jedge w' 0 j 2
    ∧ jedge w' 2 j 0
    ∧ World.m_jointList w' = j :: World.m_jointList chain_world
    ∧ World.m_jointCount w' = World.m_jointCount chain_world + 1
    ∧ (∀ j', j' ≠ j → World.joints w' !! j' = World.joints chain_world !! j')
    ∧ wf_world w'.
Proof.
  apply (CreateJoint_links_both_bodies (env := still_collaborators) Debug
           (mkJointDef 0 2 false) chain_world).
  - apply (bool_decide_unpack _). vm_compute. exact I.
  - reflexivity.
  - by repeat split.
  - by eexists.
  - by eexists.
Defined.

(** ** A joint created and destroyed *)

Lemma SetAwake_true_awake_id (x : Body.t) :
  Body.IsAwake x = true → Body.SetAwake true x = x.
Proof.
  unfold Body.IsAwake, flag_all. intros Ha. apply Z.eqb_eq in Ha.
  unfold Body.SetAwake. by rewrite Ha.
Qed.

Lemma without_joint_edge (o j : nat) (x : Body.t) :
  without_joint j (with_joint_edge o j x) = without_joint j x.
Proof.
  unfold without_joint, with_joint_edge, unlink_joint_edge.
  cbn [Body.m_jointList Body.with_jointList].
  rewrite filter_cons_False by (cbn; intros H; by apply H). by destruct x.
Qed.

Lemma without_joint_id (j : nat) (x : Body.t) :
  (∀ e, e ∈ Body.m_jointList x → je_joint e ≠ j) → without_joint j x = x.
Proof.
  intros Hx. unfold without_joint, unlink_joint_edge.
  assert (Hf : filter (λ e, je_joint e ≠ j) (Body.m_jointList x) = Body.m_jointList x).
  { induction (Body.m_jointList x) as [|e l IH]; [done|].
    rewrite filter_cons_True by (apply Hx; by left).
    rewrite IH; [done|]. intros e' He'. apply Hx. by right. }
  rewrite Hf. by destruct x.
Qed.

Lemma without_joint_twice (j : nat) (x : Body.t) :
  without_joint j (without_joint j x) = without_joint j x.
Proof.
  apply without_joint_id. intros e.
  cbn [without_joint Body.m_jointList Body.with_jointList]. unfold unlink_joint_edge.
  rewrite list_elem_of_filter. tauto.
Qed.

Section JointRoundTrip.
Context {env : Collaborators}.
Variable bm : build.

(** X14: on a well-formed world that is not locked, a joint that lets its
    bodies collide, created between two awake bodies and destroyed right
    away, leaves the world exactly as it was. *)
Theorem DestroyJoint_undoes_CreateJoint (def : cb2JointDef) (w : World.t) :
  wf_world w → World.IsLocked w = false →
  joint_copies_def def → collideConnected def = true →
  body_awake w (bodyA def) → body_awake w (bodyB def) →
  ∃ j w',
    CreateJoint bm def w = Done (w', Some j)
    ∧ DestroyJoint bm j w' = Done w.
Proof.
  intros Hwf Hl (EA & EB & EC) Hcc (bA & HbA & HawA) (bB & HbB & HawB).
  set (A := bodyA def) in *. set (B := bodyB def) in *.
  set (j := fresh (dom (World.joints w))).
  assert (Hfresh : World.joints w !! j = None).
  { apply not_elem_of_dom. apply is_fresh. }
  pose proof (CreateJoint_run bm def w Hl) as Hrun. cbv zeta in Hrun.
  rewrite EA, EB, Hcc in Hrun. fold A B j in Hrun.
  specialize (Hrun ltac:(by eexists) ltac:(by eexists)).
  cbn [negb mbind result_bind] in Hrun.
  set (jt := cb2Joint_Create def) in *.
  set (w2 := World.with_bodies _ _) in Hrun.
  exists j, w2. split; [done|].
  pose proof (proj1 (wf_world_alt w) Hwf) as (W1 & _ & _ & _ & _ & W6 & _ & _ & W9).
  assert (Hnoj : ∀ k x e, World.bodies w !! k = Some x → e ∈ Body.m_jointList x →
            je_joint e ≠ j).
  { intros k x e Hk He Heq. destruct (W1 k x Hk) as (_ & Hje & _).
    destruct (joint_edge_ok_joint _ _ _ (Hje e He)) as (jt0 & Hjt0 & _).
    rewrite Heq in Hjt0. congruence. }
  rewrite (DestroyJoint_run bm j jt w2).
  - rewrite EC, Hcc. cbn [negb]. f_equal. rewrite EA, EB. fold A B.
    unfold w2.
    cbn [World.bodies World.joints World.m_jointList World.m_jointCount
         World.with_bodies World.with_joints World.with_jointList].
    rewrite delete_insert_eq, delete_id by done.
    rewrite unlink_head.
    2:{ intros Hin. destruct (W6 j Hin) as [x Hx]. congruence. }
    replace (World.m_jointCount w + 1 - 1) with (World.m_jointCount w) by lia.
    assert (Hbodies :
      alter (without_joint j) B
        (alter (without_joint j) A
           (alter (Body.SetAwake true) B
              (alter (Body.SetAwake true) A
                 (alter (with_joint_edge A j) B
                    (alter (with_joint_edge B j) A (World.bodies w))))))
      = World.bodies w).
    { apply map_eq. intros k.
      assert (HxA : ∀ o, without_joint j (Body.SetAwake true (with_joint_edge o j bA)) = bA).
      { intros o. rewrite SetAwake_true_awake_id by done.
        rewrite without_joint_edge. apply without_joint_id. intros e. by apply (Hnoj A). }
      assert (HxB : ∀ o, without_joint j (Body.SetAwake true (with_joint_edge o j bB)) = bB).
      { intros o. rewrite SetAwake_true_awake_id by done.
        rewrite without_joint_edge. apply without_joint_id. intros e. by apply (Hnoj B). }
      assert (HxAB : A = B →
                without_joint j (without_joint j
                  (Body.SetAwake true (Body.SetAwake true
                     (with_joint_edge A j (with_joint_edge B j bA))))) = bA).
      { intros _. rewrite SetAwake_true_idemp, without_joint_twice.
        rewrite SetAwake_true_awake_id by done.
        rewrite !without_joint_edge. apply without_joint_id. intros e. by apply (Hnoj A). }
      clearbody A B. clear Hrun w2.
      destruct (decide (A = B)) as [<-|Hne].
      - assert (bB = bA) as -> by congruence.
        destruct (decide (k = A)) as [->|HkA]; [|by rewrite !lookup_alter_ne by done].
        rewrite !lookup_alter_eq.
        rewrite HbA. cbn [fmap option_fmap option_map]. by rewrite HxAB.
      - destruct (decide (k = A)) as [->|HkA]; [|destruct (decide (k = B)) as [->|HkB]].
        + rewrite lookup_alter_ne, lookup_alter_eq by done.
          rewrite lookup_alter_ne, lookup_alter_eq by done.
          rewrite lookup_alter_ne, lookup_alter_eq by done.
          rewrite HbA. cbn [fmap option_fmap option_map]. by rewrite HxA.
        + rewrite lookup_alter_eq, lookup_alter_ne by done.
          rewrite lookup_alter_eq, lookup_alter_ne by done.
          rewrite lookup_alter_eq, lookup_alter_ne by done.
          rewrite HbB. cbn [fmap option_fmap option_map]. by rewrite HxB.
        + by rewrite !lookup_alter_ne by done. }
    rewrite Hbodies. by destruct w.
  - done.
  - unfold w2. cbn [World.joints World.with_bodies World.with_joints World.with_jointList].
    apply lookup_insert_eq.
  - unfold w2. cbn [World.bodies World.with_bodies]. rewrite EA.
    rewrite !lookup_alter_is_Some. by eexists.
  - unfold w2. cbn [World.bodies World.with_bodies]. rewrite EB.
    rewrite !lookup_alter_is_Some. by eexists.
  - unfold w2. cbn [World.m_jointCount World.with_bodies World.with_jointList]. lia.
Qed.

End JointRoundTrip.

Lemma DestroyJoint_undoes_CreateJoint_witness :
  ∃ j w',
    CreateJoint (env := still_collaborators) Debug (mkJointDef 0 2 true) chain_world
    = Done (w', Some j)
    ∧ DestroyJoint Debug j w' = Done chain_world.
Proof.
  apply (DestroyJoint_undoes_CreateJoint (env := still_collaborators) Debug
           (mkJointDef 0 2 true) chain_world).
  - apply (bool_decide_unpack _). vm_compute. exact I.
  - reflexivity.
  - by repeat split.
  - reflexivity.
  - eexists. split; [reflexivity|]. vm_compute. reflexivity.
  - eexists. split; [reflexivity|]. vm_compute. reflexivity.
Defined.

(** ** Destroying a body *)

#[global] Instance nothing_new_preorder : PreOrder nothing_new.
Proof.
  split.
  - intros w. by repeat split.
  - intros w1 w2 w3 (A1 & A2 & A3 & A4 & A5 & A6 & A7) (B1 & B2 & B3 & B4 & B5 & B6 & B7).
    split; [by auto|]. split; [by auto|]. split; [by auto|].
    split; [intros b; by rewrite B4|]. repeat split; congruence.
Qed.

Lemma update_body_nothing_new (f : Body.t → Body.t) (b : nat) (w w' : World.t) :
  update_body f b w = Done w' → nothing_new w w'.
Proof.
  intros Hu. apply update_body_alter in Hu as [Hb ->].
  repeat (split; [done|]). split; [|done].
  intros k. cbn [World.bodies World.with_bodies]. by rewrite lookup_alter_is_Some.
Qed.

Lemma update_contact_nothing_new (f : Contact.t → Contact.t) (c : nat) (w w' : World.t) :
  update_contact f c w = Done w' → nothing_new w w'.
Proof.
  intros Hu. apply update_contact_Done in Hu as (x & Hx & ->).
  split; [done|]. split; [|done].
  intros k Hk. unfold put_contact. cbn [World.contacts World.with_contacts].
  rewrite lookup_insert_ne; [done|]. intros <-. congruence.
Qed.

Lemma for_each_Done_all {A S : Type} (I : S → Prop) (Q : A → S → Prop) (R : S → S → Prop)
    (f : A → S → result S) (l : list A) (s s' : S) :
  PreOrder R →
  (∀ x s1 s2, I s1 → f x s1 = Done s2 → R s1 s2 ∧ Q x s2 ∧ I s2) →
  (∀ x s1 s2, R s1 s2 → Q x s1 → Q x s2) →
  I s →
  for_each f l s = Done s' →
  R s s' ∧ I s' ∧ ∀ x, x ∈ l → Q x s'.
Proof.
  intros HR Hstep Hkeep. revert s.
  induction l as [|x l IH]; intros s Hs Hrun; cbn [for_each] in Hrun.
  - injection Hrun as <-. split; [reflexivity|]. split; [done|].
    intros x Hx. by apply elem_of_nil in Hx.
  - apply bind_Done in Hrun as (s1 & H1 & Hrun).
    destruct (Hstep _ _ _ Hs H1) as (HR1 & HQ1 & HI1).
    destruct (IH _ HI1 Hrun) as (HR2 & HI2 & HQ2).
    split; [by etransitivity|]. split; [done|].
    intros y Hy. apply elem_of_cons in Hy as [->|Hy]; [|by apply HQ2].
    by apply (Hkeep _ s1).
Qed.

Section DestroyBody.
Context {env : Collaborators}.
Variable bm : build.

Lemma not_locked_flags (w w' : World.t) :
  World.m_flags w' = World.m_flags w → World.IsLocked w = false → World.IsLocked w' = false.
Proof. unfold World.IsLocked. by intros ->. Qed.

Lemma DestroyJoint_nothing_new (j : nat) (w w' : World.t) :
  World.IsLocked w = false →
  DestroyJoint bm j w = Done w' →
  nothing_new w w' ∧ World.joints w' !! j = None.
Proof.
  intros Hl. unfold DestroyJoint. rewrite Hl. intros Hrun.
  apply bind_Done in Hrun as (_ & _ & Hrun).
  apply bind_Done in Hrun as (jt & _ & Hrun).
  apply bind_Done in Hrun as (w1 & H1 & Hrun).
  apply bind_Done in Hrun as (w2 & H2 & Hrun).
  apply bind_Done in Hrun as (w3 & H3 & Hrun).
  apply bind_Done in Hrun as (w4 & H4 & Hrun).
  apply bind_Done in Hrun as (_ & _ & Hrun).
  apply update_body_nothing_new in H1, H2, H3, H4.
  set (w6 := World.with_jointList _ _ _) in Hrun.
  assert (H6 : nothing_new w w6 ∧ World.joints w6 !! j = None).
  { split.
    - transitivity w4.
      + transitivity w1.
        * exact H1.
        * transitivity w2; [done|]. by transitivity w3.
      + unfold w6. split; [|by repeat split].
        intros k Hk. cbn [World.joints World.with_joints World.with_jointList].
        apply lookup_delete_None. by right.
    - unfold w6. cbn [World.joints World.with_joints World.with_jointList].
      apply lookup_delete_eq. }
  destruct H6 as [H6 Hgone].
  destruct (negb (Joint.m_collideConnected jt)).
  - apply flag_contacts_for_filtering_frame in Hrun as [Hs Ew]. split.
    + transitivity w6; [done|].
      destruct Hs as (S1 & S2 & _). rewrite Ew.
      split; [done|]. split; [|by repeat split].
      intros c Hc. cbn [World.contacts World.with_contacts]. specialize (S2 c).
      rewrite Hc in S2. by destruct (World.contacts w' !! c).
    + by rewrite Ew.
  - by injection Hrun as <-.
Qed.

Lemma ContactManager_Destroy_nothing_new (c : nat) (w w' : World.t) :
  ContactManager_Destroy c w = Done w' →
  nothing_new w w' ∧ World.contacts w' !! c = None.
Proof.
  unfold ContactManager_Destroy. intros Hrun.
  apply bind_Done in Hrun as (ct & _ & Hrun).
  apply bind_Done in Hrun as ([bodyA bodyB] & _ & Hrun).
  apply bind_Done in Hrun as (w1 & H1 & Hrun).
  apply bind_Done in Hrun as (w2 & H2 & Hrun).
  injection Hrun as <-.
  apply update_body_nothing_new in H1, H2. split.
  - transitivity w2.
    + transitivity w1; [exact H1 | done].
    + split; [done|]. split; [|by repeat split].
      intros k Hk. cbn [World.contacts World.with_contacts]. apply lookup_delete_None. by right.
  - cbn [World.contacts World.with_contacts]. apply lookup_delete_eq.
Qed.

(** X15: on a world that is not locked, [DestroyBody] on a body of the
    world, when it returns, has removed the body from the world and from
    the list of bodies and has lowered the count of bodies by one; every
    joint and every contact the body had an edge for is gone, and so is
    every fixture of the body. No other body is removed, and no joint,
    contact or fixture is created. *)
Theorem DestroyBody_removes_the_body_and_its_links
    (b : nat) (body : Body.t) (w w' : World.t) :
  World.IsLocked w = false →
  World.bodies w !! b = Some body →
  DestroyBody bm b w = Done w' →
  World.bodies w' !! b = None
  ∧ b ∉ World.m_bodyList w'
  ∧ World.m_bodyCount w' = World.m_bodyCount w - 1
  ∧ (∀ je, je ∈ Body.m_jointList body → World.joints w' !! je_joint je = None)
  ∧ (∀ ce, ce ∈ Body.m_contactList body → World.contacts w' !! ce_contact ce = None)
  ∧ (∀ f, f ∈ Body.m_fixtureList body → World.fixtures w' !! f = None)
  ∧ (∀ b', b' ≠ b → is_Some (World.bodies w !! b') → is_Some (World.bodies w' !! b'))
  ∧ (∀ j, World.joints w !! j = None → World.joints w' !! j = None)
  ∧ (∀ c, World.contacts w !! c = None → World.contacts w' !! c = None)
  ∧ (∀ f, World.fixtures w !! f = None → World.fixtures w' !! f = None).
Proof.
  intros Hl Hb. unfold DestroyBody. rewrite Hl. intros Hrun.
  apply bind_Done in Hrun as (_ & _ & Hrun).
  apply bind_Done in Hrun as (_ & _ & Hrun).
  apply bind_Done in Hrun as (body' & Hb' & Hrun).
  apply deref_Done in Hb'. assert (body' = body) as -> by congruence.
  apply bind_Done in Hrun as (w1 & H1 & Hrun).
  apply bind_Done in Hrun as (w2 & H2 & Hrun).
  apply bind_Done in Hrun as (w3 & H3 & Hrun).
  apply bind_Done in Hrun as (w4 & H4 & Hrun).
  apply bind_Done in Hrun as (w5 & H5 & Hrun).
  apply bind_Done in Hrun as (w6 & H6 & Hrun).
  injection Hrun as <-.
  assert (Hlock : ∀ s s', nothing_new s s' → World.IsLocked s = false →
            World.IsLocked s' = false).
  { intros s s' (_ & _ & _ & _ & _ & _ & Hf). by apply not_locked_flags. }
  apply (for_each_Done_all
           (λ s, World.IsLocked s = false)
           (λ je s, World.joints s !! je_joint je = None) nothing_new) in H1
    as (N1 & L1 & J1); [|apply _| | |done].
  2:{ intros je s1 s2 Hs Hstep.
      destruct (DestroyJoint_nothing_new _ _ _ Hs Hstep) as [Hn Hg].
      split; [done|]. split; [done|]. by apply (Hlock s1). }
  2:{ intros je s1 s2 (Hj & _) Hg. by apply Hj. }
  apply update_body_nothing_new in H2.
  apply (for_each_Done_all
           (λ _, True)
           (λ ce s, World.contacts s !! ce_contact ce = None) nothing_new) in H3
    as (N3 & _ & C3); [|apply _| | |done].
  2:{ intros ce s1 s2 _ Hstep.
      destruct (ContactManager_Destroy_nothing_new _ _ _ Hstep) as [Hn Hg]. done. }
  2:{ intros ce s1 s2 (_ & Hc & _) Hg. by apply Hc. }
  apply update_body_nothing_new in H4.
  apply (for_each_Done_all
           (λ _, True)
           (λ f s, World.fixtures s !! f = None) nothing_new) in H5
    as (N5 & _ & F5); [|apply _| | |done].
  2:{ intros f s1 s2 _ Hstep. apply bind_Done in Hstep as (fx & _ & Hstep).
      injection Hstep as <-. split; [|split; [|done]].
      - split; [done|]. split; [done|]. split; [|by repeat split].
        intros k Hk. cbn [World.fixtures World.with_fixtures]. apply lookup_delete_None.
        by right.
      - cbn [World.fixtures World.with_fixtures]. apply lookup_delete_eq. }
  2:{ intros f s1 s2 (_ & _ & Hf & _) Hg. by apply Hf. }
  apply update_body_nothing_new in H6.
  assert (N12 : nothing_new w w2) by (by transitivity w1).
  assert (N34 : nothing_new w w4) by (transitivity w2; [done|]; by transitivity w3).
  assert (N56 : nothing_new w4 w6) by (by transitivity w5).
  assert (N : nothing_new w w6) by (by transitivity w4).
  destruct N as (NJ & NC & NF & NB & NL & NN & _).
  cbn [World.bodies World.joints World.contacts World.fixtures World.m_bodyList
       World.m_bodyCount World.with_bodies World.with_bodyList].
  split; [apply lookup_delete_eq|].
  split; [unfold unlink; rewrite list_elem_of_filter; tauto|].
  split; [by rewrite NN|].
  split.
  { intros je Hje. destruct N34 as (_ & _ & _ & _). destruct N56 as (HJ56 & _).
    apply HJ56. destruct H4 as (HJ4 & _). apply HJ4.
    destruct N3 as (HJ3 & _). apply HJ3. destruct H2 as (HJ2 & _). apply HJ2.
    by apply J1. }
  split.
  { intros ce Hce. destruct N56 as (_ & HC56 & _). apply HC56.
    destruct H4 as (_ & HC4 & _). apply HC4. by apply C3. }
  split.
  { intros f Hf. destruct H6 as (_ & _ & HF6 & _). apply HF6. by apply F5. }
  split.
  { intros k Hne Hk. rewrite lookup_delete_ne by done. by apply NB. }
  done.
Qed.

End DestroyBody.

Lemma DestroyBody_removes_the_body_and_its_links_witness :
  ∃ w',
    DestroyBody Debug 1 chain_world = Done w'
    ∧ World.bodies w' !! 1%nat = None
    ∧ 1%nat ∉ World.m_bodyList w'
    ∧ World.m_bodyCount w' = World.m_bodyCount chain_world - 1
    ∧ (∀ je, je ∈ ([] : list cb2JointEdge) → World.joints w' !! je_joint je = None)
    ∧ (∀ ce, ce ∈ [mkContactEdge 2 1; mkContactEdge 0 0] →
         World.contacts w' !! ce_contact ce = None)
    ∧ (∀ f, f ∈ [1%nat] → World.fixtures w' !! f = None)
    ∧ (∀ b', b' ≠ 1%nat → is_Some (World.bodies chain_world !! b') →
         is_Some (World.bodies w' !! b'))
    ∧ (∀ j, World.joints chain_world !! j = None → World.joints w' !! j = None)
    ∧ (∀ c, World.contacts chain_world !! c = None → World.contacts w' !! c = None)
    ∧ (∀ f, World.fixtures chain_world !! f = None → World.fixtures w' !! f = None).
Proof.
  eexists. split; [vm_compute; reflexivity|].
  apply (DestroyBody_removes_the_body_and_its_links Debug 1
           (sample_body cb2_staticBody Body.e_activeFlag [1%nat] []
              [mkContactEdge 2 1; mkContactEdge 0 0]) chain_world).
  - reflexivity.
  - reflexivity.
  - vm_compute. reflexivity.
Defined.

(** ** A locked world in a debug build *)

Section LockedDebug.
Context {env : Collaborators}.

(** X16: in a debug build, while the world is locked, [CreateBody],
    [CreateJoint], [DestroyBody], [DestroyJoint] and [ShiftOrigin] all
    stop at a failed assertion: none of them returns. *)
Theorem locked_world_stops_a_debug_build (w : World.t) (def : cb2BodyDef)
    (jdef : cb2JointDef) (b j : nat) (o : Vec2) :
  World.IsLocked w = true →
  CreateBody Debug def w = Stop AssertFailed
  ∧ CreateJoint Debug jdef w = Stop AssertFailed
  ∧ DestroyBody Debug b w = Stop AssertFailed
  ∧ DestroyJoint Debug j w = Stop AssertFailed
  ∧ ShiftOrigin Debug o w = Stop AssertFailed.
Proof.
  intros Hl.
  destruct (locked_world_asserts w def jdef j o Hl) as (H1 & H2 & H3 & H4).
  repeat (split; [done|]). split; [|done].
  unfold DestroyBody, cb2Assert. rewrite Hl. by destruct (0 <? World.m_bodyCount w).
Qed.

End LockedDebug.

Lemma locked_world_stops_a_debug_build_witness :
  CreateBody (env := still_collaborators) Debug
    (sample_body cb2_dynamicBody awake_active [] [] []) locked_world = Stop AssertFailed
  ∧ CreateJoint (env := still_collaborators) Debug (mkJointDef 0 1 false) locked_world
    = Stop AssertFailed
  ∧ DestroyBody Debug 0 locked_world = Stop AssertFailed
  ∧ DestroyJoint Debug 0 locked_world = Stop AssertFailed
  ∧ ShiftOrigin (env := still_collaborators) Debug (mkVec2 1 1) locked_world
    = Stop AssertFailed.
Proof.
  apply (locked_world_stops_a_debug_build (env := still_collaborators)).
  reflexivity.
Defined.

(** ** A pass over a world at rest *)

#[global] Instance same_motion_equiv : Equivalence same_motion.
Proof.
  split.
  - intros x. by repeat split.
  - intros x y (A1 & A2 & A3 & A4 & A5 & A6 & A7 & A8 & A9). by repeat split.
  - intros x y z (A1 & A2 & A3 & A4 & A5 & A6 & A7 & A8 & A9)
                 (B1 & B2 & B3 & B4 & B5 & B6 & B7 & B8 & B9).
    repeat split; congruence.
Qed.

#[global] Instance bodies_stay_preorder : PreOrder bodies_stay.
Proof.
  split.
  - intros w b body Hb. by exists body.
  - intros w1 w2 w3 H12 H23 b body Hb.
    destruct (H12 b body Hb) as (body2 & Hb2 & Hm2).
    destruct (H23 b body2 Hb2) as (body3 & Hb3 & Hm3).
    exists body3. split; [done|]. by etransitivity.
Qed.

Lemma bodies_stay_same (w w' : World.t) :
  World.bodies w' = World.bodies w → bodies_stay w w'.
Proof. intros Heq b body Hb. exists body. by rewrite Heq. Qed.

Lemma update_body_stay (f : Body.t → Body.t) (b : nat) (w w' : World.t) :
  (∀ x, same_motion (f x) x) → update_body f b w = Done w' → bodies_stay w w'.
Proof.
  intros Hf Hu. apply update_body_Done in Hu as (x & Hx & ->).
  intros k body Hk. unfold put_body. cbn [World.bodies World.with_bodies].
  destruct (decide (b = k)) as [<-|Hne].
  - rewrite lookup_insert_eq. exists (f x). split; [done|].
    assert (x = body) as -> by congruence. apply Hf.
  - rewrite lookup_insert_ne by done. by exists body.
Qed.

Lemma update_contact_stay (f : Contact.t → Contact.t) (c : nat) (w w' : World.t) :
  update_contact f c w = Done w' → bodies_stay w w'.
Proof.
  intros Hu. apply update_contact_Done in Hu as (x & _ & ->). by apply bodies_stay_same.
Qed.

Lemma update_joint_stay (f : Joint.t → Joint.t) (j : nat) (w w' : World.t) :
  update_joint f j w = Done w' → bodies_stay w w'.
Proof.
  intros Hu. apply update_joint_Done in Hu as (x & _ & ->). by apply bodies_stay_same.
Qed.

Lemma same_motion_flag (x : Body.t) (f : Z) :
  Z.testbit f 1 = Z.testbit (Body.m_flags x) 1 →
  Z.testbit f 5 = Z.testbit (Body.m_flags x) 5 →
  same_motion (Body.with_flags f x) x.
Proof.
  intros H1 H5. repeat split.
  - by rewrite !Body_IsAwake_bit.
  - by rewrite !Body_IsActive_bit.
Qed.

Lemma same_motion_clear_island (x : Body.t) :
  same_motion (Body.with_flags (clear_flag (Body.m_flags x) Body.e_islandFlag) x) x.
Proof.
  apply same_motion_flag; rewrite Body_clear_island_bit by done; apply andb_true_r.
Qed.

Section Rest.
Context {env : Collaborators}.
Variable bm : build.

Lemma AddPair_stay (pair : nat * nat) (w w' : World.t) :
  AddPair pair w = Done w' → bodies_stay w w'.
Proof.
  unfold AddPair. destruct pair as [fixtureA fixtureB]. intros Hrun.
  cbv zeta in Hrun. run_all; subst; try reflexivity.
  repeat match goal with
  | H : update_body _ _ _ = Done _ |- _ => apply update_body_stay in H; [|done]
  end.
  match goal with
  | H : bodies_stay ?a ?b, H' : bodies_stay ?b w' |- _ =>
      transitivity a; [|by transitivity b]
  end.
  by apply bodies_stay_same.
Qed.

Lemma FindNewContacts_stay (moved : list nat) (w w' : World.t) :
  FindNewContacts moved w = Done w' → bodies_stay w w'.
Proof.
  unfold FindNewContacts.
  apply (for_each_Done_ind bodies_stay); [apply reflexivity | apply transitivity |].
  intros x s1 s2 _. apply AddPair_stay.
Qed.

(** A seed that is in an island already, asleep, inactive or static is
    passed by. *)
Lemma seeds_at_rest (fuel : nat) (step : cb2TimeStep) (sz : Z) (l : list nat)
    (w : World.t) (island : Island.t) (built : list Island.t)
    (r : World.t * Island.t * list Island.t) :
  (∀ b body, World.bodies w !! b = Some body →
     Body.IsAwake body = false ∨ Body.IsActive body = false
     ∨ Body.m_type body = cb2_staticBody) →
  for_each (Solve_seed bm fuel step sz) l (w, island, built) = Done r →
  r = (w, island, built).
Proof.
  intros Hrest. induction l as [|s l IH]; intros Hrun; cbn [for_each] in Hrun.
  - by injection Hrun as <-.
  - apply bind_Done in Hrun as (r1 & H1 & Hrun).
    assert (r1 = (w, island, built)) as ->; [|by apply IH].
    unfold Solve_seed in H1. apply bind_Done in H1 as (body & Hb & H1).
    apply deref_Done in Hb.
    destruct (Body.in_island body); [by injection H1 as <-|].
    destruct (Hrest s body Hb) as [Ha|[Ha|Ha]].
    + rewrite Ha in H1. cbn [negb orb] in H1. by injection H1 as <-.
    + rewrite Ha, orb_true_r in H1. by injection H1 as <-.
    + destruct (negb (Body.IsAwake body) || negb (Body.IsActive body));
        [by injection H1 as <-|].
      unfold Body.GetType in H1. rewrite decide_True in H1 by done. by injection H1 as <-.
Qed.

Lemma at_rest_stay (w w' : World.t) : bodies_stay w w' → at_rest w' → at_rest w.
Proof.
  intros Hs Hr b body Hb. destruct (Hs b body Hb) as (body' & Hb' & Hm).
  destruct Hm as (Ht & _ & _ & _ & _ & _ & _ & Ha & Hact).
  rewrite <- Ht, <- Ha, <- Hact. by apply (Hr b).
Qed.

Lemma bodies_stay_rev (w w' : World.t) :
  (∀ b, is_Some (World.bodies w' !! b) → is_Some (World.bodies w !! b)) →
  bodies_stay w w' → at_rest w → at_rest w'.
Proof.
  intros Hdom Hs Hr b body' Hb'. destruct (Hdom b) as [body Hb]; [by eexists|].
  destruct (Hs b body Hb) as (body2 & Hb2 & Hm).
  assert (body2 = body') as -> by congruence.
  destruct Hm as (Ht & _ & _ & _ & _ & _ & _ & Ha & Hact).
  rewrite Ht, Ha, Hact. by apply (Hr b).
Qed.

(** X17: when every body of the world is asleep, inactive or static, a
    pass of [Solve] that returns has built no island, whatever the fuel,
    and has left every body its type, its placement, its velocities, the
    forces on it and its awake and active states. *)
Theorem Solve_passes_by_a_world_at_rest (fuel : nat) (step : cb2TimeStep)
    (w w' : World.t) (islands : list Island.t) :
  at_rest w →
  Solve bm fuel step w = Done (w', islands) →
  islands = [] ∧ bodies_stay w w'.
Proof.
  intros Hrest. unfold Solve. intros Hrun.
  apply bind_Done in Hrun as (w1 & H1 & Hrun).
  apply bind_Done in Hrun as (w2 & H2 & Hrun).
  apply bind_Done in Hrun as (w3 & H3 & Hrun).
  cbv zeta in Hrun.
  apply bind_Done in Hrun as ([[w4 island4] built] & H4 & Hrun).
  apply bind_Done in Hrun as (moved & H5 & Hrun).
  apply bind_Done in Hrun as (w5 & H6 & Hrun).
  injection Hrun as <- <-.
  assert (S1 : bodies_stay w w1 ∧ ∀ b, is_Some (World.bodies w1 !! b) →
                                       is_Some (World.bodies w !! b)).
  { revert H1.
    apply (for_each_Done_ind
             (λ s s', bodies_stay s s'
                      ∧ ∀ b, is_Some (World.bodies s' !! b) → is_Some (World.bodies s !! b))).
    - intros s. split; [reflexivity | done].
    - intros s1 s2 s3 [A1 A2] [B1 B2]. split; [by transitivity s2 | by auto].
    - intros b s1 s2 _ Hu. split.
      + apply (update_body_stay _ _ _ _ same_motion_clear_island Hu).
      + apply update_body_alter in Hu as [_ ->]. intros k.
        cbn [World.bodies World.with_bodies]. by rewrite lookup_alter_is_Some. }
  assert (S2 : World.bodies w2 = World.bodies w1).
  { revert H2.
    apply (for_each_Done_ind (λ s s', World.bodies s' = World.bodies s)); [done| |].
    - intros s1 s2 s3 E1 E2. congruence.
    - intros c s1 s2 _ Hu. by apply update_contact_Done in Hu as (x & _ & ->). }
  assert (S3 : World.bodies w3 = World.bodies w2).
  { revert H3.
    apply (for_each_Done_ind (λ s s', World.bodies s' = World.bodies s)); [done| |].
    - intros s1 s2 s3 E1 E2. congruence.
    - intros j s1 s2 _ Hu. by apply update_joint_Done in Hu as (x & _ & ->). }
  assert (R3 : at_rest w3).
  { destruct S1 as [S1 D1]. unfold at_rest. rewrite S3, S2.
    by apply (bodies_stay_rev w w1). }
  apply seeds_at_rest in H4; [|exact R3]. injection H4 as -> -> ->.
  split; [done|].
  transitivity w1; [apply S1|].
  transitivity w3; [apply bodies_stay_same; congruence|].
  by apply FindNewContacts_stay in H6.
Qed.

End Rest.

Lemma Solve_passes_by_a_world_at_rest_witness :
  ∃ w',
    Solve (env := still_collaborators) Debug 0 sample_step sleeping_world = Done (w', [])
    ∧ ([] : list Island.t) = [] ∧ bodies_stay sleeping_world w'.
Proof.
  eexists. split; [vm_compute; reflexivity|].
  eapply (Solve_passes_by_a_world_at_rest (env := still_collaborators) Debug 0 sample_step
            sleeping_world).
  - intros b body Hb. unfold sleeping_world in Hb. cbn [World.bodies] in Hb.
    apply lookup_insert_Some in Hb as [[_ <-]|[_ Hb]]; [by left|].
    apply lookup_insert_Some in Hb as [[_ <-]|[_ Hb]]; [by left|].
    apply lookup_insert_Some in Hb as [[_ <-]|[_ Hb]]; [by right; right | done].
  - vm_compute. reflexivity.
Defined.

(** ** What a step leaves alone *)

#[global] Instance same_makeup_preorder : PreOrder same_makeup.
Proof.
  split.
  - intros w. by repeat split.
  - intros w1 w2 w3 (B12 & J12 & S12) (B23 & J23 & S23). split; [|split].
    + intros b. by rewrite B23.
    + intros j. by rewrite J23.
    + congruence.
Qed.

#[global] Instance untouched_preorder : PreOrder untouched.
Proof.
  split.
  - intros w. split; [reflexivity | done].
  - intros w1 w2 w3 (M12 & F12 & D12) (M23 & F23 & D23).
    split; [by transitivity w2 | split; congruence].
Qed.

(** A write to the contacts, to the list of contacts or to the flag of a
    complete step. *)
Lemma untouched_contacts (w w' : World.t) :
  World.bodies w' = World.bodies w → World.joints w' = World.joints w →
  settings w' = settings w → World.m_flags w' = World.m_flags w →
  World.m_inv_dt0 w' = World.m_inv_dt0 w →
  untouched w w'.
Proof.
  intros HB HJ HS HF HD. split; [|done]. split; [|split; [|done]].
  - intros b. by rewrite HB.
  - intros j. by rewrite HJ.
Qed.

Lemma update_body_untouched (f : Body.t → Body.t) (b : nat) (w w' : World.t) :
  (∀ x, body_makeup (f x) = body_makeup x) →
  update_body f b w = Done w' → untouched w w'.
Proof.
  intros Hf Hu. apply update_body_Done in Hu as (x & Hx & ->).
  split; [|done]. split; [|done].
  intros k. unfold put_body. cbn [World.bodies World.with_bodies].
  destruct (decide (b = k)) as [<-|Hne].
  - rewrite lookup_insert_eq, Hx. cbn. by rewrite Hf.
  - by rewrite lookup_insert_ne.
Qed.

Lemma update_contact_untouched (f : Contact.t → Contact.t) (c : nat) (w w' : World.t) :
  update_contact f c w = Done w' → untouched w w'.
Proof.
  intros Hu. apply update_contact_Done in Hu as (x & _ & ->). by apply untouched_contacts.
Qed.

Lemma update_joint_untouched (f : Joint.t → Joint.t) (j : nat) (w w' : World.t) :
  (∀ x, joint_makeup (f x) = joint_makeup x) →
  update_joint f j w = Done w' → untouched w w'.
Proof.
  intros Hf Hu. apply update_joint_Done in Hu as (x & Hx & ->).
  split; [|done]. split; [done|]. split; [|done].
  intros k. unfold put_joint. cbn [World.joints World.with_joints].
  destruct (decide (j = k)) as [<-|Hne].
  - rewrite lookup_insert_eq, Hx. cbn. by rewrite Hf.
  - by rewrite lookup_insert_ne.
Qed.

(** *** What the writes of a step do to a body *)

Lemma body_makeup_flags (new old : Body.t) :
  Body.m_type new = Body.m_type old →
  Body.m_fixtureList new = Body.m_fixtureList old →
  Body.m_fixtureCount new = Body.m_fixtureCount old →
  Body.m_jointList new = Body.m_jointList old →
  Body.m_invMass new = Body.m_invMass old →
  Body.m_invI new = Body.m_invI old →
  Z.testbit (Body.m_flags new) 5 = Z.testbit (Body.m_flags old) 5 →
  Z.testbit (Body.m_flags new) 3 = Z.testbit (Body.m_flags old) 3 →
  body_makeup new = body_makeup old.
Proof.
  intros H1 H2 H3 H4 H5 H6 H7 H8. unfold body_makeup.
  rewrite !Body_IsActive_bit, !Body_IsBullet_bit. congruence.
Qed.

Lemma makeup_clear_island (x : Body.t) :
  body_makeup (Body.with_flags (clear_flag (Body.m_flags x) Body.e_islandFlag) x)
  = body_makeup x.
Proof.
  apply body_makeup_flags; try done.
  all: cbn [Body.m_flags Body.with_flags]; rewrite Body_clear_island_bit by done.
  all: apply andb_true_r.
Qed.

Lemma makeup_set_island (x : Body.t) :
  body_makeup (Body.with_flags (set_flag (Body.m_flags x) Body.e_islandFlag) x)
  = body_makeup x.
Proof.
  apply body_makeup_flags; try done.
  all: cbn [Body.m_flags Body.with_flags]; rewrite Body_set_island_bit by done.
  all: apply orb_false_r.
Qed.

Lemma makeup_SetAwake (flag : bool) (x : Body.t) :
  body_makeup (Body.SetAwake flag x) = body_makeup x.
Proof.
  destruct flag.
  - apply body_makeup_flags;
      try (unfold Body.SetAwake; by destruct (Z.land (Body.m_flags x) Body.e_awakeFlag =? 0)).
    all: rewrite Body_SetAwake_true_flags by done; apply orb_false_r.
  - apply body_makeup_flags; try done.
    all: cbn [Body.SetAwake Body.m_flags Body.with_flags Body.with_motion].
    all: change Body.e_awakeFlag with (2 ^ 1); rewrite testbit_clear_flag by done.
    all: apply andb_true_r.
Qed.

Lemma makeup_clear_sweep (x : Body.t) (s : Sweep.t) :
  body_makeup (set_sweep s (Body.with_flags
                              (clear_flag (Body.m_flags x) Body.e_islandFlag) x))
  = body_makeup x.
Proof. rewrite <- (makeup_clear_island x). by apply body_makeup_flags. Qed.

(** Every write of a step to a body keeps the makeup of the body. *)
Ltac body_writes :=
  first
    [ apply makeup_clear_island
    | apply makeup_set_island
    | apply makeup_SetAwake
    | apply makeup_clear_sweep
    | reflexivity
    | match goal with
      | |- context [island_toi_solution ?w ?i ?s ?b ?x] =>
          by destruct (island_toi_solution w i s b x) as [[[? ?] ?] ?]
      end ].

Ltac to_untouched :=
  repeat match goal with
  | H : update_body _ _ _ = Done _ |- _ =>
      apply update_body_untouched in H; [|intros ?; body_writes]
  | H : update_contact _ _ _ = Done _ |- _ => apply update_contact_untouched in H
  | H : update_joint _ _ _ = Done _ |- _ =>
      apply update_joint_untouched in H; [|intros ?; reflexivity]
  end.

Ltac links :=
  repeat first
    [ reflexivity
    | eassumption
    | etransitivity; [eassumption|]
    | apply untouched_contacts; reflexivity ].

Lemma for_each_untouched {A : Type} (f : A → World.t → result World.t) (l : list A)
    (w w' : World.t) :
  (∀ x s1 s2, f x s1 = Done s2 → untouched s1 s2) →
  for_each f l w = Done w' → untouched w w'.
Proof.
  intros Hf. apply (for_each_Done_ind untouched); [apply reflexivity | apply transitivity |].
  intros x s1 s2 _. apply Hf.
Qed.

Lemma for_each_untouched_with {A X : Type} (f : A → World.t * X → result (World.t * X))
    (l : list A) (s s' : World.t * X) :
  (∀ x s1 s2, f x s1 = Done s2 → untouched s1.1 s2.1) →
  for_each f l s = Done s' → untouched s.1 s'.1.
Proof.
  intros Hf.
  apply (for_each_Done_ind (λ s s' : World.t * X, untouched s.1 s'.1)).
  - intros s0. reflexivity.
  - intros s1 s2 s3. apply transitivity.
  - intros x s1 s2 _. apply Hf.
Qed.

Section Untouched.
Context {env : Collaborators}.
Variable bm : build.

Lemma ClearForces_untouched (w w' : World.t) : ClearForces w = Done w' → untouched w w'.
Proof.
  unfold ClearForces. apply for_each_untouched. intros b s1 s2 Hu. by to_untouched.
Qed.

Lemma Contact_Update_untouched (c : nat) (w w' : World.t) :
  Contact_Update c w = Done w' → untouched w w'.
Proof.
  unfold Contact_Update. destruct (narrow_phase w c) as [touching enabled].
  apply update_contact_untouched.
Qed.

Lemma ContactManager_Destroy_untouched (c : nat) (w w' : World.t) :
  ContactManager_Destroy c w = Done w' → untouched w w'.
Proof.
  unfold ContactManager_Destroy. intros Hrun. run_all; subst. to_untouched.
  match goal with
  | H : untouched ?a ?b, H' : untouched ?b ?c |- untouched ?w (World.with_contacts _ ?c) =>
      transitivity a; [by apply untouched_contacts|];
      transitivity b; [done|]; transitivity c; [done | by apply untouched_contacts]
  end.
Qed.

Lemma Collide_untouched (w w' : World.t) : Collide w = Done w' → untouched w w'.
Proof.
  unfold Collide. apply for_each_untouched. intros c s1 s2.
  destruct (broad_phase_overlap s1 c);
    [apply Contact_Update_untouched | apply ContactManager_Destroy_untouched].
Qed.

Lemma AddPair_untouched (pair : nat * nat) (w w' : World.t) :
  AddPair pair w = Done w' → untouched w w'.
Proof.
  unfold AddPair. destruct pair as [fixtureA fixtureB]. intros Hrun.
  cbv zeta in Hrun. run_all; subst; try reflexivity. to_untouched.
  match goal with
  | H : untouched ?a ?b, H' : untouched ?b w' |- _ =>
      transitivity a; [by apply untouched_contacts | by transitivity b]
  end.
Qed.

Lemma FindNewContacts_untouched (moved : list nat) (w w' : World.t) :
  FindNewContacts moved w = Done w' → untouched w w'.
Proof.
  unfold FindNewContacts. apply for_each_untouched. intros x s1 s2.
  apply AddPair_untouched.
Qed.

(** *** Solve *)

Lemma Island_AddBody_untouched (b : nat) (w w' : World.t) (island island' : Island.t) :
  Island_AddBody bm b (w, island) = Done (w', island') → untouched w w'.
Proof. unfold Island_AddBody. intros Hrun. run_all. subst. by to_untouched. Qed.

Lemma push_body_untouched (sz : Z) (b : nat) (w w' : World.t) (stack stack' : list nat) :
  push_body sz b w stack = Done (w', stack') → untouched w w'.
Proof. unfold push_body. intros Hrun. run_all. subst. by to_untouched. Qed.

Lemma search_contact_untouched (sz : Z) (ce : cb2ContactEdge) (s1 s2 : search_state) :
  search_contact bm sz ce s1 = Done s2 → untouched s1.1.1 s2.1.1.
Proof.
  unfold search_contact. destruct s1 as [[w island] stack]. intros Hrun.
  run_all; subst; cbn [fst]; try reflexivity.
  all: repeat match goal with
       | H : push_body _ _ _ _ = Done _ |- _ => apply push_body_untouched in H
       end.
  all: to_untouched; links.
Qed.

Lemma search_joint_untouched (sz : Z) (je : cb2JointEdge) (s1 s2 : search_state) :
  search_joint bm sz je s1 = Done s2 → untouched s1.1.1 s2.1.1.
Proof.
  unfold search_joint. destruct s1 as [[w island] stack]. intros Hrun.
  run_all; subst; cbn [fst]; try reflexivity.
  all: repeat match goal with
       | H : push_body _ _ _ _ = Done _ |- _ => apply push_body_untouched in H
       end.
  all: to_untouched; links.
Qed.

Lemma search_edges_untouched {A : Type} (f : A → search_state → result search_state)
    (l : list A) (s s' : search_state) :
  (∀ x s1 s2, f x s1 = Done s2 → untouched s1.1.1 s2.1.1) →
  for_each f l s = Done s' → untouched s.1.1 s'.1.1.
Proof.
  intros Hf.
  apply (for_each_Done_ind (λ s s' : search_state, untouched s.1.1 s'.1.1)).
  - intros s0. reflexivity.
  - intros s1 s2 s3. apply transitivity.
  - intros x s1 s2 _. apply Hf.
Qed.

Lemma search_untouched (fuel : nat) (sz : Z) (st : search_state)
    (w' : World.t) (island' : Island.t) :
  search bm fuel sz st = Done (w', island') → untouched st.1.1 w'.
Proof.
  revert st. induction fuel as [|fuel IH]; intros [[w island] stack] Hrun;
    cbn [search] in Hrun; cbn [fst].
  - destruct stack; [|done]. by injection Hrun as -> _.
  - destruct stack as [|b stack]; [by injection Hrun as -> _|].
    apply bind_Done in Hrun as (body & Hbody & Hrun).
    apply bind_Done in Hrun as (? & _ & Hrun).
    apply bind_Done in Hrun as ([w1 island1] & Hadd & Hrun).
    apply bind_Done in Hrun as (w2 & Hwake & Hrun).
    apply Island_AddBody_untouched in Hadd. to_untouched.
    transitivity w1; [done|]. transitivity w2; [done|].
    case_decide.
    + by apply IH in Hrun.
    + apply bind_Done in Hrun as (st1 & Hc & Hrun).
      apply bind_Done in Hrun as (st2 & Hj & Hrun).
      apply search_edges_untouched in Hc; [|apply search_contact_untouched].
      apply search_edges_untouched in Hj; [|apply search_joint_untouched].
      apply IH in Hrun. cbn [fst] in Hc.
      transitivity st1.1.1; [done|]. by transitivity st2.1.1.
Qed.

Lemma Island_Solve_untouched (step : cb2TimeStep) (allowSleep : bool) (island : Island.t)
    (w w' : World.t) :
  Island_Solve step allowSleep island w = Done w' → untouched w w'.
Proof.
  unfold Island_Solve. destruct (allowSleep && island_sleeps w island step).
  - apply for_each_untouched. intros b s1 s2 Hu. by to_untouched.
  - by intros [= ->].
Qed.

Lemma post_solve_cleanup_untouched (island : Island.t) (w w' : World.t) :
  post_solve_cleanup island w = Done w' → untouched w w'.
Proof.
  unfold post_solve_cleanup. apply for_each_untouched. intros b s1 s2.
  unfold cleanup_step. intros Hrun. run_all; subst; [|reflexivity].
  match goal with H : get_body _ _ = Done ?x |- _ => apply deref_Done in H; rename H into Hx end.
  split; [|done]. split; [|done].
  intros k. unfold put_body. cbn [World.bodies World.with_bodies].
  destruct (decide (b = k)) as [<-|Hne].
  - rewrite lookup_insert_eq, Hx. cbn. by rewrite makeup_clear_island.
  - by rewrite lookup_insert_ne.
Qed.

Lemma Solve_seed_untouched (fuel : nat) (step : cb2TimeStep) (sz : Z) (seed : nat)
    (s1 s2 : World.t * Island.t * list Island.t) :
  Solve_seed bm fuel step sz seed s1 = Done s2 → untouched s1.1.1 s2.1.1.
Proof.
  unfold Solve_seed. destruct s1 as [[w island] built]. intros Hrun.
  run_all; subst; cbn [fst]; try reflexivity.
  repeat match goal with
  | H : push_body _ _ _ _ = Done _ |- _ => apply push_body_untouched in H
  | H : search _ _ _ _ = Done _ |- _ => apply search_untouched in H; cbn [fst] in H
  | H : Island_Solve _ _ _ _ = Done _ |- _ => apply Island_Solve_untouched in H
  | H : post_solve_cleanup _ _ = Done _ |- _ => apply post_solve_cleanup_untouched in H
  end.
  links.
Qed.

Lemma Solve_untouched (fuel : nat) (step : cb2TimeStep) (w w' : World.t)
    (built : list Island.t) :
  Solve bm fuel step w = Done (w', built) → untouched w w'.
Proof.
  unfold Solve. intros Hrun.
  apply bind_Done in Hrun as (w1 & H1 & Hrun).
  apply bind_Done in Hrun as (w2 & H2 & Hrun).
  apply bind_Done in Hrun as (w3 & H3 & Hrun).
  cbv zeta in Hrun.
  apply bind_Done in Hrun as ([[w4 island4] built4] & H4 & Hrun).
  apply bind_Done in Hrun as (moved & _ & Hrun).
  apply bind_Done in Hrun as (w5 & H5 & Hrun).
  injection Hrun as <- <-.
  apply for_each_untouched in H1; [|intros b s1 s2 Hu; by to_untouched].
  apply for_each_untouched in H2; [|intros b s1 s2 Hu; by to_untouched].
  apply for_each_untouched in H3; [|intros b s1 s2 Hu; by to_untouched].
  apply (for_each_Done_ind (λ s s' : World.t * Island.t * list Island.t,
                              untouched s.1.1 s'.1.1)) in H4.
  - apply FindNewContacts_untouched in H5. cbn [fst] in H4.
    transitivity w1; [done|]. transitivity w2; [done|]. transitivity w3; [done|].
    by transitivity w4.
  - intros s0. reflexivity.
  - intros s1 s2 s3. apply transitivity.
  - intros x s1 s2 _. apply Solve_seed_untouched.
Qed.

(** *** SolveTOI *)

Lemma restore_sweep_untouched (s : Sweep.t) (b : nat) (w w' : World.t) :
  restore_sweep s b w = Done w' → untouched w w'.
Proof. unfold restore_sweep. intros Hu. by to_untouched. Qed.

Lemma Island_SolveTOI_untouched (subStep : cb2TimeStep) (island : Island.t) (w w' : World.t) :
  Island_SolveTOI subStep island w = Done w' → untouched w w'.
Proof.
  unfold Island_SolveTOI. generalize w at 1 as w0. intros w0.
  apply for_each_untouched. intros b s1 s2 Hu. by to_untouched.
Qed.

Lemma toi_reset_body_untouched (b : nat) (s1 s2 : World.t * list nat) :
  toi_reset_body b s1 = Done s2 → untouched s1.1 s2.1.
Proof.
  unfold toi_reset_body. destruct s1 as [w moved]. intros Hrun.
  run_all; subst; cbn [fst]; to_untouched; [done|].
  etransitivity; [eassumption|].
  match goal with H : for_each _ _ _ = Done _ |- _ => revert H end.
  apply for_each_untouched. intros ce s1 s2 Hu. by to_untouched.
Qed.

Ltac more_untouched :=
  repeat match goal with
  | H : restore_sweep _ _ _ = Done _ |- _ => apply restore_sweep_untouched in H
  | H : Contact_Update _ _ = Done _ |- _ => apply Contact_Update_untouched in H
  | H : Island_AddBody _ _ _ = Done _ |- _ => apply Island_AddBody_untouched in H
  | H : Island_SolveTOI _ _ _ = Done _ |- _ => apply Island_SolveTOI_untouched in H
  | H : FindNewContacts _ _ = Done _ |- _ => apply FindNewContacts_untouched in H
  | H : for_each toi_reset_body _ _ = Done _ |- _ =>
      apply (for_each_untouched_with _ _ _ _ toi_reset_body_untouched) in H; cbn [fst] in H
  end; to_untouched.

Lemma toi_collect_edge_untouched (alpha : R) (body : nat) (ce : cb2ContactEdge)
    (w w' : World.t) (island island' : Island.t) :
  toi_collect_edge bm alpha body ce (w, island) = Done (w', island') → untouched w w'.
Proof.
  unfold toi_collect_edge. intros Hrun. cbv zeta in Hrun.
  run_all; subst; more_untouched; links.
Qed.

Lemma toi_collect_untouched (alpha : R) (body : nat) (edges : list cb2ContactEdge)
    (w w' : World.t) (island island' : Island.t) :
  toi_collect bm alpha body edges (w, island) = Done (w', island') → untouched w w'.
Proof.
  revert w island. induction edges as [|ce edges IH]; intros w island Hrun;
    cbn [toi_collect] in Hrun.
  - run_all. subst. reflexivity.
  - run_all; subst; try reflexivity.
    match goal with H : toi_collect_edge _ _ _ _ _ = Done ?x |- _ => destruct x end.
    etransitivity; [by eapply toi_collect_edge_untouched | by eapply IH].
Qed.

Lemma toi_collect_body_untouched (alpha : R) (body : nat)
    (w w' : World.t) (island island' : Island.t) :
  toi_collect_body bm alpha body (w, island) = Done (w', island') → untouched w w'.
Proof.
  unfold toi_collect_body. intros Hrun. cbn [fst] in Hrun.
  run_all; subst; [by eapply toi_collect_untouched | reflexivity].
Qed.

Lemma compute_toi_untouched (c : nat) (ct : Contact.t) (w w' : World.t) (alpha : R) :
  compute_toi bm c ct w = Done (Some (w', alpha)) → untouched w w'.
Proof.
  unfold compute_toi. intros Hrun. cbv zeta in Hrun.
  run_all; simplify_eq; more_untouched; links.
Qed.

Lemma toi_scan_contact_untouched (c : nat) (s1 s2 : World.t * toi_event) :
  toi_scan_contact bm c s1 = Done s2 → untouched s1.1 s2.1.
Proof.
  unfold toi_scan_contact. destruct s1 as [w ev]. intros Hrun.
  run_all; simplify_eq; cbn [fst]; try reflexivity.
  all: by eapply compute_toi_untouched.
Qed.

Lemma toi_scan_untouched (w w' : World.t) (ev : toi_event) :
  toi_scan bm w = Done (w', ev) → untouched w w'.
Proof.
  unfold toi_scan. intros Hrun.
  by apply (for_each_untouched_with _ _ _ _ toi_scan_contact_untouched) in Hrun.
Qed.

Lemma toi_iteration_untouched (step : cb2TimeStep) (island island' : Island.t)
    (w w' : World.t) (ev : toi_event) (control : loop_control) :
  toi_iteration bm step island w = Done (w', island', ev, control) → untouched w w'.
Proof.
  unfold toi_iteration. intros Hrun. cbv zeta in Hrun.
  run_all; simplify_eq.
  all: repeat match goal with
       | H : toi_collect_body _ _ _ _ = Done ?x |- _ => is_var x; destruct x
       | H : toi_scan _ _ = Done _ |- _ => apply toi_scan_untouched in H
       | H : toi_collect_body _ _ _ _ = Done _ |- _ => apply toi_collect_body_untouched in H
       end.
  all: more_untouched; links.
Qed.

Lemma toi_loop_untouched (fuel : nat) (step : cb2TimeStep) (island : Island.t)
    (w w' : World.t) (events : list toi_event) :
  toi_loop bm fuel step island w = Done (w', events) → untouched w w'.
Proof.
  revert w events island. induction fuel as [|fuel IH]; intros w events island Hrun;
    cbn [toi_loop] in Hrun; [done|].
  apply bind_Done in Hrun as ([[[w1 island1] ev] control] & Hit & Hrun).
  apply toi_iteration_untouched in Hit.
  destruct control.
  - by injection Hrun as <- _.
  - apply bind_Done in Hrun as ([w2 events2] & Hloop & Hrun).
    injection Hrun as <- _. apply IH in Hloop. by transitivity w1.
Qed.

Lemma SolveTOI_untouched (fuel : nat) (step : cb2TimeStep) (w w' : World.t)
    (events : list toi_event) :
  SolveTOI bm fuel step w = Done (w', events) → untouched w w'.
Proof.
  unfold SolveTOI. intros Hrun. cbv zeta in Hrun.
  apply bind_Done in Hrun as (w1 & Hreset & Hrun).
  apply toi_loop_untouched in Hrun.
  transitivity w1; [|done]. clear Hrun.
  destruct (World.m_stepComplete w); [|by injection Hreset as ->].
  apply bind_Done in Hreset as (w0 & H0 & H1).
  apply for_each_untouched in H0; [|intros b s1 s2 Hu; by to_untouched].
  apply for_each_untouched in H1; [|intros b s1 s2 Hu; by to_untouched].
  by transitivity w0.
Qed.

(** *** Step *)

Lemma flags_after_Step (f : Z) :
  clear_flag (set_flag f World.e_locked) World.e_locked = clear_flag f World.e_locked.
Proof.
  apply Z.bits_inj'. intros n Hn. change World.e_locked with (2 ^ 1).
  rewrite !testbit_clear_flag, testbit_set_flag by done.
  destruct (1 =? n), (Z.testbit f n); done.
Qed.

Lemma clear_flag_off (f k : Z) :
  0 <= k → Z.testbit f k = false → clear_flag f (2 ^ k) = f.
Proof.
  intros Hk Hoff. apply Z.bits_inj'. intros n Hn.
  rewrite testbit_clear_flag by done.
  destruct (Z.eqb_spec k n) as [<-|_]; [by rewrite Hoff | apply andb_true_r].
Qed.

(** X21: a call of [Step] that returns has created and destroyed no
    body, no joint and no fixture: every body has its type, its fixtures,
    its joints and its mass, and is active and a bullet as before, every
    joint connects the same bodies, and the lists of bodies and of joints,
    the gravity and the settings of the world are unchanged.  Of the flags
    of the world it has cleared the new-fixture flag and the lock and kept
    the others, and it has recorded the inverse of a positive time step and
    has kept the recorded one otherwise. *)
Theorem Step_keeps_the_makeup_of_the_world (fuel : nat) (dt : R) (vi pi : Z)
    (w w' : World.t) (log : step_log) :
  Step bm fuel dt vi pi w = Done (w', log) →
  same_makeup w w'
  ∧ World.m_flags w'
    = clear_flag (clear_flag (World.m_flags w) World.e_newFixture) World.e_locked
  ∧ World.m_inv_dt0 w' = (if decide (0 < dt)%R then (1 / dt)%R else World.m_inv_dt0 w).
Proof.
  unfold Step. intros Hrun.
  apply bind_Done in Hrun as (w1 & Hpre & Hrun). cbv zeta in Hrun.
  apply bind_Done in Hrun as (w2 & Hcol & Hrun).
  apply bind_Done in Hrun as ([w3 solved] & Hsolve & Hrun).
  apply bind_Done in Hrun as ([w4 toi] & Htoi & Hrun).
  apply bind_Done in Hrun as (w5 & Hclear & Hrun).
  injection Hrun as <- _.
  assert (M1 : same_makeup w w1 ∧ World.m_inv_dt0 w1 = World.m_inv_dt0 w
               ∧ World.m_flags w1 = clear_flag (World.m_flags w) World.e_newFixture).
  { destruct (flag_on (World.m_flags w) World.e_newFixture) eqn:Hnew.
    - apply bind_Done in Hpre as (w0 & Hfind & Hpre). injection Hpre as <-.
      apply FindNewContacts_untouched in Hfind as (M & F & D).
      split; [|split; [done|]].
      + destruct M as (MB & MJ & MS). by repeat split.
      + cbn [World.m_flags World.with_flags]. by rewrite F.
    - injection Hpre as <-. split; [reflexivity|]. split; [done|].
      symmetry. change World.e_newFixture with (2 ^ 0). apply clear_flag_off; [done|].
      change World.e_newFixture with (2 ^ 0) in Hnew. by rewrite flag_on_pow2 in Hnew. }
  destruct M1 as (M1 & D1 & F1).
  apply Collide_untouched in Hcol as (M2 & F2 & D2).
  assert (M3 : untouched w2 w3).
  { destruct (World.m_stepComplete w2 && bool_decide (0 < dt)%R).
    - apply bind_Done in Hsolve as ([w0 built] & Hsolve & Heq). injection Heq as <- _.
      by apply Solve_untouched in Hsolve.
    - injection Hsolve as <- _. reflexivity. }
  assert (M4 : untouched w3 w4).
  { destruct (World.m_continuousPhysics w3 && bool_decide (0 < dt)%R).
    - apply bind_Done in Htoi as ([w0 events] & Htoi & Heq). injection Heq as <- _.
      by apply SolveTOI_untouched in Htoi.
    - injection Htoi as <- _. reflexivity. }
  assert (M5 : untouched (if decide (0 < dt)%R
                          then World.with_inv_dt0 (inv_dt (time_step
                                 (World.with_flags
                                    (set_flag (World.m_flags w1) World.e_locked) w1)
                                 dt vi pi)) w4
                          else w4) w5).
  { destruct (flag_on _ World.e_clearForces).
    - by apply ClearForces_untouched in Hclear.
    - injection Hclear as <-. reflexivity. }
  destruct M3 as (M3 & F3 & D3). destruct M4 as (M4 & F4 & D4).
  destruct M5 as (M5 & F5 & D5).
  cbn [World.m_flags World.with_flags World.m_inv_dt0].
  split; [|split].
  - transitivity w1; [done|]. transitivity w2.
    { destruct M2 as (MB & MJ & MS). by repeat split. }
    transitivity w3; [done|]. transitivity w4; [done|].
    destruct M5 as (MB & MJ & MS). split; [|split].
    + intros b. cbn [World.bodies World.with_flags]. rewrite MB.
      by destruct (decide (0 < dt)%R).
    + intros j. cbn [World.joints World.with_flags]. rewrite MJ.
      by destruct (decide (0 < dt)%R).
    + transitivity (settings w5); [done|]. rewrite MS. by destruct (decide (0 < dt)%R).
  - rewrite F5. replace (World.m_flags (if decide (0 < dt)%R then _ else w4))
      with (World.m_flags w4) by (by destruct (decide (0 < dt)%R)).
    rewrite F4, F3, F2. cbn [World.m_flags World.with_flags].
    by rewrite flags_after_Step, F1.
  - rewrite D5. unfold time_step. cbn [inv_dt].
    destruct (decide (0 < dt)%R); [done|].
    rewrite D4, D3, D2. cbn [World.m_inv_dt0 World.with_flags]. done.
Qed.

End Untouched.

Lemma Step_keeps_the_makeup_of_the_world_witness :
  ∃ w' log,
    Step (env := still_collaborators) Release 3 1 8 3 pushed_body_world = Done (w', log)
    ∧ same_makeup pushed_body_world w'
    ∧ World.m_flags w'
      = clear_flag (clear_flag (World.m_flags pushed_body_world) World.e_newFixture)
                   World.e_locked
    ∧ World.m_inv_dt0 w'
      = (if decide (0 < 1)%R then (1 / 1)%R else World.m_inv_dt0 pushed_body_world).
Proof.
  assert (Hrun : ∃ r, Step (env := still_collaborators) Release 3 1 8 3 pushed_body_world
                      = Done r).
  { unfold Step, time_step. rewrite (bool_decide_eq_true_2 (0 < 1)%R) by lra.
    destruct (decide (0 < 1)%R) as [_|?]; [|lra]. vm_compute. eexists. reflexivity. }
  destruct Hrun as ([w' log] & Hrun). exists w', log. split; [exact Hrun|].
  exact (Step_keeps_the_makeup_of_the_world (env := still_collaborators) Release 3 1 8 3
           pushed_body_world w' log Hrun).
Defined.

(** ** How the TOI loop ends *)

Section Ends.
Context {env : Collaborators}.
Variable bm : build.

(** A turn of the loop goes on after an impact only; it stops with the
    step complete when there is none, and with the step left open, under
    sub-stepping, after an impact. *)
Lemma toi_iteration_outcome (step : cb2TimeStep) (island island' : Island.t)
    (w w' : World.t) (ev : toi_event) (control : loop_control) :
  toi_iteration bm step island w = Done (w', island', ev, control) →
  match control with
  | Continue => impact ev
  | Break =>
      (World.m_stepComplete w' = true ∧ ¬ impact ev)
      ∨ (World.m_stepComplete w' = false ∧ World.m_subStepping w' = true ∧ impact ev)
  end.
Proof.
  unfold toi_iteration. intros Hrun.
  apply bind_Done in Hrun as ([w1 ev1] & _ & Hrun).
  destruct (minContact ev1) as [c|] eqn:Hc.
  - case_decide as Halpha.
    + injection Hrun as <- _ <- <-. left. split; [done|]. intros [_ ?]. lra.
    + assert (Himp : impact ev1) by (split; [by rewrite Hc | lra]).
      cbv zeta in Hrun. run_all; simplify_eq; try done.
      right. split; [done|]. split; [|exact Himp].
      match goal with H : World.m_subStepping _ = true |- _ => exact H end.
  - injection Hrun as <- _ <- <-. left. split; [done|].
    intros [[? Hsome] _]. congruence.
Qed.

Lemma toi_loop_outcome (fuel : nat) (step : cb2TimeStep) (island : Island.t)
    (w w' : World.t) (events : list toi_event) :
  toi_loop bm fuel step island w = Done (w', events) →
  ∃ before last,
    events = before ++ [last]
    ∧ Forall impact before
    ∧ ((World.m_stepComplete w' = true ∧ ¬ impact last)
       ∨ (World.m_stepComplete w' = false ∧ World.m_subStepping w' = true ∧ impact last)).
Proof.
  revert w events island. induction fuel as [|fuel IH]; intros w events island Hrun;
    cbn [toi_loop] in Hrun; [done|].
  apply bind_Done in Hrun as ([[[w1 island1] ev] control] & Hit & Hrun).
  apply toi_iteration_outcome in Hit.
  destruct control.
  - injection Hrun as <- <-. by exists [], ev.
  - apply bind_Done in Hrun as ([w2 events2] & Hloop & Hrun).
    injection Hrun as <- <-.
    apply IH in Hloop as (before & last & -> & Hall & Hlast).
    exists (ev :: before), last. split; [done|]. split; [by constructor | done].
Qed.

(** X22: a call of [SolveTOI] that returns has gone through one event or
    more; every event but the last is an impact, a contact with a time of
    impact before the end of the step.  Either the last event is none, and
    the step is complete, or the last event is an impact too, sub-stepping
    is on, and the step is left open.  So without sub-stepping the step is
    complete. *)
Theorem SolveTOI_completes_the_step (fuel : nat) (step : cb2TimeStep)
    (w w' : World.t) (events : list toi_event) :
  SolveTOI bm fuel step w = Done (w', events) →
  ∃ before last,
    events = before ++ [last]
    ∧ Forall impact before
    ∧ ((World.m_stepComplete w' = true ∧ ¬ impact last)
       ∨ (World.m_stepComplete w' = false ∧ World.m_subStepping w = true ∧ impact last)).
Proof.
  intros Hrun.
  pose proof (SolveTOI_untouched bm _ _ _ _ _ Hrun) as ((_ & _ & HS) & _).
  assert (Hsub : World.m_subStepping w' = World.m_subStepping w).
  { unfold settings in HS. by injection HS. }
  rewrite <- Hsub. revert Hrun. unfold SolveTOI. intros Hrun.
  apply bind_Done in Hrun as (w1 & _ & Hrun).
  by apply toi_loop_outcome in Hrun.
Qed.

End Ends.

Lemma SolveTOI_completes_the_step_witness :
  ∃ w' events before last,
    SolveTOI (env := still_collaborators) Release 1 sample_step worn_world = Done (w', events)
    ∧ events = before ++ [last]
    ∧ Forall impact before
    ∧ ((World.m_stepComplete w' = true ∧ ¬ impact last)
       ∨ (World.m_stepComplete w' = false ∧ World.m_subStepping worn_world = true
          ∧ impact last)).
Proof.
  assert (Hrun : ∃ r, SolveTOI (env := still_collaborators) Release 1 sample_step worn_world
                      = Done r).
  { eexists. vm_compute. reflexivity. }
  destruct Hrun as ([w' events] & Hrun).
  destruct (SolveTOI_completes_the_step (env := still_collaborators) Release 1 sample_step
              worn_world w' events Hrun) as (before & last & H).
  by exists w', events, before, last.
Defined.

(** ** The sub-step counters are bounded *)

#[global] Instance counts_capped_preorder : PreOrder counts_capped.
Proof.
  split.
  - intros w c ct Hc. right. exists ct. split; [done | lia].
  - intros w1 w2 w3 H12 H23 c ct3 Hc3.
    destruct (H23 c ct3 Hc3) as [?|(ct2 & Hc2 & Hle2)]; [by left|].
    destruct (H12 c ct2 Hc2) as [?|(ct1 & Hc1 & Hle1)]; [left; lia|].
    right. exists ct1. split; [done | lia].
Qed.

Lemma counts_capped_contacts (w w' : World.t) :
  World.contacts w' = World.contacts w → counts_capped w w'.
Proof. intros Heq c ct Hc. right. exists ct. rewrite <- Heq. split; [done | lia]. Qed.

Lemma update_body_capped (f : Body.t → Body.t) (b : nat) (w w' : World.t) :
  update_body f b w = Done w' → counts_capped w w'.
Proof.
  intros Hu. apply update_body_Done in Hu as (x & _ & ->).
  by apply counts_capped_contacts.
Qed.

Lemma update_contact_capped (f : Contact.t → Contact.t) (c : nat) (w w' : World.t) :
  (∀ ct, Contact.m_toiCount (f ct) <= Contact.m_toiCount ct
         ∨ Contact.m_toiCount (f ct) <= 0) →
  update_contact f c w = Done w' → counts_capped w w'.
Proof.
  intros Hf Hu. apply update_contact_Done in Hu as (x & Hx & ->).
  intros c' ct' Hc'. unfold put_contact in Hc'.
  cbn [World.contacts World.with_contacts] in Hc'.
  destruct (decide (c = c')) as [<-|Hne].
  - rewrite lookup_insert_eq in Hc'. injection Hc' as <-.
    destruct (Hf x); [|by left]. right. by exists x.
  - rewrite lookup_insert_ne in Hc' by done. right. exists ct'. split; [done | lia].
Qed.

Lemma bounded_capped (w w' : World.t) :
  counts_capped w w' → sub_steps_bounded w → sub_steps_bounded w'.
Proof.
  intros Hcap Hb c ct' Hc'. unfold sub_steps_bounded, cb2_maxSubSteps in *.
  destruct (Hcap c ct' Hc') as [?|(ct & Hc & Hle)]; [lia|].
  specialize (Hb c ct Hc). lia.
Qed.

Ltac capped_links :=
  repeat first
    [ reflexivity
    | eassumption
    | etransitivity; [eassumption|]
    | apply counts_capped_contacts; reflexivity ].

Section Capped.
Context {env : Collaborators}.
Variable bm : build.

Lemma Contact_Update_capped (c : nat) (w w' : World.t) :
  Contact_Update c w = Done w' → counts_capped w w'.
Proof.
  unfold Contact_Update. destruct (narrow_phase w c) as [touching enabled].
  apply update_contact_capped. intros ct. left. cbn. lia.
Qed.

Lemma Island_AddBody_capped (b : nat) (w w' : World.t) (island island' : Island.t) :
  Island_AddBody bm b (w, island) = Done (w', island') → counts_capped w w'.
Proof.
  unfold Island_AddBody. intros Hrun. run_all. subst.
  by eapply update_body_capped.
Qed.

Lemma AddPair_capped (pair : nat * nat) (w w' : World.t) :
  AddPair pair w = Done w' → counts_capped w w'.
Proof.
  unfold AddPair. destruct pair as [fixtureA fixtureB]. intros Hrun.
  cbv zeta in Hrun. run_all; subst; try reflexivity.
  repeat match goal with
  | H : update_body _ _ _ = Done _ |- _ => apply update_body_capped in H
  end.
  match goal with
  | H : counts_capped ?a ?b, H' : counts_capped ?b w' |- _ =>
      transitivity a; [|by transitivity b]
  end.
  intros c ct' Hc'.
  cbn [World.contacts World.with_contacts World.with_contactList] in Hc'.
  apply lookup_insert_Some in Hc' as [[_ <-]|[_ Hc']].
  - left. cbn. lia.
  - right. exists ct'. split; [done | lia].
Qed.

Lemma FindNewContacts_capped (moved : list nat) (w w' : World.t) :
  FindNewContacts moved w = Done w' → counts_capped w w'.
Proof.
  unfold FindNewContacts.
  apply (for_each_Done_ind counts_capped); [apply reflexivity | apply transitivity |].
  intros x s1 s2 _. apply AddPair_capped.
Qed.

Lemma Island_SolveTOI_capped (subStep : cb2TimeStep) (island : Island.t) (w w' : World.t) :
  Island_SolveTOI subStep island w = Done w' → counts_capped w w'.
Proof.
  unfold Island_SolveTOI. generalize w at 1 as w0. intros w0.
  apply (for_each_Done_ind counts_capped); [apply reflexivity | apply transitivity |].
  intros x s1 s2 _. apply update_body_capped.
Qed.

Lemma toi_reset_body_capped (b : nat) (s1 s2 : World.t * list nat) :
  toi_reset_body b s1 = Done s2 → counts_capped s1.1 s2.1.
Proof.
  unfold toi_reset_body. destruct s1 as [w moved]. intros Hrun. run_all; subst; cbn [fst].
  - by eapply update_body_capped.
  - etransitivity; [by eapply update_body_capped|].
    match goal with H : for_each _ _ _ = Done _ |- _ => revert H end.
    apply (for_each_Done_ind counts_capped);
      [apply reflexivity | apply transitivity |].
    intros ce s1 s2 _. apply update_contact_capped. intros ct. left. cbn. lia.
Qed.

Lemma toi_reset_capped (bodies : list nat) (s1 s2 : World.t * list nat) :
  for_each toi_reset_body bodies s1 = Done s2 → counts_capped s1.1 s2.1.
Proof.
  apply (for_each_Done_ind (λ s s' : World.t * list nat, counts_capped s.1 s'.1)).
  - intros s. reflexivity.
  - intros s3 s4 s5. apply transitivity.
  - intros b s3 s4 _. apply toi_reset_body_capped.
Qed.

Ltac to_capped :=
  repeat match goal with
  | H : update_body _ _ _ = Done _ |- _ => apply update_body_capped in H
  | H : restore_sweep _ _ _ = Done _ |- _ => apply update_body_capped in H
  | H : Contact_Update _ _ = Done _ |- _ => apply Contact_Update_capped in H
  | H : Island_AddBody _ _ _ = Done _ |- _ => apply Island_AddBody_capped in H
  | H : Island_SolveTOI _ _ _ = Done _ |- _ => apply Island_SolveTOI_capped in H
  | H : FindNewContacts _ _ = Done _ |- _ => apply FindNewContacts_capped in H
  | H : for_each toi_reset_body _ _ = Done _ |- _ =>
      apply toi_reset_capped in H; cbn [fst] in H
  | H : update_contact _ _ _ = Done _ |- _ =>
      apply update_contact_capped in H; [|intros ?; left; cbn; lia]
  end.

Lemma toi_collect_edge_capped (alpha : R) (body : nat) (ce : cb2ContactEdge)
    (w w' : World.t) (island island' : Island.t) :
  toi_collect_edge bm alpha body ce (w, island) = Done (w', island') → counts_capped w w'.
Proof.
  unfold toi_collect_edge. intros Hrun. cbv zeta in Hrun.
  run_all; subst; to_capped; capped_links.
Qed.

Lemma toi_collect_capped (alpha : R) (body : nat) (edges : list cb2ContactEdge)
    (w w' : World.t) (island island' : Island.t) :
  toi_collect bm alpha body edges (w, island) = Done (w', island') → counts_capped w w'.
Proof.
  revert w island. induction edges as [|ce edges IH]; intros w island Hrun;
    cbn [toi_collect] in Hrun.
  - run_all. subst. reflexivity.
  - run_all; subst; try reflexivity.
    match goal with H : toi_collect_edge _ _ _ _ _ = Done ?x |- _ => destruct x end.
    etransitivity; [by eapply toi_collect_edge_capped | by eapply IH].
Qed.

Lemma toi_collect_body_capped (alpha : R) (body : nat)
    (w w' : World.t) (island island' : Island.t) :
  toi_collect_body bm alpha body (w, island) = Done (w', island') → counts_capped w w'.
Proof.
  unfold toi_collect_body. intros Hrun. cbn [fst] in Hrun.
  run_all; subst; [by eapply toi_collect_capped | reflexivity].
Qed.

Lemma compute_toi_capped (c : nat) (ct : Contact.t) (w w' : World.t) (alpha : R) :
  compute_toi bm c ct w = Done (Some (w', alpha)) → counts_capped w w'.
Proof.
  unfold compute_toi. intros Hrun. cbv zeta in Hrun.
  run_all; simplify_eq; to_capped; capped_links.
Qed.

Lemma toi_scan_contact_capped (c : nat) (s1 s2 : World.t * toi_event) :
  toi_scan_contact bm c s1 = Done s2 → counts_capped s1.1 s2.1.
Proof.
  unfold toi_scan_contact. destruct s1 as [w ev]. intros Hrun.
  run_all; simplify_eq; cbn [fst]; try reflexivity.
  all: by eapply compute_toi_capped.
Qed.

Lemma toi_scan_capped (w w' : World.t) (ev : toi_event) :
  toi_scan bm w = Done (w', ev) → counts_capped w w'.
Proof.
  unfold toi_scan.
  apply (for_each_Done_ind (λ s s' : World.t * toi_event, counts_capped s.1 s'.1)
           (toi_scan_contact bm) (World.m_contactList w) (w, mkEvent None 1) (w', ev)).
  - intros s. reflexivity.
  - intros s1 s2 s3. apply transitivity.
  - intros c s1 s2 _. apply toi_scan_contact_capped.
Qed.

(** The contact of the event has sub-steps left when the search ends. *)
Lemma toi_scan_event_count (w w' : World.t) (ev : toi_event) (c : nat) (ct : Contact.t) :
  toi_scan bm w = Done (w', ev) → minContact ev = Some c →
  World.contacts w' !! c = Some ct →
  Contact.m_toiCount ct <= cb2_maxSubSteps.
Proof.
  intros Hscan Hev Hc.
  destruct (toi_scan_capped _ _ _ Hscan c ct Hc) as [?|(ct0 & Hc0 & Hle)];
    [unfold cb2_maxSubSteps; lia|].
  destruct (decide (cb2_maxSubSteps < Contact.m_toiCount ct0)) as [Hex|?]; [|lia].
  exfalso. apply (toi_scan_excludes bm c w w' ev); [by exists ct0 | done | done].
Qed.

Lemma toi_iteration_bounded (step : cb2TimeStep) (island island' : Island.t)
    (w w' : World.t) (ev : toi_event) (control : loop_control) :
  sub_steps_bounded w →
  toi_iteration bm step island w = Done (w', island', ev, control) →
  sub_steps_bounded w'.
Proof.
  intros Hb. unfold toi_iteration. intros Hrun.
  apply bind_Done in Hrun as ([w1 ev1] & Hscan & Hrun).
  pose proof (toi_scan_capped _ _ _ Hscan) as Hcap1.
  pose proof (bounded_capped _ _ Hcap1 Hb) as Hb1.
  destruct (minContact ev1) as [c|] eqn:Hc.
  - case_decide as Halpha.
    + injection Hrun as <- _ _ _. exact Hb1.
    + cbv zeta in Hrun.
      apply bind_Done in Hrun as (ct & Hct & Hrun).
      apply bind_Done in Hrun as ([bA bB] & _ & Hrun).
      apply bind_Done in Hrun as (bodyA & _ & Hrun).
      apply bind_Done in Hrun as (bodyB & _ & Hrun).
      apply bind_Done in Hrun as (w2 & H2 & Hrun).
      apply bind_Done in Hrun as (w3 & H3 & Hrun).
      apply bind_Done in Hrun as (w4 & H4 & Hrun).
      apply bind_Done in Hrun as (w5 & H5 & Hrun).
      apply deref_Done in Hct.
      pose proof (toi_scan_event_count _ _ _ _ _ Hscan Hc Hct) as Hleft.
      assert (Hcap4 : counts_capped w1 w4) by (to_capped; capped_links).
      assert (Hb5 : sub_steps_bounded w5).
      { apply update_contact_Done in H5 as (x & Hx & ->).
        intros c' ct' Hc'. unfold put_contact in Hc'.
        cbn [World.contacts World.with_contacts] in Hc'.
        apply lookup_insert_Some in Hc' as [[_ <-]|[_ Hc']].
        - cbn [Contact.m_toiCount Contact.with_toi].
          destruct (Hcap4 c x Hx) as [?|(ct1 & Hc1 & Hle)];
            [unfold cb2_maxSubSteps; lia|].
          assert (ct1 = ct) as -> by congruence. lia.
        - by apply (bounded_capped _ _ Hcap4 Hb1 c'). }
      assert (Hcap : counts_capped w5 w').
      { clear H2 H3 H4 Hcap4 Hb5 Hcap1.
        run_all; simplify_eq.
        all: repeat match goal with
             | H : toi_collect_body _ _ _ _ = Done ?x |- _ => is_var x; destruct x
             | H : toi_collect_body _ _ _ _ = Done _ |- _ =>
                 apply toi_collect_body_capped in H
             end.
        all: to_capped; capped_links. }
      by apply (bounded_capped _ _ Hcap).
  - injection Hrun as <- _ _ _. exact Hb1.
Qed.

Lemma toi_loop_bounded (fuel : nat) (step : cb2TimeStep) (island : Island.t)
    (w w' : World.t) (events : list toi_event) :
  sub_steps_bounded w →
  toi_loop bm fuel step island w = Done (w', events) →
  sub_steps_bounded w'.
Proof.
  revert w events island. induction fuel as [|fuel IH]; intros w events island Hb Hrun;
    cbn [toi_loop] in Hrun; [done|].
  apply bind_Done in Hrun as ([[[w1 island1] ev] control] & Hit & Hrun).
  apply toi_iteration_bounded in Hit; [|done].
  destruct control.
  - by injection Hrun as <- _.
  - apply bind_Done in Hrun as ([w2 events2] & Hloop & Hrun).
    injection Hrun as <- _. by apply IH in Hloop.
Qed.

(** X23: when no contact of the world has been the event of more than
    [cb2_maxSubSteps + 1] sub-steps, a call of [SolveTOI] that returns leaves
    it so: the counter of a contact grows by one when the contact is the
    event of a turn, and the search passes a contact with more than
    [cb2_maxSubSteps] sub-steps by. *)
Theorem SolveTOI_bounds_the_sub_steps (fuel : nat) (step : cb2TimeStep)
    (w w' : World.t) (events : list toi_event) :
  sub_steps_bounded w →
  SolveTOI bm fuel step w = Done (w', events) →
  sub_steps_bounded w'.
Proof.
  intros Hb. unfold SolveTOI. intros Hrun. cbv zeta in Hrun.
  apply bind_Done in Hrun as (w1 & Hreset & Hrun).
  apply toi_loop_bounded in Hrun; [done|].
  destruct (World.m_stepComplete w); [|by injection Hreset as <-].
  apply bind_Done in Hreset as (w0 & H0 & H1).
  apply (for_each_Done_ind counts_capped) in H0;
    [|apply reflexivity | apply transitivity | intros b s1 s2 _; apply update_body_capped].
  apply (for_each_Done_ind counts_capped) in H1;
    [|apply reflexivity | apply transitivity |].
  - apply (bounded_capped w0 w1 H1). by apply (bounded_capped w w0 H0).
  - intros c s1 s2 _. apply update_contact_capped. intros ct. right. cbn. lia.
Qed.

End Capped.

Lemma SolveTOI_bounds_the_sub_steps_witness :
  ∃ w' events,
    sub_steps_bounded worn_world
    ∧ SolveTOI (env := still_collaborators) Release 1 sample_step worn_world
      = Done (w', events)
    ∧ sub_steps_bounded w'.
Proof.
  assert (Hb : sub_steps_bounded worn_world).
  { intros c ct Hc. unfold worn_world, put_contact in Hc.
    cbn [World.contacts World.with_contacts] in Hc.
    apply lookup_insert_Some in Hc as [[_ <-]|[_ Hc]]; [cbn; unfold cb2_maxSubSteps; lia|].
    apply lookup_insert_Some in Hc as [[_ <-]|[_ Hc]]; [cbn; unfold cb2_maxSubSteps; lia|].
    revert c ct Hc. apply map_Forall_lookup. apply (bool_decide_unpack _). vm_compute.
    exact I. }
  assert (Hrun : ∃ r, SolveTOI (env := still_collaborators) Release 1 sample_step worn_world
                      = Done r).
  { eexists. vm_compute. reflexivity. }
  destruct Hrun as ([w' events] & Hrun).
  exists w', events. split; [exact Hb|]. split; [exact Hrun|].
  exact (SolveTOI_bounds_the_sub_steps (env := still_collaborators) Release 1 sample_step
           worn_world w' events Hb Hrun).
Defined.

(** ** Every body that is awake gets an island *)

#[global] Instance wakes_preorder : PreOrder wakes.
Proof.
  split.
  - intros w b body Hb. by exists body.
  - intros w1 w2 w3 H12 H23 b body Hb.
    destruct (H12 b body Hb) as (body2 & Hb2 & Hf2 & Ha2).
    destruct (H23 b body2 Hb2) as (body3 & Hb3 & Hf3 & Ha3).
    exists body3. split; [done|]. split; auto.
Qed.

Lemma wakes_bodies (w w' : World.t) : World.bodies w' = World.bodies w → wakes w w'.
Proof. intros Heq b body Hb. exists body. by rewrite Heq. Qed.

Lemma update_body_wakes (f : Body.t → Body.t) (b : nat) (w w' : World.t) :
  (∀ x, (Body.in_island x = true → Body.in_island (f x) = true)
        ∧ (Body.IsAwake x = true → Body.IsAwake (f x) = true)) →
  update_body f b w = Done w' → wakes w w'.
Proof.
  intros Hf Hu. apply update_body_Done in Hu as (x & Hx & ->).
  intros k body Hk. unfold put_body. cbn [World.bodies World.with_bodies].
  destruct (decide (b = k)) as [<-|Hne].
  - rewrite lookup_insert_eq. exists (f x). split; [done|].
    assert (x = body) as -> by congruence. apply Hf.
  - rewrite lookup_insert_ne by done. by exists body.
Qed.

Lemma wakes_set_island (x : Body.t) :
  (Body.in_island x = true →
   Body.in_island (Body.with_flags (set_flag (Body.m_flags x) Body.e_islandFlag) x) = true)
  ∧ (Body.IsAwake x = true →
     Body.IsAwake (Body.with_flags (set_flag (Body.m_flags x) Body.e_islandFlag) x) = true).
Proof.
  split; [intros _; apply Body_in_island_set|].
  rewrite !Body_IsAwake_bit. cbn [Body.m_flags Body.with_flags].
  rewrite Body_set_island_bit by done. by rewrite orb_false_r.
Qed.

Lemma wakes_SetAwake (x : Body.t) :
  (Body.in_island x = true → Body.in_island (Body.SetAwake true x) = true)
  ∧ (Body.IsAwake x = true → Body.IsAwake (Body.SetAwake true x) = true).
Proof.
  split; [by rewrite Body_in_island_SetAwake|]. intros _. apply Body_SetAwake_true_awake.
Qed.

Ltac to_wakes :=
  repeat match goal with
  | H : update_body (Body.SetAwake true) _ _ = Done _ |- _ =>
      apply update_body_wakes in H; [|apply wakes_SetAwake]
  | H : update_body (Body.with_islandIndex _) _ _ = Done _ |- _ =>
      apply update_body_wakes in H; [|by intros ?]
  | H : update_body _ _ _ = Done _ |- _ =>
      apply update_body_wakes in H; [|apply wakes_set_island]
  | H : update_contact _ _ _ = Done _ |- _ =>
      apply update_contact_Done in H as (? & _ & ->)
  | H : update_joint _ _ _ = Done _ |- _ =>
      apply update_joint_Done in H as (? & _ & ->)
  end.

Ltac wakes_links :=
  repeat first
    [ reflexivity
    | eassumption
    | etransitivity; [eassumption|]
    | apply wakes_bodies; reflexivity ].

Section Wakes.
Variable bm : build.

Lemma Island_AddBody_wakes (b : nat) (w w' : World.t) (island island' : Island.t) :
  Island_AddBody bm b (w, island) = Done (w', island') → wakes w w'.
Proof. unfold Island_AddBody. intros Hrun. run_all. subst. by to_wakes. Qed.

Lemma push_body_wakes (sz : Z) (b : nat) (w w' : World.t) (stack stack' : list nat) :
  push_body sz b w stack = Done (w', stack') → wakes w w'.
Proof. unfold push_body. intros Hrun. run_all. subst. by to_wakes. Qed.

Lemma search_contact_wakes (sz : Z) (ce : cb2ContactEdge) (s1 s2 : search_state) :
  search_contact bm sz ce s1 = Done s2 → wakes s1.1.1 s2.1.1.
Proof.
  unfold search_contact. destruct s1 as [[w island] stack]. intros Hrun.
  run_all; subst; cbn [fst]; try reflexivity.
  all: repeat match goal with
       | H : push_body _ _ _ _ = Done _ |- _ => apply push_body_wakes in H
       end.
  all: to_wakes; wakes_links.
Qed.

Lemma search_joint_wakes (sz : Z) (je : cb2JointEdge) (s1 s2 : search_state) :
  search_joint bm sz je s1 = Done s2 → wakes s1.1.1 s2.1.1.
Proof.
  unfold search_joint. destruct s1 as [[w island] stack]. intros Hrun.
  run_all; subst; cbn [fst]; try reflexivity.
  all: repeat match goal with
       | H : push_body _ _ _ _ = Done _ |- _ => apply push_body_wakes in H
       end.
  all: to_wakes; wakes_links.
Qed.

Lemma search_edges_wakes {A : Type} (f : A → search_state → result search_state)
    (l : list A) (s s' : search_state) :
  (∀ x s1 s2, f x s1 = Done s2 → wakes s1.1.1 s2.1.1) →
  for_each f l s = Done s' → wakes s.1.1 s'.1.1.
Proof.
  intros Hf.
  apply (for_each_Done_ind (λ s s' : search_state, wakes s.1.1 s'.1.1)).
  - intros s0. reflexivity.
  - intros s1 s2 s3. apply transitivity.
  - intros x s1 s2 _. apply Hf.
Qed.

Lemma search_wakes (fuel : nat) (sz : Z) (st : search_state)
    (w' : World.t) (island' : Island.t) :
  search bm fuel sz st = Done (w', island') → wakes st.1.1 w'.
Proof.
  revert st. induction fuel as [|fuel IH]; intros [[w island] stack] Hrun;
    cbn [search] in Hrun; cbn [fst].
  - destruct stack; [|done]. by injection Hrun as -> _.
  - destruct stack as [|b stack]; [by injection Hrun as -> _|].
    apply bind_Done in Hrun as (body & Hbody & Hrun).
    apply bind_Done in Hrun as (? & _ & Hrun).
    apply bind_Done in Hrun as ([w1 island1] & Hadd & Hrun).
    apply bind_Done in Hrun as (w2 & Hwake & Hrun).
    apply Island_AddBody_wakes in Hadd. to_wakes.
    transitivity w1; [done|]. transitivity w2; [done|].
    case_decide.
    + by apply IH in Hrun.
    + apply bind_Done in Hrun as (st1 & Hc & Hrun).
      apply bind_Done in Hrun as (st2 & Hj & Hrun).
      apply search_edges_wakes in Hc; [|apply search_contact_wakes].
      apply search_edges_wakes in Hj; [|apply search_joint_wakes].
      apply IH in Hrun. cbn [fst] in Hc.
      transitivity st1.1.1; [done|]. by transitivity st2.1.1.
Qed.

End Wakes.

Section Tracking.
Context {env : Collaborators}.
Variable bm : build.
Variable w0 : World.t.

Lemma awake_or_flagged_wakes (w w' : World.t) :
  awake_or_flagged w0 w → wakes w w' → awake_or_flagged w0 w'.
Proof.
  intros Haw Hw b body0 Hb0 Hty Ha.
  destruct (Haw b body0 Hb0 Hty Ha) as (body & Hb & Hor).
  destruct (Hw b body Hb) as (body' & Hb' & Hf & Ha').
  exists body'. split; [done|]. destruct Hor; auto.
Qed.

(** Putting the bodies of an island to sleep: they have the island flag. *)
Lemma sleep_loop_keeps (l : list nat) :
  ∀ w w', (∀ b, b ∈ l → bflag w b = true) →
          for_each (update_body (Body.SetAwake false)) l w = Done w' →
          awake_or_flagged w0 w → awake_or_flagged w0 w'.
Proof.
  induction l as [|b l IH]; intros w w' Hl Hrun Haw; cbn [for_each] in Hrun.
  - by injection Hrun as <-.
  - apply bind_Done in Hrun as (w1 & H1 & Hrun).
    apply update_body_Done in H1 as (x & Hx & ->).
    assert (Hfx : Body.in_island x = true).
    { rewrite <- (bflag_lookup _ _ _ Hx). apply Hl. by left. }
    apply (IH _ _) in Hrun; [done| |].
    + intros b' Hb'. rewrite bflag_put_body. case_decide.
      * by rewrite Body_in_island_SetAwake.
      * apply Hl. by right.
    + intros k body0 Hk Hty Ha. unfold put_body. cbn [World.bodies World.with_bodies].
      destruct (decide (b = k)) as [<-|Hne].
      * rewrite lookup_insert_eq. eexists. split; [done|]. right.
        by rewrite Body_in_island_SetAwake.
      * rewrite lookup_insert_ne by done. by apply (Haw k body0).
Qed.

Lemma Island_Solve_keeps (step : cb2TimeStep) (allowSleep : bool) (island : Island.t)
    (w w' : World.t) :
  (∀ b, b ∈ Island.m_bodies island → bflag w b = true) →
  Island_Solve step allowSleep island w = Done w' →
  awake_or_flagged w0 w → awake_or_flagged w0 w'.
Proof.
  intros Hl. unfold Island_Solve.
  destruct (allowSleep && island_sleeps w island step).
  - by apply sleep_loop_keeps.
  - by intros [= ->].
Qed.

(** The cleanup writes to static bodies only. *)
Lemma cleanup_keeps (island : Island.t) (w w' : World.t) :
  same_graph w0 w →
  post_solve_cleanup island w = Done w' →
  awake_or_flagged w0 w → awake_or_flagged w0 w'.
Proof.
  intros Hgr Hrun Haw. unfold post_solve_cleanup in Hrun.
  enough (same_graph w0 w' ∧ awake_or_flagged w0 w') as [_ ?] by done.
  apply (for_each_Done_ind
           (λ s s', same_graph w0 s ∧ awake_or_flagged w0 s →
                    same_graph w0 s' ∧ awake_or_flagged w0 s')
           cleanup_step (Island.m_bodies island) w w'); [done | | | done | done].
  - intros s1 s2 s3 H12 H23 H. by apply H23, H12.
  - intros b s1 s2 _ Hstep [Hg1 Ha1]. unfold cleanup_step in Hstep.
    apply bind_Done in Hstep as (body & Hb & Hstep). apply deref_Done in Hb.
    unfold Body.GetType in Hstep. case_decide as Hty; injection Hstep as <-; [|done].
    split.
    + eapply same_graph_put_body; [done | done | apply Body_shape_clear_island].
    + intros k body0 Hk Hty0 Ha. unfold put_body. cbn [World.bodies World.with_bodies].
      destruct (decide (b = k)) as [<-|Hne].
      * exfalso. destruct (same_graph_body _ _ _ _ Hg1 Hb) as (body0' & Hb0' & Hs).
        assert (body0' = body0) as -> by congruence.
        unfold body_shape in Hs. apply Hty0. congruence.
      * rewrite lookup_insert_ne by done. by apply (Ha1 k body0).
Qed.

Hypothesis Hwf : wf_world w0.

Lemma Solve_seed_cover (fuel : nat) (step : cb2TimeStep) (seed : nat)
    (built : list Island.t) (w : World.t) (island : Island.t) :
  outer_inv w0 built w island →
  awake_or_flagged w0 w →
  is_Some (World.bodies w0 !! seed) →
  (size (World.bodies w0) < fuel)%nat →
  ∃ w' island' built',
    Solve_seed bm fuel step (Z.of_nat (size (World.bodies w0))) seed (w, island, built)
    = Done (w', island', built')
    ∧ outer_inv w0 built' w' island'
    ∧ awake_or_flagged w0 w'
    ∧ (∀ J, J ∈ built → J ∈ built')
    ∧ (wakeful w0 seed → ∃ J, J ∈ built' ∧ seed ∈ Island.m_bodies J).
Proof.
  intros Hout Haw Hseed Hfuel.
  destruct (Solve_seed_inv bm w0 Hwf fuel step seed built w island Hout Hseed Hfuel)
    as (w' & island' & built' & Hrun & Hout').
  exists w', island', built'. split; [done|]. split; [done|].
  destruct Hout as [Hinv Huniq]. destruct Hseed as [s0 Hs0].
  pose proof (si_graph _ _ _ _ _ _ _ _ Hinv) as Hgr.
  destruct (same_graph_body_rev _ _ _ _ Hgr Hs0) as (s & Hs & Hshape).
  unfold body_shape in Hshape.
  assert (Hty : Body.m_type s = Body.m_type s0) by congruence.
  assert (Hact : Body.IsActive s = Body.IsActive s0) by congruence.
  unfold Solve_seed, get_body, deref in Hrun. rewrite Hs in Hrun.
  cbn [mbind result_bind] in Hrun.
  destruct (Body.in_island s) eqn:Hsi.
  { injection Hrun as <- <- <-. split; [done|]. split; [done|]. intros _.
    destruct (si_flag_origin _ _ _ _ _ _ _ _ Hinv seed) as [Hin|[Hin|[_ (J & HJ & Hb)]]].
    - by rewrite (bflag_lookup _ _ _ Hs).
    - by apply elem_of_nil in Hin.
    - by apply elem_of_nil in Hin.
    - apply list_elem_of_fmap in HJ as (I & -> & HI). by exists I. }
  destruct (negb (Body.IsAwake s) || negb (Body.IsActive s)) eqn:Hrest.
  { injection Hrun as <- <- <-. split; [done|]. split; [done|].
    intros (body0 & Hb0 & Ha0 & Hact0 & Hty0). exfalso.
    assert (body0 = s0) as -> by congruence.
    destruct (Haw seed s0 Hs0 Hty0 Ha0) as (s' & Hs' & Hor).
    assert (s' = s) as -> by congruence.
    destruct Hor as [Ha|Hf]; [|congruence].
    rewrite Ha, Hact, Hact0 in Hrest. done. }
  unfold Body.GetType in Hrun. case_decide as Hstatic.
  { injection Hrun as <- <- <-. split; [done|]. split; [done|].
    intros (body0 & Hb0 & _ & _ & Hty0). exfalso.
    assert (body0 = s0) as -> by congruence. congruence. }
  apply orb_false_iff in Hrest as [_ Hactive]. apply negb_false_iff in Hactive.
  assert (Hactive0 : active w0 seed) by (by apply (active_current _ _ Hgr _ _ Hs)).
  destruct (push_body_inv w0 _ w _ [] 0%nat [] [] seed s Hinv Hs Hsi Hactive0)
    as (wp & Hpush & Hinvp & _).
  rewrite Hpush in Hrun. cbn [mbind result_bind] in Hrun.
  destruct (search_total bm w0 _ Hwf fuel wp _ [seed] 0%nat Hinvp)
    as (w1 & cur1 & x1 & Hsearch & Hinv1 & Hmem1).
  { cbn [Island.Clear Island.m_bodies length]. lia. }
  rewrite Hsearch in Hrun. cbn [mbind result_bind] in Hrun.
  destruct (Island_Solve_inv w0 _ step (World.m_allowSleep w1) cur1 x1 w1 Hinv1)
    as (w2 & Hsolve & Hinv2).
  rewrite Hsolve in Hrun. cbn [mbind result_bind] in Hrun.
  destruct (cleanup_inv w0 _ cur1 x1 w2 Hinv2) as (w3 & Hclean & Hinv3).
  rewrite Hclean in Hrun. cbn [mbind result_bind] in Hrun.
  injection Hrun as <- <- <-.
  split; [|split].
  - apply (cleanup_keeps cur1 w2 w3); [apply (si_graph _ _ _ _ _ _ _ _ Hinv2) | done |].
    apply (Island_Solve_keeps step (World.m_allowSleep w1) cur1 w1 w2); [|done|].
    { intros b Hb. apply (si_members_flagged _ _ _ _ _ _ _ _ Hinv1). by left. }
    apply (awake_or_flagged_wakes wp); [|by apply search_wakes in Hsearch].
    apply (awake_or_flagged_wakes w); [done | by apply push_body_wakes in Hpush].
  - intros J HJ. apply elem_of_app. by left.
  - intros _. exists cur1. split.
    + apply elem_of_app. right. by apply list_elem_of_singleton.
    + apply Hmem1. right. by apply list_elem_of_singleton.
Qed.

Lemma Solve_seeds_cover (fuel : nat) (step : cb2TimeStep) (l : list nat) :
  ∀ (built : list Island.t) (w : World.t) (island : Island.t),
    outer_inv w0 built w island →
    awake_or_flagged w0 w →
    (∀ b, b ∈ l → is_Some (World.bodies w0 !! b)) →
    (size (World.bodies w0) < fuel)%nat →
    ∃ w' island' built',
      for_each (Solve_seed bm fuel step (Z.of_nat (size (World.bodies w0)))) l
               (w, island, built)
      = Done (w', island', built')
      ∧ outer_inv w0 built' w' island'
      ∧ (∀ J, J ∈ built → J ∈ built')
      ∧ (∀ b, b ∈ l → wakeful w0 b → ∃ J, J ∈ built' ∧ b ∈ Island.m_bodies J).
Proof.
  induction l as [|seed l IH]; intros built w island Hout Haw Hl Hfuel.
  - exists w, island, built. split; [done|]. split; [done|]. split; [done|].
    intros b Hb. by apply elem_of_nil in Hb.
  - destruct (Solve_seed_cover fuel step seed built w island Hout Haw)
      as (w1 & island1 & built1 & Hstep & Hout1 & Haw1 & Hgrow1 & Hcov1);
      [apply Hl; by left | done |].
    destruct (IH built1 w1 island1 Hout1 Haw1)
      as (w2 & island2 & built2 & Hrest & Hout2 & Hgrow2 & Hcov2).
    { intros b Hb. apply Hl. by right. }
    { done. }
    exists w2, island2, built2. split; [|split; [done|split]].
    + cbn [for_each]. rewrite Hstep. exact Hrest.
    + intros J HJ. by apply Hgrow2, Hgrow1.
    + intros b Hb Hwk. apply elem_of_cons in Hb as [->|Hb]; [|by apply Hcov2].
      destruct (Hcov1 Hwk) as (J & HJ & Hin). exists J. split; [by apply Hgrow2 | done].
Qed.

End Tracking.

Section Cover.
Context {env : Collaborators}.
Variable bm : build.

(** X24: on a well-formed world, with enough fuel for the search, [Solve]
    returns, and every body that is awake, active and not static when the
    pass begins is in one of the islands it has built. *)
Theorem every_awake_body_gets_an_island (fuel : nat) (step : cb2TimeStep) (w : World.t) :
  wf_world w → broad_phase_sound → (size (World.bodies w) < fuel)%nat →
  ∃ w' islands,
    Solve bm fuel step w = Done (w', islands)
    ∧ ∀ b, wakeful w b → ∃ island, island ∈ islands ∧ b ∈ Island.m_bodies island.
Proof.
  intros Hwf Hbp Hfuel.
  pose proof Hwf as (Hbodies & Hcs & Hjs & Hbl & Hcl & Hjl & Hbc & Hcc & Hjc).
  rewrite Forall_forall in Hbl, Hcl, Hjl.
  destruct (clear_bodies_loop w (World.m_bodyList w) w (same_graph_refl w))
    as (w1 & Hrun1 & Hgr1 & Hc1 & Hj1 & Hbf1 & _); [done|].
  destruct (clear_contacts_loop w (World.m_contactList w) w1 Hgr1)
    as (w2 & Hrun2 & Hgr2 & Hb2 & Hj2 & Hcf2 & _); [done|].
  destruct (clear_joints_loop w (World.m_jointList w) w2 Hgr2)
    as (w3 & Hrun3 & Hgr3 & Hb3 & Hc3 & Hjf3 & _); [done|].
  assert (Hl1 : World.m_contactList w1 = World.m_contactList w) by apply Hgr1.
  assert (Hl2 : World.m_jointList w2 = World.m_jointList w) by apply Hgr2.
  assert (Hl3 : World.m_bodyList w3 = World.m_bodyList w) by apply Hgr3.
  assert (Hn3 : World.m_bodyCount w3 = World.m_bodyCount w) by apply Hgr3.
  assert (Hbflag : ∀ b, bflag w3 b = false).
  { intros b. unfold bflag. rewrite Hb3, Hb2.
    destruct (World.bodies w1 !! b) as [body|] eqn:Hb; [|done].
    destruct (same_graph_body _ _ _ _ Hgr1 Hb) as (body0 & Hb0 & _).
    destruct (Hbodies b body0 Hb0) as (_ & _ & Hin).
    specialize (Hbf1 b Hin). unfold bflag in Hbf1. by rewrite Hb in Hbf1. }
  assert (Hcflag : ∀ c, cflag w3 c = false).
  { intros c. unfold cflag. rewrite Hc3.
    destruct (World.contacts w2 !! c) as [ct|] eqn:Hc; [|done].
    destruct (same_graph_contact _ _ _ _ Hgr2 Hc) as (ct0 & Hct0 & _).
    specialize (Hcf2 c (Hcs c ct0 Hct0)). unfold cflag in Hcf2. by rewrite Hc in Hcf2. }
  assert (Hjflag : ∀ j, jflag w3 j = false).
  { intros j. destruct (jflag w3 j) eqn:Hj; [|done].
    destruct (jflag_true _ _ Hj) as [jt Hjt].
    assert (Hj0 : is_Some (World.joints w !! j)).
    { destruct Hgr3 as (_ & _ & H3 & _). specialize (H3 j). rewrite Hjt in H3.
      destruct (World.joints w !! j); [eauto | done]. }
    destruct Hj0 as [jt0 Hj0]. rewrite (Hjf3 j (Hjs j jt0 Hj0)) in Hj. done. }
  set (island0 := Island.create (World.m_bodyCount w) (World.m_contactCount w)
                                (World.m_jointCount w)).
  assert (Hinit : outer_inv w [] w3 island0).
  { split.
    - constructor; cbn [Island.Clear Island.create island0 Island.m_bodies Island.m_contacts
                        Island.m_joints Island.m_bodyCapacity Island.m_contactCapacity
                        Island.m_jointCapacity fmap list_fmap].
      + done.
      + done.
      + intros b [Hb|Hb]; by apply elem_of_nil in Hb.
      + intros b Hb. by rewrite Hbflag in Hb.
      + intros J b HJ. by apply elem_of_nil in HJ.
      + intros J b HJ. by apply elem_of_nil in HJ.
      + apply NoDup_nil_2.
      + intros b [Hb|Hb]; by apply elem_of_nil in Hb.
      + intros J HJ. by apply elem_of_nil in HJ.
      + intros b Hb. by apply elem_of_nil in Hb.
      + intros c Hc. by rewrite Hcflag in Hc.
      + intros j Hj. by rewrite Hjflag in Hj.
      + split; [apply NoDup_nil_2|]. intros c Hc. by apply elem_of_nil in Hc.
      + split; [apply NoDup_nil_2|]. intros j Hj. by apply elem_of_nil in Hj.
    - intros i k J J' b Hi. cbn in Hi. by rewrite lookup_nil in Hi. }
  (* the clearing of the flags puts no body to sleep *)
  assert (Hawake : awake_or_flagged w w3).
  { assert (Hstay : bodies_stay w w1).
    { revert Hrun1.
      apply (for_each_Done_ind bodies_stay); [apply reflexivity | apply transitivity |].
      intros b s1 s2 _. apply update_body_stay. apply same_motion_clear_island. }
    intros b body0 Hb0 _ Ha. destruct (Hstay b body0 Hb0) as (body & Hb & Hm).
    exists body. rewrite Hb3, Hb2. split; [done|]. left.
    destruct Hm as (_ & _ & _ & _ & _ & _ & _ & -> & _). done. }
  destruct (Solve_seeds_cover bm w Hwf fuel step (World.m_bodyList w) [] w3 island0
              Hinit Hawake)
    as (w4 & island4 & built & Hseeds & Hinv4 & _ & Hcover); [done | done |].
  pose proof (si_graph _ _ _ _ _ _ _ _ (proj1 Hinv4)) as Hgr4.
  assert (Hsync : ∃ moved, synchronized_bodies w4 (World.m_bodyList w4) = Done moved).
  { assert (Hl4 : World.m_bodyList w4 = World.m_bodyList w) by apply Hgr4.
    rewrite Hl4. clear Hl4.
    assert (Hex : ∀ b, b ∈ World.m_bodyList w → is_Some (World.bodies w4 !! b)).
    { intros b Hb. destruct (Hbl b Hb) as [body0 Hb0].
      destruct (same_graph_body_rev _ _ _ _ Hgr4 Hb0) as (body & ? & _). eauto. }
    revert Hex. generalize (World.m_bodyList w) as l.
    induction l as [|b l IH]; intros Hex; [by exists []|].
    cbn [synchronized_bodies]. destruct (Hex b) as [body Hb]; [by left|].
    assert (Hget : get_body w4 b = Done body) by (by apply deref_Done).
    rewrite Hget. cbn [mbind result_bind].
    destruct IH as [moved Hm]; [intros b' Hb'; apply Hex; by right|].
    rewrite Hm. cbn [mbind result_bind].
    destruct (negb _); [eauto|]. case_decide; eauto. }
  destruct Hsync as [moved Hsync].
  destruct (FindNewContacts_Done moved w4 Hbp) as (w5 & Hnew).
  exists w5, built. split.
  - unfold Solve. rewrite Hrun1. cbn [mbind result_bind].
    rewrite Hl1, Hrun2. cbn [mbind result_bind].
    rewrite Hl2, Hrun3. cbn [mbind result_bind].
    rewrite Hl3, Hn3, Hbc. unfold island0 in Hseeds. rewrite Hbc in Hseeds.
    rewrite Hseeds. cbn [mbind result_bind].
    rewrite Hsync. cbn [mbind result_bind]. rewrite Hnew. done.
  - intros b Hwk. apply Hcover; [|done].
    destruct Hwk as (body & Hb & _). by destruct (Hbodies b body Hb) as (_ & _ & Hin).
Qed.

End Cover.

Lemma every_awake_body_gets_an_island_witness :
  wf_world chain_world
  ∧ ∃ w' islands,
      Solve (env := still_collaborators) Debug 4 sample_step chain_world = Done (w', islands)
      ∧ ∀ b, wakeful chain_world b →
             ∃ island, island ∈ islands ∧ b ∈ Island.m_bodies island.
Proof.
  assert (Hwf : wf_world chain_world).
  { apply (bool_decide_unpack _). vm_compute. exact I. }
  split; [exact Hwf|].
  apply (every_awake_body_gets_an_island (env := still_collaborators) Debug 4 sample_step
           chain_world Hwf still_broad_phase_sound).
  vm_compute. lia.
Defined.

(** ** What a step runs *)

Section Runs.
Context {env : Collaborators}.
Variable bm : build.

(** Finding and updating contacts does not open or complete the step. *)
Lemma AddPair_stepComplete (pair : nat * nat) (w w' : World.t) :
  AddPair pair w = Done w' → World.m_stepComplete w' = World.m_stepComplete w.
Proof.
  unfold AddPair. destruct pair as [fixtureA fixtureB]. intros Hrun.
  cbv zeta in Hrun. run_all; subst; try reflexivity.
  repeat match goal with
  | H : update_body _ _ _ = Done _ |- _ => apply update_body_Done in H as (? & _ & ->)
  end.
  reflexivity.
Qed.

Lemma FindNewContacts_stepComplete (moved : list nat) (w w' : World.t) :
  FindNewContacts moved w = Done w' → World.m_stepComplete w' = World.m_stepComplete w.
Proof.
  unfold FindNewContacts.
  apply (for_each_Done_ind (λ s s', World.m_stepComplete s' = World.m_stepComplete s));
    [done | intros s1 s2 s3; congruence |].
  intros x s1 s2 _. apply AddPair_stepComplete.
Qed.

Lemma Collide_stepComplete (w w' : World.t) :
  Collide w = Done w' → World.m_stepComplete w' = World.m_stepComplete w.
Proof.
  unfold Collide.
  apply (for_each_Done_ind (λ s s', World.m_stepComplete s' = World.m_stepComplete s));
    [done | intros s1 s2 s3; congruence |].
  intros c s1 s2 _. destruct (broad_phase_overlap s1 c).
  - unfold Contact_Update. destruct (narrow_phase s1 c) as [touching enabled].
    intros Hu. by apply update_contact_Done in Hu as (? & _ & ->).
  - unfold ContactManager_Destroy. intros Hrun. run_all; subst.
    repeat match goal with
    | H : update_body _ _ _ = Done _ |- _ => apply update_body_Done in H as (? & _ & ->)
    end.
    reflexivity.
Qed.

(** A part of the step that runs under a setting and a positive time
    step. *)
Lemma guarded_run {A : Type} (c : bool) (dt : R) (run : result (World.t * A))
    (w : World.t) (r : World.t * option A) :
  (if c && bool_decide (0 < dt)%R
   then '(w, x) ← run; Done (w, Some x)
   else Done (w, None)) = Done r →
  (is_Some r.2 ↔ c = true ∧ (0 < dt)%R).
Proof.
  destruct c, (bool_decide_reflect (0 < dt)%R) as [Hdt|Hdt]; cbn [andb]; intros Hrun.
  - apply bind_Done in Hrun as ([w0 x] & _ & Heq). injection Heq as <-.
    split; [done | by eexists].
  - injection Hrun as <-. split; [by intros [? [=]] | by intros [_ ?]].
  - injection Hrun as <-. split; [by intros [? [=]] | by intros [[=] _]].
  - injection Hrun as <-. split; [by intros [? [=]] | by intros [[=] _]].
Qed.

(** X25: in a call of [Step] that returns, [Solve] has run exactly when
    the time step is positive and the last step was complete (no sub-step
    is pending), and [SolveTOI] has run exactly when the time step is
    positive and continuous physics is on. *)
Theorem Step_runs_what_the_settings_say (fuel : nat) (dt : R) (vi pi : Z)
    (w w' : World.t) (log : step_log) :
  Step bm fuel dt vi pi w = Done (w', log) →
  (is_Some (islands log) ↔ World.m_stepComplete w = true ∧ (0 < dt)%R)
  ∧ (is_Some (toi_events log) ↔ World.m_continuousPhysics w = true ∧ (0 < dt)%R).
Proof.
  unfold Step. intros Hrun.
  apply bind_Done in Hrun as (w1 & Hpre & Hrun). cbv zeta in Hrun.
  apply bind_Done in Hrun as (w2 & Hcol & Hrun).
  apply bind_Done in Hrun as ([w3 solved] & Hsolve & Hrun).
  apply bind_Done in Hrun as ([w4 toi] & Htoi & Hrun).
  apply bind_Done in Hrun as (w5 & _ & Hrun).
  injection Hrun as _ <-. cbn [islands toi_events].
  assert (H1 : World.m_stepComplete w1 = World.m_stepComplete w
               ∧ World.m_continuousPhysics w1 = World.m_continuousPhysics w).
  { destruct (flag_on (World.m_flags w) World.e_newFixture).
    - apply bind_Done in Hpre as (w0 & Hfind & Hpre). injection Hpre as <-.
      pose proof (FindNewContacts_stepComplete _ _ _ Hfind) as Hsc.
      apply FindNewContacts_untouched in Hfind as ((_ & _ & HS) & _).
      unfold settings in HS. split; [done|]. cbn [World.m_continuousPhysics World.with_flags].
      by injection HS.
    - by injection Hpre as <-. }
  destruct H1 as [Hsc1 Hcp1].
  pose proof (Collide_stepComplete _ _ Hcol) as Hsc2.
  apply Collide_untouched in Hcol as ((_ & _ & HS2) & _).
  assert (Hcp2 : World.m_continuousPhysics w2 = World.m_continuousPhysics w).
  { unfold settings in HS2. rewrite <- Hcp1. by injection HS2. }
  cbn [World.m_stepComplete World.with_flags] in Hsc2. rewrite Hsc1 in Hsc2.
  split.
  - rewrite Hsc2 in Hsolve. by apply guarded_run in Hsolve.
  - assert (Hcp3 : World.m_continuousPhysics w3 = World.m_continuousPhysics w).
    { rewrite <- Hcp2. revert Hsolve.
      destruct (World.m_stepComplete w2 && bool_decide (0 < dt)%R); intros Hsolve.
      - apply bind_Done in Hsolve as ([w0 built] & Hsolve & Heq). injection Heq as <- _.
        apply Solve_untouched in Hsolve as ((_ & _ & HS) & _).
        unfold settings in HS. by injection HS.
      - by injection Hsolve as <- _. }
    rewrite Hcp3 in Htoi. by apply guarded_run in Htoi.
Qed.

End Runs.

Lemma Step_runs_what_the_settings_say_witness :
  ∃ w' log,
    Step (env := still_collaborators) Release 3 1 8 3 pushed_body_world = Done (w', log)
    ∧ (is_Some (islands log)
       ↔ World.m_stepComplete pushed_body_world = true ∧ (0 < 1)%R)
    ∧ (is_Some (toi_events log)
       ↔ World.m_continuousPhysics pushed_body_world = true ∧ (0 < 1)%R).
Proof.
  assert (Hrun : ∃ r, Step (env := still_collaborators) Release 3 1 8 3 pushed_body_world
                      = Done r).
  { unfold Step, time_step. rewrite (bool_decide_eq_true_2 (0 < 1)%R) by lra.
    destruct (decide (0 < 1)%R) as [_|?]; [|lra]. vm_compute. eexists. reflexivity. }
  destruct Hrun as ([w' log] & Hrun). exists w', log. split; [exact Hrun|].
  exact (Step_runs_what_the_settings_say (env := still_collaborators) Release 3 1 8 3
           pushed_body_world w' log Hrun).
Defined.

(** ** Contacts that come and go in a well-formed world *)

Lemma contact_linked_lookup (A B c k : nat) (m : gmap nat Body.t) (body' : Body.t) :
  alter (with_contact_edge A c) B (alter (with_contact_edge B c) A m) !! k = Some body' →
  ∃ body, m !! k = Some body
          ∧ Body.m_jointList body' = Body.m_jointList body
          ∧ Body.IsActive body' = Body.IsActive body
          ∧ (∀ e, e ∈ Body.m_contactList body' ↔
                  (k = B ∧ e = mkContactEdge A c) ∨ (k = A ∧ e = mkContactEdge B c)
                  ∨ e ∈ Body.m_contactList body).
Proof.
  intros Hk. destruct (decide (B = k)) as [<-|HB].
  - rewrite lookup_alter_eq in Hk. destruct (decide (A = B)) as [->|HA].
    + rewrite lookup_alter_eq in Hk.
      destruct (m !! B) as [body|]; [|done]. injection Hk as <-.
      exists body. repeat (split; [done|]). intros e.
      cbn [with_contact_edge Body.m_contactList Body.with_contactList].
      rewrite !elem_of_cons. naive_solver.
    + rewrite lookup_alter_ne in Hk by done.
      destruct (m !! B) as [body|]; [|done]. injection Hk as <-.
      exists body. repeat (split; [done|]). intros e.
      cbn [with_contact_edge Body.m_contactList Body.with_contactList].
      rewrite !elem_of_cons. naive_solver.
  - rewrite lookup_alter_ne in Hk by done. destruct (decide (A = k)) as [<-|HA].
    + rewrite lookup_alter_eq in Hk.
      destruct (m !! A) as [body|]; [|done]. injection Hk as <-.
      exists body. repeat (split; [done|]). intros e.
      cbn [with_contact_edge Body.m_contactList Body.with_contactList].
      rewrite !elem_of_cons. naive_solver.
    + rewrite lookup_alter_ne in Hk by done.
      exists body'. repeat (split; [done|]). intros e. naive_solver.
Qed.

Lemma contact_unlinked_lookup (A B c k : nat) (m : gmap nat Body.t) (body' : Body.t) :
  alter (without_contact c) B (alter (without_contact c) A m) !! k = Some body' →
  ∃ body, m !! k = Some body
          ∧ Body.m_jointList body' = Body.m_jointList body
          ∧ Body.IsActive body' = Body.IsActive body
          ∧ (∀ e, e ∈ Body.m_contactList body' ↔
                  e ∈ Body.m_contactList body ∧ (k = A ∨ k = B → ce_contact e ≠ c)).
Proof.
  intros Hk. destruct (decide (B = k)) as [<-|HB].
  - rewrite lookup_alter_eq in Hk. destruct (decide (A = B)) as [->|HA].
    + rewrite lookup_alter_eq in Hk.
      destruct (m !! B) as [body|]; [|done]. injection Hk as <-.
      exists body. repeat (split; [done|]). intros e.
      cbn [without_contact Body.m_contactList Body.with_contactList].
      unfold unlink_contact_edge. rewrite !list_elem_of_filter. tauto.
    + rewrite lookup_alter_ne in Hk by done.
      destruct (m !! B) as [body|]; [|done]. injection Hk as <-.
      exists body. repeat (split; [done|]). intros e.
      cbn [without_contact Body.m_contactList Body.with_contactList].
      unfold unlink_contact_edge. rewrite !list_elem_of_filter. tauto.
  - rewrite lookup_alter_ne in Hk by done. destruct (decide (A = k)) as [<-|HA].
    + rewrite lookup_alter_eq in Hk.
      destruct (m !! A) as [body|]; [|done]. injection Hk as <-.
      exists body. repeat (split; [done|]). intros e.
      cbn [without_contact Body.m_contactList Body.with_contactList].
      unfold unlink_contact_edge. rewrite !list_elem_of_filter. tauto.
    + rewrite lookup_alter_ne in Hk by done.
      exists body'. repeat (split; [done|]). intros e. split; [|tauto].
      intros He. split; [done|]. intros [?|?]; congruence.
Qed.

(** The ends of a contact edge are the bodies of the fixtures of its
    contact. *)
Lemma contact_edge_ok_ends (w : World.t) (b : nat) (ce : cb2ContactEdge)
    (ct : Contact.t) (fxA fxB : Fixture.t) :
  contact_edge_ok w b ce →
  World.contacts w !! ce_contact ce = Some ct →
  World.fixtures w !! Contact.m_fixtureA ct = Some fxA →
  World.fixtures w !! Contact.m_fixtureB ct = Some fxB →
  b = Fixture.m_body fxA ∨ b = Fixture.m_body fxB.
Proof.
  intros [H _] Hct HA HB. rewrite Hct, HA, HB in H. tauto.
Qed.

(** A new contact between two active bodies of the world, with its two
    edges. *)
Lemma link_contact_wf (c : nat) (ct : Contact.t) (fxA fxB : Fixture.t) (bA bB : Body.t)
    (w : World.t) :
  wf_world w → World.contacts w !! c = None →
  World.fixtures w !! Contact.m_fixtureA ct = Some fxA →
  World.fixtures w !! Contact.m_fixtureB ct = Some fxB →
  World.bodies w !! Fixture.m_body fxA = Some bA →
  World.bodies w !! Fixture.m_body fxB = Some bB →
  Body.IsActive bA = true → Body.IsActive bB = true →
  wf_world
    (World.with_bodies
       (alter (with_contact_edge (Fixture.m_body fxA) c) (Fixture.m_body fxB)
          (alter (with_contact_edge (Fixture.m_body fxB) c) (Fixture.m_body fxA)
             (World.bodies w)))
       (World.with_contactList (c :: World.m_contactList w) (World.m_contactCount w + 1)
          (World.with_contacts (<[c := ct]> (World.contacts w)) w))).
Proof.
  intros Hwf Hfresh HfA HfB HbA HbB HactA HactB.
  set (A := Fixture.m_body fxA) in *. set (B := Fixture.m_body fxB) in *.
  apply wf_world_alt in Hwf as (W1 & W2 & W3 & W4 & W5 & W6 & W7 & W8 & W9).
  apply wf_world_alt.
  set (m' := alter _ B _).
  cbn [World.bodies World.contacts World.joints World.fixtures World.m_bodyList
       World.m_contactList World.m_jointList World.m_bodyCount World.m_contactCount
       World.m_jointCount World.with_bodies World.with_contactList World.with_contacts].
  assert (Hsome : ∀ k, is_Some (m' !! k) ↔ is_Some (World.bodies w !! k)).
  { intros k. unfold m'. by rewrite !lookup_alter_is_Some. }
  assert (Hnew : ∀ k body, World.bodies w !! k = Some body →
            ∃ body', m' !! k = Some body'
                     ∧ Body.m_jointList body' = Body.m_jointList body
                     ∧ Body.IsActive body' = Body.IsActive body
                     ∧ (∀ e, e ∈ Body.m_contactList body' ↔
                             (k = B ∧ e = mkContactEdge A c)
                             ∨ (k = A ∧ e = mkContactEdge B c)
                             ∨ e ∈ Body.m_contactList body)).
  { intros k body Hk. destruct (proj2 (Hsome k)) as [body' Hk']; [by eexists|].
    exists body'. split; [done|].
    destruct (contact_linked_lookup _ _ _ _ _ _ Hk') as (body0 & Hk0 & Hjl & Hact & Hin).
    assert (body0 = body) as -> by congruence. done. }
  split; [|split; [|split; [|split; [|split; [|split; [|split; [|split]]]]]]]; try done.
  - intros k body' Hk'.
    destruct (contact_linked_lookup _ _ _ _ _ _ Hk') as (body & Hk & Hjl & Hact & Hcl).
    destruct (W1 k body Hk) as (Hce & Hje & Hin).
    split; [|split; [|done]].
    + intros ce Hce'. apply Hcl in Hce' as [[-> ->]|[[-> ->]|Hce']].
      * unfold contact_edge_ok.
        cbn [ce_contact ce_other World.contacts World.with_contacts World.fixtures
             World.with_contactList World.bodies World.with_bodies].
        rewrite lookup_insert_eq, HfA, HfB. split; [by right|].
        destruct (Hnew A bA HbA) as (a & Ha & _ & HaA & HaC). fold m'. rewrite Ha.
        split; [|congruence]. apply HaC. right. left. done.
      * unfold contact_edge_ok.
        cbn [ce_contact ce_other World.contacts World.with_contacts World.fixtures
             World.with_contactList World.bodies World.with_bodies].
        rewrite lookup_insert_eq, HfA, HfB. split; [by left|].
        destruct (Hnew B bB HbB) as (b & Hb & _ & HbA' & HbC). fold m'. rewrite Hb.
        split; [|congruence]. apply HbC. left. done.
      * apply (contact_edge_ok_mono w); [| done | | by apply Hce].
        -- intros ct0 Hct0. exists ct0. split; [|done].
           cbn [World.contacts World.with_contacts World.with_contactList World.with_bodies].
           rewrite lookup_insert_ne; [done|]. intros Heq. rewrite Heq in Hfresh. congruence.
        -- intros o Ho Hback. cbn [World.bodies World.with_bodies]. fold m'.
           destruct (Hnew _ o Ho) as (o' & Ho' & _ & Hact' & HoC).
           exists o'. split; [done|]. split; [|done]. apply HoC. right. right. done.
    + intros je Hje'. rewrite Hjl in Hje'.
      apply (joint_edge_ok_mono w); [by eauto | | by apply Hje].
      intros o Ho Hback. cbn [World.bodies World.with_bodies]. fold m'.
      destruct (Hnew _ o Ho) as (o' & Ho' & Hjl' & _ & _).
      exists o'. split; [done|]. by rewrite Hjl'.
  - intros k [x Hx]. apply lookup_insert_Some in Hx as [[<- _]|[Hne Hx]]; [by left|].
    right. apply W2. by eexists.
  - intros k Hk. apply Hsome. by apply W4.
  - intros k Hk. apply elem_of_cons in Hk as [->|Hk].
    + rewrite lookup_insert_eq. by eexists.
    + apply lookup_insert_is_Some'. right. by apply W5.
  - rewrite W7. f_equal. unfold m'. rewrite <- !size_dom, !dom_alter_L. done.
  - rewrite map_size_insert_None by done. lia.
Qed.

(** The world after the edges of contact [c], and the contact, are gone. *)
Lemma unlinked_contact_wf (c : nat) (ct : Contact.t) (fxA fxB : Fixture.t) (w : World.t) :
  wf_world w → World.contacts w !! c = Some ct →
  World.fixtures w !! Contact.m_fixtureA ct = Some fxA →
  World.fixtures w !! Contact.m_fixtureB ct = Some fxB →
  wf_world
    (World.with_contacts (delete c (World.contacts w))
       (World.with_bodies
          (alter (without_contact c) (Fixture.m_body fxB)
             (alter (without_contact c) (Fixture.m_body fxA) (World.bodies w)))
          (World.with_contactList (unlink c (World.m_contactList w))
             (World.m_contactCount w - 1) w))).
Proof.
  intros Hwf Hc HfA HfB.
  set (A := Fixture.m_body fxA) in *. set (B := Fixture.m_body fxB) in *.
  apply wf_world_alt in Hwf as (W1 & W2 & W3 & W4 & W5 & W6 & W7 & W8 & W9).
  apply wf_world_alt.
  set (m' := alter _ B _).
  cbn [World.bodies World.contacts World.joints World.fixtures World.m_bodyList
       World.m_contactList World.m_jointList World.m_bodyCount World.m_contactCount
       World.m_jointCount World.with_bodies World.with_contactList World.with_contacts].
  assert (Hsome : ∀ k, is_Some (m' !! k) ↔ is_Some (World.bodies w !! k)).
  { intros k. unfold m'. by rewrite !lookup_alter_is_Some. }
  assert (Hlook : ∀ k body', m' !! k = Some body' →
            ∃ body, World.bodies w !! k = Some body
                    ∧ Body.m_jointList body' = Body.m_jointList body
                    ∧ Body.IsActive body' = Body.IsActive body
                    ∧ (∀ e, e ∈ Body.m_contactList body' ↔
                            e ∈ Body.m_contactList body ∧ ce_contact e ≠ c)).
  { intros k body' Hk.
    destruct (contact_unlinked_lookup _ _ _ _ _ _ Hk) as (body & Hb & Hjl & Hact & Hcl).
    exists body. repeat (split; [done|]). intros e. rewrite Hcl.
    split; [|tauto]. intros [He Hne]. split; [done|].
    intros Hec. destruct (W1 k body Hb) as (Hce & _ & _).
    rewrite <- Hec in Hc.
    destruct (contact_edge_ok_ends _ _ _ _ _ _ (Hce e He) Hc HfA HfB); tauto. }
  split; [|split; [|split; [|split; [|split; [|split; [|split; [|split]]]]]]]; try done.
  - intros k body' Hk'.
    destruct (Hlook k body' Hk') as (body & Hk & Hjl & Hact & Hcl).
    destruct (W1 k body Hk) as (Hce & Hje & Hin).
    split; [|split; [|done]].
    + intros ce Hce'. apply Hcl in Hce' as [Hce' Hne].
      apply (contact_edge_ok_mono w); [| done | | by apply Hce].
      * intros ct0 Hct0. exists ct0. split; [|done].
        cbn [World.contacts World.with_contacts]. by rewrite lookup_delete_ne.
      * intros o Ho Hback. cbn [World.bodies World.with_bodies World.with_contacts].
        fold m'.
        destruct (proj2 (Hsome (ce_other ce))) as [o' Ho']; [by eexists|].
        destruct (Hlook _ _ Ho') as (o0 & Ho0 & _ & Hact0 & Hcl0).
        exists o'. split; [done|]. assert (o0 = o) as -> by congruence.
        split; [|done]. apply Hcl0. done.
    + intros je Hje'. rewrite Hjl in Hje'.
      apply (joint_edge_ok_mono w); [by eauto | | by apply Hje].
      intros o Ho Hback. cbn [World.bodies World.with_bodies World.with_contacts].
      fold m'.
      destruct (proj2 (Hsome (je_other je))) as [o' Ho']; [by eexists|].
      destruct (Hlook _ _ Ho') as (o0 & Ho0 & Hjl0 & _ & _).
      exists o'. split; [done|]. rewrite Hjl0. congruence.
  - intros k Hk. apply lookup_delete_is_Some in Hk as [Hne Hk].
    unfold unlink. apply list_elem_of_filter. split; [done|]. by apply W2.
  - intros k Hk. apply Hsome. by apply W4.
  - intros k Hk. unfold unlink in Hk. apply list_elem_of_filter in Hk as [Hne Hk].
    apply lookup_delete_is_Some. split; [done|]. by apply W5.
  - rewrite W7. f_equal. unfold m'. rewrite <- !size_dom, !dom_alter_L. done.
  - rewrite map_size_delete_Some by (by eexists).
    assert (size (World.contacts w) ≠ 0%nat).
    { apply map_size_ne_0_lookup. by exists c, ct. }
    lia.
Qed.

(** ** A step keeps the world well formed *)

Lemma wf_kept_same (w w' : World.t) :
  World.bodies w' = World.bodies w → World.contacts w' = World.contacts w →
  World.joints w' = World.joints w → World.fixtures w' = World.fixtures w →
  World.m_bodyList w' = World.m_bodyList w →
  World.m_contactList w' = World.m_contactList w →
  World.m_jointList w' = World.m_jointList w →
  World.m_bodyCount w' = World.m_bodyCount w →
  World.m_contactCount w' = World.m_contactCount w →
  World.m_jointCount w' = World.m_jointCount w →
  wf_kept w w'.
Proof.
  intros HB HC HJ HF H1 H2 H3 H4 H5 H6. apply wf_same_links.
  split; [intros b; by rewrite HB|]. split; [intros c; by rewrite HC|].
  split; [intros j; by rewrite HJ|]. done.
Qed.

Lemma update_body_wf (f : Body.t → Body.t) (b : nat) (w w' : World.t) :
  (∀ x, body_links (f x) = body_links x) →
  update_body f b w = Done w' → wf_kept w w'.
Proof. intros Hf Hu. by apply wf_same_links, (update_body_links f b). Qed.

Lemma update_contact_wf (f : Contact.t → Contact.t) (c : nat) (w w' : World.t) :
  (∀ x, contact_links (f x) = contact_links x) →
  update_contact f c w = Done w' → wf_kept w w'.
Proof. intros Hf Hu. by apply wf_same_links, (update_contact_links f c). Qed.

Lemma update_joint_wf (f : Joint.t → Joint.t) (j : nat) (w w' : World.t) :
  (∀ x, joint_shape (f x) = joint_shape x) →
  update_joint f j w = Done w' → wf_kept w w'.
Proof. intros Hf Hu. by apply wf_same_links, (update_joint_links f j). Qed.

Lemma body_links_flags (new old : Body.t) :
  Body.m_contactList new = Body.m_contactList old →
  Body.m_jointList new = Body.m_jointList old →
  Z.testbit (Body.m_flags new) 5 = Z.testbit (Body.m_flags old) 5 →
  body_links new = body_links old.
Proof.
  intros H1 H2 H3. unfold body_links. rewrite !Body_IsActive_bit. congruence.
Qed.

Lemma links_clear_island (x : Body.t) :
  body_links (Body.with_flags (clear_flag (Body.m_flags x) Body.e_islandFlag) x)
  = body_links x.
Proof.
  apply body_links_flags; try done.
  cbn [Body.m_flags Body.with_flags]. rewrite Body_clear_island_bit by done.
  apply andb_true_r.
Qed.

Lemma links_set_island (x : Body.t) :
  body_links (Body.with_flags (set_flag (Body.m_flags x) Body.e_islandFlag) x)
  = body_links x.
Proof.
  apply body_links_flags; try done.
  cbn [Body.m_flags Body.with_flags]. rewrite Body_set_island_bit by done.
  apply orb_false_r.
Qed.

Lemma links_clear_sweep (x : Body.t) (s : Sweep.t) :
  body_links (set_sweep s (Body.with_flags
                             (clear_flag (Body.m_flags x) Body.e_islandFlag) x))
  = body_links x.
Proof. rewrite <- (links_clear_island x). by apply body_links_flags. Qed.

(** Every write of a step to a body keeps the edges of the body and its
    active state. *)
Ltac link_writes :=
  first
    [ apply links_clear_island
    | apply links_set_island
    | apply body_links_SetAwake
    | apply links_clear_sweep
    | reflexivity
    | match goal with
      | |- context [island_toi_solution ?w ?i ?s ?b ?x] =>
          by destruct (island_toi_solution w i s b x) as [[[? ?] ?] ?]
      end ].

Ltac to_wf :=
  repeat match goal with
  | H : update_body _ _ _ = Done _ |- _ =>
      apply update_body_wf in H; [|intros ?; link_writes]
  | H : update_contact _ _ _ = Done _ |- _ =>
      apply update_contact_wf in H; [|intros ?; reflexivity]
  | H : update_joint _ _ _ = Done _ |- _ =>
      apply update_joint_wf in H; [|intros ?; reflexivity]
  end.

Ltac wf_links :=
  repeat first
    [ reflexivity
    | eassumption
    | etransitivity; [eassumption|]
    | apply wf_kept_same; reflexivity ].

Lemma for_each_wf {A : Type} (f : A → World.t → result World.t) (l : list A)
    (w w' : World.t) :
  (∀ x s1 s2, f x s1 = Done s2 → wf_kept s1 s2) →
  for_each f l w = Done w' → wf_kept w w'.
Proof.
  intros Hf. apply (for_each_Done_ind wf_kept); [apply reflexivity | apply transitivity |].
  intros x s1 s2 _. apply Hf.
Qed.

Lemma for_each_wf_with {A X : Type} (f : A → World.t * X → result (World.t * X))
    (l : list A) (s s' : World.t * X) :
  (∀ x s1 s2, f x s1 = Done s2 → wf_kept s1.1 s2.1) →
  for_each f l s = Done s' → wf_kept s.1 s'.1.
Proof.
  intros Hf.
  apply (for_each_Done_ind (λ s s' : World.t * X, wf_kept s.1 s'.1)).
  - intros s0. reflexivity.
  - intros s1 s2 s3. apply transitivity.
  - intros x s1 s2 _. apply Hf.
Qed.

#[global] Instance active_kept_preorder : PreOrder active_kept.
Proof.
  split.
  - intros w. split; [done|]. intros b body Hb. by exists body.
  - intros w1 w2 w3 [F12 H12] [F23 H23]. split; [congruence|].
    intros b body Hb. destruct (H12 b body Hb) as (body2 & Hb2 & Ha2).
    destruct (H23 b body2 Hb2) as (body3 & Hb3 & Ha3).
    exists body3. split; [done | congruence].
Qed.

Section WellFormed.
Context {env : Collaborators}.
Variable bm : build.

Lemma ContactManager_Destroy_wf (c : nat) (w w' : World.t) :
  ContactManager_Destroy c w = Done w' → wf_kept w w'.
Proof.
  unfold ContactManager_Destroy, contact_bodies, get_contact, get_fixture.
  intros Hrun Hwf.
  apply bind_Done in Hrun as (ct & Hct & Hrun). apply deref_Done in Hct.
  apply bind_Done in Hrun as ([bodyA bodyB] & Hends & Hrun).
  apply bind_Done in Hends as (fxA & HfA & Hends). apply deref_Done in HfA.
  apply bind_Done in Hends as (fxB & HfB & Hends). apply deref_Done in HfB.
  injection Hends as <- <-. cbv zeta in Hrun.
  apply bind_Done in Hrun as (w1 & H1 & Hrun).
  apply bind_Done in Hrun as (w2 & H2 & Hrun).
  apply update_body_alter in H1 as [_ ->]. apply update_body_alter in H2 as [_ ->].
  injection Hrun as <-.
  exact (unlinked_contact_wf c ct fxA fxB w Hwf Hct HfA HfB).
Qed.

Lemma Contact_Update_wf (c : nat) (w w' : World.t) :
  Contact_Update c w = Done w' → wf_kept w w'.
Proof.
  unfold Contact_Update. destruct (narrow_phase w c) as [touching enabled].
  by apply update_contact_wf.
Qed.

Lemma Collide_wf (w w' : World.t) : Collide w = Done w' → wf_kept w w'.
Proof.
  unfold Collide. apply for_each_wf. intros c s1 s2.
  destruct (broad_phase_overlap s1 c);
    [apply Contact_Update_wf | apply ContactManager_Destroy_wf].
Qed.

Lemma ClearForces_wf (w w' : World.t) : ClearForces w = Done w' → wf_kept w w'.
Proof. unfold ClearForces. apply for_each_wf. intros b s1 s2 Hu. by to_wf. Qed.

(** *** New contacts *)

Lemma AddPair_active (pair : nat * nat) (w w' : World.t) :
  AddPair pair w = Done w' → active_kept w w'.
Proof.
  unfold AddPair. destruct pair as [fixtureA fixtureB]. intros Hrun.
  apply bind_Done in Hrun as (fxA & _ & Hrun).
  apply bind_Done in Hrun as (fxB & _ & Hrun). cbv zeta in Hrun.
  case_decide; [injection Hrun as <-; reflexivity|].
  apply bind_Done in Hrun as (bB & _ & Hrun).
  destruct (contact_exists _ _ _ _); [injection Hrun as <-; reflexivity|].
  apply bind_Done in Hrun as (w1 & H1 & H2).
  apply update_body_alter in H1 as [_ ->]. apply update_body_alter in H2 as [_ ->].
  split; [done|]. intros b body Hb.
  cbn [World.bodies World.with_bodies World.with_contactList World.with_contacts].
  destruct (decide (Fixture.GetBody fxB = b)) as [EB|NB];
    [rewrite EB, lookup_alter_eq | rewrite lookup_alter_ne by done];
    (destruct (decide (Fixture.GetBody fxA = b)) as [EA|NA];
     [rewrite EA, lookup_alter_eq | rewrite lookup_alter_ne by done]);
    rewrite Hb; cbn [fmap option_fmap option_map];
    (eexists; split; [reflexivity | reflexivity]).
Qed.

Lemma AddPair_wf (fixtureA fixtureB : nat) (fxA fxB : Fixture.t) (bA bB : Body.t)
    (w w' : World.t) :
  World.fixtures w !! fixtureA = Some fxA → World.fixtures w !! fixtureB = Some fxB →
  World.bodies w !! Fixture.m_body fxA = Some bA →
  World.bodies w !! Fixture.m_body fxB = Some bB →
  Body.IsActive bA = true → Body.IsActive bB = true →
  AddPair (fixtureA, fixtureB) w = Done w' → wf_kept w w'.
Proof.
  intros HfA HfB HbA HbB HactA HactB. unfold AddPair, get_fixture, get_body, deref.
  rewrite HfA, HfB. cbn [mbind result_bind]. cbv zeta. unfold Fixture.GetBody.
  case_decide as Hsame; [by intros [= ->]|].
  rewrite HbB. cbn [mbind result_bind].
  destruct (contact_exists _ _ _ _); [by intros [= ->]|].
  intros Hrun Hwf.
  apply bind_Done in Hrun as (w1 & H1 & H2).
  apply update_body_alter in H1 as [_ ->]. apply update_body_alter in H2 as [_ ->].
  set (c := fresh (dom (World.contacts w))).
  assert (Hfresh : World.contacts w !! c = None).
  { apply not_elem_of_dom. apply is_fresh. }
  clearbody c.
  exact (link_contact_wf c (Contact.mk Contact.e_enabledFlag fixtureA fixtureB 0 0 0 0%R)
           fxA fxB bA bB w Hwf Hfresh HfA HfB HbA HbB HactA HactB).
Qed.

Hypothesis Hbp : broad_phase_active.

Lemma FindNewContacts_wf (moved : list nat) (w w' : World.t) :
  FindNewContacts moved w = Done w' → wf_kept w w'.
Proof.
  unfold FindNewContacts. intros Hrun Hwf.
  assert (Hpairs : ∀ fA fB, (fA, fB) ∈ broad_phase_pairs w moved →
            ∃ fxA fxB bA bB,
              World.fixtures w !! fA = Some fxA ∧ World.fixtures w !! fB = Some fxB
              ∧ World.bodies w !! Fixture.m_body fxA = Some bA
              ∧ World.bodies w !! Fixture.m_body fxB = Some bB
              ∧ Body.IsActive bA = true ∧ Body.IsActive bB = true)
    by apply Hbp.
  revert Hrun Hpairs. generalize (broad_phase_pairs w moved) as l. intros l.
  assert (Hk : active_kept w w) by reflexivity. revert Hk Hwf.
  generalize w at 2 3 4 as wi. revert w'.
  induction l as [|[fA fB] l IH]; intros w' wi Hk Hwf Hrun Hpairs; cbn [for_each] in Hrun.
  - by injection Hrun as <-.
  - apply bind_Done in Hrun as (w1 & H1 & Hrun).
    destruct (Hpairs fA fB) as (fxA & fxB & bA & bB & HfA & HfB & HbA & HbB & HaA & HaB);
      [by left|].
    destruct Hk as [HF HB].
    destruct (HB _ _ HbA) as (bA' & HbA' & HaA'). destruct (HB _ _ HbB) as (bB' & HbB' & HaB').
    apply (IH w' w1); [| |done|].
    + transitivity wi; [by split | by apply AddPair_active in H1].
    + apply (AddPair_wf fA fB fxA fxB bA' bB' wi w1); try done; congruence.
    + intros fA' fB' Hin. apply Hpairs. by right.
Qed.

(** *** Solve *)

Lemma Island_AddBody_wf (b : nat) (w w' : World.t) (island island' : Island.t) :
  Island_AddBody bm b (w, island) = Done (w', island') → wf_kept w w'.
Proof. unfold Island_AddBody. intros Hrun. run_all. subst. by to_wf. Qed.

Lemma push_body_wf (sz : Z) (b : nat) (w w' : World.t) (stack stack' : list nat) :
  push_body sz b w stack = Done (w', stack') → wf_kept w w'.
Proof. unfold push_body. intros Hrun. run_all. subst. by to_wf. Qed.

Lemma search_contact_wf (sz : Z) (ce : cb2ContactEdge) (s1 s2 : search_state) :
  search_contact bm sz ce s1 = Done s2 → wf_kept s1.1.1 s2.1.1.
Proof.
  unfold search_contact. destruct s1 as [[w island] stack]. intros Hrun.
  run_all; subst; cbn [fst]; try reflexivity.
  all: repeat match goal with
       | H : push_body _ _ _ _ = Done _ |- _ => apply push_body_wf in H
       end.
  all: to_wf; wf_links.
Qed.

Lemma search_joint_wf (sz : Z) (je : cb2JointEdge) (s1 s2 : search_state) :
  search_joint bm sz je s1 = Done s2 → wf_kept s1.1.1 s2.1.1.
Proof.
  unfold search_joint. destruct s1 as [[w island] stack]. intros Hrun.
  run_all; subst; cbn [fst]; try reflexivity.
  all: repeat match goal with
       | H : push_body _ _ _ _ = Done _ |- _ => apply push_body_wf in H
       end.
  all: to_wf; wf_links.
Qed.

Lemma search_edges_wf {A : Type} (f : A → search_state → result search_state)
    (l : list A) (s s' : search_state) :
  (∀ x s1 s2, f x s1 = Done s2 → wf_kept s1.1.1 s2.1.1) →
  for_each f l s = Done s' → wf_kept s.1.1 s'.1.1.
Proof.
  intros Hf.
  apply (for_each_Done_ind (λ s s' : search_state, wf_kept s.1.1 s'.1.1)).
  - intros s0. reflexivity.
  - intros s1 s2 s3. apply transitivity.
  - intros x s1 s2 _. apply Hf.
Qed.

Lemma search_wf (fuel : nat) (sz : Z) (st : search_state)
    (w' : World.t) (island' : Island.t) :
  search bm fuel sz st = Done (w', island') → wf_kept st.1.1 w'.
Proof.
  revert st. induction fuel as [|fuel IH]; intros [[w island] stack] Hrun;
    cbn [search] in Hrun; cbn [fst].
  - destruct stack; [|done]. by injection Hrun as -> _.
  - destruct stack as [|b stack]; [by injection Hrun as -> _|].
    apply bind_Done in Hrun as (body & Hbody & Hrun).
    apply bind_Done in Hrun as (? & _ & Hrun).
    apply bind_Done in Hrun as ([w1 island1] & Hadd & Hrun).
    apply bind_Done in Hrun as (w2 & Hwake & Hrun).
    apply Island_AddBody_wf in Hadd. to_wf.
    transitivity w1; [done|]. transitivity w2; [done|].
    case_decide.
    + by apply IH in Hrun.
    + apply bind_Done in Hrun as (st1 & Hc & Hrun).
      apply bind_Done in Hrun as (st2 & Hj & Hrun).
      apply search_edges_wf in Hc; [|apply search_contact_wf].
      apply search_edges_wf in Hj; [|apply search_joint_wf].
      apply IH in Hrun. cbn [fst] in Hc.
      transitivity st1.1.1; [done|]. by transitivity st2.1.1.
Qed.

Lemma Island_Solve_wf (step : cb2TimeStep) (allowSleep : bool) (island : Island.t)
    (w w' : World.t) :
  Island_Solve step allowSleep island w = Done w' → wf_kept w w'.
Proof.
  unfold Island_Solve. destruct (allowSleep && island_sleeps w island step).
  - apply for_each_wf. intros b s1 s2 Hu. by to_wf.
  - by intros [= ->].
Qed.

Lemma post_solve_cleanup_wf (island : Island.t) (w w' : World.t) :
  post_solve_cleanup island w = Done w' → wf_kept w w'.
Proof.
  unfold post_solve_cleanup. apply for_each_wf. intros b s1 s2.
  unfold cleanup_step. intros Hrun. run_all; subst; [|reflexivity].
  match goal with H : get_body _ _ = Done ?x |- _ => apply deref_Done in H; rename H into Hx end.
  apply wf_same_links. eapply same_links_put_body; [done|]. apply links_clear_island.
Qed.

Lemma Solve_seed_wf (fuel : nat) (step : cb2TimeStep) (sz : Z) (seed : nat)
    (s1 s2 : World.t * Island.t * list Island.t) :
  Solve_seed bm fuel step sz seed s1 = Done s2 → wf_kept s1.1.1 s2.1.1.
Proof.
  unfold Solve_seed. destruct s1 as [[w island] built]. intros Hrun.
  run_all; subst; cbn [fst]; try reflexivity.
  repeat match goal with
  | H : push_body _ _ _ _ = Done _ |- _ => apply push_body_wf in H
  | H : search _ _ _ _ = Done _ |- _ => apply search_wf in H; cbn [fst] in H
  | H : Island_Solve _ _ _ _ = Done _ |- _ => apply Island_Solve_wf in H
  | H : post_solve_cleanup _ _ = Done _ |- _ => apply post_solve_cleanup_wf in H
  end.
  wf_links.
Qed.

Lemma Solve_wf (fuel : nat) (step : cb2TimeStep) (w w' : World.t)
    (built : list Island.t) :
  Solve bm fuel step w = Done (w', built) → wf_kept w w'.
Proof.
  unfold Solve. intros Hrun.
  apply bind_Done in Hrun as (w1 & H1 & Hrun).
  apply bind_Done in Hrun as (w2 & H2 & Hrun).
  apply bind_Done in Hrun as (w3 & H3 & Hrun).
  cbv zeta in Hrun.
  apply bind_Done in Hrun as ([[w4 island4] built4] & H4 & Hrun).
  apply bind_Done in Hrun as (moved & _ & Hrun).
  apply bind_Done in Hrun as (w5 & H5 & Hrun).
  injection Hrun as <- <-.
  apply for_each_wf in H1; [|intros b s1 s2 Hu; by to_wf].
  apply for_each_wf in H2; [|intros b s1 s2 Hu; by to_wf].
  apply for_each_wf in H3; [|intros b s1 s2 Hu; by to_wf].
  apply (for_each_Done_ind (λ s s' : World.t * Island.t * list Island.t,
                              wf_kept s.1.1 s'.1.1)) in H4.
  - apply FindNewContacts_wf in H5. cbn [fst] in H4.
    transitivity w1; [done|]. transitivity w2; [done|]. transitivity w3; [done|].
    by transitivity w4.
  - intros s0. reflexivity.
  - intros s1 s2 s3. apply transitivity.
  - intros x s1 s2 _. apply Solve_seed_wf.
Qed.

(** *** SolveTOI *)

Lemma restore_sweep_wf (s : Sweep.t) (b : nat) (w w' : World.t) :
  restore_sweep s b w = Done w' → wf_kept w w'.
Proof. unfold restore_sweep. intros Hu. by to_wf. Qed.

Lemma Island_SolveTOI_wf (subStep : cb2TimeStep) (island : Island.t) (w w' : World.t) :
  Island_SolveTOI subStep island w = Done w' → wf_kept w w'.
Proof.
  unfold Island_SolveTOI. generalize w at 1 as w0. intros w0.
  apply for_each_wf. intros b s1 s2 Hu. by to_wf.
Qed.

Lemma toi_reset_body_wf (b : nat) (s1 s2 : World.t * list nat) :
  toi_reset_body b s1 = Done s2 → wf_kept s1.1 s2.1.
Proof.
  unfold toi_reset_body. destruct s1 as [w moved]. intros Hrun.
  run_all; subst; cbn [fst]; to_wf; [done|].
  etransitivity; [eassumption|].
  match goal with H : for_each _ _ _ = Done _ |- _ => revert H end.
  apply for_each_wf. intros ce s1 s2 Hu. by to_wf.
Qed.

Ltac more_wf :=
  repeat match goal with
  | H : restore_sweep _ _ _ = Done _ |- _ => apply restore_sweep_wf in H
  | H : Contact_Update _ _ = Done _ |- _ => apply Contact_Update_wf in H
  | H : Island_AddBody _ _ _ = Done _ |- _ => apply Island_AddBody_wf in H
  | H : Island_SolveTOI _ _ _ = Done _ |- _ => apply Island_SolveTOI_wf in H
  | H : FindNewContacts _ _ = Done _ |- _ => apply FindNewContacts_wf in H
  | H : for_each toi_reset_body _ _ = Done _ |- _ =>
      apply (for_each_wf_with _ _ _ _ toi_reset_body_wf) in H; cbn [fst] in H
  end; to_wf.

Lemma toi_collect_edge_wf (alpha : R) (body : nat) (ce : cb2ContactEdge)
    (w w' : World.t) (island island' : Island.t) :
  toi_collect_edge bm alpha body ce (w, island) = Done (w', island') → wf_kept w w'.
Proof.
  unfold toi_collect_edge. intros Hrun. cbv zeta in Hrun.
  run_all; subst; more_wf; wf_links.
Qed.

Lemma toi_collect_wf (alpha : R) (body : nat) (edges : list cb2ContactEdge)
    (w w' : World.t) (island island' : Island.t) :
  toi_collect bm alpha body edges (w, island) = Done (w', island') → wf_kept w w'.
Proof.
  revert w island. induction edges as [|ce edges IH]; intros w island Hrun;
    cbn [toi_collect] in Hrun.
  - run_all. subst. reflexivity.
  - run_all; subst; try reflexivity.
    match goal with H : toi_collect_edge _ _ _ _ _ = Done ?x |- _ => destruct x end.
    etransitivity; [by eapply toi_collect_edge_wf | by eapply IH].
Qed.

Lemma toi_collect_body_wf (alpha : R) (body : nat)
    (w w' : World.t) (island island' : Island.t) :
  toi_collect_body bm alpha body (w, island) = Done (w', island') → wf_kept w w'.
Proof.
  unfold toi_collect_body. intros Hrun. cbn [fst] in Hrun.
  run_all; subst; [by eapply toi_collect_wf | reflexivity].
Qed.

Lemma compute_toi_wf (c : nat) (ct : Contact.t) (w w' : World.t) (alpha : R) :
  compute_toi bm c ct w = Done (Some (w', alpha)) → wf_kept w w'.
Proof.
  unfold compute_toi. intros Hrun. cbv zeta in Hrun.
  run_all; simplify_eq; more_wf; wf_links.
Qed.

Lemma toi_scan_contact_wf (c : nat) (s1 s2 : World.t * toi_event) :
  toi_scan_contact bm c s1 = Done s2 → wf_kept s1.1 s2.1.
Proof.
  unfold toi_scan_contact. destruct s1 as [w ev]. intros Hrun.
  run_all; simplify_eq; cbn [fst]; try reflexivity.
  all: by eapply compute_toi_wf.
Qed.

Lemma toi_scan_wf (w w' : World.t) (ev : toi_event) :
  toi_scan bm w = Done (w', ev) → wf_kept w w'.
Proof.
  unfold toi_scan. intros Hrun.
  by apply (for_each_wf_with _ _ _ _ toi_scan_contact_wf) in Hrun.
Qed.

Lemma toi_iteration_wf (step : cb2TimeStep) (island island' : Island.t)
    (w w' : World.t) (ev : toi_event) (control : loop_control) :
  toi_iteration bm step island w = Done (w', island', ev, control) → wf_kept w w'.
Proof.
  unfold toi_iteration. intros Hrun. cbv zeta in Hrun.
  run_all; simplify_eq.
  all: repeat match goal with
       | H : toi_collect_body _ _ _ _ = Done ?x |- _ => is_var x; destruct x
       | H : toi_scan _ _ = Done _ |- _ => apply toi_scan_wf in H
       | H : toi_collect_body _ _ _ _ = Done _ |- _ => apply toi_collect_body_wf in H
       end.
  all: more_wf; wf_links.
Qed.

Lemma toi_loop_wf (fuel : nat) (step : cb2TimeStep) (island : Island.t)
    (w w' : World.t) (events : list toi_event) :
  toi_loop bm fuel step island w = Done (w', events) → wf_kept w w'.
Proof.
  revert w events island. induction fuel as [|fuel IH]; intros w events island Hrun;
    cbn [toi_loop] in Hrun; [done|].
  apply bind_Done in Hrun as ([[[w1 island1] ev] control] & Hit & Hrun).
  apply toi_iteration_wf in Hit.
  destruct control.
  - by injection Hrun as <- _.
  - apply bind_Done in Hrun as ([w2 events2] & Hloop & Hrun).
    injection Hrun as <- _. apply IH in Hloop. by transitivity w1.
Qed.

Lemma SolveTOI_wf (fuel : nat) (step : cb2TimeStep) (w w' : World.t)
    (events : list toi_event) :
  SolveTOI bm fuel step w = Done (w', events) → wf_kept w w'.
Proof.
  unfold SolveTOI. intros Hrun. cbv zeta in Hrun.
  apply bind_Done in Hrun as (w1 & Hreset & Hrun).
  apply toi_loop_wf in Hrun.
  transitivity w1; [|done]. clear Hrun.
  destruct (World.m_stepComplete w); [|by injection Hreset as ->].
  apply bind_Done in Hreset as (w0 & H0 & H1).
  apply for_each_wf in H0; [|intros b s1 s2 Hu; by to_wf].
  apply for_each_wf in H1; [|intros b s1 s2 Hu; by to_wf].
  by transitivity w0.
Qed.

(** X26: with a broad phase that reports fixtures of active bodies of the
    world, a call of [Step] that returns keeps a well-formed world well
    formed: through the contacts that [Collide] destroys, the islands of
    [Solve], the sub-steps of [SolveTOI] and the contacts that are found
    on the way, every edge of a body still names a contact or a joint of
    the world that links back from the other body, the lists hold the
    objects of the world and the counts are their numbers. *)
Theorem Step_keeps_the_world_well_formed (fuel : nat) (dt : R) (vi pi : Z)
    (w w' : World.t) (log : step_log) :
  wf_world w →
  Step bm fuel dt vi pi w = Done (w', log) →
  wf_world w'.
Proof.
  intros Hwf. unfold Step. intros Hrun.
  apply bind_Done in Hrun as (w1 & Hpre & Hrun). cbv zeta in Hrun.
  apply bind_Done in Hrun as (w2 & Hcol & Hrun).
  apply bind_Done in Hrun as ([w3 solved] & Hsolve & Hrun).
  apply bind_Done in Hrun as ([w4 toi] & Htoi & Hrun).
  apply bind_Done in Hrun as (w5 & Hclear & Hrun).
  injection Hrun as <- _.
  assert (K1 : wf_kept w w1).
  { destruct (flag_on (World.m_flags w) World.e_newFixture).
    - apply bind_Done in Hpre as (w0 & Hfind & Hpre). injection Hpre as <-.
      apply FindNewContacts_wf in Hfind.
      transitivity w0; [done | by apply wf_kept_same].
    - by injection Hpre as <-. }
  apply Collide_wf in Hcol.
  assert (K3 : wf_kept w2 w3).
  { destruct (World.m_stepComplete w2 && bool_decide (0 < dt)%R).
    - apply bind_Done in Hsolve as ([w0 built] & Hsolve & Heq). injection Heq as <- _.
      by apply Solve_wf in Hsolve.
    - injection Hsolve as <- _. reflexivity. }
  assert (K4 : wf_kept w3 w4).
  { destruct (World.m_continuousPhysics w3 && bool_decide (0 < dt)%R).
    - apply bind_Done in Htoi as ([w0 events] & Htoi & Heq). injection Heq as <- _.
      by apply SolveTOI_wf in Htoi.
    - injection Htoi as <- _. reflexivity. }
  assert (K5 : wf_kept w4 w5).
  { transitivity (if decide (0 < dt)%R
                  then World.with_inv_dt0
                         (inv_dt (time_step
                                    (World.with_flags
                                       (set_flag (World.m_flags w1) World.e_locked) w1)
                                    dt vi pi)) w4
                  else w4).
    - destruct (decide (0 < dt)%R); [by apply wf_kept_same | reflexivity].
    - destruct (flag_on _ World.e_clearForces).
      + by apply ClearForces_wf in Hclear.
      + injection Hclear as <-. reflexivity. }
  assert (K : wf_kept w (World.with_flags (clear_flag (World.m_flags w5) World.e_locked) w5)).
  { transitivity w1; [done|].
    transitivity (World.with_flags (set_flag (World.m_flags w1) World.e_locked) w1);
      [by apply wf_kept_same|].
    transitivity w2; [done|]. transitivity w3; [done|]. transitivity w4; [done|].
    transitivity w5; [done | by apply wf_kept_same]. }
  by apply K.
Qed.

End WellFormed.

Lemma still_broad_phase_active : broad_phase_active (env := still_collaborators).
Proof. intros w moved fA fB Hin. by apply elem_of_nil in Hin. Qed.

Lemma Step_keeps_the_world_well_formed_witness :
  ∃ w' log,
    wf_world discrete_chain_world
    ∧ Step (env := still_collaborators) Release 4 1 8 3 discrete_chain_world
      = Done (w', log)
    ∧ wf_world w'.
Proof.
  assert (Hwf : wf_world discrete_chain_world).
  { apply (bool_decide_unpack _). vm_compute. exact I. }
  assert (Hrun : ∃ r, Step (env := still_collaborators) Release 4 1 8 3
                        discrete_chain_world = Done r).
  { unfold Step, time_step. rewrite (bool_decide_eq_true_2 (0 < 1)%R) by lra.
    destruct (decide (0 < 1)%R) as [_|?]; [|lra]. vm_compute. eexists. reflexivity. }
  destruct Hrun as ([w' log] & Hrun). exists w', log.
  split; [exact Hwf|]. split; [exact Hrun|].
  exact (Step_keeps_the_world_well_formed (env := still_collaborators) Release
           still_broad_phase_active 4 1 8 3 discrete_chain_world w' log Hwf Hrun).
Defined.

(** ** A call of [Step] with no time to advance *)

#[global] Instance nothing_advanced_preorder : PreOrder nothing_advanced.
Proof.
  split.
  - intros w b body Hb. exists body. by repeat split.
  - intros w1 w2 w3 H12 H23 b body Hb.
    destruct (H12 b body Hb) as (body2 & Hb2 & A1 & A2 & A3 & A4).
    destruct (H23 b body2 Hb2) as (body3 & Hb3 & B1 & B2 & B3 & B4).
    exists body3. split; [done|]. repeat split; congruence.
Qed.

Lemma bodies_stay_nothing_advanced (w w' : World.t) :
  bodies_stay w w' → nothing_advanced w w'.
Proof.
  intros Hs b body Hb.
  destruct (Hs b body Hb) as (body' & Hb' & _ & A2 & A3 & A4 & A5 & _).
  exists body'. by repeat split.
Qed.

Lemma ClearForces_nothing_advanced (w w' : World.t) :
  ClearForces w = Done w' → nothing_advanced w w'.
Proof.
  unfold ClearForces.
  apply (for_each_Done_ind nothing_advanced); [apply reflexivity | apply transitivity |].
  intros b s1 s2 _ Hu. apply update_body_Done in Hu as (x & Hx & ->).
  intros k body Hk. unfold put_body. cbn [World.bodies World.with_bodies].
  destruct (decide (b = k)) as [<-|Hne].
  - rewrite lookup_insert_eq. eexists. split; [done|].
    assert (x = body) as -> by congruence. by repeat split.
  - rewrite lookup_insert_ne by done. exists body. by repeat split.
Qed.

Section NoTime.
Context {env : Collaborators}.
Variable bm : build.

Lemma ContactManager_Destroy_stay (c : nat) (w w' : World.t) :
  ContactManager_Destroy c w = Done w' → bodies_stay w w'.
Proof.
  unfold ContactManager_Destroy. intros Hrun. run_all; subst.
  repeat match goal with
  | H : update_body _ _ _ = Done _ |- _ => apply update_body_stay in H; [|done]
  end.
  match goal with
  | H : bodies_stay ?a ?b, H' : bodies_stay ?b ?c |- bodies_stay ?w (World.with_contacts _ ?c) =>
      transitivity a; [by apply bodies_stay_same|];
      transitivity b; [done|]; transitivity c; [done | by apply bodies_stay_same]
  end.
Qed.

Lemma Collide_stay (w w' : World.t) : Collide w = Done w' → bodies_stay w w'.
Proof.
  unfold Collide.
  apply (for_each_Done_ind bodies_stay); [apply reflexivity | apply transitivity |].
  intros c s1 s2 _. destruct (broad_phase_overlap s1 c).
  - unfold Contact_Update. destruct (narrow_phase s1 c) as [touching enabled].
    apply update_contact_stay.
  - apply ContactManager_Destroy_stay.
Qed.

(** C5: a call [Step(dt, ...)] with [dt <= 0] runs neither [Solve] nor
    [SolveTOI]: every body of the world it is called on is left where it
    was, with the velocities it had.  When the clear-forces flag of that
    world is set, the call leaves no force and no torque on any body of its
    body list; when the flag is not set, every body keeps its force and
    torque.  The body list and the clear-forces flag are those of the world
    the call started from, and the world is unlocked again. *)
Theorem Step_without_time (fuel : nat) (dt : R) (vi pi : Z) (w w' : World.t)
    (log : step_log) :
  (dt <= 0)%R →
  Step bm fuel dt vi pi w = Done (w', log) →
  islands log = None ∧ toi_events log = None
  ∧ (∀ b body, World.bodies w !! b = Some body →
       ∃ body', World.bodies w' !! b = Some body'
                ∧ same_placement body' body
                ∧ (flag_on (World.m_flags w) World.e_clearForces = false →
                   same_forces body' body))
  ∧ (flag_on (World.m_flags w) World.e_clearForces = true →
     ∀ b, b ∈ World.m_bodyList w → forces_cleared w' b)
  ∧ World.m_bodyList w' = World.m_bodyList w
  ∧ flag_on (World.m_flags w') World.e_clearForces
    = flag_on (World.m_flags w) World.e_clearForces
  ∧ World.IsLocked w' = false
  ∧ Step bm 0 dt vi pi w = Done (w', log).
Proof.
  intros Hdt. unfold Step.
  destruct (bool_decide (0 < dt)%R) eqn:Hpos;
    [apply bool_decide_eq_true in Hpos; lra|].
  destruct (decide (0 < dt)%R) as [?|_]; [lra|].
  intros Hrun.
  apply bind_Done in Hrun as (w1 & Hpre & Hrun). cbv zeta in Hrun.
  apply bind_Done in Hrun as (w2 & Hcol & Hrun).
  rewrite !andb_false_r in Hrun. cbn [mbind result_bind] in Hrun.
  rewrite !andb_false_r in Hrun. cbn [mbind result_bind] in Hrun.
  apply bind_Done in Hrun as (w3 & Hclear & Hrun).
  inversion Hrun; subst w' log; clear Hrun.
  (* the world after the search for new contacts *)
  assert (M1 : bodies_stay w w1 ∧ World.m_bodyList w1 = World.m_bodyList w
               ∧ World.m_flags w1 = clear_flag (World.m_flags w) World.e_newFixture).
  { destruct (flag_on (World.m_flags w) World.e_newFixture) eqn:Hnew.
    - apply bind_Done in Hpre as (w0 & Hfind & Hpre). injection Hpre as <-.
      pose proof (FindNewContacts_stay _ _ _ Hfind) as Hstay.
      apply FindNewContacts_untouched in Hfind as ((_ & _ & S) & F & _).
      split; [|split].
      + transitivity w0; [done | by apply bodies_stay_same].
      + cbn [World.m_bodyList World.with_flags]. by injection S.
      + cbn [World.m_flags World.with_flags]. by rewrite F.
    - injection Hpre as <-. split; [reflexivity|]. split; [done|].
      symmetry. change World.e_newFixture with (2 ^ 0). apply clear_flag_off; [done|].
      change World.e_newFixture with (2 ^ 0) in Hnew. by rewrite flag_on_pow2 in Hnew. }
  destruct M1 as (S1 & L1 & F1).
  pose proof (Collide_stay _ _ Hcol) as S2.
  destruct (Collide_untouched _ _ Hcol) as ((_ & _ & L2) & F2 & _).
  assert (L2' : World.m_bodyList w2 = World.m_bodyList w).
  { rewrite <- L1. by injection L2. }
  cbn [World.m_flags World.with_flags] in F2.
  assert (Hbit : flag_on (World.m_flags w2) World.e_clearForces
                 = flag_on (World.m_flags w) World.e_clearForces).
  { rewrite F2, F1. change World.e_clearForces with (2 ^ 2).
    rewrite !flag_on_pow2 by done. change World.e_locked with (2 ^ 1).
    change World.e_newFixture with (2 ^ 0).
    rewrite testbit_set_flag, testbit_clear_flag by done.
    change (1 =? 2) with false. change (0 =? 2) with false.
    by rewrite orb_false_r, andb_true_r. }
  assert (S12 : bodies_stay w w2).
  { transitivity w1; [done|].
    transitivity (World.with_flags (set_flag (World.m_flags w1) World.e_locked) w1);
      [by apply bodies_stay_same | done]. }
  rewrite Hbit in Hclear.
  assert (L3 : World.m_bodyList w3 = World.m_bodyList w
               ∧ World.m_flags w3 = World.m_flags w2).
  { destruct (flag_on (World.m_flags w) World.e_clearForces).
    - apply ClearForces_spec in Hclear as (_ & L & F & _). split; congruence.
    - by injection Hclear as <-. }
  destruct L3 as [L3 F3].
  split; [done|]. split; [done|]. split; [|split; [|split; [|split; [|split]]]].
  - intros b body Hb. cbn [World.bodies World.with_flags].
    destruct (flag_on (World.m_flags w) World.e_clearForces) eqn:Hflag.
    + apply ClearForces_nothing_advanced in Hclear.
      destruct (bodies_stay_nothing_advanced _ _ S12 b body Hb) as (body2 & Hb2 & P2).
      destruct (Hclear b body2 Hb2) as (body3 & Hb3 & P3).
      exists body3. split; [done|]. split; [|done].
      destruct P2 as (A1 & A2 & A3 & A4), P3 as (B1 & B2 & B3 & B4).
      repeat split; congruence.
    + injection Hclear as <-.
      destruct (S12 b body Hb) as (body2 & Hb2 & _ & A2 & A3 & A4 & A5 & A6 & A7 & _).
      exists body2. split; [done|]. by repeat split.
  - intros Hflag b Hb. rewrite Hflag in Hclear.
    apply ClearForces_spec in Hclear as (Hall & _).
    unfold forces_cleared. cbn [World.bodies World.with_flags].
    apply Hall. by rewrite L2'.
  - done.
  - cbn [World.m_flags World.with_flags]. rewrite F3, <- Hbit.
    change World.e_clearForces with (2 ^ 2). rewrite !flag_on_pow2 by done.
    change World.e_locked with (2 ^ 1). rewrite testbit_clear_flag by done.
    apply andb_true_r.
  - unfold World.IsLocked. cbn [World.m_flags World.with_flags].
    change World.e_locked with (2 ^ 1). rewrite flag_all_pow2, testbit_clear_flag by done.
    apply andb_false_r.
  - rewrite Hpre. cbn [mbind result_bind]. cbv zeta.
    rewrite Hcol.
    cbn [mbind result_bind].
    rewrite !andb_false_r. cbn [mbind result_bind].
    rewrite !andb_false_r. cbn [mbind result_bind].
    rewrite Hbit, Hclear. done.
Qed.

End NoTime.

Lemma Step_without_time_witness :
  ∃ w' log,
    Step (env := still_collaborators) Release 3 0 8 3 pushed_body_world = Done (w', log)
    ∧ islands log = None ∧ toi_events log = None
    ∧ (∀ b body, World.bodies pushed_body_world !! b = Some body →
         ∃ body', World.bodies w' !! b = Some body'
                  ∧ same_placement body' body
                  ∧ (flag_on (World.m_flags pushed_body_world) World.e_clearForces = false →
                     same_forces body' body))
    ∧ (flag_on (World.m_flags pushed_body_world) World.e_clearForces = true →
       ∀ b, b ∈ World.m_bodyList pushed_body_world → forces_cleared w' b)
    ∧ World.m_bodyList w' = World.m_bodyList pushed_body_world
    ∧ flag_on (World.m_flags w') World.e_clearForces
      = flag_on (World.m_flags pushed_body_world) World.e_clearForces
    ∧ World.IsLocked w' = false
    ∧ Step (env := still_collaborators) Release 0 0 8 3 pushed_body_world = Done (w', log).
Proof.
  assert (Hrun : ∃ r, Step (env := still_collaborators) Release 3 0 8 3 pushed_body_world
                      = Done r).
  { unfold Step. rewrite (bool_decide_eq_false_2 (0 < 0)%R) by lra.
    destruct (decide (0 < 0)%R) as [?|_]; [lra|].
    vm_compute. eexists. reflexivity. }
  destruct Hrun as ([w' log] & Hrun). exists w', log. split; [exact Hrun|].
  apply (Step_without_time (env := still_collaborators) Release 3 0 8 3 pushed_body_world
           w' log); [lra | exact Hrun].
Defined.

(** ** Static bodies in the islands of a pass *)

(** What a turn of the loops over the edges of a body leaves on the stack:
    what was there, and the other body of the edge. *)
Section Pushed.
Variable bm : build.

Lemma search_contact_pushed (sz : Z) (ce : cb2ContactEdge) (st st' : search_state) :
  search_contact bm sz ce st = Done st' →
  ∀ y, y ∈ st'.2 → y ∈ st.2 ∨ y = ce_other ce.
Proof.
  destruct st as [[w cur] stack], st' as [[w' cur'] stack']. unfold search_contact.
  intros Hs. apply bind_Done in Hs as (ct & _ & Hs).
  destruct (Contact.in_island ct); [inversion Hs; by left|].
  destruct (_ || _); [inversion Hs; by left|].
  apply bind_Done in Hs as (fA & _ & Hs). apply bind_Done in Hs as (fB & _ & Hs).
  destruct (_ || _); [inversion Hs; by left|].
  apply bind_Done in Hs as (cur1 & _ & Hs). apply bind_Done in Hs as (w1 & _ & Hs).
  apply bind_Done in Hs as (ob & _ & Hs).
  destruct (Body.in_island ob); [inversion Hs; by left|].
  apply bind_Done in Hs as (_ & _ & Hs).
  apply bind_Done in Hs as ([w2 stack2] & Hp & Hs).
  apply push_body_stack in Hp. inversion Hs; subst. cbn [snd].
  intros y Hy. apply elem_of_cons in Hy as [->|Hy]; [by right | by left].
Qed.

Lemma search_joint_pushed (sz : Z) (je : cb2JointEdge) (st st' : search_state) :
  search_joint bm sz je st = Done st' →
  ∀ y, y ∈ st'.2 → y ∈ st.2 ∨ y = je_other je.
Proof.
  destruct st as [[w cur] stack], st' as [[w' cur'] stack']. unfold search_joint.
  intros Hs. apply bind_Done in Hs as (jt & _ & Hs).
  destruct (Joint.m_islandFlag jt); [inversion Hs; by left|].
  apply bind_Done in Hs as (ob & _ & Hs).
  destruct (negb _); [inversion Hs; by left|].
  apply bind_Done in Hs as (cur1 & _ & Hs). apply bind_Done in Hs as (w1 & _ & Hs).
  destruct (Body.in_island ob); [inversion Hs; by left|].
  apply bind_Done in Hs as (_ & _ & Hs).
  apply bind_Done in Hs as ([w2 stack2] & Hp & Hs).
  apply push_body_stack in Hp. inversion Hs; subst. cbn [snd].
  intros y Hy. apply elem_of_cons in Hy as [->|Hy]; [by right | by left].
Qed.

Lemma search_edges_pushed {A : Type} (f : A → search_state → result search_state)
    (other : A → nat) (l : list A) :
  (∀ x s s', f x s = Done s' → ∀ y, y ∈ s'.2 → y ∈ s.2 ∨ y = other x) →
  ∀ st st', for_each f l st = Done st' →
    ∀ y, y ∈ st'.2 → y ∈ st.2 ∨ ∃ x, x ∈ l ∧ y = other x.
Proof.
  intros Hf. induction l as [|x l IH]; intros st st' Hrun y Hy; cbn [for_each] in Hrun.
  - injection Hrun as <-. by left.
  - apply bind_Done in Hrun as (s1 & Hstep & Hrest).
    destruct (IH _ _ Hrest y Hy) as [Hin|(x' & Hx' & ->)].
    + destruct (Hf _ _ _ Hstep y Hin) as [?| ->]; [by left|].
      right. exists x. split; [by left | done].
    + right. exists x'. split; [by right | done].
Qed.

End Pushed.

(** The search reads the edges of no static body: whatever it puts in the
    island is reached from what the island and the stack held, along edges
    of bodies that are not static. *)
Section Reached.
Variable bm : build.
Variables (w0 : World.t) (built : list (list nat)).
Hypothesis Hwf : wf_world w0.
Variable seed : nat.

Lemma search_reached (fuel : nat) :
  ∀ (w : World.t) (cur : Island.t) (stack : list nat) (x : nat) (w' : World.t)
    (cur' : Island.t),
    search_inv w0 built w cur stack x [] [] →
    (∀ b, b ∈ Island.m_bodies cur ∨ b ∈ stack → reached w0 seed b) →
    search bm fuel (Z.of_nat (size (World.bodies w0))) (w, cur, stack) = Done (w', cur') →
    ∀ b, b ∈ Island.m_bodies cur' → reached w0 seed b.
Proof.
  induction fuel as [|fuel IH]; intros w cur stack x w' cur' Hinv Hreach Hrun.
  - destruct stack as [|b stack]; [|done].
    injection Hrun as <- <-. intros b Hb. apply Hreach. by left.
  - destruct stack as [|b stack].
    { injection Hrun as <- <-. intros b Hb. apply Hreach. by left. }
    pose proof (si_graph _ _ _ _ _ _ _ _ Hinv) as Hgr.
    assert (Hbf : bflag w b = true).
    { apply (si_members_flagged _ _ _ _ _ _ _ _ Hinv). right. by left. }
    apply bflag_true in Hbf as (body & Hb & _).
    destruct (pop_inv bm w0 built w cur stack x b body Hinv Hb)
      as (w1 & w2 & Hassert & Hadd & Hwake & Hinv2).
    assert (Hbin : b ∈ Island.m_bodies (island_with_body b cur)).
    { cbn [island_with_body Island.m_bodies]. apply elem_of_app. right. by left. }
    assert (Hrb : reached w0 seed b) by (apply Hreach; right; by left).
    assert (Hcur : ∀ b', b' ∈ Island.m_bodies (island_with_body b cur) →
                     reached w0 seed b').
    { intros b'. cbn [island_with_body Island.m_bodies].
      rewrite elem_of_app, list_elem_of_singleton. intros [Hin| ->]; [|done].
      apply Hreach. by left. }
    cbn [search] in Hrun. unfold get_body at 1, deref in Hrun. rewrite Hb in Hrun.
    cbn [mbind result_bind] in Hrun.
    rewrite Hassert in Hrun. cbn [mbind result_bind] in Hrun.
    rewrite Hadd in Hrun. cbn [mbind result_bind] in Hrun.
    rewrite Hwake in Hrun. cbn [mbind result_bind] in Hrun.
    pose proof (nonstatic_current _ _ Hgr _ _ Hb) as Hns.
    unfold Body.GetType in Hrun. case_decide as Hty.
    + (* a static body: none of its edges is read *)
      assert (Hinv3 : search_inv w0 built w2 (island_with_body b cur) stack b [] []).
      { eapply static_pending_drop; [done|]. intros Hn. by apply Hns in Hn. }
      eapply IH; [exact Hinv3 | | exact Hrun].
      intros b' [Hin|Hin]; [by apply Hcur|]. apply Hreach. right. by right.
    + assert (Hnsb : nonstatic w0 b) by (by apply Hns).
      destruct (search_contacts_inv bm w0 built Hwf (Body.m_contactList body) w2 _ stack b
                  (Body.m_jointList body) Hinv2 Hbin Hnsb)
        as (w3 & cur3 & stack3 & Hloop1 & Hbodies3 & Hinv3).
      { intros ce Hce. by eapply cedge_current. }
      rewrite Hloop1 in Hrun. cbn [mbind result_bind] in Hrun.
      destruct (search_joints_inv bm w0 built Hwf (Body.m_jointList body) w3 cur3 stack3 b
                  Hinv3)
        as (w4 & cur4 & stack4 & Hloop2 & Hbodies4 & Hinv4).
      { by rewrite Hbodies3. }
      { done. }
      { intros je Hje. by eapply jedge_current. }
      rewrite Hloop2 in Hrun. cbn [mbind result_bind] in Hrun.
      eapply IH; [exact Hinv4 | | exact Hrun].
      intros b' [Hin|Hin].
      * apply Hcur. by rewrite <- Hbodies3, <- Hbodies4.
      * destruct (search_edges_pushed _ je_other _ (search_joint_pushed bm _)
                    _ _ Hloop2 b' Hin) as [Hin3|(je & Hje & ->)].
        -- cbn [snd] in Hin3.
           destruct (search_edges_pushed _ ce_other _ (search_contact_pushed bm _)
                       _ _ Hloop1 b' Hin3) as [Hin2|(ce & Hce & ->)].
           ++ apply Hreach. right. by right.
           ++ apply (reached_contact w0 seed b (ce_contact ce)); [done | done |].
              by eapply cedge_current.
        -- apply (reached_joint w0 seed b (je_joint je)); [done | done |].
           by eapply jedge_current.
Qed.

End Reached.

Section Grown.
Context {env : Collaborators}.
Variable bm : build.
Variable w0 : World.t.
Hypothesis Hwf : wf_world w0.

(** One turn of the loop over the seeds builds no island, or one that has
    grown from the seed. *)
Lemma Solve_seed_grown (fuel : nat) (step : cb2TimeStep) (seed : nat)
    (built built' : list Island.t) (w w' : World.t) (island island' : Island.t) :
  outer_inv w0 built w island →
  (size (World.bodies w0) < fuel)%nat →
  Solve_seed bm fuel step (Z.of_nat (size (World.bodies w0))) seed (w, island, built)
  = Done (w', island', built') →
  built' = built
  ∨ ∃ I, built' = built ++ [I] ∧ grown_from_a_seed w0 I.
Proof.
  intros [Hinv Huniq] Hfuel Hrun.
  pose proof (si_graph _ _ _ _ _ _ _ _ Hinv) as Hgr.
  unfold Solve_seed in Hrun. apply bind_Done in Hrun as (s & Hs & Hrun).
  apply deref_Done in Hs.
  destruct (Body.in_island s) eqn:Hsi; [injection Hrun as <- <- <-; by left|].
  destruct (negb (Body.IsAwake s) || negb (Body.IsActive s)) eqn:Haw;
    [injection Hrun as <- <- <-; by left|].
  unfold Body.GetType in Hrun. case_decide as Hty; [injection Hrun as <- <- <-; by left|].
  apply orb_false_iff in Haw as [_ Hact]. apply negb_false_iff in Hact.
  assert (Hactive : active w0 seed) by (by apply (active_current _ _ Hgr _ _ Hs)).
  assert (Hns : nonstatic w0 seed) by (by apply (nonstatic_current _ _ Hgr _ _ Hs)).
  destruct (push_body_inv w0 _ w _ [] 0%nat [] [] seed s Hinv Hs Hsi Hactive)
    as (wp & Hpush & Hinvp & _).
  rewrite Hpush in Hrun. cbn [mbind result_bind] in Hrun.
  apply bind_Done in Hrun as ([w1 cur1] & Hsearch & Hrun).
  apply bind_Done in Hrun as (w2 & _ & Hrun).
  apply bind_Done in Hrun as (w3 & _ & Hrun).
  injection Hrun as <- <- <-. right. exists cur1. split; [done|].
  exists seed. split; [done|].
  assert (Hstart : ∀ b, b ∈ Island.m_bodies (Island.Clear island) ∨ b ∈ [seed] →
                     reached w0 seed b).
  { intros b [Hb|Hb]; [by apply elem_of_nil in Hb|].
    apply list_elem_of_singleton in Hb as ->. constructor. }
  split; [|by apply (search_reached bm w0 _ Hwf seed fuel wp (Island.Clear island)
                      [seed] 0%nat w1 cur1 Hinvp)].
  (* the seed itself is a body of the island *)
  destruct (search_total bm w0 _ Hwf fuel wp _ [seed] 0%nat Hinvp)
    as (w1' & cur1' & x1 & Hsearch' & _ & Hmem).
  { cbn [Island.Clear Island.m_bodies length]. lia. }
  rewrite Hsearch in Hsearch'. injection Hsearch' as <- <-.
  apply Hmem. right. by apply list_elem_of_singleton.
Qed.

Lemma Solve_seeds_grown (fuel : nat) (step : cb2TimeStep) (l : list nat) :
  ∀ (built built' : list Island.t) (w w' : World.t) (island island' : Island.t),
    outer_inv w0 built w island →
    (∀ b, b ∈ l → is_Some (World.bodies w0 !! b)) →
    (size (World.bodies w0) < fuel)%nat →
    for_each (Solve_seed bm fuel step (Z.of_nat (size (World.bodies w0)))) l
             (w, island, built)
    = Done (w', island', built') →
    (∀ I, I ∈ built → grown_from_a_seed w0 I) →
    ∀ I, I ∈ built' → grown_from_a_seed w0 I.
Proof.
  induction l as [|seed l IH]; intros built built' w w' island island' Hout Hl Hfuel Hrun Hg.
  - injection Hrun as <- <- <-. done.
  - cbn [for_each] in Hrun. apply bind_Done in Hrun as ([[w1 island1] built1] & Hstep & Hrest).
    destruct (Solve_seed_inv bm w0 Hwf fuel step seed built w island Hout)
      as (w1' & island1' & built1' & Hstep' & Hout1); [apply Hl; by left | done |].
    rewrite Hstep in Hstep'. injection Hstep' as <- <- <-.
    apply (IH built1 built' w1 w' island1 island' Hout1); [|done|done|].
    { intros b Hb. apply Hl. by right. }
    destruct (Solve_seed_grown fuel step seed built built1 w w1 island island1 Hout Hfuel
                Hstep) as [->|(I & -> & HI)]; [done|].
    intros J HJ. apply elem_of_app in HJ as [HJ|HJ]; [by apply Hg|].
    by apply list_elem_of_singleton in HJ as ->.
Qed.

End Grown.

(** A body whose only links go to a static body is reached from itself
    alone. *)
Lemma reached_through_static_only (w : World.t) (x y s : nat) :
  wf_world w → ¬ nonstatic w s → linked_only_to w y s →
  reached w x y → x = y.
Proof.
  intros Hwf Hs [Hc Hj] Hr. destruct Hr as [|p c o Hp Hns He|p j o Hp Hns He]; [done| |].
  - exfalso. apply Hs.
    destruct (wf_contact_edge _ _ _ _ Hwf He) as (_ & _ & _ & _ & _ & _ & _ & Hback & _).
    by rewrite <- (Hc c p Hback).
  - exfalso. apply Hs.
    destruct (wf_joint_edge _ _ _ _ Hwf He) as (_ & _ & _ & Hback).
    by rewrite <- (Hj j p Hback).
Qed.

Section NewContactsFlags.
Context {env : Collaborators}.

Lemma AddPair_flags_kept (pair : nat * nat) (w w' : World.t) :
  AddPair pair w = Done w' → body_flags_kept w w'.
Proof.
  unfold AddPair. destruct pair as [fixtureA fixtureB]. intros Hrun.
  cbv zeta in Hrun. run_all; subst; try apply body_flags_kept_refl.
  repeat match goal with
  | H : update_body _ _ _ = Done _ |- _ => apply update_body_flags_kept in H; [|done]
  end.
  match goal with
  | H : body_flags_kept ?a ?b, H' : body_flags_kept ?b w' |- _ =>
      apply (body_flags_kept_trans _ a); [by apply body_flags_kept_same_bodies|];
      by apply (body_flags_kept_trans _ b)
  end.
Qed.

Lemma FindNewContacts_flags_kept (moved : list nat) (w w' : World.t) :
  FindNewContacts moved w = Done w' → body_flags_kept w w'.
Proof.
  unfold FindNewContacts.
  apply (for_each_Done_ind body_flags_kept);
    [apply body_flags_kept_refl | apply body_flags_kept_trans |].
  intros x s1 s2 _. apply AddPair_flags_kept.
Qed.

End NewContactsFlags.

Section Pass.
Context {env : Collaborators}.
Variable bm : build.

(** The run of a pass of [Solve] over a well-formed world. *)
Lemma Solve_pass (fuel : nat) (step : cb2TimeStep) (w : World.t) :
  wf_world w → broad_phase_sound → (size (World.bodies w) < fuel)%nat →
  ∃ w3 w4 island4 built moved w',
    Solve bm fuel step w = Done (w', built)
    ∧ outer_inv w [] w3 (Island.create (World.m_bodyCount w) (World.m_contactCount w)
                                       (World.m_jointCount w))
    ∧ for_each (Solve_seed bm fuel step (Z.of_nat (size (World.bodies w))))
               (World.m_bodyList w)
               (w3, Island.create (World.m_bodyCount w) (World.m_contactCount w)
                                  (World.m_jointCount w), [])
      = Done (w4, island4, built)
    ∧ outer_inv w built w4 island4
    ∧ (∀ b, wakeful w b → ∃ J, J ∈ built ∧ b ∈ Island.m_bodies J)
    ∧ FindNewContacts moved w4 = Done w'.
Proof.
  intros Hwf Hbp Hfuel.
  pose proof Hwf as (Hbodies & Hcs & Hjs & Hbl & Hcl & Hjl & Hbc & Hcc & Hjc).
  rewrite Forall_forall in Hbl, Hcl, Hjl.
  destruct (clear_bodies_loop w (World.m_bodyList w) w (same_graph_refl w))
    as (w1 & Hrun1 & Hgr1 & Hc1 & Hj1 & Hbf1 & _); [done|].
  destruct (clear_contacts_loop w (World.m_contactList w) w1 Hgr1)
    as (w2 & Hrun2 & Hgr2 & Hb2 & Hj2 & Hcf2 & _); [done|].
  destruct (clear_joints_loop w (World.m_jointList w) w2 Hgr2)
    as (w3 & Hrun3 & Hgr3 & Hb3 & Hc3 & Hjf3 & _); [done|].
  assert (Hl1 : World.m_contactList w1 = World.m_contactList w) by apply Hgr1.
  assert (Hl2 : World.m_jointList w2 = World.m_jointList w) by apply Hgr2.
  assert (Hl3 : World.m_bodyList w3 = World.m_bodyList w) by apply Hgr3.
  assert (Hn3 : World.m_bodyCount w3 = World.m_bodyCount w) by apply Hgr3.
  assert (Hbflag : ∀ b, bflag w3 b = false).
  { intros b. unfold bflag. rewrite Hb3, Hb2.
    destruct (World.bodies w1 !! b) as [body|] eqn:Hb; [|done].
    destruct (same_graph_body _ _ _ _ Hgr1 Hb) as (body0 & Hb0 & _).
    destruct (Hbodies b body0 Hb0) as (_ & _ & Hin).
    specialize (Hbf1 b Hin). unfold bflag in Hbf1. by rewrite Hb in Hbf1. }
  assert (Hcflag : ∀ c, cflag w3 c = false).
  { intros c. unfold cflag. rewrite Hc3.
    destruct (World.contacts w2 !! c) as [ct|] eqn:Hc; [|done].
    destruct (same_graph_contact _ _ _ _ Hgr2 Hc) as (ct0 & Hct0 & _).
    specialize (Hcf2 c (Hcs c ct0 Hct0)). unfold cflag in Hcf2. by rewrite Hc in Hcf2. }
  assert (Hjflag : ∀ j, jflag w3 j = false).
  { intros j. destruct (jflag w3 j) eqn:Hj; [|done].
    destruct (jflag_true _ _ Hj) as [jt Hjt].
    assert (Hj0 : is_Some (World.joints w !! j)).
    { destruct Hgr3 as (_ & _ & H3 & _). specialize (H3 j). rewrite Hjt in H3.
      destruct (World.joints w !! j); [eauto | done]. }
    destruct Hj0 as [jt0 Hj0]. rewrite (Hjf3 j (Hjs j jt0 Hj0)) in Hj. done. }
  set (island0 := Island.create (World.m_bodyCount w) (World.m_contactCount w)
                                (World.m_jointCount w)).
  assert (Hinit : outer_inv w [] w3 island0).
  { split.
    - constructor; cbn [Island.Clear Island.create island0 Island.m_bodies Island.m_contacts
                        Island.m_joints Island.m_bodyCapacity Island.m_contactCapacity
                        Island.m_jointCapacity fmap list_fmap].
      + done.
      + done.
      + intros b [Hb|Hb]; by apply elem_of_nil in Hb.
      + intros b Hb. by rewrite Hbflag in Hb.
      + intros J b HJ. by apply elem_of_nil in HJ.
      + intros J b HJ. by apply elem_of_nil in HJ.
      + apply NoDup_nil_2.
      + intros b [Hb|Hb]; by apply elem_of_nil in Hb.
      + intros J HJ. by apply elem_of_nil in HJ.
      + intros b Hb. by apply elem_of_nil in Hb.
      + intros c Hc. by rewrite Hcflag in Hc.
      + intros j Hj. by rewrite Hjflag in Hj.
      + split; [apply NoDup_nil_2|]. intros c Hc. by apply elem_of_nil in Hc.
      + split; [apply NoDup_nil_2|]. intros j Hj. by apply elem_of_nil in Hj.
    - intros i k J J' b Hi. cbn in Hi. by rewrite lookup_nil in Hi. }
  assert (Hawake : awake_or_flagged w w3).
  { assert (Hstay : bodies_stay w w1).
    { revert Hrun1.
      apply (for_each_Done_ind bodies_stay); [apply reflexivity | apply transitivity |].
      intros b s1 s2 _. apply update_body_stay. apply same_motion_clear_island. }
    intros b body0 Hb0 _ Ha. destruct (Hstay b body0 Hb0) as (body & Hb & Hm).
    exists body. rewrite Hb3, Hb2. split; [done|]. left.
    destruct Hm as (_ & _ & _ & _ & _ & _ & _ & -> & _). done. }
  destruct (Solve_seeds_cover bm w Hwf fuel step (World.m_bodyList w) [] w3 island0
              Hinit Hawake)
    as (w4 & island4 & built & Hseeds & Hinv4 & _ & Hcover); [done | done |].
  pose proof (si_graph _ _ _ _ _ _ _ _ (proj1 Hinv4)) as Hgr4.
  assert (Hsync : ∃ moved, synchronized_bodies w4 (World.m_bodyList w4) = Done moved).
  { assert (Hl4 : World.m_bodyList w4 = World.m_bodyList w) by apply Hgr4.
    rewrite Hl4. clear Hl4.
    assert (Hex : ∀ b, b ∈ World.m_bodyList w → is_Some (World.bodies w4 !! b)).
    { intros b Hb. destruct (Hbl b Hb) as [body0 Hb0].
      destruct (same_graph_body_rev _ _ _ _ Hgr4 Hb0) as (body & ? & _). eauto. }
    revert Hex. generalize (World.m_bodyList w) as l.
    induction l as [|b l IH]; intros Hex; [by exists []|].
    cbn [synchronized_bodies]. destruct (Hex b) as [body Hb]; [by left|].
    assert (Hget : get_body w4 b = Done body) by (by apply deref_Done).
    rewrite Hget. cbn [mbind result_bind].
    destruct IH as [moved Hm]; [intros b' Hb'; apply Hex; by right|].
    rewrite Hm. cbn [mbind result_bind].
    destruct (negb _); [eauto|]. case_decide; eauto. }
  destruct Hsync as [moved Hsync].
  destruct (FindNewContacts_Done moved w4 Hbp) as (w5 & Hnew).
  exists w3, w4, island4, built, moved, w5.
  split; [|split; [done|split; [done|split; [done|split; [|done]]]]].
  - unfold Solve. rewrite Hrun1. cbn [mbind result_bind].
    rewrite Hl1, Hrun2. cbn [mbind result_bind].
    rewrite Hl2, Hrun3. cbn [mbind result_bind].
    rewrite Hl3, Hn3, Hbc. unfold island0 in Hseeds. rewrite Hbc in Hseeds.
    rewrite Hseeds. cbn [mbind result_bind].
    rewrite Hsync. cbn [mbind result_bind]. rewrite Hnew. done.
  - intros b Hwk. apply Hcover; [|done].
    destruct Hwk as (body & Hb & _). by destruct (Hbodies b body Hb) as (_ & _ & Hin).
Qed.

(** C3: on a well-formed world, with enough fuel for the search, [Solve]
    returns, and of the islands it has built:
    - every island holds, with each of its bodies that is not static, the
      bodies linked to it, static ones among them: a static body reached by
      the search is added to the island;
    - every body of an island is reached from the seed of the island along
      edges of bodies that are not static: the edges of a static body are
      not traversed;
    - at the end of the pass no static body carries the island flag, and a
      static body is a member of every island that reaches it;
    - so when two bodies [a] and [b], each awake, active and not static,
      touch a static body [s] and have no other link, [a] and [b] are in
      two different islands, and [s] is in both. *)
Theorem static_bodies_do_not_link_islands (fuel : nat) (step : cb2TimeStep) (w : World.t) :
  wf_world w → broad_phase_sound → (size (World.bodies w) < fuel)%nat →
  ∃ w' islands,
    Solve bm fuel step w = Done (w', islands)
    ∧ (∀ I, I ∈ islands → closed w (Island.m_bodies I) ∧ grown_from_a_seed w I)
    ∧ (∀ s body, World.bodies w' !! s = Some body →
         Body.m_type body = cb2_staticBody → Body.in_island body = false)
    ∧ (∀ a s b ca cb body,
         wakeful w a → wakeful w b → a ≠ b →
         World.bodies w !! s = Some body → Body.m_type body = cb2_staticBody →
         cedge w a ca s → solid w ca → cedge w b cb s → solid w cb →
         linked_only_to w a s → linked_only_to w b s →
         ∃ i k Ia Ib,
           islands !! i = Some Ia ∧ islands !! k = Some Ib ∧ i ≠ k
           ∧ a ∈ Island.m_bodies Ia ∧ s ∈ Island.m_bodies Ia ∧ (b ∉ Island.m_bodies Ia)
           ∧ b ∈ Island.m_bodies Ib ∧ s ∈ Island.m_bodies Ib ∧ (a ∉ Island.m_bodies Ib)).
Proof.
  intros Hwf Hbp Hfuel.
  destruct (Solve_pass fuel step w Hwf Hbp Hfuel)
    as (w3 & w4 & island4 & built & moved & w' & Hrun & Hinit & Hseeds & Hout & Hcover & Hnew).
  exists w', built. split; [done|].
  destruct Hout as [Hinv Huniq].
  assert (Hclosed : ∀ I, I ∈ built → closed w (Island.m_bodies I)).
  { intros I HI. apply (si_built_closed _ _ _ _ _ _ _ _ Hinv).
    apply list_elem_of_fmap. by exists I. }
  assert (Hgrown : ∀ I, I ∈ built → grown_from_a_seed w I).
  { pose proof Hwf as (_ & _ & _ & Hbl & _). rewrite Forall_forall in Hbl.
    apply (Solve_seeds_grown bm w Hwf fuel step (World.m_bodyList w) [] built w3 w4 _
             island4 Hinit Hbl Hfuel Hseeds).
    intros I HI. by apply elem_of_nil in HI. }
  split; [by split; [apply Hclosed | apply Hgrown]|]. split.
  - (* the island flag of a static body is clear when the pass ends *)
    intros s body Hs Hty.
    pose proof (si_graph _ _ _ _ _ _ _ _ Hinv) as Hgr.
    destruct (FindNewContacts_untouched _ _ _ Hnew) as ((Hmk & _) & _).
    specialize (Hmk s). rewrite Hs in Hmk.
    destruct (World.bodies w4 !! s) as [body4|] eqn:Hs4; [|done].
    destruct (FindNewContacts_flags_kept _ _ _ Hnew s body4 Hs4) as (body' & Hs' & Hfl).
    assert (body' = body) as -> by congruence.
    assert (Hty4 : Body.m_type body4 = cb2_staticBody).
    { cbn in Hmk. unfold body_makeup in Hmk. congruence. }
    rewrite Body_in_island_bit, Hfl, <- Body_in_island_bit.
    destruct (Body.in_island body4) eqn:Hfl4; [|done]. exfalso.
    destruct (si_flag_origin _ _ _ _ _ _ _ _ Hinv s) as [Hin|[Hin|[Hns _]]].
    + by rewrite (bflag_lookup _ _ _ Hs4).
    + by apply elem_of_nil in Hin.
    + by apply elem_of_nil in Hin.
    + by apply (nonstatic_current _ _ Hgr _ _ Hs4) in Hns.
  - (* the chain *)
    intros a s b ca cb body Ha Hb Hab Hs Hty Hea Hsa Heb Hsb Hla Hlb.
    assert (Hstatic : ¬ nonstatic w s).
    { intros (body' & Hs' & Hty'). congruence. }
    assert (Hnsa : nonstatic w a).
    { destruct Ha as (x & Hx & _ & _ & Hx'). by exists x. }
    assert (Hnsb : nonstatic w b).
    { destruct Hb as (x & Hx & _ & _ & Hx'). by exists x. }
    destruct (Hcover a Ha) as (Ia & HIa & Hain).
    destruct (Hcover b Hb) as (Ib & HIb & Hbin).
    assert (Hapart : ∀ I x y, I ∈ built → x ∈ Island.m_bodies I → y ∈ Island.m_bodies I →
                       linked_only_to w x s → linked_only_to w y s → x = y).
    { intros I x y HI Hx Hy Hlx Hly.
      destruct (Hgrown I HI) as (seed & _ & _ & Hreach).
      pose proof (reached_through_static_only w seed x s Hwf Hstatic Hlx (Hreach x Hx)).
      pose proof (reached_through_static_only w seed y s Hwf Hstatic Hly (Hreach y Hy)).
      congruence. }
    assert (Hbout : b ∉ Island.m_bodies Ia).
    { intros Hin. apply Hab. by apply (Hapart Ia). }
    assert (Haout : a ∉ Island.m_bodies Ib).
    { intros Hin. apply Hab. by apply (Hapart Ib). }
    apply list_elem_of_lookup_1 in HIa as [i Hi].
    apply list_elem_of_lookup_1 in HIb as [k Hk].
    exists i, k, Ia, Ib. split; [done|]. split; [done|]. split.
    { intros ->. assert (Ia = Ib) by congruence. by subst. }
    split; [done|]. split.
    { apply list_elem_of_lookup_2 in Hi.
      by apply (proj1 (Hclosed Ia Hi a Hain Hnsa) ca s). }
    split; [done|]. split; [done|]. split; [|done].
    apply list_elem_of_lookup_2 in Hk.
    by apply (proj1 (Hclosed Ib Hk b Hbin Hnsb) cb s).
Qed.

End Pass.

Lemma chain_world_leaf (a : nat) :
  a = 0%nat ∨ a = 2%nat → wakeful chain_world a ∧ linked_only_to chain_world a 1.
Proof.
  intros [-> | ->]; (split; [eexists; split; [reflexivity | by repeat split]|]);
    (split; [intros c o (body & Hb & Hin) | intros j o (body & Hb & Hin)]);
    vm_compute in Hb; injection Hb as <-; cbn in Hin;
    try (by apply elem_of_nil in Hin);
    apply list_elem_of_singleton in Hin; by injection Hin.
Qed.

Lemma static_bodies_do_not_link_islands_witness :
  wf_world chain_world
  ∧ ∃ w' islands,
      Solve (env := still_collaborators) Debug 4 sample_step chain_world = Done (w', islands)
      ∧ (∀ I, I ∈ islands →
           closed chain_world (Island.m_bodies I) ∧ grown_from_a_seed chain_world I)
      ∧ (∀ s body, World.bodies w' !! s = Some body →
           Body.m_type body = cb2_staticBody → Body.in_island body = false)
      ∧ ∃ i k Ia Ib,
          islands !! i = Some Ia ∧ islands !! k = Some Ib ∧ i ≠ k
          ∧ 0%nat ∈ Island.m_bodies Ia ∧ 1%nat ∈ Island.m_bodies Ia
          ∧ (2%nat ∉ Island.m_bodies Ia)
          ∧ 2%nat ∈ Island.m_bodies Ib ∧ 1%nat ∈ Island.m_bodies Ib
          ∧ (0%nat ∉ Island.m_bodies Ib).
Proof.
  assert (Hwf : wf_world chain_world).
  { apply (bool_decide_unpack _). vm_compute. exact I. }
  split; [exact Hwf|].
  destruct (static_bodies_do_not_link_islands (env := still_collaborators) Debug 4
              sample_step chain_world Hwf still_broad_phase_sound)
    as (w' & islands & Hrun & Hislands & Hflags & Hchain); [vm_compute; lia|].
  exists w', islands. split; [exact Hrun|]. split; [exact Hislands|].
  split; [exact Hflags|].
  destruct (chain_world_leaf 0) as [Hwa Hla]; [by left|].
  destruct (chain_world_leaf 2) as [Hwb Hlb]; [by right|].
  apply (Hchain 0%nat 1%nat 2%nat 0%nat 1%nat
           (sample_body cb2_staticBody Body.e_activeFlag [1%nat] []
              [mkContactEdge 2 1; mkContactEdge 0 0])); try done.
  - eexists. split; [reflexivity|]. by left.
  - eexists _, _, _. by repeat split.
  - eexists. split; [reflexivity|]. by left.
  - eexists _, _, _. by repeat split.
Defined.

(** ** Comparisons of binary32 numbers *)

Section Comparisons.
Import Binary32.












End Comparisons.

(** ** The limits of the friction joint *)

Section FrictionLimits32.
Import Binary32 FrictionJoint32 Limits32.



End FrictionLimits32.



(** ** Warm starting of the friction joint *)

Section MulOne.
Import Binary32.

Lemma digits2_shift (m : positive) :
  Zdigits2 (Zpos (8388608 * m)) = Zpos (digits2_pos m) + 23.
Proof.
  change (8388608 * m)%positive
    with (m~0~0~0~0~0~0~0~0~0~0~0~0~0~0~0~0~0~0~0~0~0~0~0)%positive.
  cbn [Zdigits2 digits2_pos]. lia.
Qed.

Lemma shr_shift (m : positive) :
  SpecFloat.iter_pos shr_1 23 (Build_shr_record (Zpos (8388608 * m)) false false)
  = Build_shr_record (Zpos m) false false.
Proof. reflexivity. Qed.

(** [x * 1.0f] is [x], for every binary32 number, the infinities and NaN
    included: the product of the mantissa by 2^23 is shifted back by 23
    bits and nothing is rounded off. *)
Lemma mul_one_r (x : float) : is_binary32 x = true → mul x one = x.
Proof.
  destruct x as [s|s| |s m e]; intros Hv.
  - by destruct s.
  - by destruct s.
  - done.
  - unfold is_binary32, valid_binary, bounded, canonical_mantissa in Hv.
    apply andb_prop in Hv as [Hc Hb]. apply Z.eqb_eq in Hc.
    unfold mul, one, SFmul. rewrite xorb_false_r, Pos.mul_comm.
    unfold binary_round_aux, shr_fexp.
    rewrite digits2_shift.
    replace (Z.pos (digits2_pos m) + 23 + (e + -23)) with (Z.pos (digits2_pos m) + e) by lia.
    unfold prec, emax in *. rewrite Hc.
    replace (e - (e + -23)) with 23 by lia.
    cbn [shr_record_of_loc shr]. rewrite shr_shift.
    cbn [shr_m loc_of_shr_record round_nearest_even Zdigits2].
    replace (e + -23 + 23) with e by lia.
    rewrite Hc, Z.sub_diag. cbn [shr shr_m]. by rewrite Hb.
Qed.

End MulOne.

Section WarmStart32.
Import Binary32 FrictionJoint32.
Variable inverted : Matrix22 → Matrix22.
Variable cb2Rot_of_angle : float → cb2Rot.

(** What [InitVelocityConstraints] does with the accumulated impulses. *)
Lemma InitVelocityConstraints_impulses (bodyA bodyB : BodyData)
    (j j' : cb2FrictionJoint) (data data' : cb2SolverData) :
  InitVelocityConstraints inverted cb2Rot_of_angle bodyA bodyB j data = Done (j', data') →
  ∃ velA velB,
    array_get (velocities data) (m_islandIndex bodyA) = Done velA
    ∧ array_get (velocities data) (m_islandIndex bodyB) = Done velB
    ∧ (warmStarting (step data) = true →
       let r := dtRatio (step data) in
       let P := m_linearImpulse j' in
       let L := m_angularImpulse j' in
       P = Vec.mul (m_linearImpulse j) r
       ∧ L = mul (m_angularImpulse j) r
       ∧ velocities data' !! Z.to_nat (m_islandIndex bodyB)
         = Some (mkVelocity (Vec.add (vel_v velB) (Vec.scale (m_invMass bodyB) P))
                   (add (vel_w velB) (mul (m_invI bodyB) (add (cb2Cross (m_rB j') P) L))))
       ∧ (m_islandIndex bodyA ≠ m_islandIndex bodyB →
          velocities data' !! Z.to_nat (m_islandIndex bodyA)
          = Some (mkVelocity (Vec.sub (vel_v velA) (Vec.scale (m_invMass bodyA) P))
                    (sub (vel_w velA) (mul (m_invI bodyA) (add (cb2Cross (m_rA j') P) L))))))
    ∧ (warmStarting (step data) = false →
       m_linearImpulse j' = Vec.zero ∧ m_angularImpulse j' = zero
       ∧ velocities data' = velocities data).
Proof.
  unfold InitVelocityConstraints. cbv zeta. intros Hrun.
  apply bind_Done in Hrun as (pA & HpA & Hrun).
  apply bind_Done in Hrun as (velA & HvA & Hrun).
  apply bind_Done in Hrun as (pB & HpB & Hrun).
  apply bind_Done in Hrun as (velB & HvB & Hrun).
  exists velA, velB. split; [done|]. split; [done|].
  destruct (warmStarting (step data)) eqn:Hwarm; cbv beta iota zeta in Hrun;
    apply bind_Done in Hrun as (vs1 & Hs1 & Hrun);
    apply bind_Done in Hrun as (vs2 & Hs2 & Hrun);
    inversion Hrun; subst j' data'; clear Hrun;
    cbn [m_linearImpulse m_angularImpulse m_rA m_rB velocities].
  - split; [intros _|done].
    split; [by destruct (m_linearImpulse j)|]. split; [done|].
    apply array_set_lookup in Hs1 as (Hs1 & _ & Hlen1).
    assert (H0A : 0 <= m_islandIndex bodyA).
    { unfold array_get in HvA. by destruct (decide (0 <= m_islandIndex bodyA)). }
    apply array_set_lookup in Hs2 as (Hs2 & Hother & _).
    split.
    + rewrite Hs2. by destruct (m_linearImpulse j).
    + intros Hne. rewrite Hother, Hs1 by done. by destruct (m_linearImpulse j).
  - split; [done|intros _]. split; [done|]. split; [done|].
    destruct velA, velB. cbn in Hs1, Hs2.
    pose proof (array_set_same _ _ _ _ HvA Hs1) as ->.
    apply (array_set_same _ _ _ _ HvB Hs2).
Qed.

End WarmStart32.

Section WarmStart.
Context {env : Collaborators}.
Variable bm : build.

(** C6 (amended).
    - The world: after a step of length [dt > 0] the world keeps
      [m_inv_dt0 = 1 / dt], and the time step of the next call, of length
      [dt'], has [dtRatio = m_inv_dt0 * dt'], the product the code
      computes: the previous [1/dt] times this [dt], not this [1/dt] over
      the previous one.
    - The joint, in binary32: in a step whose time step is the one of
      [Step], with warm starting [InitVelocityConstraints] multiplies the
      accumulated linear and angular impulses by [dtRatio], the float
      product [m_inv_dt0 * dt], and applies them to the velocities of both
      bodies; without warm starting it zeroes them and leaves the
      velocities.  When that product is [1.0f], the impulses carried into
      the step are exactly the ones the previous step left. *)
Theorem warm_start_rescales_impulses :
  (∀ (fuel : nat) (dt : R) (vi pi : Z) (w w' : World.t) (log : step_log),
     (0 < dt)%R →
     Step bm fuel dt vi pi w = Done (w', log) →
     World.m_inv_dt0 w' = (1 / dt)%R
     ∧ ∀ (dt' : R) (vi' pi' : Z),
         dtRatio (time_step w' dt' vi' pi') = (World.m_inv_dt0 w' * dt')%R
         ∧ warmStarting (time_step w' dt' vi' pi') = World.m_warmStarting w')
  ∧ (∀ (inverted : Binary32.Matrix22 → Binary32.Matrix22)
       (cb2Rot_of_angle : Binary32.float → Binary32.cb2Rot)
       (m_inv_dt0 dt : Binary32.float) (m_warmStarting : bool) (vi pi : Z)
       (bodyA bodyB : FrictionJoint32.BodyData)
       (j j' : FrictionJoint32.cb2FrictionJoint) (data data' : Binary32.cb2SolverData),
       Binary32.step data = Binary32.time_step m_inv_dt0 m_warmStarting dt vi pi →
       FrictionJoint32.InitVelocityConstraints inverted cb2Rot_of_angle bodyA bodyB j data
       = Done (j', data') →
       let r := Binary32.mul m_inv_dt0 dt in
       let P := FrictionJoint32.m_linearImpulse j' in
       let L := FrictionJoint32.m_angularImpulse j' in
       ∃ velA velB,
         array_get (Binary32.velocities data) (FrictionJoint32.m_islandIndex bodyA) = Done velA
         ∧ array_get (Binary32.velocities data) (FrictionJoint32.m_islandIndex bodyB) = Done velB
         ∧ (m_warmStarting = true →
            P = Binary32.Vec.mul (FrictionJoint32.m_linearImpulse j) r
            ∧ L = Binary32.mul (FrictionJoint32.m_angularImpulse j) r
            ∧ Binary32.velocities data' !! Z.to_nat (FrictionJoint32.m_islandIndex bodyB)
              = Some (Binary32.mkVelocity
                        (Binary32.Vec.add (Binary32.vel_v velB)
                           (Binary32.Vec.scale (FrictionJoint32.m_invMass bodyB) P))
                        (Binary32.add (Binary32.vel_w velB)
                           (Binary32.mul (FrictionJoint32.m_invI bodyB)
                              (Binary32.add (Binary32.cb2Cross (FrictionJoint32.m_rB j') P) L))))
            ∧ (FrictionJoint32.m_islandIndex bodyA ≠ FrictionJoint32.m_islandIndex bodyB →
               Binary32.velocities data' !! Z.to_nat (FrictionJoint32.m_islandIndex bodyA)
               = Some (Binary32.mkVelocity
                         (Binary32.Vec.sub (Binary32.vel_v velA)
                            (Binary32.Vec.scale (FrictionJoint32.m_invMass bodyA) P))
                         (Binary32.sub (Binary32.vel_w velA)
                            (Binary32.mul (FrictionJoint32.m_invI bodyA)
                               (Binary32.add (Binary32.cb2Cross (FrictionJoint32.m_rA j') P) L))))))
         ∧ (m_warmStarting = false →
            P = Binary32.Vec.zero ∧ L = Binary32.zero
            ∧ Binary32.velocities data' = Binary32.velocities data)
         ∧ (r = Binary32.one → m_warmStarting = true →
            Binary32.is_binary32 (Binary32.vx (FrictionJoint32.m_linearImpulse j)) = true →
            Binary32.is_binary32 (Binary32.vy (FrictionJoint32.m_linearImpulse j)) = true →
            Binary32.is_binary32 (FrictionJoint32.m_angularImpulse j) = true →
            P = FrictionJoint32.m_linearImpulse j
            ∧ L = FrictionJoint32.m_angularImpulse j)).
Proof.
  split.
  - intros fuel dt vi pi w w' log Hdt Hstep.
    split; [by apply (Step_inv_dt0 _ _ _ _ _ _ _ _ Hdt Hstep)|].
    intros dt' vi' pi'. unfold time_step. by cbn [dtRatio warmStarting].
  - intros inverted rot m0 dt warm vi pi bodyA bodyB j j' data data' Hdata Hinit.
    apply InitVelocityConstraints_impulses in Hinit
      as (velA & velB & HvA & HvB & Hwarm & Hcold).
    rewrite Hdata in Hwarm, Hcold. unfold Binary32.time_step in Hwarm, Hcold.
    cbn [Binary32.warmStarting Binary32.dtRatio] in Hwarm, Hcold.
    cbv zeta in Hwarm |- *.
    exists velA, velB. split; [done|]. split; [done|].
    split; [exact Hwarm|]. split; [exact Hcold|].
    intros Hone Hw Hx Hy Ha. destruct (Hwarm Hw) as (HP & HL & _).
    rewrite HP, HL, Hone. split.
    + destruct (FrictionJoint32.m_linearImpulse j) as [x y].
      unfold Binary32.Vec.mul. cbn [Binary32.vx Binary32.vy] in *.
      by rewrite !mul_one_r.
    + by rewrite mul_one_r.
Qed.

End WarmStart.

Lemma warm_start_rescales_impulses_witness :
  (∃ w' log,
     Step (env := still_collaborators) Release 3 1 8 3 pushed_body_world = Done (w', log)
     ∧ World.m_inv_dt0 w' = (1 / 1)%R
     ∧ dtRatio (time_step w' 2 8 3) = (World.m_inv_dt0 w' * 2)%R)
  ∧ (∃ j' data',
       FrictionJoint32.InitVelocityConstraints Limits32.inverted_diagonal
         Limits32.rotation_of_zero (Limits32.slot_body 0) (Limits32.slot_body 1)
         Limits32.warm_joint
         (Limits32.resting_data
            (Binary32.time_step Binary32.one true (Binary32.of_Z 2) 8 3))
       = Done (j', data')
       ∧ FrictionJoint32.m_linearImpulse j'
         = Binary32.mkVec2 (Binary32.of_Z 2) (Binary32.of_Z 4)
       ∧ FrictionJoint32.m_angularImpulse j' = Binary32.of_Z 6)
  ∧ (∃ j' data',
       FrictionJoint32.InitVelocityConstraints Limits32.inverted_diagonal
         Limits32.rotation_of_zero (Limits32.slot_body 0) (Limits32.slot_body 1)
         Limits32.warm_joint
         (Limits32.resting_data (Binary32.time_step Binary32.one true Binary32.one 8 3))
       = Done (j', data')
       ∧ FrictionJoint32.m_linearImpulse j'
         = FrictionJoint32.m_linearImpulse Limits32.warm_joint
       ∧ FrictionJoint32.m_angularImpulse j'
         = FrictionJoint32.m_angularImpulse Limits32.warm_joint).
Proof.
  destruct (warm_start_rescales_impulses (env := still_collaborators) Release)
    as [Hworld Hjoint].
  split; [|split].
  - assert (Hrun : ∃ r, Step (env := still_collaborators) Release 3 1 8 3 pushed_body_world
                        = Done r).
    { unfold Step, time_step. rewrite (bool_decide_eq_true_2 (0 < 1)%R) by lra.
      destruct (decide (0 < 1)%R) as [_|?]; [|lra]. vm_compute. by eexists. }
    destruct Hrun as ([w' log] & Hrun). exists w', log. split; [exact Hrun|].
    destruct (Hworld 3%nat 1%R 8 3 pushed_body_world w' log ltac:(lra) Hrun)
      as (Hinv & Hnext).
    split; [exact Hinv|]. apply (Hnext 2%R 8 3).
  - assert (Hrun : ∃ r, FrictionJoint32.InitVelocityConstraints Limits32.inverted_diagonal
                          Limits32.rotation_of_zero (Limits32.slot_body 0)
                          (Limits32.slot_body 1) Limits32.warm_joint
                          (Limits32.resting_data
                             (Binary32.time_step Binary32.one true (Binary32.of_Z 2) 8 3))
                        = Done r).
    { vm_compute. by eexists. }
    destruct Hrun as ([j' data'] & Hrun). exists j', data'. split; [exact Hrun|].
    destruct (Hjoint _ _ Binary32.one (Binary32.of_Z 2) true 8 3 _ _ _ j'
                (Limits32.resting_data
                   (Binary32.time_step Binary32.one true (Binary32.of_Z 2) 8 3))
                data' eq_refl Hrun)
      as (velA & velB & _ & _ & Hwarm & _ & _).
    destruct (Hwarm eq_refl) as (HP & HL & _). split.
    + rewrite HP. vm_compute. reflexivity.
    + rewrite HL. vm_compute. reflexivity.
  - assert (Hrun : ∃ r, FrictionJoint32.InitVelocityConstraints Limits32.inverted_diagonal
                          Limits32.rotation_of_zero (Limits32.slot_body 0)
                          (Limits32.slot_body 1) Limits32.warm_joint
                          (Limits32.resting_data
                             (Binary32.time_step Binary32.one true Binary32.one 8 3))
                        = Done r).
    { vm_compute. by eexists. }
    destruct Hrun as ([j' data'] & Hrun). exists j', data'. split; [exact Hrun|].
    destruct (Hjoint _ _ Binary32.one Binary32.one true 8 3 _ _ _ j'
                (Limits32.resting_data
                   (Binary32.time_step Binary32.one true Binary32.one 8 3))
                data' eq_refl Hrun)
      as (velA & velB & _ & _ & _ & _ & Hsame).
    apply Hsame; vm_compute; reflexivity.
Defined.

(** C6 as stated fails twice.
    - On the definition of the ratio: after a step of length 1 the world
      keeps [m_inv_dt0 = 1], and a step of length 2 has [dtRatio = 2],
      while the ratio of this step's [1/dt] to the previous one is [1/2];
      in binary32 the angular impulse 3 is carried over as 6, not as 3/2.
    - On steps of the same length, in binary32: with [dt] the float nearest
      to 1/41 in both calls, [m_inv_dt0 * dt] is 16777215 / 2^24, the float
      below 1, and the angular impulse 3 is carried over as
      12582911 / 2^22, the float below 3. *)
Lemma dtRatio_is_not_as_specified :
  (∃ w' log,
     Step (env := still_collaborators) Release 3 1 8 3 pushed_body_world = Done (w', log)
     ∧ dtRatio (time_step w' 2 8 3) = 2%R
     ∧ dtRatio_as_specified (inv_dt (time_step w' 2 8 3)) (World.m_inv_dt0 w') = (1 / 2)%R)
  ∧ (∃ step j' data',
       step = Limits32.next_step Binary32.one (Binary32.of_Z 2)
       ∧ Binary32.dtRatio step = Binary32.of_Z 2
       ∧ Limits32.dtRatio_as_specified (Binary32.inv_dt step)
           (Binary32.inv_dt (Limits32.first_step Binary32.one)) = Limits32.half
       ∧ FrictionJoint32.InitVelocityConstraints Limits32.inverted_diagonal
           Limits32.rotation_of_zero (Limits32.slot_body 0) (Limits32.slot_body 1)
           Limits32.warm_joint (Limits32.resting_data step)
         = Done (j', data')
       ∧ FrictionJoint32.m_angularImpulse Limits32.warm_joint = Binary32.of_Z 3
       ∧ FrictionJoint32.m_angularImpulse j' = Binary32.of_Z 6
       ∧ FrictionJoint32.m_angularImpulse j'
         ≠ Binary32.mul (FrictionJoint32.m_angularImpulse Limits32.warm_joint)
             (Limits32.dtRatio_as_specified (Binary32.inv_dt step)
                (Binary32.inv_dt (Limits32.first_step Binary32.one))))
  ∧ (∃ dt j' data',
       dt = Binary32.div Binary32.one (Binary32.of_Z 41)
       ∧ Binary32.ltb Binary32.zero dt = true
       ∧ Limits32.second_step dt = Limits32.next_step dt dt
       ∧ Binary32.dtRatio (Limits32.second_step dt) = S754_finite false 16777215 (-24)
       ∧ Binary32.dtRatio (Limits32.second_step dt) ≠ Binary32.one
       ∧ FrictionJoint32.InitVelocityConstraints Limits32.inverted_diagonal
           Limits32.rotation_of_zero (Limits32.slot_body 0) (Limits32.slot_body 1)
           Limits32.warm_joint (Limits32.resting_data (Limits32.second_step dt))
         = Done (j', data')
       ∧ FrictionJoint32.m_angularImpulse Limits32.warm_joint = Binary32.of_Z 3
       ∧ FrictionJoint32.m_angularImpulse j' = S754_finite false 12582911 (-22)
       ∧ FrictionJoint32.m_angularImpulse j'
         ≠ FrictionJoint32.m_angularImpulse Limits32.warm_joint
       ∧ FrictionJoint32.m_linearImpulse j'
         ≠ FrictionJoint32.m_linearImpulse Limits32.warm_joint).
Proof.
  split; [|split].
  - eexists _, _.
    split.
    { unfold Step, time_step. rewrite (bool_decide_eq_true_2 (0 < 1)%R) by lra.
      destruct (decide (0 < 1)%R) as [_|?]; [|lra]. vm_compute. reflexivity. }
    unfold time_step, dtRatio_as_specified.
    cbn.
    destruct (decide (0 < 2)%R) as [_|?]; [|lra].
    split; lra.
  - eexists _, _, _. split; [reflexivity|].
    split; [vm_compute; reflexivity|]. split; [vm_compute; reflexivity|].
    split; [vm_compute; reflexivity|]. split; [vm_compute; reflexivity|].
    split; [vm_compute; reflexivity|]. vm_compute; discriminate.
  - eexists _, _, _. split; [reflexivity|].
    split; [vm_compute; reflexivity|]. split; [vm_compute; reflexivity|].
    split; [vm_compute; reflexivity|]. split; [vm_compute; discriminate|].
    split; [vm_compute; reflexivity|]. split; [vm_compute; reflexivity|].
    split; [vm_compute; reflexivity|].
    split; vm_compute; discriminate.
Qed.
